(** * UniTorus and Cake topology builders of booksim2: a shallow embedding

    The development follows [src/networks/unitorus.cpp],
    [src/networks/cake.cpp] and the Cake metadata surface of
    [src/routers/router.hpp].

    Conventions.
    - A C++ [int] is a [Z]; every [+], [-] and [*] on [int] goes through
      [Int32.wrap] (two's complement wrap-around at 32 bits), [/] and [%]
      are the truncating [Z.quot] and [Z.rem].
    - [exit(-1)] after a message on [cerr] is the outcome [Exit msg]; an
      out-of-bounds [operator[]] or a failed [assert] is [Crash].
    - A [for (int i = 0; i < n; ++i)] loop is a monadic fold over
      [seqZ 0 n]. *)

From Stdlib Require Import ZArith String Ascii List Lia.
From Stdlib Require Import Floats.SpecFloat.
From stdpp Require Import base option list list_numbers gmap strings.

Local Open Scope Z_scope.

(** ** 32-bit signed integers *)

Module Int32.

Definition INT_MAX : Z := 2147483647.
Definition INT_MIN : Z := -2147483648.

(** Reduction of a mathematical integer to its 32-bit two's complement
    representative. *)
Definition wrap (z : Z) : Z := (z + 2147483648) mod 4294967296 - 2147483648.

Definition add (a b : Z) : Z := wrap (a + b).
Definition sub (a b : Z) : Z := wrap (a - b).
Definition mul (a b : Z) : Z := wrap (a * b).
(** C++ integer division truncates towards zero. *)
Definition div (a b : Z) : Z := Z.quot a b.
Definition rem (a b : Z) : Z := Z.rem a b.

Definition fits (z : Z) : Prop := INT_MIN <= z <= INT_MAX.

End Int32.

(** ** Outcomes of fallible code *)

Inductive result (A : Type) : Type :=
| Ok (a : A)
| Exit (msg : string)
| Crash.
Arguments Ok {A} a.
Arguments Exit {A} msg.
Arguments Crash {A}.

Global Instance result_ret : MRet result := @Ok.
Global Instance result_bind : MBind result := fun A B k m =>
  match m with
  | Ok a => k a
  | Exit msg => Exit msg
  | Crash => Crash
  end.

Definition is_Ok {A : Type} (r : result A) : bool :=
  match r with Ok _ => true | _ => false end.

(** [for x in l] with an accumulator and early abort. *)
Fixpoint foldM {A S : Type} (body : A -> S -> result S) (l : list A) (s : S)
  : result S :=
  match l with
  | [] => Ok s
  | x :: l' => s' ← body x s; foldM body l' s'
  end.

(** [for (int i = 0; i < n; ++i) body]. *)
Definition for_range {S : Type} (n : Z) (body : Z -> S -> result S) (s : S)
  : result S :=
  foldM body (seqZ 0 n) s.

(** Checked element access: [v[i]] on a [std::vector]. *)
Definition at_index {A : Type} (v : list A) (i : Z) : result A :=
  if (0 <=? i) && (i <? Z.of_nat (length v)) then
    match v !! Z.to_nat i with
    | Some a => Ok a
    | None => Crash
    end
  else Crash.

(** ** Strings: the fragment of [std::string], [std::stringstream] and
    [atoi] the parsers use *)

Module Str.

Definition is_st (c : ascii) : bool :=
  (Ascii.eqb c " ") || (Ascii.eqb c "009").

(** [isspace] in the "C" locale: space, \t, \n, \v, \f, \r. *)
Definition isspace (c : ascii) : bool :=
  let n := N_of_ascii c in
  (N.eqb n 32) || ((N.leb 9 n) && (N.leb n 13)).

Definition isdigit (c : ascii) : bool :=
  let n := N_of_ascii c in (N.leb 48 n) && (N.leb n 57).

Fixpoint drop_while (p : ascii -> bool) (s : string) : string :=
  match s with
  | EmptyString => EmptyString
  | String c s' => if p c then drop_while p s' else s
  end.

Fixpoint rev_onto (s acc : string) : string :=
  match s with
  | EmptyString => acc
  | String c s' => rev_onto s' (String c acc)
  end.
Definition rev (s : string) : string := rev_onto s EmptyString.

(** [if(!s.empty() && s.front()==c) s = s.substr(1)] *)
Definition strip_front (c : ascii) (s : string) : string :=
  match s with
  | String c' s' => if Ascii.eqb c' c then s' else s
  | EmptyString => s
  end.

(** [if(!s.empty() && s.back()==c) s.pop_back()] *)
Definition strip_back (c : ascii) (s : string) : string :=
  rev (strip_front c (rev s)).

Definition strip_braces (s : string) : string :=
  strip_back "}" (strip_front "{" s).

(** Trimming of spaces and tabs at both ends
    ([find_first_not_of(" \t")] / [find_last_not_of(" \t")]). *)
Definition trim (s : string) : string :=
  rev (drop_while is_st (rev (drop_while is_st s))).

(** The pieces of [s] between successive occurrences of [sep]
    (the [find(sep, p)] / [substr] loops); never the empty list. *)
Fixpoint split (sep : ascii) (s : string) : list string :=
  match s with
  | EmptyString => [EmptyString]
  | String c s' =>
      if Ascii.eqb c sep then EmptyString :: split sep s'
      else match split sep s' with
           | t :: ts => String c t :: ts
           | [] => [String c EmptyString]
           end
  end.

Definition nonempty (s : string) : bool :=
  match s with EmptyString => false | _ => true end.

(** Replace every character satisfying [p] by a space. *)
Fixpoint blank (p : ascii -> bool) (s : string) : string :=
  match s with
  | EmptyString => EmptyString
  | String c s' => String (if p c then " "%char else c) (blank p s')
  end.

(** [while (ss >> tok)]: maximal runs of non-whitespace characters. *)
Fixpoint words_aux (cur : string) (s : string) : list string :=
  match s with
  | EmptyString => if nonempty cur then [rev cur] else []
  | String c s' =>
      if isspace c
      then (if nonempty cur then [rev cur] else []) ++ words_aux EmptyString s'
      else words_aux (String c cur) s'
  end.
Definition words (s : string) : list string := words_aux EmptyString s.

Fixpoint atoi_digits (acc : Z) (s : string) : Z :=
  match s with
  | String c s' =>
      if isdigit c
      then atoi_digits (acc * 10 + (Z.of_N (N_of_ascii c) - 48)) s'
      else acc
  | EmptyString => acc
  end.

(** [atoi]: optional white space, optional sign, decimal digits; 0 when
    no digit follows.  The C standard leaves the result undefined when
    the value is not representable; the model truncates to 32 bits. *)
Definition atoi (s : string) : Z :=
  match drop_while isspace s with
  | String "-" s' => Int32.wrap (- atoi_digits 0 s')
  | String "+" s' => Int32.wrap (atoi_digits 0 s')
  | s' => Int32.wrap (atoi_digits 0 s')
  end.

(** First comma of [t]: the text before it and the text after it. *)
Fixpoint cut_comma (t : string) : option (string * string) :=
  match t with
  | EmptyString => None
  | String c t' =>
      if Ascii.eqb c "," then Some (EmptyString, t')
      else match cut_comma t' with
           | Some (a, b) => Some (String c a, b)
           | None => None
           end
  end.

End Str.

(** ** Configuration: the already-parsed key/value map

    [Configuration] ([config_utils.hpp]) is a collaborator outside the
    sources at hand; only its two accessors are used.  A key that was never
    assigned reads as the empty string. *)

Record Configuration : Type := {
  GetStr : string -> string;
  GetInt : string -> Z
}.

Definition config_of (kv : list (string * string)) : Configuration :=
  {| GetStr := fun k =>
       match List.find (fun p => String.eqb (fst p) k) kv with
       | Some p => snd p
       | None => EmptyString
       end;
     GetInt := fun k =>
       match List.find (fun p => String.eqb (fst p) k) kv with
       | Some p => Str.atoi (snd p)
       | None => 0
       end |}.

Definition set_str (k v : string) (c : Configuration) : Configuration :=
  {| GetStr := fun k' => if String.eqb k' k then v else GetStr c k';
     GetInt := GetInt c |}.

(** ** Process-wide state: legacy dimension hints and the routing registry *)

Record Globals : Type := {
  gN : Z;
  gK : Z;
  gDimSizes : list Z
}.

(** Routing functions are known by name only ([routefunc.hpp]). *)
Inductive tRoutingFunction : Type :=
| dim_order_unitorus.

Abbreviation RoutingFunctionMap := (gmap string tRoutingFunction).

(** ** Channels and routers

    Channel objects are owned by the network; a router refers to them by
    handle.  [Chan c] is [_chan[c]], [Inject n] is [_inject[n]], [Eject n]
    is [_eject[n]], and likewise for the credit back-channels.  The
    latency a builder sets on a channel is state of the channel object and
    is not followed here. *)

Inductive FlitChannel : Type :=
| Chan (c : Z)
| Inject (n : Z)
| Eject (n : Z).

Inductive CreditChannel : Type :=
| ChanCred (c : Z)
| InjectCred (n : Z)
| EjectCred (n : Z).

Global Instance FlitChannel_eq_dec : EqDecision FlitChannel.
Proof. solve_decision. Defined.
Global Instance CreditChannel_eq_dec : EqDecision CreditChannel.
Proof. solve_decision. Defined.

(** The fields of [Router] the builders touch ([router.hpp], lines 53-80). *)
Record Router : Type := {
  _id : Z;
  _inputs : Z;
  _outputs : Z;
  _input_channels : list FlitChannel;
  _input_credits : list CreditChannel;
  _output_channels : list FlitChannel;
  _output_credits : list CreditChannel;
  _cake_x_size : Z;
  _cake_y_size : Z;
  _cake_layers : Z;
  _cake_x : Z;
  _cake_y : Z;
  _cake_z : Z;
  _cake_elvx : Z;
  _cake_elvy : Z;
  _cake_port_xp : Z;
  _cake_port_yp : Z;
  _cake_port_zup : Z;
  _cake_port_zdn : Z;
  _cake_port_eject : Z
}.

(** [Router::NewRouter]: a router with the given port counts, no channel
    attached yet, and the default member initialisers of [router.hpp]
    (sizes 0, coordinates, elevator target and port slots -1). *)
Definition NewRouter (id inputs outputs : Z) : Router :=
  {| _id := id; _inputs := inputs; _outputs := outputs;
     _input_channels := []; _input_credits := [];
     _output_channels := []; _output_credits := [];
     _cake_x_size := 0; _cake_y_size := 0; _cake_layers := 0;
     _cake_x := -1; _cake_y := -1; _cake_z := -1;
     _cake_elvx := -1; _cake_elvy := -1;
     _cake_port_xp := -1; _cake_port_yp := -1;
     _cake_port_zup := -1; _cake_port_zdn := -1;
     _cake_port_eject := -1 |}.

(** Modelled from the spec: the bodies of [Router::AddInputChannel] and
    [Router::AddOutputChannel] are in [router.cpp], which is not among the
    sources.  An added channel is registered under the next free index of
    the router's list (the index [OutputIndexCount] returned just before),
    together with its credit back-channel. *)
Definition AddInputChannel (channel : FlitChannel) (backchannel : CreditChannel)
    (r : Router) : Router :=
  {| _id := _id r; _inputs := _inputs r; _outputs := _outputs r;
     _input_channels := _input_channels r ++ [channel];
     _input_credits := _input_credits r ++ [backchannel];
     _output_channels := _output_channels r;
     _output_credits := _output_credits r;
     _cake_x_size := _cake_x_size r; _cake_y_size := _cake_y_size r;
     _cake_layers := _cake_layers r;
     _cake_x := _cake_x r; _cake_y := _cake_y r; _cake_z := _cake_z r;
     _cake_elvx := _cake_elvx r; _cake_elvy := _cake_elvy r;
     _cake_port_xp := _cake_port_xp r; _cake_port_yp := _cake_port_yp r;
     _cake_port_zup := _cake_port_zup r; _cake_port_zdn := _cake_port_zdn r;
     _cake_port_eject := _cake_port_eject r |}.

Definition AddOutputChannel (channel : FlitChannel) (backchannel : CreditChannel)
    (r : Router) : Router :=
  {| _id := _id r; _inputs := _inputs r; _outputs := _outputs r;
     _input_channels := _input_channels r;
     _input_credits := _input_credits r;
     _output_channels := _output_channels r ++ [channel];
     _output_credits := _output_credits r ++ [backchannel];
     _cake_x_size := _cake_x_size r; _cake_y_size := _cake_y_size r;
     _cake_layers := _cake_layers r;
     _cake_x := _cake_x r; _cake_y := _cake_y r; _cake_z := _cake_z r;
     _cake_elvx := _cake_elvx r; _cake_elvy := _cake_elvy r;
     _cake_port_xp := _cake_port_xp r; _cake_port_yp := _cake_port_yp r;
     _cake_port_zup := _cake_port_zup r; _cake_port_zdn := _cake_port_zdn r;
     _cake_port_eject := _cake_port_eject r |}.

(** [(int)_output_channels.size()] *)
Definition OutputIndexCount (r : Router) : Z :=
  Int32.wrap (Z.of_nat (length (_output_channels r))).

(** [assert((output >= 0) && (output < _outputs)); return _output_channels[output];] *)
Definition GetOutputChannel (r : Router) (output : Z) : result FlitChannel :=
  if (0 <=? output) && (output <? _outputs r)
  then at_index (_output_channels r) output
  else Crash.

Definition GetInputChannel (r : Router) (input : Z) : result FlitChannel :=
  if (0 <=? input) && (input <? _inputs r)
  then at_index (_input_channels r) input
  else Crash.

Definition SetCakeSizes (xs ys ls : Z) (r : Router) : Router :=
  {| _id := _id r; _inputs := _inputs r; _outputs := _outputs r;
     _input_channels := _input_channels r; _input_credits := _input_credits r;
     _output_channels := _output_channels r; _output_credits := _output_credits r;
     _cake_x_size := xs; _cake_y_size := ys; _cake_layers := ls;
     _cake_x := _cake_x r; _cake_y := _cake_y r; _cake_z := _cake_z r;
     _cake_elvx := _cake_elvx r; _cake_elvy := _cake_elvy r;
     _cake_port_xp := _cake_port_xp r; _cake_port_yp := _cake_port_yp r;
     _cake_port_zup := _cake_port_zup r; _cake_port_zdn := _cake_port_zdn r;
     _cake_port_eject := _cake_port_eject r |}.

Definition SetCakeXYZ (x y z : Z) (r : Router) : Router :=
  {| _id := _id r; _inputs := _inputs r; _outputs := _outputs r;
     _input_channels := _input_channels r; _input_credits := _input_credits r;
     _output_channels := _output_channels r; _output_credits := _output_credits r;
     _cake_x_size := _cake_x_size r; _cake_y_size := _cake_y_size r;
     _cake_layers := _cake_layers r;
     _cake_x := x; _cake_y := y; _cake_z := z;
     _cake_elvx := _cake_elvx r; _cake_elvy := _cake_elvy r;
     _cake_port_xp := _cake_port_xp r; _cake_port_yp := _cake_port_yp r;
     _cake_port_zup := _cake_port_zup r; _cake_port_zdn := _cake_port_zdn r;
     _cake_port_eject := _cake_port_eject r |}.

Definition SetCakeElevatorTarget (ex ey : Z) (r : Router) : Router :=
  {| _id := _id r; _inputs := _inputs r; _outputs := _outputs r;
     _input_channels := _input_channels r; _input_credits := _input_credits r;
     _output_channels := _output_channels r; _output_credits := _output_credits r;
     _cake_x_size := _cake_x_size r; _cake_y_size := _cake_y_size r;
     _cake_layers := _cake_layers r;
     _cake_x := _cake_x r; _cake_y := _cake_y r; _cake_z := _cake_z r;
     _cake_elvx := ex; _cake_elvy := ey;
     _cake_port_xp := _cake_port_xp r; _cake_port_yp := _cake_port_yp r;
     _cake_port_zup := _cake_port_zup r; _cake_port_zdn := _cake_port_zdn r;
     _cake_port_eject := _cake_port_eject r |}.

(** The five port slots share one update shape. *)
Definition set_cake_ports (xp yp zup zdn ej : Z) (r : Router) : Router :=
  {| _id := _id r; _inputs := _inputs r; _outputs := _outputs r;
     _input_channels := _input_channels r; _input_credits := _input_credits r;
     _output_channels := _output_channels r; _output_credits := _output_credits r;
     _cake_x_size := _cake_x_size r; _cake_y_size := _cake_y_size r;
     _cake_layers := _cake_layers r;
     _cake_x := _cake_x r; _cake_y := _cake_y r; _cake_z := _cake_z r;
     _cake_elvx := _cake_elvx r; _cake_elvy := _cake_elvy r;
     _cake_port_xp := xp; _cake_port_yp := yp;
     _cake_port_zup := zup; _cake_port_zdn := zdn;
     _cake_port_eject := ej |}.

Definition SetCakePortXPlus (p : Z) (r : Router) : Router :=
  set_cake_ports p (_cake_port_yp r) (_cake_port_zup r) (_cake_port_zdn r)
                 (_cake_port_eject r) r.
Definition SetCakePortYPlus (p : Z) (r : Router) : Router :=
  set_cake_ports (_cake_port_xp r) p (_cake_port_zup r) (_cake_port_zdn r)
                 (_cake_port_eject r) r.
Definition SetCakePortZUp (p : Z) (r : Router) : Router :=
  set_cake_ports (_cake_port_xp r) (_cake_port_yp r) p (_cake_port_zdn r)
                 (_cake_port_eject r) r.
Definition SetCakePortZDown (p : Z) (r : Router) : Router :=
  set_cake_ports (_cake_port_xp r) (_cake_port_yp r) (_cake_port_zup r) p
                 (_cake_port_eject r) r.
Definition SetCakePortEject (p : Z) (r : Router) : Router :=
  set_cake_ports (_cake_port_xp r) (_cake_port_yp r) (_cake_port_zup r)
                 (_cake_port_zdn r) p r.

Definition CakeXSize (r : Router) : Z := _cake_x_size r.
Definition CakeYSize (r : Router) : Z := _cake_y_size r.
Definition CakeLayers (r : Router) : Z := _cake_layers r.
Definition CakeX (r : Router) : Z := _cake_x r.
Definition CakeY (r : Router) : Z := _cake_y r.
Definition CakeZ (r : Router) : Z := _cake_z r.
Definition CakeElevX (r : Router) : Z := _cake_elvx r.
Definition CakeElevY (r : Router) : Z := _cake_elvy r.
Definition CakePortXPlus (r : Router) : Z := _cake_port_xp r.
Definition CakePortYPlus (r : Router) : Z := _cake_port_yp r.
Definition CakePortZUp (r : Router) : Z := _cake_port_zup r.
Definition CakePortZDown (r : Router) : Z := _cake_port_zdn r.
Definition CakePortEject (r : Router) : Z := _cake_port_eject r.

(** [_routers[i]->method(...)]: the slot must exist and hold a router. *)
Definition with_router (i : Z) (f : Router -> Router)
    (routers : list (option Router)) : result (list (option Router)) :=
  slot ← at_index routers i;
  match slot with
  | Some r => Ok (<[Z.to_nat i := Some (f r)]> routers)
  | None => Crash
  end.

(** Modelled from the spec: [Network::_Alloc] ([network.cpp]) is not among
    the sources.  It sizes [_routers] to [_size] empty slots and creates
    [_channels] flit channels with their credit back-channels and one
    injection/ejection pair per node. *)
Definition alloc_routers (size : Z) : list (option Router) :=
  replicate (Z.to_nat size) None.
Definition alloc_chan (channels : Z) : list FlitChannel :=
  Chan <$> seqZ 0 channels.
Definition alloc_chan_cred (channels : Z) : list CreditChannel :=
  ChanCred <$> seqZ 0 channels.
Definition alloc_inject (nodes : Z) : list FlitChannel :=
  Inject <$> seqZ 0 nodes.
Definition alloc_inject_cred (nodes : Z) : list CreditChannel :=
  InjectCred <$> seqZ 0 nodes.
Definition alloc_eject (nodes : Z) : list FlitChannel :=
  Eject <$> seqZ 0 nodes.
Definition alloc_eject_cred (nodes : Z) : list CreditChannel :=
  EjectCred <$> seqZ 0 nodes.

(** [double]: IEEE 754 binary64, as specified by [SpecFloat]. *)
Definition double : Type := spec_float.
Definition double_of_int (z : Z) : double := binary_normalize 53 1024 z 0 false.
Definition double_add (a b : double) : double := SFadd 53 1024 a b.
Definition double_div (a b : double) : double := SFdiv 53 1024 a b.
Definition double_zero : double := S754_zero false.

(** ** UniTorus ([unitorus.cpp]) *)

Module UniTorus.

Record t : Type := {
  _dim_sizes : list Z;
  _dim_bandwidth : list Z;
  _dim_latency : list Z;
  _dim_penalty : list Z;
  _debug : bool;
  _size : Z;
  _nodes : Z;
  _channels : Z;
  _routers : list (option Router);
  _chan : list FlitChannel;
  _chan_cred : list CreditChannel;
  _inject : list FlitChannel;
  _inject_cred : list CreditChannel;
  _eject : list FlitChannel;
  _eject_cred : list CreditChannel
}.

(** [(int)_dim_sizes.size()] *)
Definition num_dims (sizes : list Z) : Z := Int32.wrap (Z.of_nat (length sizes)).

(** The size-related members [_ComputeSize] assigns. *)
Record Sizing : Type := {
  sz_dim_sizes : list Z;
  sz_size : Z;
  sz_nodes : Z;
  sz_channels : Z
}.

Definition _ComputeSize (config : Configuration) (g : Globals)
  : result (Sizing * Globals) :=
  let dim_sizes_str := GetStr config "dim_sizes" in
  if String.eqb dim_sizes_str "" || String.eqb dim_sizes_str "0" then
    Exit "Error: dim_sizes must be specified as comma-separated values"
  else
    let clean_str := Str.strip_braces dim_sizes_str in
    let tokens := Str.split "," clean_str in
    dim_sizes ← foldM (fun token (acc : list Z) =>
                   let dim_size := Str.atoi token in
                   if dim_size <=? 0 then
                     Exit "Error: All dimension sizes must be positive integers."
                   else Ok (acc ++ [dim_size]))
                 tokens [];
    let size := fold_left Int32.mul dim_sizes 1 in
    k ← at_index dim_sizes 0;
    let g' := {| gN := num_dims dim_sizes; gK := k; gDimSizes := dim_sizes |} in
    Ok ({| sz_dim_sizes := dim_sizes;
           sz_size := size;
           sz_nodes := size;
           sz_channels := Int32.wrap (Z.of_nat (length dim_sizes) * size) |},
        g').

(** The tokenizer shared by the two parsing lambdas: pieces between
    commas, trimmed, empty pieces dropped. *)
Definition tokens_of (param_str : string) : list string :=
  filter (fun t => Is_true (Str.nonempty t))
         (Str.trim <$> Str.split "," (Str.strip_braces param_str)).

Definition parseAndValidate (num_dims : Z) (param_str : string)
  : result (list Z) :=
  if String.eqb param_str "" || String.eqb param_str "0" then Ok []
  else
    let tokens := tokens_of param_str in
    if negb (Int32.wrap (Z.of_nat (length tokens)) =? num_dims) then
      Exit "Error: value count does not match the number of dimensions."
    else
      foldM (fun token (values : list Z) =>
               let val := Str.atoi token in
               if val <=? 0 then
                 Exit "Error: All values must be positive integers."
               else Ok (values ++ [val]))
            tokens [].

Definition parseAndValidatePenalty (num_dims : Z) (param_str : string)
  : result (list Z) :=
  if String.eqb param_str "" || String.eqb param_str "0" then Ok []
  else
    let tokens := tokens_of param_str in
    if negb (Int32.wrap (Z.of_nat (length tokens)) =? num_dims) then
      Exit "Error: value count does not match the number of dimensions."
    else
      foldM (fun token (values : list Z) =>
               let val := Str.atoi token in
               if val <? 0 then
                 Exit "Error: All values must be non-negative integers."
               else Ok (values ++ [val]))
            tokens [].

(** [v.resize(n, x)] *)
Definition resize (n : Z) (x : Z) (v : list Z) : list Z :=
  take (Z.to_nat n) v ++ replicate (Z.to_nat n - length v)%nat x.

Record Direction : Type := {
  dir_bandwidth : list Z;
  dir_latency : list Z;
  dir_penalty : list Z
}.

Definition _ParseDirectionConfig (config : Configuration) (dim_sizes : list Z)
  : result Direction :=
  let num_dims := num_dims dim_sizes in
  let dim_bandwidth := resize num_dims 1 [] in
  let dim_latency := resize num_dims 1 [] in
  let dim_penalty := resize num_dims 0 [] in
  let bandwidth_str := GetStr config "dim_bandwidth" in
  bandwidth_values ← parseAndValidate num_dims bandwidth_str;
  let dim_bandwidth :=
    if bool_decide (bandwidth_values = []) then dim_bandwidth else bandwidth_values in
  let latency_str := GetStr config "dim_latency" in
  latency_values ← parseAndValidate num_dims latency_str;
  let dim_latency :=
    if bool_decide (latency_values = []) then dim_latency else latency_values in
  let penalty_str := GetStr config "dim_penalty" in
  penalty_values ← parseAndValidatePenalty num_dims penalty_str;
  let dim_penalty :=
    if bool_decide (penalty_values = []) then dim_penalty else penalty_values in
  Ok {| dir_bandwidth := dim_bandwidth;
        dir_latency := dim_latency;
        dir_penalty := dim_penalty |}.

Definition RegisterRoutingFunctions (gRoutingFunctionMap : RoutingFunctionMap)
  : RoutingFunctionMap :=
  <["dim_order_unitorus_unitorus" := dim_order_unitorus]> gRoutingFunctionMap.

Definition _NodeToCoords (dim_sizes : list Z) (node : Z) : result (list Z) :=
  let coords := replicate (length dim_sizes) 0 in
  let temp := node in
  '(coords, temp) ←
    for_range (num_dims dim_sizes)
      (fun dim '(coords, temp) =>
         s ← at_index dim_sizes dim;
         if s =? 0 then Crash
         else
           _ ← at_index coords dim;
           Ok (<[Z.to_nat dim := Int32.rem temp s]> coords, Int32.div temp s))
      (coords, temp);
  Ok coords.

Definition _CoordsToNode (dim_sizes : list Z) (coords : list Z) : result Z :=
  let node := 0 in
  let multiplier := 1 in
  '(node, multiplier) ←
    for_range (num_dims dim_sizes)
      (fun dim '(node, multiplier) =>
         c ← at_index coords dim;
         s ← at_index dim_sizes dim;
         Ok (Int32.add node (Int32.mul c multiplier), Int32.mul multiplier s))
      (node, multiplier);
  Ok node.

(** [node * _dim_sizes.size() + dim], computed in [size_t] and converted
    back to [int]. *)
Definition _NextChannel (dim_sizes : list Z) (node dim : Z) : Z :=
  Int32.wrap (node * Z.of_nat (length dim_sizes) + dim).

Definition _NextNode (dim_sizes : list Z) (node dim : Z) : result Z :=
  coords ← _NodeToCoords dim_sizes node;
  c ← at_index coords dim;
  s ← at_index dim_sizes dim;
  if s =? 0 then Crash
  else _CoordsToNode dim_sizes (<[Z.to_nat dim := Int32.rem (Int32.add c 1) s]> coords).

Definition require_router (routers : list (option Router)) (i : Z) (msg : string)
  : result unit :=
  slot ← at_index routers i;
  match slot with
  | Some _ => Ok tt
  | None => Exit msg
  end.

Definition _BuildNet (self : t) : result t :=
  let D := num_dims (_dim_sizes self) in
  (* Create routers *)
  routers ← for_range (_size self)
    (fun node routers =>
       _ ← _NodeToCoords (_dim_sizes self) node;
       _ ← at_index routers node;
       Ok (<[Z.to_nat node :=
               Some (NewRouter node (Int32.add D 1) (Int32.add D 1))]> routers))
    (_routers self);
  (* Connect all the channels after all routers are created *)
  routers ← for_range (_size self)
    (fun node routers =>
       for_range D
         (fun dim routers =>
            next_node ← _NextNode (_dim_sizes self) node dim;
            let channel := _NextChannel (_dim_sizes self) node dim in
            if (channel <? 0) || (channel >=? _channels self) then
              Exit "ERROR: Invalid channel index"
            else
              ch ← at_index (_chan self) channel;
              cr ← at_index (_chan_cred self) channel;
              _ ← require_router routers node "ERROR: Router for node is null";
              _ ← require_router routers next_node
                    "ERROR: Router for next_node is null";
              routers ← with_router node (AddOutputChannel ch cr) routers;
              routers ← with_router next_node (AddInputChannel ch cr) routers;
              _ ← at_index (_dim_latency self) dim;
              Ok routers)
         routers)
    routers;
  (* Add injection and ejection channels for all routers *)
  routers ← for_range (_size self)
    (fun node routers =>
       inj ← at_index (_inject self) node;
       inj_cred ← at_index (_inject_cred self) node;
       routers ← with_router node (AddInputChannel inj inj_cred) routers;
       ej ← at_index (_eject self) node;
       ej_cred ← at_index (_eject_cred self) node;
       with_router node (AddOutputChannel ej ej_cred) routers)
    routers;
  Ok {| _dim_sizes := _dim_sizes self;
        _dim_bandwidth := _dim_bandwidth self;
        _dim_latency := _dim_latency self;
        _dim_penalty := _dim_penalty self;
        _debug := _debug self;
        _size := _size self; _nodes := _nodes self; _channels := _channels self;
        _routers := routers;
        _chan := _chan self; _chan_cred := _chan_cred self;
        _inject := _inject self; _inject_cred := _inject_cred self;
        _eject := _eject self; _eject_cred := _eject_cred self |}.

(** The constructor: [_ComputeSize], [_ParseDirectionConfig], [_Alloc],
    [_BuildNet].  The [_debug] printing is output only. *)
Definition new (config : Configuration) (g : Globals) : result (t * Globals) :=
  let debug := negb (GetInt config "unitorus_debug" =? 0) in
  '(sz, g') ← _ComputeSize config g;
  dir ← _ParseDirectionConfig config (sz_dim_sizes sz);
  net ← _BuildNet
    {| _dim_sizes := sz_dim_sizes sz;
       _dim_bandwidth := dir_bandwidth dir;
       _dim_latency := dir_latency dir;
       _dim_penalty := dir_penalty dir;
       _debug := debug;
       _size := sz_size sz; _nodes := sz_nodes sz; _channels := sz_channels sz;
       _routers := alloc_routers (sz_size sz);
       _chan := alloc_chan (sz_channels sz);
       _chan_cred := alloc_chan_cred (sz_channels sz);
       _inject := alloc_inject (sz_nodes sz);
       _inject_cred := alloc_inject_cred (sz_nodes sz);
       _eject := alloc_eject (sz_nodes sz);
       _eject_cred := alloc_eject_cred (sz_nodes sz) |};
  Ok (net, g').

Definition GetN (self : t) : Z := num_dims (_dim_sizes self).
Definition GetDimSize (self : t) (dim : Z) : result Z := at_index (_dim_sizes self) dim.
Definition GetDimSizes (self : t) : list Z := _dim_sizes self.
Definition GetDimLatency (self : t) (dim : Z) : result Z :=
  at_index (_dim_latency self) dim.
Definition GetDimPenalty (self : t) (dim : Z) : result Z :=
  at_index (_dim_penalty self) dim.

(** [total_capacity += (double)(_size * _dim_bandwidth[dim]) / (double)_size]:
    the product is formed in [int], then converted. *)
Definition Capacity (self : t) : result double :=
  for_range (num_dims (_dim_sizes self))
    (fun dim total_capacity =>
       bw ← at_index (_dim_bandwidth self) dim;
       Ok (double_add total_capacity
             (double_div (double_of_int (Int32.mul (_size self) bw))
                         (double_of_int (_size self)))))
    double_zero.

End UniTorus.

(** ** Cake ([cake.cpp], [cake.hpp]) *)

(** Integer division and remainder by zero have no defined result. *)
Definition checked_div (a b : Z) : result Z :=
  if b =? 0 then Crash else Ok (Int32.div a b).
Definition checked_rem (a b : Z) : result Z :=
  if b =? 0 then Crash else Ok (Int32.rem a b).

(** [v[i] = x] on a [std::vector]. *)
Definition set_index {A : Type} (v : list A) (i : Z) (x : A) : result (list A) :=
  _ ← at_index v i;
  Ok (<[Z.to_nat i := x]> v).

Module Cake.

Record t : Type := {
  _x : Z;
  _y : Z;
  _layers : Z;
  _elevators : list (Z * Z);
  _elevator_index : gmap Z Z;
  _elevator_map : list (list (Z * Z));
  _debug : bool;
  _inplane_channels : Z;
  _vertical_channels : Z;
  _size : Z;
  _nodes : Z;
  _channels : Z;
  _routers : list (option Router);
  _chan : list FlitChannel;
  _chan_cred : list CreditChannel;
  _inject : list FlitChannel;
  _inject_cred : list CreditChannel;
  _eject : list FlitChannel;
  _eject_cred : list CreditChannel
}.

(** [(static_cast<long long>(x) << 32) | static_cast<unsigned int>(y)] *)
Definition _Key (x y : Z) : Z :=
  Z.lor (Z.shiftl x 32) (y mod 4294967296).

Record Sizing : Type := {
  sz_x : Z;
  sz_y : Z;
  sz_layers : Z;
  sz_size : Z;
  sz_nodes : Z;
  sz_inplane_channels : Z;
  sz_vertical_channels : Z;
  sz_channels : Z
}.

(** The comma-separated pieces of [dim_sizes], trimmed, empty ones skipped. *)
Definition toks_of (dim_sizes_str : string) : list string :=
  filter (fun t => Is_true (Str.nonempty t))
         (Str.trim <$> Str.split "," (Str.strip_braces dim_sizes_str)).

Definition _ComputeSize (config : Configuration) (g : Globals)
  : result (Sizing * Globals) :=
  let dim_sizes_str := GetStr config "dim_sizes" in
  '(x, y, layers) ←
    (if Str.nonempty dim_sizes_str then
       let toks := toks_of dim_sizes_str in
       if (length toks <? 2)%nat then
         Exit "dim_sizes must have at least 2 values (x,y)"
       else
         t0 ← at_index toks 0;
         t1 ← at_index toks 1;
         layers ← (if (3 <=? length toks)%nat
                   then t2 ← at_index toks 2; Ok (Str.atoi t2)
                   else Ok 1);
         Ok (Str.atoi t0, Str.atoi t1, layers)
     else
       Exit "Cake requires 'dim_sizes' to specify {x,y[,layers]}");
  if (x <=? 0) || (y <=? 0) || (layers <=? 0) then
    Exit "Invalid sizes for Cake"
  else
    let g' := {| gN := 2; gK := x; gDimSizes := gDimSizes g |} in
    let size := Int32.mul (Int32.mul x y) layers in
    Ok ({| sz_x := x; sz_y := y; sz_layers := layers;
           sz_size := size; sz_nodes := size;
           sz_inplane_channels := Int32.mul size 2;
           sz_vertical_channels := 0;
           sz_channels := -1 |},
        g').

Record Elevators : Type := {
  el_elevators : list (Z * Z);
  el_elevator_index : gmap Z Z;
  el_elevator_map : list (list (Z * Z));
  el_vertical_channels : Z;
  el_channels : Z
}.

Definition is_brace (c : ascii) : bool :=
  Ascii.eqb c "{" || Ascii.eqb c "}".
Definition is_bracket (c : ascii) : bool :=
  Ascii.eqb c "{" || Ascii.eqb c "}" || Ascii.eqb c "[" || Ascii.eqb c "]".

(** One token of [elevator_coords]: a token without a comma is ignored;
    otherwise the pair is range-checked and appended unless its key is
    already in the index. *)
Definition elevator_step (x y : Z) (t : string) (st : list (Z * Z) * gmap Z Z)
  : result (list (Z * Z) * gmap Z Z) :=
  let '(elevators, elevator_index) := st in
  match Str.cut_comma t with
  | None => Ok (elevators, elevator_index)
  | Some (a, b) =>
      let ex := Str.atoi a in
      let ey := Str.atoi b in
      if (ex <? 0) || (ex >=? x) || (ey <? 0) || (ey >=? y) then
        Exit "elevator coord out of range"
      else
        let key := _Key ex ey in
        match elevator_index !! key with
        | None =>
            let idx := Int32.wrap (Z.of_nat (length elevators)) in
            Ok (elevators ++ [(ex, ey)], <[key := idx]> elevator_index)
        | Some _ => Ok (elevators, elevator_index)
        end
  end.

(** The declared elevator pairs, in order, duplicates collapsed. *)
Definition parse_elevator_coords (x y : Z) (elev_str : string)
  : result (list (Z * Z) * gmap Z Z) :=
  if Str.nonempty elev_str then
    let s := Str.blank is_brace elev_str in
    let toks := Str.words s in
    foldM (elevator_step x y) toks ([], ∅)
  else Ok ([], ∅).

(** The flat integer stream of [elevator_mapping_coords]. *)
Definition mapping_nums (map_str : string) : list Z :=
  let s := Str.blank is_bracket map_str in
  fold_left (fun nums tok =>
               if String.eqb tok "," then nums
               else
                 let tok := Str.strip_back "," tok in
                 if negb (Str.nonempty tok) then nums
                 else if String.eqb tok "," then nums
                 else
                   nums ++ (Str.atoi <$>
                              filter (fun part => Is_true (Str.nonempty part))
                                     (Str.split "," tok)))
            (Str.words s) [].

Definition parse_elevator_map (x y : Z) (map_str : string)
  : result (list (list (Z * Z))) :=
  let elevator_map := replicate (Z.to_nat y) (replicate (Z.to_nat x) (0, 0)) in
  if Str.nonempty map_str then
    let nums := mapping_nums map_str in
    if negb (Int32.wrap (Z.of_nat (length nums)) =? Int32.mul (Int32.mul x y) 2) then
      Exit "elevator_mapping_coords expects 2*x*y integers (x,y pairs)"
    else
      '(_, elevator_map) ←
        for_range y (fun ry st =>
          for_range x (fun rx '(idx, elevator_map) =>
            ex ← at_index nums idx;
            let idx := Int32.add idx 1 in
            ey ← at_index nums idx;
            let idx := Int32.add idx 1 in
            if (ex <? 0) || (ex >=? x) || (ey <? 0) || (ey >=? y) then
              Exit "elevator_mapping_coords out of range"
            else
              row ← at_index elevator_map ry;
              row ← set_index row rx (ex, ey);
              elevator_map ← set_index elevator_map ry row;
              Ok (idx, elevator_map)) st)
          (0, elevator_map);
      Ok elevator_map
  else
    for_range y (fun ry elevator_map =>
      for_range x (fun rx elevator_map =>
        row ← at_index elevator_map ry;
        row ← set_index row rx (rx, ry);
        set_index elevator_map ry row) elevator_map)
      elevator_map.

Definition _ParseElevators (config : Configuration) (sz : Sizing)
  : result Elevators :=
  let elev_str := GetStr config "elevator_coords" in
  let elev_str :=
    if Str.nonempty elev_str then elev_str else GetStr config "elevatorcoords" in
  '(elevators, elevator_index) ← parse_elevator_coords (sz_x sz) (sz_y sz) elev_str;
  let map_str := GetStr config "elevator_mapping_coords" in
  let map_str :=
    if Str.nonempty map_str then map_str else GetStr config "elevatormapping" in
  elevator_map ← parse_elevator_map (sz_x sz) (sz_y sz) map_str;
  let E := Int32.wrap (Z.of_nat (length elevators)) in
  let vertical_channels := Int32.mul (Int32.mul E (sz_layers sz)) 2 in
  Ok {| el_elevators := elevators;
        el_elevator_index := elevator_index;
        el_elevator_map := elevator_map;
        el_vertical_channels := vertical_channels;
        el_channels := Int32.add (sz_inplane_channels sz) vertical_channels |}.

Definition _NodeId (self : t) (x y z : Z) : Z :=
  Int32.add (Int32.add (Int32.mul z (Int32.mul (_x self) (_y self)))
                       (Int32.mul y (_x self)))
            x.

Definition _IdToXYZ (self : t) (id : Z) : result (Z * Z * Z) :=
  let plane := Int32.mul (_x self) (_y self) in
  z ← checked_div id plane;
  rem ← checked_rem id plane;
  y ← checked_div rem (_x self);
  x ← checked_rem rem (_x self);
  Ok (x, y, z).

Definition _InplaneChannel (self : t) (node dim : Z) : Z :=
  Int32.add (Int32.mul node 2) dim.

Definition _UpChannel (self : t) (elev_idx layer : Z) : Z :=
  Int32.add
    (Int32.add (_inplane_channels self)
       (Int32.mul (Int32.add (Int32.mul elev_idx (_layers self)) layer) 2))
    0.

Definition _DownChannel (self : t) (elev_idx layer : Z) : Z :=
  Int32.add
    (Int32.add (_inplane_channels self)
       (Int32.mul (Int32.add (Int32.mul elev_idx (_layers self)) layer) 2))
    1.

(** One directed link: record the output index in the slot [set_port],
    add the channel as an output of [from] and as an input of [to]. *)
Definition connect (self : t) (set_port : Z -> Router -> Router)
    (from to ch : Z) (routers : list (option Router))
  : result (list (option Router)) :=
  c ← at_index (_chan self) ch;
  cc ← at_index (_chan_cred self) ch;
  routers ← with_router from
    (fun r => let out_idx := OutputIndexCount r in
              set_port out_idx (AddOutputChannel c cc r)) routers;
  with_router to (AddInputChannel c cc) routers.

Definition _BuildNet (self : t) : result t :=
  (* Create routers with exact port counts and set per-router metadata *)
  routers ← for_range (_size self)
    (fun id routers =>
       '(x, y, z) ← _IdToXYZ self id;
       let is_elev := bool_decide (is_Some (_elevator_index self !! _Key x y)) in
       let net_ports := Int32.add 2 (if is_elev then 2 else 0) in
       let in_cnt := Int32.add net_ports 1 in
       let out_cnt := Int32.add net_ports 1 in
       routers ← set_index routers id (Some (NewRouter id in_cnt out_cnt));
       routers ← with_router id (SetCakeSizes (_x self) (_y self) (_layers self)) routers;
       routers ← with_router id (SetCakeXYZ x y z) routers;
       row ← at_index (_elevator_map self) y;
       pref ← at_index row x;
       with_router id (SetCakeElevatorTarget (fst pref) (snd pref)) routers)
    (_routers self);
  (* Connect in-plane X+ links (unidirectional wrap) *)
  routers ← for_range (_layers self) (fun z routers =>
    for_range (_y self) (fun y routers =>
      for_range (_x self) (fun x routers =>
        let from := _NodeId self x y z in
        x1 ← checked_rem (Int32.add x 1) (_x self);
        let to := _NodeId self x1 y z in
        let ch := _InplaneChannel self from 0 in
        connect self SetCakePortXPlus from to ch routers)
      routers) routers) routers;
  (* Connect in-plane Y+ links (unidirectional wrap) *)
  routers ← for_range (_layers self) (fun z routers =>
    for_range (_y self) (fun y routers =>
      for_range (_x self) (fun x routers =>
        let from := _NodeId self x y z in
        y1 ← checked_rem (Int32.add y 1) (_y self);
        let to := _NodeId self x y1 z in
        let ch := _InplaneChannel self from 1 in
        connect self SetCakePortYPlus from to ch routers)
      routers) routers) routers;
  (* Connect vertical links at elevator locations *)
  routers ← for_range (Z.of_nat (length (_elevators self))) (fun ei routers =>
    e ← at_index (_elevators self) ei;
    let ex := fst e in
    let ey := snd e in
    for_range (_layers self) (fun z routers =>
      let from := _NodeId self ex ey z in
      z_up ← checked_rem (Int32.add z 1) (_layers self);
      let to_up := _NodeId self ex ey z_up in
      let ch_u := _UpChannel self (Int32.wrap ei) z in
      routers ← connect self SetCakePortZUp from to_up ch_u routers;
      z_dn ← checked_rem (Int32.add (Int32.sub z 1) (_layers self)) (_layers self);
      let to_dn := _NodeId self ex ey z_dn in
      let ch_d := _DownChannel self (Int32.wrap ei) z in
      connect self SetCakePortZDown from to_dn ch_d routers)
    routers) routers;
  (* Add injection/ejection *)
  routers ← for_range (_size self) (fun id routers =>
    inj ← at_index (_inject self) id;
    inj_cred ← at_index (_inject_cred self) id;
    routers ← with_router id (AddInputChannel inj inj_cred) routers;
    ej ← at_index (_eject self) id;
    ej_cred ← at_index (_eject_cred self) id;
    with_router id
      (fun r => let out_idx_ej := OutputIndexCount r in
                SetCakePortEject out_idx_ej (AddOutputChannel ej ej_cred r))
      routers) routers;
  Ok {| _x := _x self; _y := _y self; _layers := _layers self;
        _elevators := _elevators self;
        _elevator_index := _elevator_index self;
        _elevator_map := _elevator_map self;
        _debug := _debug self;
        _inplane_channels := _inplane_channels self;
        _vertical_channels := _vertical_channels self;
        _size := _size self; _nodes := _nodes self; _channels := _channels self;
        _routers := routers;
        _chan := _chan self; _chan_cred := _chan_cred self;
        _inject := _inject self; _inject_cred := _inject_cred self;
        _eject := _eject self; _eject_cred := _eject_cred self |}.

(** The body is a [TODO] in the source: nothing is registered. *)
Definition RegisterRoutingFunctions (gRoutingFunctionMap : RoutingFunctionMap)
  : RoutingFunctionMap :=
  gRoutingFunctionMap.

(** The object handed to [_BuildNet]: sizes, elevators, and what
    [_Alloc] allocated. *)
Definition allocated (config : Configuration) (sz : Sizing) (el : Elevators) : t :=
  {| _x := sz_x sz; _y := sz_y sz; _layers := sz_layers sz;
     _elevators := el_elevators el;
     _elevator_index := el_elevator_index el;
     _elevator_map := el_elevator_map el;
     _debug := negb (GetInt config "unitorus_debug" =? 0);
     _inplane_channels := sz_inplane_channels sz;
     _vertical_channels := el_vertical_channels el;
     _size := sz_size sz; _nodes := sz_nodes sz;
     _channels := el_channels el;
     _routers := alloc_routers (sz_size sz);
     _chan := alloc_chan (el_channels el);
     _chan_cred := alloc_chan_cred (el_channels el);
     _inject := alloc_inject (sz_nodes sz);
     _inject_cred := alloc_inject_cred (sz_nodes sz);
     _eject := alloc_eject (sz_nodes sz);
     _eject_cred := alloc_eject_cred (sz_nodes sz) |}.

(** The constructor: [_ComputeSize], [_ParseElevators], [_Alloc],
    [_BuildNet]. *)
Definition new (config : Configuration) (g : Globals) : result (t * Globals) :=
  '(sz, g') ← _ComputeSize config g;
  el ← _ParseElevators config sz;
  net ← _BuildNet (allocated config sz el);
  Ok (net, g').

Definition X (self : t) : Z := _x self.
Definition Y (self : t) : Z := _y self.
Definition Layers (self : t) : Z := _layers self.
Definition Elevators_ (self : t) : list (Z * Z) := _elevators self.
Definition ElevatorMap (self : t) : list (list (Z * Z)) := _elevator_map self.

End Cake.

(** ** Vocabulary of the statements *)

(** The product of a list of dimension sizes. *)
Definition product (l : list Z) : Z := foldr Z.mul 1 l.

(** The sum of a list of bandwidths. *)
Definition total (l : list Z) : Z := foldr Z.add 0 l.

(** A coordinate tuple is valid when it has one entry per dimension and
    [0 <= coords[d] < sizes[d]]. *)
Definition valid_coords (sizes coords : list Z) : Prop :=
  Forall2 (fun s c => 0 <= c < s) sizes coords.

(** Mixed-radix numbers, least significant digit first, by recursion on
    the list of radices: the mathematical counterpart of the two loops. *)
Fixpoint digits (sizes : list Z) (n : Z) : list Z :=
  match sizes with
  | [] => []
  | s :: ss => n mod s :: digits ss (n / s)
  end.

Fixpoint mixed_radix_value (sizes coords : list Z) : Z :=
  match sizes, coords with
  | s :: ss, c :: cs => c + s * mixed_radix_value ss cs
  | _, _ => 0
  end.

(** ** Sample configurations *)

Definition g_init : Globals := {| gN := 0; gK := 0; gDimSizes := [] |}.

(** UniTorus 4x4x4 with defaults. *)
Definition cfg_unitorus_444 : Configuration :=
  config_of [("dim_sizes"%string, "{4,4,4}"%string)].

(** UniTorus 3x3 with per-dimension latency and bandwidth. *)
Definition cfg_unitorus_33 : Configuration :=
  config_of [("dim_sizes"%string, "{3,3}"%string);
             ("dim_latency"%string, "{2,5}"%string);
             ("dim_bandwidth"%string, "{1,2}"%string)].

(** Cake 3x3x1 without elevators. *)
Definition cfg_cake_33 : Configuration :=
  config_of [("dim_sizes"%string, "{3,3}"%string)].

(** Cake 3x3x2 with one elevator at (1,1) and the identity mapping. *)
Definition cfg_cake_332 : Configuration :=
  config_of [("dim_sizes"%string, "{3,3,2}"%string);
             ("elevator_coords"%string, "{{1,1}}"%string)].

(** Cake with a fourth entry in [dim_sizes]. *)
Definition cfg_cake_2225 : Configuration :=
  config_of [("dim_sizes"%string, "{2,2,2,5}"%string)].

(** Cake 2x2x1, one elevator at (1,1), and a mapping that sends (0,0) to
    the non-elevator coordinate (0,1). *)
Definition cfg_cake_stray_mapping : Configuration :=
  config_of [("dim_sizes"%string, "{2,2}"%string);
             ("elevator_coords"%string, "{{1,1}}"%string);
             ("elevator_mapping_coords"%string,
              "{{{0,1},{1,1}},{{1,1},{1,1}}}"%string)].

(** ** Vocabulary for the Cake wiring *)

(** Node id of in-range coordinates, without wrap-around. *)
Definition node_id (X Y x y z : Z) : Z := z * (X * Y) + y * X + x.

(** Coordinates of a node id, without wrap-around. *)
Definition coords_of (X Y id : Z) : Z * Z * Z :=
  ((id mod (X * Y)) mod X, (id mod (X * Y)) / X, id / (X * Y)).

(** Channel ids of the layout, without wrap-around. *)
Definition inplane_id (node dim : Z) : Z := node * 2 + dim.
Definition vertical_id (X Y L e z updown : Z) : Z :=
  2 * (X * Y * L) + (e * L + z) * 2 + updown.

(** The channel [c] leads to the router at (x, y, z): some router has
    registered it as an input, and every router that has is at (x, y, z). *)
Definition leads_to (routers : list (option Router)) (c : FlitChannel)
    (x y z : Z) : Prop :=
  (exists t r, routers !! t = Some (Some r) /\ c ∈ _input_channels r) /\
  forall (t : nat) r, routers !! t = Some (Some r) -> c ∈ _input_channels r ->
                      (CakeX r, CakeY r, CakeZ r) = (x, y, z).

(** The five recorded port slots of a router. *)
Definition cake_ports (r : Router) : Z * Z * Z * Z * Z :=
  (CakePortXPlus r, CakePortYPlus r, CakePortZUp r, CakePortZDown r,
   CakePortEject r).

(** The channel count 2*X*Y*Z + 2*|E|*Z of the network is representable
    as [int]. *)
Definition cake_fits (net : Cake.t) : Prop :=
  2 * (Cake._x net * Cake._y net * Cake._layers net)
  + 2 * (Z.of_nat (length (Cake._elevators net)) * Cake._layers net)
  <= Int32.INT_MAX.

(** A router with its input side erased: what the output-side operations
    see and change. *)
Definition strip_inputs (r : Router) : Router :=
  {| _id := _id r; _inputs := _inputs r; _outputs := _outputs r;
     _input_channels := []; _input_credits := [];
     _output_channels := _output_channels r;
     _output_credits := _output_credits r;
     _cake_x_size := _cake_x_size r; _cake_y_size := _cake_y_size r;
     _cake_layers := _cake_layers r;
     _cake_x := _cake_x r; _cake_y := _cake_y r; _cake_z := _cake_z r;
     _cake_elvx := _cake_elvx r; _cake_elvy := _cake_elvy r;
     _cake_port_xp := _cake_port_xp r; _cake_port_yp := _cake_port_yp r;
     _cake_port_zup := _cake_port_zup r; _cake_port_zdn := _cake_port_zdn r;
     _cake_port_eject := _cake_port_eject r |}.

(** What [_ComputeSize], [_ParseElevators] and [_Alloc] establish before
    [_BuildNet] runs, for a network whose channel count is representable. *)
Record cake_ready (self : Cake.t) : Prop := {
  ready_x : 0 < Cake._x self;
  ready_y : 0 < Cake._y self;
  ready_layers : 0 < Cake._layers self;
  ready_fits :
    2 * (Cake._x self * Cake._y self * Cake._layers self)
    + 2 * (Z.of_nat (length (Cake._elevators self)) * Cake._layers self)
    <= Int32.INT_MAX;
  ready_size : Cake._size self = Cake._x self * Cake._y self * Cake._layers self;
  ready_nodes : Cake._nodes self = Cake._size self;
  ready_inplane : Cake._inplane_channels self = 2 * Cake._size self;
  ready_channels :
    Cake._channels self =
    2 * Cake._size self
    + 2 * (Z.of_nat (length (Cake._elevators self)) * Cake._layers self);
  ready_routers : Cake._routers self = alloc_routers (Cake._size self);
  ready_chan : Cake._chan self = alloc_chan (Cake._channels self);
  ready_chan_cred : Cake._chan_cred self = alloc_chan_cred (Cake._channels self);
  ready_inject : Cake._inject self = alloc_inject (Cake._nodes self);
  ready_inject_cred : Cake._inject_cred self = alloc_inject_cred (Cake._nodes self);
  ready_eject : Cake._eject self = alloc_eject (Cake._nodes self);
  ready_eject_cred : Cake._eject_cred self = alloc_eject_cred (Cake._nodes self);
  ready_elev_index : forall x y e,
    0 <= x < Cake._x self -> 0 <= y < Cake._y self ->
    (Cake._elevator_index self !! Cake._Key x y = Some e <->
     0 <= e /\ Cake._elevators self !! Z.to_nat e = Some (x, y));
  ready_elev_range : forall e x y,
    Cake._elevators self !! e = Some (x, y) ->
    0 <= x < Cake._x self /\ 0 <= y < Cake._y self;
  ready_map_rows : length (Cake._elevator_map self) = Z.to_nat (Cake._y self);
  ready_map_cols :
    Forall (fun row => length row = Z.to_nat (Cake._x self)) (Cake._elevator_map self);
  ready_vertical :
    Cake._vertical_channels self =
    2 * (Z.of_nat (length (Cake._elevators self)) * Cake._layers self)
}.

(** The preferred elevator [_elevator_map[y][x]]. *)
Definition pref_of (self : Cake.t) (x y : Z) : Z * Z :=
  default (0, 0) (row ← Cake._elevator_map self !! Z.to_nat y; row !! Z.to_nat x).

(** Index of the elevator at the (x,y) of node [id], if there is one. *)
Definition elev_of (self : Cake.t) (id : Z) : option Z :=
  let '(x, y, _) := coords_of (Cake._x self) (Cake._y self) id in
  Cake._elevator_index self !! Cake._Key x y.

(** Router [id] as the creation loop leaves it. *)
Definition created (self : Cake.t) (id : Z) : Router :=
  let '(x, y, z) := coords_of (Cake._x self) (Cake._y self) id in
  let is_elev := bool_decide (is_Some (Cake._elevator_index self !! Cake._Key x y)) in
  let net_ports := Int32.add 2 (if is_elev then 2 else 0) in
  SetCakeElevatorTarget (pref_of self x y).1 (pref_of self x y).2
    (SetCakeXYZ x y z
       (SetCakeSizes (Cake._x self) (Cake._y self) (Cake._layers self)
          (NewRouter id (Int32.add net_ports 1) (Int32.add net_ports 1)))).

(** Output-side effect of one link: record the index, append the channel. *)
Definition out_step (set_port : Z -> Router -> Router)
    (c : FlitChannel) (cc : CreditChannel) (r : Router) : Router :=
  set_port (OutputIndexCount r) (AddOutputChannel c cc r).

(** The output side of router [id] after the X+ pass has handled the nodes
    below [pX], the Y+ pass those below [pY], the vertical pass the first
    [pV] (elevator, layer) pairs and the last pass the nodes below [pE]. *)
Definition stage_x (pX id : Z) (r : Router) : Router :=
  if id <? pX
  then out_step SetCakePortXPlus (Chan (inplane_id id 0)) (ChanCred (inplane_id id 0)) r
  else r.
Definition stage_y (pY id : Z) (r : Router) : Router :=
  if id <? pY
  then out_step SetCakePortYPlus (Chan (inplane_id id 1)) (ChanCred (inplane_id id 1)) r
  else r.
Definition stage_v (self : Cake.t) (pV id : Z) (r : Router) : Router :=
  let X := Cake._x self in
  let Y := Cake._y self in
  let L := Cake._layers self in
  match elev_of self id with
  | Some e =>
      let z := (coords_of X Y id).2 in
      if e * L + z <? pV then
        out_step SetCakePortZDown
          (Chan (vertical_id X Y L e z 1)) (ChanCred (vertical_id X Y L e z 1))
          (out_step SetCakePortZUp
             (Chan (vertical_id X Y L e z 0)) (ChanCred (vertical_id X Y L e z 0)) r)
      else r
  | None => r
  end.
Definition stage_e (pE id : Z) (r : Router) : Router :=
  if id <? pE then out_step SetCakePortEject (Eject id) (EjectCred id) r else r.

Definition expected_out (self : Cake.t) (pX pY pV pE id : Z) : Router :=
  stage_e pE id (stage_v self pV id (stage_y pY id (stage_x pX id (created self id)))).

(** The channels registered as inputs of router [id] at the same point. *)
Definition expected_in (self : Cake.t) (pX pY pV pE id : Z) (c : FlitChannel) : Prop :=
  let X := Cake._x self in
  let Y := Cake._y self in
  let L := Cake._layers self in
  (exists x y z, (0 <= x < X /\ 0 <= y < Y /\ 0 <= z < L) /\
     node_id X Y x y z < pX /\
     c = Chan (inplane_id (node_id X Y x y z) 0) /\
     id = node_id X Y ((x + 1) mod X) y z) \/
  (exists x y z, (0 <= x < X /\ 0 <= y < Y /\ 0 <= z < L) /\
     node_id X Y x y z < pY /\
     c = Chan (inplane_id (node_id X Y x y z) 1) /\
     id = node_id X Y x ((y + 1) mod Y) z) \/
  (exists e ex ey z, 0 <= e /\ Cake._elevators self !! Z.to_nat e = Some (ex, ey) /\
     0 <= z < L /\ e * L + z < pV /\
     ((c = Chan (vertical_id X Y L e z 0) /\ id = node_id X Y ex ey ((z + 1) mod L)) \/
      (c = Chan (vertical_id X Y L e z 1) /\
       id = node_id X Y ex ey ((z - 1 + L) mod L)))) \/
  (id < pE /\ c = Inject id).

(** The router list agrees, node by node, with an expected output side
    and an expected set of input channels. *)
Definition routers_match (size : Z) (eo : Z -> Router)
    (ei : Z -> FlitChannel -> Prop) (rs : list (option Router)) : Prop :=
  length rs = Z.to_nat size /\
  forall id, 0 <= id < size ->
    exists r, rs !! Z.to_nat id = Some (Some r) /\
              strip_inputs r = eo id /\
              forall c, c ∈ _input_channels r <-> ei id c.

(** An operation that reads and writes the output side only. *)
Definition out_only (f : Router -> Router) : Prop :=
  forall r, strip_inputs (f r) = f (strip_inputs r) /\
            _input_channels (f r) = _input_channels r.

(** A coordinate pair inside the X-by-Y plane. *)
Definition in_plane (x y : Z) (p : Z * Z) : Prop :=
  0 <= p.1 < x /\ 0 <= p.2 < y.

(** An elevator mapping table: Y rows of X in-plane pairs. *)
Definition map_wf (x y : Z) (m : list (list (Z * Z))) : Prop :=
  length m = Z.to_nat y /\
  Forall (fun row => length row = Z.to_nat x /\ Forall (in_plane x y) row) m.

(** The elevator list and its index agree: every listed pair is in the
    plane, and the index maps exactly the keys of the listed pairs, each to
    its position. *)
Definition elev_inv (x y : Z) (els : list (Z * Z)) (idx : gmap Z Z) : Prop :=
  (forall e p, els !! e = Some p -> in_plane x y p) /\
  (forall k e, idx !! k = Some e <->
     0 <= e /\ exists ex ey, els !! Z.to_nat e = Some (ex, ey) /\ k = Cake._Key ex ey).

(** The [elevator_coords] string the parser reads (preferred key, then the
    legacy alias) and the pairs it declares, in order of declaration. *)
Definition elevator_coords_of (config : Configuration) : string :=
  if Str.nonempty (GetStr config "elevator_coords")
  then GetStr config "elevator_coords"
  else GetStr config "elevatorcoords".

Definition declared_pairs (elev_str : string) : list (Z * Z) :=
  omap (fun t => match Str.cut_comma t with
                 | Some (a, b) => Some (Str.atoi a, Str.atoi b)
                 | None => None
                 end)
       (Str.words (Str.blank Cake.is_brace elev_str)).

(** The distinct elements of a list in the order of their first
    occurrence, appended to those already seen. *)
Fixpoint first_occurrences_onto (seen l : list (Z * Z)) : list (Z * Z) :=
  match l with
  | [] => seen
  | p :: l' =>
      first_occurrences_onto (if bool_decide (p ∈ seen) then seen else seen ++ [p]) l'
  end.
Definition first_occurrences (l : list (Z * Z)) : list (Z * Z) :=
  first_occurrences_onto [] l.

(** The [elevator_mapping_coords] string the parser reads (preferred key,
    then the legacy alias), and entry [ry][rx] of a mapping table. *)
Definition mapping_coords_of (config : Configuration) : string :=
  if Str.nonempty (GetStr config "elevator_mapping_coords")
  then GetStr config "elevator_mapping_coords"
  else GetStr config "elevatormapping".

Definition table_entry (m : list (list (Z * Z))) (ry rx : Z) : option (Z * Z) :=
  row ← m !! Z.to_nat ry; row !! Z.to_nat rx.

(** Cake 2x2x1 whose mapping table names the pair (0,5), outside the plane. *)
Definition cfg_cake_bad_mapping : Configuration :=
  config_of [("dim_sizes"%string, "{2,2}"%string);
             ("elevator_coords"%string, "{{1,1}}"%string);
             ("elevator_mapping_coords"%string,
              "{{{0,5},{1,1}},{{1,1},{1,1}}}"%string)].

(** UniTorus 2x2 whose first dimension has bandwidth 2^29. *)
Definition cfg_unitorus_wide : Configuration :=
  config_of [("dim_sizes"%string, "{2,2}"%string);
             ("dim_bandwidth"%string, "{536870912,1}"%string)].

(** ** Vocabulary of the further properties *)

(** Cake 3x3 with two braced elevator pairs separated by a comma. *)
Definition cfg_cake_two_elevators : Configuration :=
  config_of [("dim_sizes"%string, "{3,3}"%string);
             ("elevator_coords"%string, "{{1,1},{2,2}}"%string)].


(** Cake 2x2 whose mapping table holds three pairs instead of four. *)
Definition cfg_cake_short_mapping : Configuration :=
  config_of [("dim_sizes"%string, "{2,2}"%string);
             ("elevator_mapping_coords"%string,
              "{{{0,1},{1,1}},{{1,1}}}"%string)].

(** The input channels of all routers, slot by slot. *)
Definition all_inputs (rs : list (option Router)) : list FlitChannel :=
  concat (map (fun o => match o with
                        | Some r => _input_channels r
                        | None => []
                        end) rs).

(** The inputs of the Cake router at (x, y, z) with id [id]: the X+ link of
    its western neighbour, the Y+ link of its southern neighbour, at an
    elevator with index [e] the up link from the layer below and the down
    link from the layer above, and its injection channel. *)
Definition cake_inputs (X Y L : Z) (oe : option Z) (x y z id : Z) : list FlitChannel :=
  [Chan (inplane_id (node_id X Y ((x - 1) mod X) y z) 0);
   Chan (inplane_id (node_id X Y x ((y - 1) mod Y) z) 1)]
  ++ match oe with
     | Some e => [Chan (vertical_id X Y L e ((z - 1) mod L) 0);
                  Chan (vertical_id X Y L e ((z + 1) mod L) 1)]
     | None => []
     end
  ++ [Inject id].

(** The comma-separated pieces of the UniTorus [dim_sizes] value. *)
Definition dim_size_pieces (config : Configuration) : list string :=
  Str.split "," (Str.strip_braces (GetStr config "dim_sizes")).

(** A per-dimension key is left out when its value is empty or "0". *)
Definition unspecified (param_str : string) : bool :=
  String.eqb param_str "" || String.eqb param_str "0".

(** A per-dimension key is acceptable when it is left out, or gives one
    value per dimension with every value at least [lo]. *)
Definition direction_ok (lo D : Z) (param_str : string) : bool :=
  unspecified param_str ||
  (Int32.wrap (Z.of_nat (length (UniTorus.tokens_of param_str))) =? D) &&
  forallb (fun t => lo <=? Str.atoi t) (UniTorus.tokens_of param_str).

(** What UniTorus keeps for a per-dimension key: the default for every
    dimension when the key is left out, the converted tokens otherwise. *)
Definition direction_values (dflt D : Z) (param_str : string) : list Z :=
  if unspecified param_str then replicate (Z.to_nat D) dflt
  else Str.atoi <$> UniTorus.tokens_of param_str.

(** The node reached from [n] by advancing its coordinate of dimension
    [d] by [k] around that dimension's ring. *)
Definition ring_shift (sizes : list Z) (k n d : Z) : Z :=
  match sizes !! Z.to_nat d with
  | Some s =>
      let P := product (take (Z.to_nat d) sizes) in
      let c := (n / P) mod s in
      n + ((c + k) mod s - c) * P
  | None => n
  end.

(** The UniTorus channels leaving node [id] among the first [p] channels:
    the connection loop attaches them in the order of their ids. *)
Definition torus_out (D p id : Z) : list FlitChannel :=
  Chan <$> seqZ (id * D) (Z.min D (p - id * D)).

(** The UniTorus channels entering node [id] among the first [p]
    channels: channel [c] leaves node [c / D] along dimension [c mod D]. *)
Definition torus_in (sizes : list Z) (D p id : Z) : list FlitChannel :=
  Chan <$> filter (fun c => ring_shift sizes 1 (c / D) (c mod D) = id) (seqZ 0 p).

(** Every slot of the router list holds the router of its node, with the
    given port count and the given channels attached, in order. *)
Definition routers_are (N ports : Z) (out inp : Z -> list FlitChannel)
    (rs : list (option Router)) : Prop :=
  length rs = Z.to_nat N /\
  forall id, 0 <= id < N ->
    exists r, rs !! Z.to_nat id = Some (Some r) /\
              _id r = id /\ _inputs r = ports /\ _outputs r = ports /\
              _output_channels r = out id /\
              _input_channels r = inp id.

(** A UniTorus after [_ComputeSize], [_ParseDirectionConfig] and [_Alloc],
    with all counts representable. *)
Definition torus_ready (self : UniTorus.t) : Prop :=
  let sizes := UniTorus._dim_sizes self in
  let D := Z.of_nat (length sizes) in
  let N := product sizes in
  Forall (fun s => 0 < s) sizes /\
  0 < D < Int32.INT_MAX /\
  D * N <= Int32.INT_MAX /\
  D <= Z.of_nat (length (UniTorus._dim_latency self)) /\
  UniTorus._size self = N /\
  UniTorus._nodes self = N /\
  UniTorus._channels self = D * N /\
  UniTorus._routers self = alloc_routers N /\
  UniTorus._chan self = alloc_chan (D * N) /\
  UniTorus._chan_cred self = alloc_chan_cred (D * N) /\
  UniTorus._inject self = alloc_inject N /\
  UniTorus._inject_cred self = alloc_inject_cred N /\
  UniTorus._eject self = alloc_eject N /\
  UniTorus._eject_cred self = alloc_eject_cred N.

(** * Properties *)

(** ** Generic facts: wrap-around, outcomes, loops, indexing *)

Lemma wrap_fits z : Int32.fits z -> Int32.wrap z = z.
Proof.
  unfold Int32.fits, Int32.wrap, Int32.INT_MIN, Int32.INT_MAX. intros H.
  rewrite Z.mod_small; lia.
Qed.

Lemma wrap_range z : Int32.fits (Int32.wrap z).
Proof.
  unfold Int32.fits, Int32.wrap, Int32.INT_MIN, Int32.INT_MAX.
  pose proof (Z.mod_pos_bound (z + 2147483648) 4294967296). lia.
Qed.

Lemma bind_Ok {A B} (a : A) (k : A -> result B) : (Ok a ≫= k) = k a.
Proof. reflexivity. Qed.

Lemma bind_Ok_inv {A B} (m : result A) (k : A -> result B) b :
  (m ≫= k) = Ok b -> exists a, m = Ok a /\ k a = Ok b.
Proof. destruct m; simpl; intros H; try discriminate. eauto. Qed.

Lemma foldM_app {A St} (body : A -> St -> result St) l1 l2 s :
  foldM body (l1 ++ l2) s = (foldM body l1 s ≫= foldM body l2).
Proof.
  revert s. induction l1 as [|x l1 IH]; intros s; simpl; [reflexivity|].
  destruct (body x s); simpl; auto.
Qed.

(** Total-correctness rule for a loop over a list: the invariant is indexed
    by the number of iterations done. *)
Lemma foldM_inv {A St} (I : nat -> St -> Prop) (body : A -> St -> result St) l s :
  I 0%nat s ->
  (forall i x s, l !! i = Some x -> I i s ->
                 exists s', body x s = Ok s' /\ I (S i) s') ->
  exists s', foldM body l s = Ok s' /\ I (length l) s'.
Proof.
  revert I s. induction l as [|x l IH]; intros I s H0 Hstep; simpl.
  - eauto.
  - destruct (Hstep 0%nat x s eq_refl H0) as (s1 & -> & H1). simpl.
    apply (IH (fun i => I (S i))); [exact H1|].
    intros i y s2 Hl Hi. apply (Hstep (S i)); assumption.
Qed.

(** Partial-correctness rule: what a loop that ran to completion ensures. *)
Lemma foldM_post {A St} (I : nat -> St -> Prop) (body : A -> St -> result St) l s s' :
  I 0%nat s ->
  (forall i x s s', l !! i = Some x -> I i s -> body x s = Ok s' -> I (S i) s') ->
  foldM body l s = Ok s' -> I (length l) s'.
Proof.
  revert I s. induction l as [|x l IH]; intros I s H0 Hstep; simpl.
  - intros [= <-]. exact H0.
  - intros H. apply bind_Ok_inv in H as (s1 & Hb & H).
    apply (IH (fun i => I (S i)) s1); [|intros i y t t' Hl; apply (Hstep (S i)); exact Hl|exact H].
    apply (Hstep 0%nat x s s1 eq_refl H0 Hb).
Qed.

Lemma for_range_inv {St} (I : Z -> St -> Prop) n (body : Z -> St -> result St) s :
  0 <= n ->
  I 0 s ->
  (forall i s, 0 <= i < n -> I i s -> exists s', body i s = Ok s' /\ I (i + 1) s') ->
  exists s', for_range n body s = Ok s' /\ I n s'.
Proof.
  intros Hn H0 Hstep. unfold for_range.
  destruct (foldM_inv (fun k => I (Z.of_nat k)) body (seqZ 0 n) s) as (s' & Hr & Hs').
  - exact H0.
  - intros i x t Hl Hi. apply lookup_seqZ in Hl as [-> Hlt].
    destruct (Hstep (Z.of_nat i) t) as (t' & Hb & Ht'); [lia|exact Hi|].
    exists t'. split; [exact Hb|].
    replace (Z.of_nat (S i)) with (Z.of_nat i + 1) by lia. exact Ht'.
  - exists s'. split; [exact Hr|].
    rewrite length_seqZ, Z2Nat.id in Hs' by lia. exact Hs'.
Qed.

Lemma for_range_post {St} (I : Z -> St -> Prop) n (body : Z -> St -> result St) s s' :
  0 <= n ->
  I 0 s ->
  (forall i s s', 0 <= i < n -> I i s -> body i s = Ok s' -> I (i + 1) s') ->
  for_range n body s = Ok s' -> I n s'.
Proof.
  intros Hn H0 Hstep Hr. unfold for_range in Hr.
  pose proof (foldM_post (fun k => I (Z.of_nat k)) body (seqZ 0 n) s s') as H.
  rewrite length_seqZ, Z2Nat.id in H by lia. apply H; [exact H0| |exact Hr].
  intros i x t t' Hl Hi Hb. apply lookup_seqZ in Hl as [-> Hlt].
  replace (Z.of_nat (S i)) with (Z.of_nat i + 1) by lia.
  apply (Hstep (Z.of_nat i) t t'); [lia|exact Hi|exact Hb].
Qed.

Lemma at_index_Ok {A} (v : list A) i x :
  0 <= i -> v !! Z.to_nat i = Some x -> at_index v i = Ok x.
Proof.
  intros Hi Hl. unfold at_index. pose proof (lookup_lt_Some _ _ _ Hl).
  rewrite Hl. destruct (0 <=? i) eqn:E1; [|lia].
  destruct (i <? Z.of_nat (length v)) eqn:E2; [reflexivity|lia].
Qed.

Lemma at_index_inv {A} (v : list A) i x :
  at_index v i = Ok x -> 0 <= i < Z.of_nat (length v) /\ v !! Z.to_nat i = Some x.
Proof.
  unfold at_index. destruct (0 <=? i) eqn:E1; [|discriminate].
  destruct (i <? Z.of_nat (length v)) eqn:E2; [|discriminate]. simpl.
  destruct (v !! Z.to_nat i) eqn:E; [|discriminate]. intros [= ->].
  split; [lia|reflexivity].
Qed.

Lemma at_index_nat {A} (v : list A) (k : nat) x :
  v !! k = Some x -> at_index v (Z.of_nat k) = Ok x.
Proof. intros H. apply at_index_Ok; [lia|]. rewrite Nat2Z.id. exact H. Qed.

(** ** Mixed-radix arithmetic *)

Lemma product_app l1 l2 : product (l1 ++ l2) = product l1 * product l2.
Proof. induction l1 as [|a l1 IH]; simpl; [lia|]. rewrite IH. lia. Qed.

Lemma product_pos l : Forall (fun s => 0 < s) l -> 0 < product l.
Proof. induction 1; simpl; lia. Qed.

Lemma product_take_S l k s :
  l !! k = Some s -> product (take (S k) l) = product (take k l) * s.
Proof.
  intros H. rewrite (take_S_r _ _ _ H), product_app. simpl. lia.
Qed.

Lemma product_take_le l k :
  Forall (fun s => 0 < s) l -> product (take k l) <= product l.
Proof.
  intros H. rewrite <- (take_drop k l) at 2. rewrite product_app.
  pose proof (product_pos (take k l) (Forall_take _ _ _ H)) as H1.
  pose proof (product_pos (drop k l) (Forall_drop _ _ _ H)). nia.
Qed.

Lemma digits_length sizes n : length (digits sizes n) = length sizes.
Proof. revert n. induction sizes; intros n; simpl; auto. Qed.

Lemma digits_lookup sizes n d s :
  Forall (fun s => 0 < s) sizes -> sizes !! d = Some s ->
  digits sizes n !! d = Some ((n / product (take d sizes)) mod s).
Proof.
  intros Hpos. revert n d. induction Hpos as [|s0 ss Hs0 Hss IH]; intros n d Hl.
  - discriminate.
  - destruct d as [|d]; simpl in *.
    + injection Hl as ->. by rewrite Z.div_1_r.
    + rewrite (IH _ _ Hl). do 2 f_equal.
      pose proof (product_pos _ (Forall_take _ d _ Hss)).
      rewrite Z.div_div by lia. reflexivity.
Qed.

Lemma digits_valid sizes n :
  Forall (fun s => 0 < s) sizes -> valid_coords sizes (digits sizes n).
Proof.
  intros H. unfold valid_coords. revert n.
  induction H as [|s ss Hs Hss IH]; intros n; simpl; constructor.
  - apply Z.mod_pos_bound; lia.
  - apply IH.
Qed.

Lemma value_digits sizes n :
  Forall (fun s => 0 < s) sizes -> 0 <= n < product sizes ->
  mixed_radix_value sizes (digits sizes n) = n.
Proof.
  intros H. revert n. induction H as [|s ss Hs Hss IH]; intros n Hn; simpl in *.
  - lia.
  - rewrite IH.
    + pose proof (Z.div_mod n s). lia.
    + split; [apply Z.div_pos; lia|]. apply Z.div_lt_upper_bound; lia.
Qed.

Lemma value_bound sizes c :
  valid_coords sizes c -> 0 <= mixed_radix_value sizes c < product sizes.
Proof. induction 1; simpl; [lia|nia]. Qed.

Lemma digits_value sizes c :
  valid_coords sizes c -> digits sizes (mixed_radix_value sizes c) = c.
Proof.
  induction 1 as [|s c ss cs Hc Hcs IH]; simpl; [reflexivity|].
  set (v := mixed_radix_value ss cs) in *.
  replace (c + s * v) with (c + v * s) by lia. f_equal.
  - rewrite Z_mod_plus_full. apply Z.mod_small. lia.
  - rewrite Z.div_add by lia. rewrite (Z.div_small c s) by lia. exact IH.
Qed.

Lemma value_snoc ss cs s x :
  length ss = length cs ->
  mixed_radix_value (ss ++ [s]) (cs ++ [x]) = mixed_radix_value ss cs + x * product ss.
Proof.
  revert cs. induction ss as [|s0 ss IH]; intros [|c0 cs] Hlen; simpl in *; try lia.
  rewrite IH by lia. lia.
Qed.

Lemma valid_coords_take sizes c k :
  valid_coords sizes c -> valid_coords (take k sizes) (take k c).
Proof. apply Forall2_take. Qed.

Lemma num_dims_fits (sizes : list Z) :
  Z.of_nat (length sizes) <= Int32.INT_MAX ->
  UniTorus.num_dims sizes = Z.of_nat (length sizes).
Proof.
  intros H. apply wrap_fits. unfold Int32.fits, Int32.INT_MIN, Int32.INT_MAX in *. lia.
Qed.

Lemma NodeToCoords_digits sizes n :
  Forall (fun s => 0 < s) sizes ->
  Z.of_nat (length sizes) <= Int32.INT_MAX ->
  0 <= n ->
  UniTorus._NodeToCoords sizes n = Ok (digits sizes n).
Proof.
  intros Hpos HD Hn. unfold UniTorus._NodeToCoords.
  rewrite num_dims_fits by exact HD.
  destruct (for_range_inv
    (fun k (st : list Z * Z) =>
       length st.1 = length sizes /\
       st.2 = n / product (take (Z.to_nat k) sizes) /\
       forall d, (d < Z.to_nat k)%nat -> st.1 !! d = digits sizes n !! d)
    (Z.of_nat (length sizes))
    (fun dim '(coords, temp) =>
       s ← at_index sizes dim;
       if s =? 0 then Crash
       else _ ← at_index coords dim;
            Ok (<[Z.to_nat dim := Int32.rem temp s]> coords, Int32.div temp s))
    (replicate (length sizes) 0, n)) as ([coords temp] & -> & Hlen & _ & Hco).
  - lia.
  - simpl. rewrite length_replicate, Z.div_1_r. repeat split; auto. intros d Hd; lia.
  - intros i [coords temp] Hi (Hlen & Htemp & Hco). simpl in *.
    destruct (lookup_lt_is_Some_2 sizes (Z.to_nat i)) as [s Hs]; [lia|].
    assert (0 < s) as Hspos by (eapply (Forall_lookup_1 _ _ _ _ Hpos); eauto).
    pose proof (product_pos _ (Forall_take _ (Z.to_nat i) _ Hpos)) as HP.
    assert (0 <= temp) as Htpos by (subst temp; apply Z.div_pos; lia).
    rewrite (at_index_Ok _ _ _ (proj1 Hi) Hs). simpl.
    destruct (s =? 0) eqn:E; [lia|].
    destruct (lookup_lt_is_Some_2 coords (Z.to_nat i)) as [c0 Hc0]; [lia|].
    rewrite (at_index_Ok _ _ _ (proj1 Hi) Hc0). simpl.
    eexists. split; [reflexivity|]. simpl.
    replace (Z.to_nat (i + 1)) with (S (Z.to_nat i)) by lia.
    unfold Int32.rem, Int32.div.
    rewrite Z.rem_mod_nonneg, Z.quot_div_nonneg by lia.
    split; [by rewrite length_insert|]. split.
    + rewrite (product_take_S _ _ _ Hs), Htemp, Z.div_div by lia. reflexivity.
    + intros d Hd. destruct (decide (d = Z.to_nat i)) as [->|Hne].
      * rewrite list_lookup_insert_eq by lia.
        rewrite (digits_lookup _ _ _ _ Hpos Hs), Htemp. reflexivity.
      * rewrite list_lookup_insert_ne by auto. apply Hco. lia.
  - simpl in *. f_equal. apply list_eq. intros d.
    destruct (decide (d < length sizes)%nat) as [Hd|Hd].
    + apply Hco. lia.
    + rewrite !lookup_ge_None_2; auto; rewrite ?digits_length; lia.
Qed.

Lemma CoordsToNode_value sizes c :
  valid_coords sizes c ->
  Z.of_nat (length sizes) <= Int32.INT_MAX ->
  product sizes <= Int32.INT_MAX ->
  UniTorus._CoordsToNode sizes c = Ok (mixed_radix_value sizes c).
Proof.
  intros Hv HD HP. unfold UniTorus._CoordsToNode.
  rewrite num_dims_fits by exact HD.
  assert (Forall (fun s => 0 < s) sizes) as Hpos.
  { clear -Hv. induction Hv; constructor; auto. lia. }
  pose proof (Forall2_length _ _ _ Hv) as Hlen.
  destruct (for_range_inv
    (fun k (st : Z * Z) =>
       st.1 = mixed_radix_value (take (Z.to_nat k) sizes) (take (Z.to_nat k) c) /\
       st.2 = product (take (Z.to_nat k) sizes))
    (Z.of_nat (length sizes))
    (fun dim '(node, multiplier) =>
       c ← at_index c dim;
       s ← at_index sizes dim;
       Ok (Int32.add node (Int32.mul c multiplier), Int32.mul multiplier s))
    (0, 1)) as ([node mult] & -> & Hnode & _).
  - lia.
  - simpl. auto.
  - intros i [node mult] Hi (Hnode & Hmult). simpl in *.
    destruct (lookup_lt_is_Some_2 sizes (Z.to_nat i)) as [s Hs]; [lia|].
    destruct (lookup_lt_is_Some_2 c (Z.to_nat i)) as [x Hx]; [lia|].
    rewrite (at_index_Ok _ _ _ (proj1 Hi) Hx). simpl.
    rewrite (at_index_Ok _ _ _ (proj1 Hi) Hs). simpl.
    eexists. split; [reflexivity|]. simpl.
    replace (Z.to_nat (i + 1)) with (S (Z.to_nat i)) by lia.
    rewrite (take_S_r _ _ _ Hs), (take_S_r _ _ _ Hx).
    rewrite value_snoc by (rewrite !length_take; lia).
    rewrite product_app. simpl.
    pose proof (Forall2_lookup_lr _ _ _ _ _ _ Hv Hs Hx) as Hxs. simpl in Hxs.
    pose proof (value_bound _ _ (valid_coords_take _ _ (Z.to_nat i) Hv)) as Hb.
    pose proof (product_take_le sizes (S (Z.to_nat i)) Hpos) as Hle.
    rewrite (product_take_S _ _ _ Hs) in Hle.
    rewrite <- Hnode, <- Hmult in *.
    unfold Int32.add, Int32.mul.
    rewrite (wrap_fits (x * mult)), wrap_fits, wrap_fits;
      unfold Int32.fits, Int32.INT_MIN, Int32.INT_MAX in *; nia.
  - simpl in *. f_equal. rewrite Hnode, Nat2Z.id.
    rewrite firstn_all, Hlen, firstn_all. reflexivity.
Qed.

(** C4. For dimension sizes that are positive and whose count and product
    are representable as [int], [_NodeToCoords] and [_CoordsToNode] are
    mutually inverse between node ids in [0, prod sizes) and valid
    coordinate tuples, and the coordinate of dimension [d] is
    [(n / prod_{i<d} sizes[i]) mod sizes[d]]. *)
Theorem C4_unitorus_coords_bijection (sizes : list Z) :
  Forall (fun s => 0 < s) sizes ->
  Z.of_nat (length sizes) <= Int32.INT_MAX ->
  product sizes <= Int32.INT_MAX ->
  (forall n, 0 <= n < product sizes ->
     exists c, UniTorus._NodeToCoords sizes n = Ok c /\
               valid_coords sizes c /\
               (forall d s, sizes !! d = Some s ->
                  c !! d = Some ((n / product (take d sizes)) mod s)) /\
               UniTorus._CoordsToNode sizes c = Ok n) /\
  (forall c, valid_coords sizes c ->
     exists n, UniTorus._CoordsToNode sizes c = Ok n /\
               0 <= n < product sizes /\
               UniTorus._NodeToCoords sizes n = Ok c).
Proof.
  intros Hpos HD HP. split.
  - intros n Hn. exists (digits sizes n).
    split; [apply NodeToCoords_digits; auto; lia|].
    split; [apply digits_valid; auto|].
    split; [intros d s Hs; apply digits_lookup; auto|].
    rewrite CoordsToNode_value; auto using digits_valid.
    f_equal. apply value_digits; auto.
  - intros c Hc. exists (mixed_radix_value sizes c).
    pose proof (value_bound _ _ Hc) as Hb.
    split; [apply CoordsToNode_value; auto|]. split; [exact Hb|].
    rewrite NodeToCoords_digits by (auto; lia).
    f_equal. apply digits_value; auto.
Qed.

Lemma C4_unitorus_coords_bijection_witness :
  (forall n, 0 <= n < product [4; 4; 4] ->
     exists c, UniTorus._NodeToCoords [4; 4; 4] n = Ok c /\
               valid_coords [4; 4; 4] c /\
               (forall d s, [4; 4; 4] !! d = Some s ->
                  c !! d = Some ((n / product (take d [4; 4; 4])) mod s)) /\
               UniTorus._CoordsToNode [4; 4; 4] c = Ok n) /\
  (forall c, valid_coords [4; 4; 4] c ->
     exists n, UniTorus._CoordsToNode [4; 4; 4] c = Ok n /\
               0 <= n < product [4; 4; 4] /\
               UniTorus._NodeToCoords [4; 4; 4] n = Ok c).
Proof.
  apply (C4_unitorus_coords_bijection [4; 4; 4]).
  - repeat constructor.
  - vm_compute. discriminate.
  - vm_compute. discriminate.
Defined.

Tactic Notation "inv_bind" hyp(H) :=
  let a := fresh "a" in
  let Ha := fresh "H" a in
  apply bind_Ok_inv in H as (a & Ha & H).
Tactic Notation "inv_bind" hyp(H) "as" simple_intropattern(x) ident(Hx) :=
  apply bind_Ok_inv in H as (x & Hx & H).

(** ** Registry, defaults, globals and arity of [dim_sizes] *)

(** C9. [UniTorus::RegisterRoutingFunctions] maps the name
    [dim_order_unitorus_unitorus]; [Cake::RegisterRoutingFunctions] leaves
    the registry as it found it, so that after both registrations on an
    empty registry the name [dor_cake] is not mapped. *)
Theorem C9_registry_after_registration (m : RoutingFunctionMap) :
  UniTorus.RegisterRoutingFunctions m !! "dim_order_unitorus_unitorus"%string
    = Some dim_order_unitorus /\
  Cake.RegisterRoutingFunctions m = m /\
  Cake.RegisterRoutingFunctions (UniTorus.RegisterRoutingFunctions ∅) !! "dor_cake"%string
    = None /\
  UniTorus.RegisterRoutingFunctions (Cake.RegisterRoutingFunctions ∅) !! "dor_cake"%string
    = None.
Proof.
  unfold UniTorus.RegisterRoutingFunctions, Cake.RegisterRoutingFunctions.
  split; [apply lookup_insert_eq|]. split; [reflexivity|].
  split; (rewrite lookup_insert_ne by discriminate; apply lookup_empty).
Qed.

Lemma parseAndValidate_zero D : UniTorus.parseAndValidate D "0" = Ok [].
Proof. reflexivity. Qed.
Lemma parseAndValidate_empty D : UniTorus.parseAndValidate D "" = Ok [].
Proof. reflexivity. Qed.
Lemma parseAndValidatePenalty_zero D : UniTorus.parseAndValidatePenalty D "0" = Ok [].
Proof. reflexivity. Qed.
Lemma parseAndValidatePenalty_empty D : UniTorus.parseAndValidatePenalty D "" = Ok [].
Proof. reflexivity. Qed.

Lemma resize_nil n x : UniTorus.resize n x [] = replicate (Z.to_nat n) x.
Proof. unfold UniTorus.resize. simpl. rewrite take_nil, Nat.sub_0_r. reflexivity. Qed.

(** C10. For UniTorus the literal value "0" of [dim_bandwidth],
    [dim_latency] or [dim_penalty] is read exactly like the empty (missing)
    value: both parsing lambdas return the empty vector, the direction
    configuration is the same as without the key, and with all three at
    "0" it is the defaults (1, 1, 0) per dimension.  Another spelling of
    zero is rejected as non-positive or as a count mismatch. *)
Theorem C10_zero_string_reads_as_missing (config : Configuration) (dim_sizes : list Z) :
  (forall D, UniTorus.parseAndValidate D "0" = UniTorus.parseAndValidate D "" /\
             UniTorus.parseAndValidate D "0" = Ok [] /\
             UniTorus.parseAndValidatePenalty D "0" = UniTorus.parseAndValidatePenalty D "" /\
             UniTorus.parseAndValidatePenalty D "0" = Ok []) /\
  UniTorus._ParseDirectionConfig (set_str "dim_bandwidth" "0" config) dim_sizes
    = UniTorus._ParseDirectionConfig (set_str "dim_bandwidth" "" config) dim_sizes /\
  UniTorus._ParseDirectionConfig (set_str "dim_latency" "0" config) dim_sizes
    = UniTorus._ParseDirectionConfig (set_str "dim_latency" "" config) dim_sizes /\
  UniTorus._ParseDirectionConfig (set_str "dim_penalty" "0" config) dim_sizes
    = UniTorus._ParseDirectionConfig (set_str "dim_penalty" "" config) dim_sizes /\
  UniTorus._ParseDirectionConfig
      (set_str "dim_bandwidth" "0"
         (set_str "dim_latency" "0" (set_str "dim_penalty" "0" config))) dim_sizes
    = Ok {| UniTorus.dir_bandwidth :=
              replicate (Z.to_nat (UniTorus.num_dims dim_sizes)) 1;
            UniTorus.dir_latency :=
              replicate (Z.to_nat (UniTorus.num_dims dim_sizes)) 1;
            UniTorus.dir_penalty :=
              replicate (Z.to_nat (UniTorus.num_dims dim_sizes)) 0 |} /\
  UniTorus.parseAndValidate 1 "00"
    = Exit "Error: All values must be positive integers." /\
  UniTorus.parseAndValidate 2 "00"
    = Exit "Error: value count does not match the number of dimensions.".
Proof.
  split; [intros D; repeat split; reflexivity|].
  unfold UniTorus._ParseDirectionConfig. cbn [GetStr set_str].
  repeat split; try reflexivity.
  cbn. rewrite !resize_nil. reflexivity.
Qed.

Lemma UniTorus_BuildNet_fields self net :
  UniTorus._BuildNet self = Ok net ->
  UniTorus._dim_sizes net = UniTorus._dim_sizes self /\
  UniTorus._dim_bandwidth net = UniTorus._dim_bandwidth self /\
  UniTorus._size net = UniTorus._size self.
Proof.
  unfold UniTorus._BuildNet. intros H.
  inv_bind H. inv_bind H. inv_bind H. injection H as <-. auto.
Qed.

Lemma Cake_BuildNet_fields self net :
  Cake._BuildNet self = Ok net ->
  Cake._x net = Cake._x self /\ Cake._y net = Cake._y self /\
  Cake._layers net = Cake._layers self /\
  Cake._elevators net = Cake._elevators self /\
  Cake._elevator_index net = Cake._elevator_index self /\
  Cake._elevator_map net = Cake._elevator_map self /\
  Cake._inplane_channels net = Cake._inplane_channels self /\
  Cake._vertical_channels net = Cake._vertical_channels self /\
  Cake._size net = Cake._size self /\
  Cake._channels net = Cake._channels self.
Proof.
  unfold Cake._BuildNet. intros H.
  inv_bind H. inv_bind H. inv_bind H. inv_bind H. inv_bind H.
  injection H as <-. simpl. repeat split; reflexivity.
Qed.

Lemma Cake_BuildNet_eject self net :
  Cake._BuildNet self = Ok net ->
  Cake._eject net = Cake._eject self /\ Cake._nodes net = Cake._nodes self.
Proof.
  unfold Cake._BuildNet. intros H.
  inv_bind H. inv_bind H. inv_bind H. inv_bind H. inv_bind H.
  injection H as <-. simpl. split; reflexivity.
Qed.

Lemma UniTorus_new_inv config g net g' :
  UniTorus.new config g = Ok (net, g') ->
  exists sz dir,
    UniTorus._ComputeSize config g = Ok (sz, g') /\
    UniTorus._ParseDirectionConfig config (UniTorus.sz_dim_sizes sz) = Ok dir /\
    UniTorus._dim_sizes net = UniTorus.sz_dim_sizes sz /\
    UniTorus._dim_bandwidth net = UniTorus.dir_bandwidth dir /\
    UniTorus._size net = UniTorus.sz_size sz.
Proof.
  unfold UniTorus.new. intros H.
  inv_bind H as [sz g1] Hsz. inv_bind H as dir Hdir. inv_bind H as net1 Hnet.
  injection H as <- <-.
  apply UniTorus_BuildNet_fields in Hnet as (? & ? & ?).
  exists sz, dir. simpl in *. auto.
Qed.

Lemma UniTorus_ComputeSize_globals config g sz g' :
  UniTorus._ComputeSize config g = Ok (sz, g') ->
  gN g' = UniTorus.num_dims (UniTorus.sz_dim_sizes sz) /\
  at_index (UniTorus.sz_dim_sizes sz) 0 = Ok (gK g') /\
  gDimSizes g' = UniTorus.sz_dim_sizes sz.
Proof.
  unfold UniTorus._ComputeSize. intros H.
  destruct (_ || _); [discriminate|].
  inv_bind H. inv_bind H. injection H as <- <-. simpl. auto.
Qed.

Lemma Cake_new_inv config g net g' :
  Cake.new config g = Ok (net, g') ->
  exists sz el,
    Cake._ComputeSize config g = Ok (sz, g') /\
    Cake._ParseElevators config sz = Ok el /\
    Cake._BuildNet (Cake.allocated config sz el) = Ok net.
Proof.
  unfold Cake.new. intros H.
  inv_bind H as [sz g1] Hsz. inv_bind H as el Hel. inv_bind H as net1 Hnet.
  injection H as <- <-. eauto.
Qed.

Lemma Cake_ComputeSize_inv config g sz g' :
  Cake._ComputeSize config g = Ok (sz, g') ->
  0 < Cake.sz_x sz /\ 0 < Cake.sz_y sz /\ 0 < Cake.sz_layers sz /\
  Cake.sz_size sz =
    Int32.mul (Int32.mul (Cake.sz_x sz) (Cake.sz_y sz)) (Cake.sz_layers sz) /\
  Cake.sz_nodes sz = Cake.sz_size sz /\
  Cake.sz_inplane_channels sz = Int32.mul (Cake.sz_size sz) 2 /\
  g' = {| gN := 2; gK := Cake.sz_x sz; gDimSizes := gDimSizes g |}.
Proof.
  unfold Cake._ComputeSize. intros H.
  inv_bind H as [[x y] layers] Hxyz.
  destruct (x <=? 0) eqn:Ex; [discriminate|].
  destruct (y <=? 0) eqn:Ey; [discriminate|].
  destruct (layers <=? 0) eqn:El; [discriminate|].
  simpl in H. injection H as <- <-. simpl. repeat split; lia.
Qed.

(** C8 (amended). After construction of a UniTorus, [gN] is the dimension
    count, [gK] the size of the leading dimension and [gDimSizes] the
    dimension-size sequence.  After construction of a Cake, [gK] is X,
    [gN] is 2 whatever the number of layers, and [gDimSizes] is left as
    it was. *)
Theorem C8_builder_globals :
  (forall config g net g',
     UniTorus.new config g = Ok (net, g') ->
     gN g' = UniTorus.GetN net /\
     at_index (UniTorus.GetDimSizes net) 0 = Ok (gK g') /\
     gDimSizes g' = UniTorus.GetDimSizes net) /\
  (forall config g net g',
     Cake.new config g = Ok (net, g') ->
     gN g' = 2 /\
     gK g' = Cake.X net /\
     gDimSizes g' = gDimSizes g).
Proof.
  split.
  - intros config g net g' H.
    apply UniTorus_new_inv in H as (sz & dir & Hsz & _ & Hd & _).
    apply UniTorus_ComputeSize_globals in Hsz.
    unfold UniTorus.GetN, UniTorus.GetDimSizes. rewrite Hd. exact Hsz.
  - intros config g net g' H.
    apply Cake_new_inv in H as (sz & el & Hsz & _ & Hb).
    apply Cake_ComputeSize_inv in Hsz as (_ & _ & _ & _ & _ & _ & ->).
    apply Cake_BuildNet_fields in Hb as (Hx & _). unfold Cake.X. rewrite Hx.
    simpl. auto.
Qed.

Lemma C8_builder_globals_witness :
  (exists net g', UniTorus.new cfg_unitorus_444 g_init = Ok (net, g') /\
                  gN g' = 3 /\ gDimSizes g' = [4; 4; 4]) /\
  (exists net g', Cake.new cfg_cake_332 g_init = Ok (net, g') /\
                  Cake.Layers net = 2 /\ gN g' = 2 /\ gK g' = 3 /\ gDimSizes g' = []).
Proof.
  split.
  - destruct (UniTorus.new cfg_unitorus_444 g_init) as [[net g']| |] eqn:E;
      [|vm_compute in E; discriminate..].
    exists net, g'. split; [reflexivity|].
    destruct (proj1 C8_builder_globals _ _ _ _ E) as (HN & _ & HD).
    rewrite HN, HD. vm_compute in E. injection E as <- <-. split; reflexivity.
  - destruct (Cake.new cfg_cake_332 g_init) as [[net g']| |] eqn:E;
      [|vm_compute in E; discriminate..].
    exists net, g'. split; [reflexivity|].
    destruct (proj2 C8_builder_globals _ _ _ _ E) as (HN & HK & HD).
    rewrite HN, HK, HD. vm_compute in E. injection E as <- <-. repeat split; reflexivity.
Defined.

(** C8 as stated fails: a Cake 3x3x2 leaves [gN = 2], not 3, and does not
    store [3; 3; 2] in [gDimSizes]. *)
Lemma C8_cake_globals_counterexample :
  exists net g', Cake.new cfg_cake_332 g_init = Ok (net, g') /\
                 (Cake.X net, Cake.Y net, Cake.Layers net) = (3, 3, 2) /\
                 gN g' <> 3 /\
                 gDimSizes g' <> [3; 3; 2].
Proof.
  destruct (Cake.new cfg_cake_332 g_init) as [[net g']| |] eqn:E;
    [|vm_compute in E; discriminate..].
  exists net, g'. split; [reflexivity|].
  vm_compute in E. injection E as <- <-. repeat split; discriminate.
Qed.

Lemma nonempty_false s : Str.nonempty s = false -> s = EmptyString.
Proof. destruct s; [reflexivity|discriminate]. Qed.

(** C7 (amended). Cake construction fails when [dim_sizes] has fewer than
    two values.  With two or more values, X and Y are the first two, Z is
    the third (1 when absent), further values are not looked at, and
    sizing succeeds exactly when X, Y and Z are positive. *)
Theorem C7_cake_dim_sizes_arity (config : Configuration) (g : Globals) :
  let toks := Cake.toks_of (GetStr config "dim_sizes") in
  ((length toks < 2)%nat ->
     exists msg, Cake._ComputeSize config g = Exit msg /\
                 Cake.new config g = Exit msg) /\
  (forall t0 t1 rest,
     toks = t0 :: t1 :: rest ->
     let x := Str.atoi t0 in
     let y := Str.atoi t1 in
     let layers := match rest with [] => 1 | t2 :: _ => Str.atoi t2 end in
     if (0 <? x) && (0 <? y) && (0 <? layers) then
       exists sz g', Cake._ComputeSize config g = Ok (sz, g') /\
                     Cake.sz_x sz = x /\ Cake.sz_y sz = y /\
                     Cake.sz_layers sz = layers
     else Cake.new config g = Exit "Invalid sizes for Cake").
Proof.
  intros toks. split.
  - intros Hlen. unfold Cake.new, Cake._ComputeSize.
    destruct (Str.nonempty (GetStr config "dim_sizes")) eqn:E.
    + fold toks. destruct (length toks <? 2)%nat eqn:E2.
      * eexists. split; reflexivity.
      * apply Nat.ltb_ge in E2. lia.
    + eexists. split; reflexivity.
  - intros t0 t1 rest Htoks x y layers.
    assert (Str.nonempty (GetStr config "dim_sizes") = true) as Hne.
    { destruct (Str.nonempty (GetStr config "dim_sizes")) eqn:E; [reflexivity|].
      apply nonempty_false in E. subst toks. rewrite E in Htoks. discriminate. }
    assert (forall B (k : Z * Z * Z -> result B),
      ((if Str.nonempty (GetStr config "dim_sizes") then
          let toks := Cake.toks_of (GetStr config "dim_sizes") in
          if (length toks <? 2)%nat then
            Exit "dim_sizes must have at least 2 values (x,y)"
          else
            t0 ← at_index toks 0;
            t1 ← at_index toks 1;
            layers ← (if (3 <=? length toks)%nat
                      then t2 ← at_index toks 2; Ok (Str.atoi t2)
                      else Ok 1);
            Ok (Str.atoi t0, Str.atoi t1, layers)
        else Exit "Cake requires 'dim_sizes' to specify {x,y[,layers]}") ≫= k)
      = k (x, y, layers)) as Hparse.
    { intros B k. rewrite Hne. fold toks. rewrite Htoks. cbv zeta.
      rewrite (at_index_Ok _ 0 t0), (at_index_Ok _ 1 t1) by (reflexivity || lia).
      destruct rest as [|t2 rest]; [reflexivity|].
      rewrite (at_index_Ok _ 2 t2) by (reflexivity || lia). reflexivity. }
    unfold Cake.new, Cake._ComputeSize. rewrite !Hparse.
    destruct (0 <? x) eqn:Ex; simpl.
    2:{ replace (x <=? 0) with true by lia. reflexivity. }
    replace (x <=? 0) with false by lia.
    destruct (0 <? y) eqn:Ey; simpl.
    2:{ replace (y <=? 0) with true by lia. reflexivity. }
    replace (y <=? 0) with false by lia.
    destruct (0 <? layers) eqn:El; simpl.
    2:{ replace (layers <=? 0) with true by lia. reflexivity. }
    replace (layers <=? 0) with false by lia. simpl.
    eexists _, _. split; [reflexivity|]. simpl. auto.
Qed.

Lemma C7_cake_dim_sizes_arity_witness :
  (exists msg, Cake.new (config_of [("dim_sizes"%string, "{7}"%string)]) g_init = Exit msg) /\
  (exists sz g', Cake._ComputeSize cfg_cake_2225 g_init = Ok (sz, g') /\
                 Cake.sz_x sz = 2 /\ Cake.sz_y sz = 2 /\ Cake.sz_layers sz = 2).
Proof.
  split.
  - destruct (proj1 (C7_cake_dim_sizes_arity
                       (config_of [("dim_sizes"%string, "{7}"%string)]) g_init))
      as (msg & _ & H).
    + vm_compute. lia.
    + exists msg. exact H.
  - exact (proj2 (C7_cake_dim_sizes_arity cfg_cake_2225 g_init)
             "2"%string "2"%string ["2"%string; "5"%string] eq_refl).
Defined.

(** C7 as stated fails: a list of four values builds a 2x2x2 Cake. *)
Lemma C7_more_than_three_values_counterexample :
  length (Cake.toks_of (GetStr cfg_cake_2225 "dim_sizes")) = 4%nat /\
  exists net g', Cake.new cfg_cake_2225 g_init = Ok (net, g') /\
                 (Cake.X net, Cake.Y net, Cake.Layers net) = (2, 2, 2).
Proof.
  split; [reflexivity|].
  destruct (Cake.new cfg_cake_2225 g_init) as [[net g']| |] eqn:E;
    [|vm_compute in E; discriminate..].
  exists net, g'. split; [reflexivity|].
  vm_compute in E. injection E as <- <-. reflexivity.
Qed.

(** ** Arithmetic of the Cake node ids *)

Section NodeArith.
Variables X Y L : Z.
Hypothesis HX : 0 < X.
Hypothesis HY : 0 < Y.

Lemma node_id_range x y z :
  0 <= x < X -> 0 <= y < Y -> 0 <= z < L ->
  0 <= node_id X Y x y z < X * Y * L.
Proof using HX HY.
  unfold node_id. intros Hx Hy Hz.
  assert (0 < X * Y) as HXY by (apply Z.mul_pos_pos; lia).
  assert (0 <= z * (X * Y) <= (L - 1) * (X * Y))
    by (split; [apply Z.mul_nonneg_nonneg|apply Z.mul_le_mono_nonneg_r]; lia).
  assert (0 <= y * X <= (Y - 1) * X)
    by (split; [apply Z.mul_nonneg_nonneg|apply Z.mul_le_mono_nonneg_r]; lia).
  lia.
Qed.

Lemma coords_of_node_id x y z :
  0 <= x < X -> 0 <= y < Y -> 0 <= z ->
  coords_of X Y (node_id X Y x y z) = (x, y, z).
Proof using HX HY.
  intros Hx Hy Hz. unfold coords_of, node_id.
  assert (0 < X * Y) as HXY by (apply Z.mul_pos_pos; lia).
  assert (0 <= y * X <= (Y - 1) * X) as HyX
    by (split; [apply Z.mul_nonneg_nonneg|apply Z.mul_le_mono_nonneg_r]; lia).
  assert (0 <= y * X + x < X * Y) as Hp by lia.
  replace (z * (X * Y) + y * X + x) with ((y * X + x) + z * (X * Y)) by lia.
  rewrite Z_mod_plus_full, Z.div_add by lia.
  rewrite (Z.mod_small (y * X + x) (X * Y)), (Z.div_small (y * X + x) (X * Y)) by lia.
  replace (y * X + x) with (x + y * X) by lia.
  rewrite Z_mod_plus_full, Z.div_add by lia.
  rewrite (Z.mod_small x X), (Z.div_small x X) by lia.
  rewrite !Z.add_0_l. reflexivity.
Qed.

Lemma coords_of_range id :
  0 <= id < X * Y * L ->
  let '(x, y, z) := coords_of X Y id in
  (0 <= x < X /\ 0 <= y < Y /\ 0 <= z < L) /\ node_id X Y x y z = id.
Proof using HX HY.
  intros Hid. unfold coords_of, node_id.
  assert (0 < X * Y) as Hp by (apply Z.mul_pos_pos; lia).
  pose proof (Z.mod_pos_bound id (X * Y) Hp) as Hm.
  pose proof (Z.mod_pos_bound (id mod (X * Y)) X HX).
  pose proof (Z.div_mod id (X * Y)).
  pose proof (Z.div_mod (id mod (X * Y)) X).
  assert (0 <= id mod (X * Y) / X < Y).
  { split; [apply Z.div_pos; lia|]. apply Z.div_lt_upper_bound; lia. }
  assert (0 <= id / (X * Y) < L).
  { split; [apply Z.div_pos; lia|]. apply Z.div_lt_upper_bound; lia. }
  repeat split; lia.
Qed.

Lemma node_id_inj x y z x' y' z' :
  0 <= x < X -> 0 <= y < Y -> 0 <= z ->
  0 <= x' < X -> 0 <= y' < Y -> 0 <= z' ->
  node_id X Y x y z = node_id X Y x' y' z' -> x = x' /\ y = y' /\ z = z'.
Proof using HX HY.
  intros Hx Hy Hz Hx' Hy' Hz' H.
  pose proof (coords_of_node_id x y z Hx Hy Hz) as H1.
  pose proof (coords_of_node_id x' y' z' Hx' Hy' Hz') as H2.
  rewrite H, H2 in H1. injection H1. auto.
Qed.

End NodeArith.

(** ** The Cake builder: code-level arithmetic without wrap-around *)

Lemma at_index_fmap_seqZ {A} (f : Z -> A) n i :
  0 <= i < n -> at_index (f <$> seqZ 0 n) i = Ok (f i).
Proof.
  intros Hi. apply at_index_Ok; [lia|].
  rewrite list_lookup_fmap, lookup_seqZ_lt by lia. simpl. f_equal. f_equal. lia.
Qed.

Section CakeArith.
Variable self : Cake.t.
Hypothesis ready : cake_ready self.

Local Abbreviation X := (Cake._x self).
Local Abbreviation Y := (Cake._y self).
Local Abbreviation L := (Cake._layers self).
Local Abbreviation E := (Z.of_nat (length (Cake._elevators self))).

Lemma cake_bounds :
  0 < X /\ 0 < Y /\ 0 < L /\ 0 < X * Y /\ X * Y <= X * Y * L /\
  0 < X * Y * L /\ 0 <= E * L /\
  2 * (X * Y * L) + 2 * (E * L) <= Int32.INT_MAX /\
  X <= X * Y.
Proof.
  destruct ready as [HX HY HL Hfits _ _ _ _ _ _ _ _ _ _ _ _ _ _ _ _].
  assert (0 < X * Y) by (apply Z.mul_pos_pos; lia).
  assert (0 < X * Y * L) by (apply Z.mul_pos_pos; lia).
  assert (0 <= E * L) by (apply Z.mul_nonneg_nonneg; lia).
  assert (X * Y * 1 <= X * Y * L) by (apply Z.mul_le_mono_nonneg_l; lia).
  assert (X * 1 <= X * Y) by (apply Z.mul_le_mono_nonneg_l; lia).
  repeat split; lia.
Qed.

Lemma cake_size : Cake._size self = X * Y * L.
Proof. apply ready. Qed.

Lemma wrap_small z : 0 <= z <= 2 * (X * Y * L) + 2 * (E * L) -> Int32.wrap z = z.
Proof.
  intros Hz. pose proof cake_bounds as B. apply wrap_fits.
  unfold Int32.fits, Int32.INT_MIN, Int32.INT_MAX in *. lia.
Qed.

Lemma NodeId_eq x y z :
  0 <= x < X -> 0 <= y < Y -> 0 <= z < L ->
  Cake._NodeId self x y z = node_id X Y x y z.
Proof.
  intros Hx Hy Hz. pose proof cake_bounds as B.
  pose proof (node_id_range X Y L ltac:(lia) ltac:(lia) x y z Hx Hy Hz) as Hn.
  unfold node_id in Hn.
  assert (0 <= z * (X * Y) <= (L - 1) * (X * Y))
    by (split; [apply Z.mul_nonneg_nonneg|apply Z.mul_le_mono_nonneg_r]; lia).
  assert (0 <= y * X <= (Y - 1) * X)
    by (split; [apply Z.mul_nonneg_nonneg|apply Z.mul_le_mono_nonneg_r]; lia).
  unfold Cake._NodeId, Int32.add, Int32.mul, node_id.
  rewrite (wrap_small (X * Y)) by lia.
  rewrite (wrap_small (z * (X * Y))) by lia.
  rewrite (wrap_small (y * X)) by lia.
  rewrite (wrap_small (z * (X * Y) + y * X)) by lia.
  apply wrap_small. lia.
Qed.

Lemma IdToXYZ_eq id :
  0 <= id < X * Y * L ->
  Cake._IdToXYZ self id = Ok (coords_of X Y id).
Proof.
  intros Hid. pose proof cake_bounds as B.
  unfold Cake._IdToXYZ, Int32.mul, checked_div, checked_rem, Int32.div, Int32.rem.
  rewrite (wrap_small (X * Y)) by lia.
  destruct (X * Y =? 0) eqn:E1; [lia|]. simpl.
  destruct (X =? 0) eqn:E2; [lia|]. simpl.
  unfold coords_of.
  pose proof (Z.mod_pos_bound id (X * Y) ltac:(lia)).
  rewrite (Z.rem_mod_nonneg id (X * Y)), (Z.quot_div_nonneg id (X * Y)) by lia.
  rewrite Z.rem_mod_nonneg, Z.quot_div_nonneg by lia. reflexivity.
Qed.

Lemma InplaneChannel_eq node dim :
  0 <= node < X * Y * L -> 0 <= dim <= 1 ->
  Cake._InplaneChannel self node dim = inplane_id node dim /\
  0 <= inplane_id node dim < 2 * (X * Y * L).
Proof.
  intros Hn Hd. pose proof cake_bounds as B.
  unfold Cake._InplaneChannel, Int32.add, Int32.mul, inplane_id.
  rewrite (wrap_small (node * 2)) by lia. split; [apply wrap_small|]; lia.
Qed.

Lemma vertical_id_range e z ud :
  0 <= e < E -> 0 <= z < L -> 0 <= ud <= 1 ->
  2 * (X * Y * L) <= vertical_id X Y L e z ud < 2 * (X * Y * L) + 2 * (E * L) /\
  0 <= e * L /\ 0 <= e * L + z < E * L.
Proof.
  intros He Hz Hud. pose proof cake_bounds as B. unfold vertical_id.
  assert (0 <= e * L <= (E - 1) * L)
    by (split; [apply Z.mul_nonneg_nonneg|apply Z.mul_le_mono_nonneg_r]; lia).
  lia.
Qed.

Lemma UpChannel_eq e z :
  0 <= e < E -> 0 <= z < L ->
  Cake._UpChannel self e z = vertical_id X Y L e z 0.
Proof.
  intros He Hz. pose proof (vertical_id_range e z 0 He Hz ltac:(lia)) as Hv.
  pose proof cake_bounds as B. unfold vertical_id in *.
  unfold Cake._UpChannel, Int32.add, Int32.mul.
  rewrite (ready_inplane _ ready), cake_size.
  rewrite (wrap_small (e * L)) by lia.
  rewrite (wrap_small (e * L + z)) by lia.
  rewrite (wrap_small ((e * L + z) * 2)) by lia.
  rewrite (wrap_small (2 * (X * Y * L) + (e * L + z) * 2)) by lia.
  apply wrap_small. lia.
Qed.

Lemma DownChannel_eq e z :
  0 <= e < E -> 0 <= z < L ->
  Cake._DownChannel self e z = vertical_id X Y L e z 1.
Proof.
  intros He Hz. pose proof (vertical_id_range e z 1 He Hz ltac:(lia)) as Hv.
  pose proof cake_bounds as B. unfold vertical_id in *.
  unfold Cake._DownChannel, Int32.add, Int32.mul.
  rewrite (ready_inplane _ ready), cake_size.
  rewrite (wrap_small (e * L)) by lia.
  rewrite (wrap_small (e * L + z)) by lia.
  rewrite (wrap_small ((e * L + z) * 2)) by lia.
  rewrite (wrap_small (2 * (X * Y * L) + (e * L + z) * 2)) by lia.
  apply wrap_small. lia.
Qed.

Lemma cake_channels : Cake._channels self = 2 * (X * Y * L) + 2 * (E * L).
Proof. rewrite (ready_channels _ ready), cake_size. reflexivity. Qed.

Lemma chan_at ch :
  0 <= ch < 2 * (X * Y * L) + 2 * (E * L) ->
  at_index (Cake._chan self) ch = Ok (Chan ch) /\
  at_index (Cake._chan_cred self) ch = Ok (ChanCred ch).
Proof.
  intros Hch. rewrite (ready_chan _ ready), (ready_chan_cred _ ready), cake_channels.
  split; apply at_index_fmap_seqZ; lia.
Qed.

Lemma inject_eject_at id :
  0 <= id < X * Y * L ->
  at_index (Cake._inject self) id = Ok (Inject id) /\
  at_index (Cake._inject_cred self) id = Ok (InjectCred id) /\
  at_index (Cake._eject self) id = Ok (Eject id) /\
  at_index (Cake._eject_cred self) id = Ok (EjectCred id).
Proof.
  intros Hid.
  rewrite (ready_inject _ ready), (ready_inject_cred _ ready),
    (ready_eject _ ready), (ready_eject_cred _ ready), (ready_nodes _ ready), cake_size.
  repeat split; apply at_index_fmap_seqZ; lia.
Qed.

Lemma next_coord a n :
  0 <= a < n -> n <= X * Y * L ->
  checked_rem (Int32.add a 1) n = Ok ((a + 1) mod n) /\ 0 <= (a + 1) mod n < n.
Proof.
  intros Ha Hn. pose proof cake_bounds as B.
  unfold checked_rem, Int32.add, Int32.rem.
  rewrite (wrap_small (a + 1)) by lia.
  destruct (n =? 0) eqn:E1; [lia|].
  rewrite Z.rem_mod_nonneg by lia. split; [reflexivity|].
  apply Z.mod_pos_bound. lia.
Qed.

Lemma prev_coord a n :
  0 <= a < n -> n <= X * Y * L ->
  checked_rem (Int32.add (Int32.sub a 1) n) n = Ok ((a - 1 + n) mod n) /\
  0 <= (a - 1 + n) mod n < n.
Proof.
  intros Ha Hn. pose proof cake_bounds as B.
  unfold checked_rem, Int32.add, Int32.sub, Int32.rem.
  rewrite (wrap_fits (a - 1))
    by (unfold Int32.fits, Int32.INT_MIN, Int32.INT_MAX in *; lia).
  rewrite (wrap_small (a - 1 + n)) by lia.
  destruct (n =? 0) eqn:E1; [lia|].
  rewrite Z.rem_mod_nonneg by lia. split; [reflexivity|].
  apply Z.mod_pos_bound. lia.
Qed.

End CakeArith.

(** ** Routers: erasing inputs, output-only operations, matching *)

Lemma bind_ex {A B} (m : result A) (k : A -> result B) a (P : B -> Prop) :
  m = Ok a -> (exists b, k a = Ok b /\ P b) -> exists b, (m ≫= k) = Ok b /\ P b.
Proof. intros ->. exact (fun H => H). Qed.

Lemma out_only_out_step set_port c cc :
  (forall p, out_only (set_port p)) -> out_only (out_step set_port c cc).
Proof.
  intros H r. unfold out_step. destruct (H (OutputIndexCount r) (AddOutputChannel c cc r))
    as [H1 H2].
  split; [rewrite H1|rewrite H2]; reflexivity.
Qed.

Lemma out_only_XPlus p : out_only (SetCakePortXPlus p).
Proof. intros r. split; reflexivity. Qed.
Lemma out_only_YPlus p : out_only (SetCakePortYPlus p).
Proof. intros r. split; reflexivity. Qed.
Lemma out_only_ZUp p : out_only (SetCakePortZUp p).
Proof. intros r. split; reflexivity. Qed.
Lemma out_only_ZDown p : out_only (SetCakePortZDown p).
Proof. intros r. split; reflexivity. Qed.
Lemma out_only_Eject p : out_only (SetCakePortEject p).
Proof. intros r. split; reflexivity. Qed.

Lemma with_router_Ok i f (rs : list (option Router)) r :
  0 <= i -> rs !! Z.to_nat i = Some (Some r) ->
  with_router i f rs = Ok (<[Z.to_nat i := Some (f r)]> rs).
Proof.
  intros Hi Hl. unfold with_router. rewrite (at_index_Ok _ _ _ Hi Hl). reflexivity.
Qed.

Lemma match_ext size eo ei eo' ei' rs :
  routers_match size eo ei rs ->
  (forall id, 0 <= id < size -> eo id = eo' id) ->
  (forall id c, 0 <= id < size -> ei id c <-> ei' id c) ->
  routers_match size eo' ei' rs.
Proof.
  intros [Hlen Hm] Ho Hi. split; [exact Hlen|].
  intros id Hid. destruct (Hm id Hid) as (r & Hr & Hs & Hc).
  exists r. split; [exact Hr|]. split; [rewrite <- Ho; auto|].
  intros c. rewrite Hc. apply Hi. exact Hid.
Qed.

Lemma match_out size eo ei rs i f :
  routers_match size eo ei rs -> 0 <= i < size -> out_only f ->
  exists rs', with_router i f rs = Ok rs' /\
              routers_match size (fun id => if id =? i then f (eo i) else eo id) ei rs'.
Proof.
  intros [Hlen Hm] Hi Hf. destruct (Hm i Hi) as (r & Hr & Hs & Hc).
  exists (<[Z.to_nat i := Some (f r)]> rs).
  split; [apply with_router_Ok; [lia|exact Hr]|].
  split; [rewrite length_insert; exact Hlen|].
  intros id Hid. destruct (id =? i) eqn:E.
  - assert (id = i) as -> by lia. exists (f r).
    rewrite list_lookup_insert_eq by lia. split; [reflexivity|].
    destruct (Hf r) as [H1 H2]. split; [rewrite H1, Hs; reflexivity|].
    intros c. rewrite H2. apply Hc.
  - rewrite list_lookup_insert_ne by lia. apply Hm. exact Hid.
Qed.

Lemma match_in size eo ei rs i c cc :
  routers_match size eo ei rs -> 0 <= i < size ->
  exists rs', with_router i (AddInputChannel c cc) rs = Ok rs' /\
              routers_match size eo (fun id c' => ei id c' \/ (id = i /\ c' = c)) rs'.
Proof.
  intros [Hlen Hm] Hi. destruct (Hm i Hi) as (r & Hr & Hs & Hc).
  exists (<[Z.to_nat i := Some (AddInputChannel c cc r)]> rs).
  split; [apply with_router_Ok; [lia|exact Hr]|].
  split; [rewrite length_insert; exact Hlen|].
  intros id Hid. destruct (decide (id = i)) as [->|Hne].
  - exists (AddInputChannel c cc r).
    rewrite list_lookup_insert_eq by lia. split; [reflexivity|].
    split; [exact Hs|].
    intros c'. simpl. rewrite elem_of_app, list_elem_of_singleton, Hc. tauto.
  - rewrite list_lookup_insert_ne by lia.
    destruct (Hm id Hid) as (r' & Hr' & Hs' & Hc').
    exists r'. split; [exact Hr'|]. split; [exact Hs'|].
    intros c'. rewrite Hc'. intuition lia.
Qed.

(** A loop nest over (z, y, x) visits the nodes in the order of their ids. *)
Lemma nested3_inv {St} (I : Z -> St -> Prop)
    (body : Z -> Z -> Z -> St -> result St) X Y L s :
  0 < X -> 0 < Y -> 0 < L ->
  I 0 s ->
  (forall x y z s, 0 <= x < X -> 0 <= y < Y -> 0 <= z < L ->
     I (node_id X Y x y z) s ->
     exists s', body x y z s = Ok s' /\ I (node_id X Y x y z + 1) s') ->
  exists s',
    for_range L (fun z s =>
      for_range Y (fun y s =>
        for_range X (fun x s => body x y z s) s) s) s = Ok s' /\
    I (X * Y * L) s'.
Proof.
  intros HX HY HL H0 Hstep.
  destruct (for_range_inv (fun z s => I (node_id X Y 0 0 z) s) L
              (fun z s => for_range Y (fun y s =>
                            for_range X (fun x s => body x y z s) s) s) s)
    as (s' & Hs' & HI); [lia|exact H0| |].
  - intros z s1 Hz Hs1.
    destruct (for_range_inv (fun y s => I (node_id X Y 0 y z) s) Y
                (fun y s => for_range X (fun x s => body x y z s) s) s1)
      as (s2 & Hs2 & HI2); [lia|exact Hs1| |].
    + intros y s3 Hy Hs3.
      destruct (for_range_inv (fun x s => I (node_id X Y x y z) s) X
                  (fun x s => body x y z s) s3)
        as (s4 & Hs4 & HI4); [lia|exact Hs3| |].
      * intros x s5 Hx Hs5.
        destruct (Hstep x y z s5 Hx Hy Hz Hs5) as (s6 & Hb & HI6).
        exists s6. split; [exact Hb|].
        replace (node_id X Y (x + 1) y z) with (node_id X Y x y z + 1)
          by (unfold node_id; lia). exact HI6.
      * exists s4. split; [exact Hs4|].
        replace (node_id X Y 0 (y + 1) z) with (node_id X Y X y z)
          by (unfold node_id; lia). exact HI4.
    + exists s2. split; [exact Hs2|].
      replace (node_id X Y 0 0 (z + 1)) with (node_id X Y 0 Y z)
        by (unfold node_id; lia). exact HI2.
  - exists s'. split; [exact Hs'|].
    replace (X * Y * L) with (node_id X Y 0 0 L) by (unfold node_id; lia). exact HI.
Qed.

Section CakeWiring.
Variable self : Cake.t.
Hypothesis ready : cake_ready self.

Local Abbreviation X := (Cake._x self).
Local Abbreviation Y := (Cake._y self).
Local Abbreviation L := (Cake._layers self).
Local Abbreviation E := (Z.of_nat (length (Cake._elevators self))).

Lemma connect_match size eo ei rs set_port from to ch :
  size = X * Y * L ->
  routers_match size eo ei rs ->
  (forall p, out_only (set_port p)) ->
  0 <= from < size -> 0 <= to < size ->
  0 <= ch < 2 * (X * Y * L) + 2 * (E * L) ->
  exists rs', Cake.connect self set_port from to ch rs = Ok rs' /\
    routers_match size
      (fun id => if id =? from
                 then out_step set_port (Chan ch) (ChanCred ch) (eo from)
                 else eo id)
      (fun id c => ei id c \/ (id = to /\ c = Chan ch)) rs'.
Proof.
  intros Hsize Hm Hsp Hfrom Hto Hch. unfold Cake.connect.
  destruct (chan_at self ready ch Hch) as [-> ->]. simpl.
  destruct (match_out _ _ _ _ from (out_step set_port (Chan ch) (ChanCred ch)) Hm Hfrom)
    as (rs1 & H1 & Hm1); [apply out_only_out_step; exact Hsp|].
  unfold out_step in H1 at 1. rewrite H1. simpl.
  apply match_in; assumption.
Qed.

(** *** Creation of the routers *)

Lemma pref_of_at x y :
  0 <= x < X -> 0 <= y < Y ->
  exists row, at_index (Cake._elevator_map self) y = Ok row /\
              at_index row x = Ok (pref_of self x y).
Proof.
  intros Hx Hy.
  destruct (lookup_lt_is_Some_2 (Cake._elevator_map self) (Z.to_nat y)) as [row Hrow].
  { rewrite (ready_map_rows _ ready). lia. }
  pose proof (Forall_lookup_1 _ _ _ _ (ready_map_cols _ ready) Hrow) as Hlen.
  simpl in Hlen.
  destruct (lookup_lt_is_Some_2 row (Z.to_nat x)) as [p Hp]; [lia|].
  exists row. split; [apply at_index_Ok; [lia|exact Hrow]|].
  unfold pref_of. rewrite Hrow. simpl. rewrite Hp. simpl.
  apply at_index_Ok; [lia|exact Hp].
Qed.

Lemma elev_of_Some id e :
  0 <= id < X * Y * L -> elev_of self id = Some e ->
  0 <= e < E /\
  Cake._elevators self !! Z.to_nat e
    = Some ((coords_of X Y id).1.1, (coords_of X Y id).1.2) /\
  0 <= (coords_of X Y id).2 < L /\
  0 <= e * L + (coords_of X Y id).2 < E * L.
Proof.
  intros Hid He. pose proof (cake_bounds self ready) as B.
  pose proof (coords_of_range X Y L ltac:(lia) ltac:(lia) id Hid) as Hc.
  unfold elev_of in He. destruct (coords_of X Y id) as [[x y] z]. simpl.
  destruct Hc as [(Hx & Hy & Hz) _].
  apply (ready_elev_index _ ready x y e Hx Hy) in He as [He0 He].
  pose proof (lookup_lt_Some _ _ _ He) as Hlt.
  assert (0 <= e < E) as HeE by lia.
  destruct (vertical_id_range self ready e z 0 HeE Hz ltac:(lia)) as (_ & _ & Hb).
  auto.
Qed.

Lemma elev_of_node e ex ey z :
  0 <= e -> Cake._elevators self !! Z.to_nat e = Some (ex, ey) -> 0 <= z < L ->
  (0 <= ex < X /\ 0 <= ey < Y) /\
  elev_of self (node_id X Y ex ey z) = Some e /\
  coords_of X Y (node_id X Y ex ey z) = (ex, ey, z) /\
  0 <= e < E.
Proof.
  intros He0 He Hz. pose proof (cake_bounds self ready) as B.
  destruct (ready_elev_range _ ready _ _ _ He) as [Hx Hy].
  pose proof (coords_of_node_id X Y ltac:(lia) ltac:(lia) ex ey z Hx Hy ltac:(lia)) as Hc.
  pose proof (lookup_lt_Some _ _ _ He) as Hlt.
  split; [auto|]. split; [|split; [exact Hc|lia]].
  unfold elev_of. rewrite Hc. apply (ready_elev_index _ ready); auto.
Qed.

Lemma stage_x_0 id r : 0 <= id -> stage_x 0 id r = r.
Proof. intros H. unfold stage_x. replace (id <? 0) with false by lia. reflexivity. Qed.
Lemma stage_y_0 id r : 0 <= id -> stage_y 0 id r = r.
Proof. intros H. unfold stage_y. replace (id <? 0) with false by lia. reflexivity. Qed.
Lemma stage_e_0 id r : 0 <= id -> stage_e 0 id r = r.
Proof. intros H. unfold stage_e. replace (id <? 0) with false by lia. reflexivity. Qed.
Lemma stage_v_0 id r : 0 <= id < X * Y * L -> stage_v self 0 id r = r.
Proof.
  intros H. unfold stage_v. destruct (elev_of self id) as [e|] eqn:He; [|reflexivity].
  destruct (elev_of_Some id e H He) as (_ & _ & _ & Hb).
  cbv zeta. replace (_ <? 0) with false by lia. reflexivity.
Qed.

Lemma stage_x_step p id r :
  stage_x (p + 1) id r =
  if id =? p
  then out_step SetCakePortXPlus (Chan (inplane_id p 0)) (ChanCred (inplane_id p 0))
         (stage_x p p r)
  else stage_x p id r.
Proof.
  unfold stage_x. destruct (id =? p) eqn:E1.
  - assert (id = p) as -> by lia.
    replace (p <? p + 1) with true by lia. replace (p <? p) with false by lia. reflexivity.
  - destruct (id <? p) eqn:E2; [replace (id <? p + 1) with true by lia
                               |replace (id <? p + 1) with false by lia]; reflexivity.
Qed.

Lemma stage_y_step p id r :
  stage_y (p + 1) id r =
  if id =? p
  then out_step SetCakePortYPlus (Chan (inplane_id p 1)) (ChanCred (inplane_id p 1))
         (stage_y p p r)
  else stage_y p id r.
Proof.
  unfold stage_y. destruct (id =? p) eqn:E1.
  - assert (id = p) as -> by lia.
    replace (p <? p + 1) with true by lia. replace (p <? p) with false by lia. reflexivity.
  - destruct (id <? p) eqn:E2; [replace (id <? p + 1) with true by lia
                               |replace (id <? p + 1) with false by lia]; reflexivity.
Qed.

Lemma stage_e_step p id r :
  stage_e (p + 1) id r =
  if id =? p
  then out_step SetCakePortEject (Eject p) (EjectCred p) (stage_e p p r)
  else stage_e p id r.
Proof.
  unfold stage_e. destruct (id =? p) eqn:E1.
  - assert (id = p) as -> by lia.
    replace (p <? p + 1) with true by lia. replace (p <? p) with false by lia. reflexivity.
  - destruct (id <? p) eqn:E2; [replace (id <? p + 1) with true by lia
                               |replace (id <? p + 1) with false by lia]; reflexivity.
Qed.

Lemma stage_v_step e ex ey z id r :
  0 <= e -> Cake._elevators self !! Z.to_nat e = Some (ex, ey) -> 0 <= z < L ->
  0 <= id < X * Y * L ->
  stage_v self (e * L + z + 1) id r =
  if id =? node_id X Y ex ey z
  then out_step SetCakePortZDown
         (Chan (vertical_id X Y L e z 1)) (ChanCred (vertical_id X Y L e z 1))
         (out_step SetCakePortZUp
            (Chan (vertical_id X Y L e z 0)) (ChanCred (vertical_id X Y L e z 0))
            (stage_v self (e * L + z) (node_id X Y ex ey z) r))
  else stage_v self (e * L + z) id r.
Proof.
  intros He0 He Hz Hid. pose proof (cake_bounds self ready) as B.
  destruct (elev_of_node e ex ey z He0 He Hz) as ((Hex & Hey) & Hel & Hco & HeE).
  destruct (id =? node_id X Y ex ey z) eqn:E1.
  - assert (id = node_id X Y ex ey z) as -> by lia.
    unfold stage_v. rewrite Hel, Hco. cbn [snd]. cbv zeta.
    replace (e * L + z <? e * L + z + 1) with true by lia.
    replace (e * L + z <? e * L + z) with false by lia. reflexivity.
  - unfold stage_v. destruct (elev_of self id) as [e'|] eqn:He'; [|reflexivity].
    destruct (elev_of_Some id e' Hid He') as (He'E & Hl' & Hz' & _).
    pose proof (coords_of_range X Y L ltac:(lia) ltac:(lia) id Hid) as Hc.
    destruct (coords_of X Y id) as [[x' y'] z']. cbn [fst snd] in *.
    destruct Hc as [_ Hnode]. cbv zeta.
    assert (e' * L + z' <> e * L + z) as Hne.
    { intros Heq. assert (e' = e) as -> by nia. assert (z' = z) as -> by lia.
      rewrite He in Hl'. injection Hl' as -> ->. lia. }
    destruct (e' * L + z' <? e * L + z) eqn:E2;
      [replace (e' * L + z' <? e * L + z + 1) with true by lia
      |replace (e' * L + z' <? e * L + z + 1) with false by lia]; reflexivity.
Qed.

Lemma expected_out_x p id :
  0 <= id < X * Y * L ->
  expected_out self p 0 0 0 id = stage_x p id (created self id).
Proof.
  intros H. unfold expected_out.
  rewrite stage_e_0, stage_v_0, stage_y_0 by lia. reflexivity.
Qed.

Lemma expected_out_y p id :
  0 <= id < X * Y * L ->
  expected_out self (X * Y * L) p 0 0 id
    = stage_y p id (stage_x (X * Y * L) id (created self id)).
Proof.
  intros H. unfold expected_out. rewrite stage_e_0, stage_v_0 by lia. reflexivity.
Qed.

Lemma expected_out_v p id :
  0 <= id < X * Y * L ->
  expected_out self (X * Y * L) (X * Y * L) p 0 id
    = stage_v self p id
        (stage_y (X * Y * L) id (stage_x (X * Y * L) id (created self id))).
Proof. intros H. unfold expected_out. rewrite stage_e_0 by lia. reflexivity. Qed.

Lemma expected_in_0 id c : 0 <= id -> ~ expected_in self 0 0 0 0 id c.
Proof.
  intros Hid. pose proof (cake_bounds self ready) as B. unfold expected_in.
  intros [(x & y & z & (Hx & Hy & Hz) & Hlt & _)|[(x & y & z & (Hx & Hy & Hz) & Hlt & _)|
          [(e & ex & ey & z & He0 & He & Hz & Hlt & _)|[Hlt _]]]].
  - pose proof (node_id_range X Y L ltac:(lia) ltac:(lia) x y z Hx Hy Hz). lia.
  - pose proof (node_id_range X Y L ltac:(lia) ltac:(lia) x y z Hx Hy Hz). lia.
  - assert (0 <= e * L) by (apply Z.mul_nonneg_nonneg; lia). lia.
  - lia.
Qed.

Lemma expected_in_step_x x y z pY pV pE id c :
  0 <= x < X -> 0 <= y < Y -> 0 <= z < L ->
  expected_in self (node_id X Y x y z + 1) pY pV pE id c <->
  expected_in self (node_id X Y x y z) pY pV pE id c \/
  (id = node_id X Y ((x + 1) mod X) y z /\ c = Chan (inplane_id (node_id X Y x y z) 0)).
Proof.
  intros Hx Hy Hz. pose proof (cake_bounds self ready) as B. unfold expected_in. split.
  - intros [(x' & y' & z' & (Hx' & Hy' & Hz') & Hlt & Hc & Hi)|H]; [|tauto].
    destruct (decide (node_id X Y x' y' z' = node_id X Y x y z)) as [Heq|Hne].
    + apply (node_id_inj X Y) in Heq as (-> & -> & ->); try lia. right. auto.
    + left. left. exists x', y', z'. repeat split; auto; lia.
  - intros [[(x' & y' & z' & Hr & Hlt & Hc & Hi)|H]|[Hi Hc]].
    + left. exists x', y', z'. repeat split; auto; lia.
    + tauto.
    + left. exists x, y, z. repeat split; auto; lia.
Qed.

Lemma expected_in_step_y x y z pX pV pE id c :
  0 <= x < X -> 0 <= y < Y -> 0 <= z < L ->
  expected_in self pX (node_id X Y x y z + 1) pV pE id c <->
  expected_in self pX (node_id X Y x y z) pV pE id c \/
  (id = node_id X Y x ((y + 1) mod Y) z /\ c = Chan (inplane_id (node_id X Y x y z) 1)).
Proof.
  intros Hx Hy Hz. pose proof (cake_bounds self ready) as B. unfold expected_in. split.
  - intros [H|[(x' & y' & z' & (Hx' & Hy' & Hz') & Hlt & Hc & Hi)|H]]; [tauto| |tauto].
    destruct (decide (node_id X Y x' y' z' = node_id X Y x y z)) as [Heq|Hne].
    + apply (node_id_inj X Y) in Heq as (-> & -> & ->); try lia. right. auto.
    + left. right. left. exists x', y', z'. repeat split; auto; lia.
  - intros [[H|[(x' & y' & z' & Hr & Hlt & Hc & Hi)|H]]|[Hi Hc]].
    + tauto.
    + right. left. exists x', y', z'. repeat split; auto; lia.
    + tauto.
    + right. left. exists x, y, z. repeat split; auto; lia.
Qed.

Lemma expected_in_step_v e ex ey z pX pY pE id c :
  0 <= e -> Cake._elevators self !! Z.to_nat e = Some (ex, ey) -> 0 <= z < L ->
  expected_in self pX pY (e * L + z + 1) pE id c <->
  (expected_in self pX pY (e * L + z) pE id c \/
   (id = node_id X Y ex ey ((z + 1) mod L) /\ c = Chan (vertical_id X Y L e z 0))) \/
  (id = node_id X Y ex ey ((z - 1 + L) mod L) /\ c = Chan (vertical_id X Y L e z 1)).
Proof.
  intros He0 He Hz. pose proof (cake_bounds self ready) as B. unfold expected_in. split.
  - intros [H|[H|[(e' & ex' & ey' & z' & He0' & He' & Hz' & Hlt & Hc)|H]]];
      [tauto|tauto| |tauto].
    destruct (decide (e' * L + z' = e * L + z)) as [Heq|Hne].
    + assert (e' = e) as -> by nia. assert (z' = z) as -> by lia.
      rewrite He in He'. injection He' as <- <-. tauto.
    + left. left. right. right. left. exists e', ex', ey', z'.
      repeat split; auto; lia.
  - intros [[[H|[H|[(e' & ex' & ey' & z' & He0' & He' & Hz' & Hlt & Hc)|H]]]|[Hi Hc]]|[Hi Hc]];
      [tauto|tauto| |tauto| |].
    + right. right. left. exists e', ex', ey', z'. repeat split; auto; lia.
    + right. right. left. exists e, ex, ey, z. repeat split; auto; try lia.
    + right. right. left. exists e, ex, ey, z. repeat split; auto; try lia.
Qed.

Lemma expected_in_step_e pX pY pV p id c :
  expected_in self pX pY pV (p + 1) id c <->
  expected_in self pX pY pV p id c \/ (id = p /\ c = Inject p).
Proof.
  unfold expected_in. split.
  - intros [H|[H|[H|[Hlt Hc]]]]; [tauto|tauto|tauto|].
    destruct (decide (id = p)) as [->|Hne]; [tauto|].
    left. right. right. right. split; [lia|exact Hc].
  - intros [[H|[H|[H|[Hlt Hc]]]]|[-> ->]]; [tauto|tauto|tauto| |].
    + right. right. right. split; [lia|exact Hc].
    + right. right. right. split; [lia|reflexivity].
Qed.

Lemma create_routers :
  exists rs,
    for_range (Cake._size self)
      (fun id routers =>
         '(x, y, z) ← Cake._IdToXYZ self id;
         let is_elev :=
           bool_decide (is_Some (Cake._elevator_index self !! Cake._Key x y)) in
         let net_ports := Int32.add 2 (if is_elev then 2 else 0) in
         let in_cnt := Int32.add net_ports 1 in
         let out_cnt := Int32.add net_ports 1 in
         routers ← set_index routers id (Some (NewRouter id in_cnt out_cnt));
         routers ← with_router id (SetCakeSizes X Y L) routers;
         routers ← with_router id (SetCakeXYZ x y z) routers;
         row ← at_index (Cake._elevator_map self) y;
         pref ← at_index row x;
         with_router id (SetCakeElevatorTarget (fst pref) (snd pref)) routers)
      (Cake._routers self) = Ok rs /\
    routers_match (X * Y * L) (expected_out self 0 0 0 0) (expected_in self 0 0 0 0) rs.
Proof.
  pose proof (cake_bounds self ready) as B.
  rewrite (cake_size self ready), (ready_routers _ ready), (cake_size self ready).
  edestruct (for_range_inv
    (fun k (rs : list (option Router)) =>
       length rs = Z.to_nat (X * Y * L) /\
       forall id, 0 <= id < k -> rs !! Z.to_nat id = Some (Some (created self id))))
    as (rs & Hrs & Hlen & Hall); [| | |exists rs; split; [exact Hrs|]].
  - lia.
  - split; [apply length_replicate|]. intros; lia.
  - intros id rs Hid [Hlen Hall].
    rewrite (IdToXYZ_eq self ready id Hid).
    pose proof (coords_of_range X Y L ltac:(lia) ltac:(lia) id Hid) as Hc.
    pose proof (eq_refl (created self id)) as Hcr. unfold created at 2 in Hcr.
    destruct (coords_of X Y id) as [[x y] z]. destruct Hc as [(Hx & Hy & Hz) _].
    rewrite bind_Ok. cbv zeta.
    destruct (lookup_lt_is_Some_2 rs (Z.to_nat id)) as [r0 Hr0]; [lia|].
    unfold set_index. rewrite (at_index_Ok _ _ _ (proj1 Hid) Hr0). simpl.
    erewrite with_router_Ok; [|lia|apply list_lookup_insert_eq; lia]. simpl.
    erewrite with_router_Ok; [|lia|apply list_lookup_insert_eq; rewrite !length_insert; lia].
    simpl.
    destruct (pref_of_at x y Hx Hy) as (row & Hrow & Hpref).
    rewrite Hrow, bind_Ok, Hpref, bind_Ok.
    erewrite with_router_Ok; [|lia|apply list_lookup_insert_eq; rewrite !length_insert; lia].
    eexists. split; [reflexivity|].
    rewrite !list_insert_insert_eq. split; [rewrite length_insert; exact Hlen|].
    intros id' Hid'. destruct (decide (id' = id)) as [->|Hne].
    + rewrite list_lookup_insert_eq by lia. rewrite Hcr. reflexivity.
    + rewrite list_lookup_insert_ne by lia. apply Hall. lia.
  - split; [exact Hlen|]. intros id Hid. exists (created self id).
    split; [apply Hall; exact Hid|].
    assert (forall r, _input_channels r = [] -> _input_credits r = [] -> strip_inputs r = r)
      as Hstrip by (intros [] ; simpl; intros -> ->; reflexivity).
    assert (_input_channels (created self id) = [] /\ _input_credits (created self id) = [])
      as [Hi1 Hi2].
    { unfold created. destruct (coords_of X Y id) as [[x y] z]. split; reflexivity. }
    split.
    + rewrite Hstrip by assumption.
      rewrite expected_out_x, stage_x_0 by lia. reflexivity.
    + intros c. rewrite Hi1. split; [intros H; inversion H|].
      intros H. exfalso. exact (expected_in_0 id c (proj1 Hid) H).
Qed.

(** *** The X+ and Y+ passes *)

Lemma connect_xplus rs :
  routers_match (X * Y * L) (expected_out self 0 0 0 0) (expected_in self 0 0 0 0) rs ->
  exists rs',
    for_range L (fun z routers =>
      for_range Y (fun y routers =>
        for_range X (fun x routers =>
          let from := Cake._NodeId self x y z in
          x1 ← checked_rem (Int32.add x 1) X;
          let to := Cake._NodeId self x1 y z in
          let ch := Cake._InplaneChannel self from 0 in
          Cake.connect self SetCakePortXPlus from to ch routers)
        routers) routers) rs = Ok rs' /\
    routers_match (X * Y * L) (expected_out self (X * Y * L) 0 0 0)
                  (expected_in self (X * Y * L) 0 0 0) rs'.
Proof.
  intros Hm. pose proof (cake_bounds self ready) as B.
  apply (nested3_inv
    (fun p rs => routers_match (X * Y * L) (expected_out self p 0 0 0)
                               (expected_in self p 0 0 0) rs)
    (fun x y z routers =>
       let from := Cake._NodeId self x y z in
       x1 ← checked_rem (Int32.add x 1) X;
       let to := Cake._NodeId self x1 y z in
       let ch := Cake._InplaneChannel self from 0 in
       Cake.connect self SetCakePortXPlus from to ch routers));
    [lia|lia|lia|exact Hm|].
  intros x y z rs1 Hx Hy Hz Hm1. cbv zeta.
  destruct (next_coord self ready x X Hx ltac:(lia)) as [-> Hx1]. rewrite bind_Ok.
  rewrite !NodeId_eq by (auto; lia).
  pose proof (node_id_range X Y L ltac:(lia) ltac:(lia) x y z Hx Hy Hz) as Hn.
  pose proof (node_id_range X Y L ltac:(lia) ltac:(lia) _ y z Hx1 Hy Hz) as Hn1.
  destruct (InplaneChannel_eq self ready (node_id X Y x y z) 0 Hn ltac:(lia)) as [-> Hch].
  assert (0 <= inplane_id (node_id X Y x y z) 0 < 2 * (X * Y * L) + 2 * (E * L))
    as Hch' by lia.
  destruct (connect_match _ _ _ _ SetCakePortXPlus _ _ _ eq_refl Hm1 out_only_XPlus Hn Hn1 Hch')
    as (rs2 & -> & Hm2).
  exists rs2. split; [reflexivity|].
  apply (match_ext _ _ _ _ _ _ Hm2).
  - intros id Hid. rewrite !expected_out_x by lia. rewrite stage_x_step.
    destruct (id =? node_id X Y x y z) eqn:E1; [|reflexivity].
    assert (id = node_id X Y x y z) as -> by lia. reflexivity.
  - intros id c Hid. rewrite expected_in_step_x by assumption. tauto.
Qed.

Lemma connect_yplus rs :
  routers_match (X * Y * L) (expected_out self (X * Y * L) 0 0 0)
                (expected_in self (X * Y * L) 0 0 0) rs ->
  exists rs',
    for_range L (fun z routers =>
      for_range Y (fun y routers =>
        for_range X (fun x routers =>
          let from := Cake._NodeId self x y z in
          y1 ← checked_rem (Int32.add y 1) Y;
          let to := Cake._NodeId self x y1 z in
          let ch := Cake._InplaneChannel self from 1 in
          Cake.connect self SetCakePortYPlus from to ch routers)
        routers) routers) rs = Ok rs' /\
    routers_match (X * Y * L) (expected_out self (X * Y * L) (X * Y * L) 0 0)
                  (expected_in self (X * Y * L) (X * Y * L) 0 0) rs'.
Proof.
  intros Hm. pose proof (cake_bounds self ready) as B.
  apply (nested3_inv
    (fun p rs => routers_match (X * Y * L) (expected_out self (X * Y * L) p 0 0)
                               (expected_in self (X * Y * L) p 0 0) rs)
    (fun x y z routers =>
       let from := Cake._NodeId self x y z in
       y1 ← checked_rem (Int32.add y 1) Y;
       let to := Cake._NodeId self x y1 z in
       let ch := Cake._InplaneChannel self from 1 in
       Cake.connect self SetCakePortYPlus from to ch routers));
    [lia|lia|lia|exact Hm|].
  intros x y z rs1 Hx Hy Hz Hm1. cbv zeta.
  assert (Y <= X * Y * L) as HYle.
  { assert (1 * Y <= X * Y) by (apply Z.mul_le_mono_nonneg_r; lia). lia. }
  destruct (next_coord self ready y Y Hy HYle) as [-> Hy1]. rewrite bind_Ok.
  rewrite !NodeId_eq by (auto; lia).
  pose proof (node_id_range X Y L ltac:(lia) ltac:(lia) x y z Hx Hy Hz) as Hn.
  pose proof (node_id_range X Y L ltac:(lia) ltac:(lia) x _ z Hx Hy1 Hz) as Hn1.
  destruct (InplaneChannel_eq self ready (node_id X Y x y z) 1 Hn ltac:(lia)) as [-> Hch].
  assert (0 <= inplane_id (node_id X Y x y z) 1 < 2 * (X * Y * L) + 2 * (E * L))
    as Hch' by lia.
  destruct (connect_match _ _ _ _ SetCakePortYPlus _ _ _ eq_refl Hm1 out_only_YPlus Hn Hn1 Hch')
    as (rs2 & -> & Hm2).
  exists rs2. split; [reflexivity|].
  apply (match_ext _ _ _ _ _ _ Hm2).
  - intros id Hid. rewrite !expected_out_y by lia. rewrite stage_y_step.
    destruct (id =? node_id X Y x y z) eqn:E1; [|reflexivity].
    assert (id = node_id X Y x y z) as -> by lia. reflexivity.
  - intros id c Hid. rewrite expected_in_step_y by assumption. tauto.
Qed.

(** *** The vertical pass *)

Lemma connect_vertical rs :
  routers_match (X * Y * L) (expected_out self (X * Y * L) (X * Y * L) 0 0)
                (expected_in self (X * Y * L) (X * Y * L) 0 0) rs ->
  exists rs',
    for_range E (fun ei routers =>
      e ← at_index (Cake._elevators self) ei;
      let ex := fst e in
      let ey := snd e in
      for_range L (fun z routers =>
        let from := Cake._NodeId self ex ey z in
        z_up ← checked_rem (Int32.add z 1) L;
        let to_up := Cake._NodeId self ex ey z_up in
        let ch_u := Cake._UpChannel self (Int32.wrap ei) z in
        routers ← Cake.connect self SetCakePortZUp from to_up ch_u routers;
        z_dn ← checked_rem (Int32.add (Int32.sub z 1) L) L;
        let to_dn := Cake._NodeId self ex ey z_dn in
        let ch_d := Cake._DownChannel self (Int32.wrap ei) z in
        Cake.connect self SetCakePortZDown from to_dn ch_d routers)
      routers) rs = Ok rs' /\
    routers_match (X * Y * L) (expected_out self (X * Y * L) (X * Y * L) (E * L) 0)
                  (expected_in self (X * Y * L) (X * Y * L) (E * L) 0) rs'.
Proof.
  intros Hm. pose proof (cake_bounds self ready) as B.
  assert (L <= X * Y * L) as HLle.
  { assert (1 * L <= X * Y * L) by (apply Z.mul_le_mono_nonneg_r; lia). lia. }
  apply (for_range_inv
    (fun ei rs => routers_match (X * Y * L)
                    (expected_out self (X * Y * L) (X * Y * L) (ei * L) 0)
                    (expected_in self (X * Y * L) (X * Y * L) (ei * L) 0) rs));
    [lia|exact Hm|].
  intros ei rs1 Hei Hm1.
  destruct (lookup_lt_is_Some_2 (Cake._elevators self) (Z.to_nat ei)) as [[ex ey] He]; [lia|].
  rewrite (at_index_Ok _ _ _ (proj1 Hei) He), bind_Ok. cbv zeta. cbn [fst snd].
  destruct (ready_elev_range _ ready _ _ _ He) as [Hex Hey].
  assert (Int32.wrap ei = ei) as ->.
  { apply (wrap_small self ready).
    assert (E * 1 <= E * L) by (apply Z.mul_le_mono_nonneg_l; lia). lia. }
  destruct (for_range_inv
    (fun z rs => routers_match (X * Y * L)
                   (expected_out self (X * Y * L) (X * Y * L) (ei * L + z) 0)
                   (expected_in self (X * Y * L) (X * Y * L) (ei * L + z) 0) rs)
    L
    (fun z routers =>
        let from := Cake._NodeId self ex ey z in
        z_up ← checked_rem (Int32.add z 1) L;
        let to_up := Cake._NodeId self ex ey z_up in
        let ch_u := Cake._UpChannel self ei z in
        routers ← Cake.connect self SetCakePortZUp from to_up ch_u routers;
        z_dn ← checked_rem (Int32.add (Int32.sub z 1) L) L;
        let to_dn := Cake._NodeId self ex ey z_dn in
        let ch_d := Cake._DownChannel self ei z in
        Cake.connect self SetCakePortZDown from to_dn ch_d routers)
    rs1) as (rs2 & Hrs2 & Hm2); [lia| | |].
  - rewrite Z.add_0_r. exact Hm1.
  - intros z rs3 Hz Hm3. cbv zeta.
    destruct (next_coord self ready z L Hz HLle) as [-> Hzu]. rewrite bind_Ok.
    destruct (prev_coord self ready z L Hz HLle) as [Hprev Hzd].
    rewrite !NodeId_eq by (auto; lia).
    rewrite UpChannel_eq, DownChannel_eq by (auto; lia).
    pose proof (node_id_range X Y L ltac:(lia) ltac:(lia) ex ey z Hex Hey Hz) as Hn.
    pose proof (node_id_range X Y L ltac:(lia) ltac:(lia) ex ey _ Hex Hey Hzu) as Hnu.
    pose proof (node_id_range X Y L ltac:(lia) ltac:(lia) ex ey _ Hex Hey Hzd) as Hnd.
    destruct (vertical_id_range self ready ei z 0 Hei Hz ltac:(lia)) as (Hv0 & _ & _).
    destruct (vertical_id_range self ready ei z 1 Hei Hz ltac:(lia)) as (Hv1 & _ & _).
    assert (0 <= vertical_id X Y L ei z 0 < 2 * (X * Y * L) + 2 * (E * L)) as Hc0 by lia.
    assert (0 <= vertical_id X Y L ei z 1 < 2 * (X * Y * L) + 2 * (E * L)) as Hc1 by lia.
    destruct (connect_match _ _ _ _ SetCakePortZUp _ _ _ eq_refl Hm3 out_only_ZUp Hn Hnu Hc0)
      as (rs4 & -> & Hm4). rewrite bind_Ok, Hprev, bind_Ok.
    rewrite NodeId_eq by (auto; lia).
    destruct (connect_match _ _ _ _ SetCakePortZDown _ _ _ eq_refl Hm4 out_only_ZDown Hn Hnd Hc1)
      as (rs5 & -> & Hm5).
    exists rs5. split; [reflexivity|].
    apply (match_ext _ _ _ _ _ _ Hm5).
    + intros id Hid. cbv beta. rewrite Z.eqb_refl.
      rewrite !expected_out_v by lia.
      replace (ei * L + (z + 1)) with (ei * L + z + 1) by lia.
      rewrite (stage_v_step ei ex ey z) by (auto; lia).
      destruct (id =? node_id X Y ex ey z) eqn:E1; [|reflexivity].
      assert (id = node_id X Y ex ey z) as -> by lia. reflexivity.
    + intros id c Hid. cbv beta.
      replace (ei * L + (z + 1)) with (ei * L + z + 1) by lia.
      rewrite (expected_in_step_v ei ex ey z) by (auto; lia). tauto.
  - exists rs2. split; [exact Hrs2|].
    replace ((ei + 1) * L) with (ei * L + L) by lia. exact Hm2.
Qed.

(** *** Injection and ejection *)

Lemma connect_inject_eject rs :
  routers_match (X * Y * L) (expected_out self (X * Y * L) (X * Y * L) (E * L) 0)
                (expected_in self (X * Y * L) (X * Y * L) (E * L) 0) rs ->
  exists rs',
    for_range (Cake._size self) (fun id routers =>
      inj ← at_index (Cake._inject self) id;
      inj_cred ← at_index (Cake._inject_cred self) id;
      routers ← with_router id (AddInputChannel inj inj_cred) routers;
      ej ← at_index (Cake._eject self) id;
      ej_cred ← at_index (Cake._eject_cred self) id;
      with_router id
        (fun r => let out_idx_ej := OutputIndexCount r in
                  SetCakePortEject out_idx_ej (AddOutputChannel ej ej_cred r))
        routers) rs = Ok rs' /\
    routers_match (X * Y * L)
      (expected_out self (X * Y * L) (X * Y * L) (E * L) (X * Y * L))
      (expected_in self (X * Y * L) (X * Y * L) (E * L) (X * Y * L)) rs'.
Proof.
  intros Hm. pose proof (cake_bounds self ready) as B.
  rewrite (cake_size self ready).
  apply (for_range_inv
    (fun p rs => routers_match (X * Y * L)
                   (expected_out self (X * Y * L) (X * Y * L) (E * L) p)
                   (expected_in self (X * Y * L) (X * Y * L) (E * L) p) rs));
    [lia|exact Hm|].
  intros id rs1 Hid Hm1.
  destruct (inject_eject_at self ready id Hid) as (-> & -> & Hej & Hejc).
  rewrite !bind_Ok.
  destruct (match_in _ _ _ _ id (Inject id) (InjectCred id) Hm1 Hid) as (rs2 & -> & Hm2).
  rewrite bind_Ok, Hej, bind_Ok, Hejc, bind_Ok.
  destruct (match_out _ _ _ _ id (out_step SetCakePortEject (Eject id) (EjectCred id)) Hm2 Hid)
    as (rs3 & Hrs3 & Hm3); [apply out_only_out_step; exact out_only_Eject|].
  unfold out_step in Hrs3 at 1. exists rs3. split; [exact Hrs3|].
  apply (match_ext _ _ _ _ _ _ Hm3).
  - intros id' Hid'. unfold expected_out. rewrite stage_e_step.
    destruct (id' =? id) eqn:E1; [|reflexivity].
    assert (id' = id) as -> by lia. reflexivity.
  - intros id' c Hid'. rewrite expected_in_step_e. tauto.
Qed.

(** *** The whole of [_BuildNet] *)

Lemma BuildNet_ready :
  exists net,
    Cake._BuildNet self = Ok net /\
    routers_match (X * Y * L)
      (expected_out self (X * Y * L) (X * Y * L) (E * L) (X * Y * L))
      (expected_in self (X * Y * L) (X * Y * L) (E * L) (X * Y * L))
      (Cake._routers net).
Proof.
  unfold Cake._BuildNet.
  destruct create_routers as (rs0 & H0 & Hm0).
  eapply bind_ex; [exact H0|].
  destruct (connect_xplus rs0 Hm0) as (rs1 & H1 & Hm1).
  eapply bind_ex; [exact H1|].
  destruct (connect_yplus rs1 Hm1) as (rs2 & H2 & Hm2).
  eapply bind_ex; [exact H2|].
  destruct (connect_vertical rs2 Hm2) as (rs3 & H3 & Hm3).
  eapply bind_ex; [exact H3|].
  destruct (connect_inject_eject rs3 Hm3) as (rs4 & H4 & Hm4).
  eapply bind_ex; [exact H4|].
  eexists. split; [reflexivity|]. exact Hm4.
Qed.

End CakeWiring.

(** ** What the parsers establish *)

Lemma Key_inj x y x' y' :
  0 <= x -> 0 <= y < 4294967296 -> 0 <= x' -> 0 <= y' < 4294967296 ->
  Cake._Key x y = Cake._Key x' y' -> x = x' /\ y = y'.
Proof.
  intros Hx Hy Hx' Hy' H. unfold Cake._Key in H.
  rewrite !Z.mod_small in H by lia.
  assert (forall a b, 0 <= b < 4294967296 ->
            Z.shiftr (Z.lor (Z.shiftl a 32) b) 32 = a) as Hhi.
  { intros a b Hb. rewrite Z.shiftr_lor, Z.shiftr_shiftl_l by lia.
    rewrite Z.sub_diag, Z.shiftl_0_r, Z.shiftr_div_pow2 by lia.
    change (2 ^ 32) with 4294967296. rewrite Z.div_small by lia. apply Z.lor_0_r. }
  assert (forall a b, 0 <= b < 4294967296 ->
            Z.land (Z.lor (Z.shiftl a 32) b) (Z.ones 32) = b) as Hlo.
  { intros a b Hb. rewrite Z.land_lor_distr_l, !Z.land_ones by lia.
    rewrite Z.shiftl_mul_pow2 by lia. rewrite Z_mod_mult.
    change (2 ^ 32) with 4294967296. rewrite Z.mod_small by lia. reflexivity. }
  split.
  - rewrite <- (Hhi x y Hy), <- (Hhi x' y' Hy'), H. reflexivity.
  - rewrite <- (Hlo x y Hy), <- (Hlo x' y' Hy'), H. reflexivity.
Qed.

Lemma elevator_step_cases x y t els idx els' idx' :
  Cake.elevator_step x y t (els, idx) = Ok (els', idx') ->
  (els' = els /\ idx' = idx) \/
  (exists ex ey, in_plane x y (ex, ey) /\ idx !! Cake._Key ex ey = None /\
                 els' = els ++ [(ex, ey)] /\
                 idx' = <[Cake._Key ex ey := Int32.wrap (Z.of_nat (length els))]> idx).
Proof.
  unfold Cake.elevator_step. destruct (Str.cut_comma t) as [[a b]|]; [|intros [= <- <-]; auto].
  cbv zeta. destruct (_ || _) eqn:Hr; [discriminate|].
  destruct (idx !! _) eqn:Hk; [intros [= <- <-]; auto|].
  intros [= <- <-]. right. exists (Str.atoi a), (Str.atoi b).
  split; [unfold in_plane; simpl; lia|]. auto.
Qed.

Lemma elevator_loop_mono x y toks els idx els' idx' :
  foldM (Cake.elevator_step x y) toks (els, idx) = Ok (els', idx') ->
  (length els <= length els')%nat.
Proof.
  revert els idx. induction toks as [|t toks IH]; intros els idx H; simpl in H.
  - injection H as <- <-. lia.
  - inv_bind H as [els1 idx1] H1. apply IH in H.
    apply elevator_step_cases in H1 as [[-> ->]|(ex & ey & _ & _ & -> & _)]; [lia|].
    rewrite length_app in H. simpl in H. lia.
Qed.

Lemma elevator_loop_inv x y toks els idx els' idx' :
  elev_inv x y els idx ->
  foldM (Cake.elevator_step x y) toks (els, idx) = Ok (els', idx') ->
  Z.of_nat (length els') <= Int32.INT_MAX ->
  elev_inv x y els' idx'.
Proof.
  revert els idx. induction toks as [|t toks IH]; intros els idx Hinv H Hlen; simpl in H.
  - injection H as <- <-. exact Hinv.
  - inv_bind H as [els1 idx1] H1. pose proof (elevator_loop_mono _ _ _ _ _ _ _ H) as Hmono.
    apply (IH els1 idx1); [|exact H|exact Hlen].
    apply elevator_step_cases in H1 as [[-> ->]|(ex & ey & Hp & Hk & -> & ->)];
      [exact Hinv|].
    destruct Hinv as [Hrange Hidx].
    rewrite length_app in Hmono. simpl in Hmono.
    rewrite wrap_fits
      by (unfold Int32.fits, Int32.INT_MIN, Int32.INT_MAX in *; lia).
    split.
    + intros e p Hl. apply lookup_app_Some in Hl as [Hl|[_ Hl]]; [eauto|].
      apply list_lookup_singleton_Some in Hl as [_ <-]. exact Hp.
    + intros k e. destruct (decide (k = Cake._Key ex ey)) as [->|Hne].
      * rewrite lookup_insert_eq. split.
        -- intros [= <-]. split; [lia|]. exists ex, ey.
           rewrite Nat2Z.id, lookup_app_r, Nat.sub_diag by lia. auto.
        -- intros (He0 & ex' & ey' & Hl & Hkey).
           apply lookup_app_Some in Hl as [Hl|[Hge Hl]].
           ++ assert (idx !! Cake._Key ex ey = Some e) as Hc
                by (apply Hidx; split; [lia|]; eauto).
              congruence.
           ++ apply list_lookup_singleton_Some in Hl as [Hz _]. f_equal. lia.
      * rewrite lookup_insert_ne by auto. rewrite Hidx. split.
        -- intros (He0 & ex' & ey' & Hl & Hkey). split; [exact He0|].
           exists ex', ey'. split; [|exact Hkey]. apply lookup_app_l_Some. exact Hl.
        -- intros (He0 & ex' & ey' & Hl & Hkey). split; [exact He0|].
           exists ex', ey'. split; [|exact Hkey].
           apply lookup_app_Some in Hl as [Hl|[_ Hl]]; [exact Hl|].
           apply list_lookup_singleton_Some in Hl as [_ [= <- <-]]. congruence.
Qed.

Lemma parse_elevator_coords_inv x y elev_str els idx :
  Cake.parse_elevator_coords x y elev_str = Ok (els, idx) ->
  Z.of_nat (length els) <= Int32.INT_MAX ->
  elev_inv x y els idx.
Proof.
  unfold Cake.parse_elevator_coords. intros H Hlen.
  assert (elev_inv x y [] ∅) as H0.
  { split; [intros e p Hl; discriminate|].
    intros k e. rewrite lookup_empty. split; [discriminate|].
    intros (_ & ex & ey & Hl & _). discriminate. }
  destruct (Str.nonempty elev_str); [|injection H as <- <-; exact H0].
  eapply elevator_loop_inv; [exact H0|exact H|exact Hlen].
Qed.

Lemma set_index_inv {A} (v : list A) i x v' :
  set_index v i x = Ok v' -> v' = <[Z.to_nat i := x]> v.
Proof. unfold set_index. intros H. inv_bind H as a Ha. injection H as <-. reflexivity. Qed.

Lemma map_wf_init x y :
  0 < x -> 0 < y ->
  map_wf x y (replicate (Z.to_nat y) (replicate (Z.to_nat x) (0, 0))).
Proof.
  intros Hx Hy. split; [apply length_replicate|].
  apply Forall_replicate. split; [apply length_replicate|].
  apply Forall_replicate. unfold in_plane. simpl. lia.
Qed.

Lemma map_wf_set x y m ry rx p row row' m' :
  map_wf x y m -> in_plane x y p ->
  at_index m ry = Ok row -> set_index row rx p = Ok row' ->
  set_index m ry row' = Ok m' ->
  map_wf x y m'.
Proof.
  intros [Hlen Hall] Hp Hrow Hrow' Hm'.
  apply at_index_inv in Hrow as [_ Hrow].
  apply set_index_inv in Hrow' as ->. apply set_index_inv in Hm' as ->.
  pose proof (Forall_lookup_1 _ _ _ _ Hall Hrow) as [Hrl Hrp].
  split; [rewrite length_insert; exact Hlen|].
  apply Forall_insert; [exact Hall|].
  split; [rewrite length_insert; exact Hrl|].
  apply Forall_insert; assumption.
Qed.

Lemma parse_elevator_map_wf x y map_str m :
  0 < x -> 0 < y ->
  Cake.parse_elevator_map x y map_str = Ok m -> map_wf x y m.
Proof.
  intros Hx Hy. unfold Cake.parse_elevator_map.
  pose proof (map_wf_init x y Hx Hy) as H0.
  destruct (Str.nonempty map_str).
  - destruct (negb _); [discriminate|]. intros H.
    inv_bind H as [idx m1] Hloop. injection H as <-.
    apply (for_range_post (fun _ (st : Z * list (list (Z * Z))) => map_wf x y st.2))
      in Hloop; [exact Hloop|lia|exact H0|].
    intros ry st st' Hry Hst Hin.
    apply (for_range_post (fun _ (st : Z * list (list (Z * Z))) => map_wf x y st.2))
      in Hin; [exact Hin|lia|exact Hst|].
    clear. intros rx [idx m] [idx' m'] Hrx Hm H. simpl in *.
    inv_bind H as ex Hex. inv_bind H as ey Hey.
    destruct (_ || _) eqn:Hr; [discriminate|].
    inv_bind H as row Hrow. inv_bind H as row' Hrow'. inv_bind H as m2 Hm2.
    injection H as <- <-.
    eapply map_wf_set; [exact Hm| |exact Hrow|exact Hrow'|exact Hm2].
    unfold in_plane. simpl. lia.
  - intros Hloop.
    apply (for_range_post (fun _ (m : list (list (Z * Z))) => map_wf x y m))
      in Hloop; [exact Hloop|lia|exact H0|].
    intros ry m1 m1' Hry Hst Hin.
    apply (for_range_post (fun _ (m : list (list (Z * Z))) => map_wf x y m))
      in Hin; [exact Hin|lia|exact Hst|].
    intros rx m2 m2' Hrx Hm H. simpl in *.
    inv_bind H as row Hrow. inv_bind H as row' Hrow'.
    eapply map_wf_set; [exact Hm| |exact Hrow|exact Hrow'|exact H].
    unfold in_plane. simpl. lia.
Qed.

Lemma Cake_ParseElevators_inv config sz el :
  Cake._ParseElevators config sz = Ok el ->
  exists elev_str map_str,
    Cake.parse_elevator_coords (Cake.sz_x sz) (Cake.sz_y sz) elev_str
      = Ok (Cake.el_elevators el, Cake.el_elevator_index el) /\
    Cake.parse_elevator_map (Cake.sz_x sz) (Cake.sz_y sz) map_str
      = Ok (Cake.el_elevator_map el) /\
    Cake.el_vertical_channels el =
      Int32.mul (Int32.mul (Int32.wrap (Z.of_nat (length (Cake.el_elevators el))))
                           (Cake.sz_layers sz)) 2 /\
    Cake.el_channels el =
      Int32.add (Cake.sz_inplane_channels sz) (Cake.el_vertical_channels el).
Proof.
  unfold Cake._ParseElevators. intros H.
  inv_bind H as [els idx] Hels. inv_bind H as m Hm. injection H as <-. simpl.
  eexists _, _. split; [exact Hels|]. split; [exact Hm|]. auto.
Qed.

Lemma Cake_allocated_ready config g sz g' el :
  Cake._ComputeSize config g = Ok (sz, g') ->
  Cake._ParseElevators config sz = Ok el ->
  2 * (Cake.sz_x sz * Cake.sz_y sz * Cake.sz_layers sz)
  + 2 * (Z.of_nat (length (Cake.el_elevators el)) * Cake.sz_layers sz)
  <= Int32.INT_MAX ->
  cake_ready (Cake.allocated config sz el).
Proof.
  intros Hsz Hel Hfits.
  apply Cake_ComputeSize_inv in Hsz as (Hx & Hy & Hl & Hsize & Hnodes & Hin & _).
  apply Cake_ParseElevators_inv in Hel as (es & ms & Hels & Hmap & Hvert & Hch).
  set (X := Cake.sz_x sz) in *. set (Y := Cake.sz_y sz) in *.
  set (L := Cake.sz_layers sz) in *.
  set (E := Z.of_nat (length (Cake.el_elevators el))) in *.
  assert (0 < X * Y) as HXY by (apply Z.mul_pos_pos; lia).
  assert (0 < X * Y * L) as HS by (apply Z.mul_pos_pos; lia).
  assert (0 <= E * L) as HEL by (apply Z.mul_nonneg_nonneg; lia).
  assert (X * Y * 1 <= X * Y * L) by (apply Z.mul_le_mono_nonneg_l; lia).
  assert (X * 1 <= X * Y) by (apply Z.mul_le_mono_nonneg_l; lia).
  assert (1 * Y <= X * Y) by (apply Z.mul_le_mono_nonneg_r; lia).
  assert (E * 1 <= E * L) by (apply Z.mul_le_mono_nonneg_l; lia).
  assert (forall z, 0 <= z <= 2 * (X * Y * L) + 2 * (E * L) -> Int32.wrap z = z) as Hw.
  { intros z Hz. apply wrap_fits.
    unfold Int32.fits, Int32.INT_MIN, Int32.INT_MAX in *. lia. }
  assert (Cake.sz_size sz = X * Y * L) as Hsize'.
  { rewrite Hsize. unfold Int32.mul. rewrite (Hw (X * Y)) by lia. apply Hw. lia. }
  assert (Cake.sz_inplane_channels sz = 2 * (X * Y * L)) as Hin'.
  { rewrite Hin, Hsize'. unfold Int32.mul. rewrite Hw by lia. lia. }
  assert (Cake.el_vertical_channels el = 2 * (E * L)) as Hvert'.
  { rewrite Hvert. unfold Int32.mul. fold E. rewrite (Hw E) by lia.
    rewrite (Hw (E * L)) by lia. rewrite Hw by lia. lia. }
  assert (Cake.el_channels el = 2 * (X * Y * L) + 2 * (E * L)) as Hch'.
  { rewrite Hch, Hin', Hvert'. unfold Int32.add. apply Hw. lia. }
  apply parse_elevator_coords_inv in Hels as [Hrange Hidx];
    [|unfold Int32.INT_MAX in *; fold E; lia].
  apply parse_elevator_map_wf in Hmap as [Hrows Hcols]; [|lia|lia].
  constructor; unfold Cake.allocated; cbn [Cake._x Cake._y Cake._layers Cake._elevators
    Cake._elevator_index Cake._elevator_map Cake._inplane_channels
    Cake._vertical_channels Cake._size
    Cake._nodes Cake._channels Cake._routers Cake._chan Cake._chan_cred Cake._inject
    Cake._inject_cred Cake._eject Cake._eject_cred];
    fold X Y L E; try reflexivity; try lia.
  - intros x y e Hx' Hy'. rewrite Hidx. split.
    + intros (He0 & ex & ey & Hlk & Hkey). split; [exact He0|].
      destruct (Hrange _ _ Hlk) as [Hex Hey]. simpl in Hex, Hey.
      unfold Int32.INT_MAX in *.
      apply Key_inj in Hkey as [-> ->]; [exact Hlk|lia..].
    + intros [He0 Hlk]. split; [exact He0|]. eauto.
  - intros e x y Hlk. exact (Hrange _ _ Hlk).
  - eapply Forall_impl; [exact Hcols|]. intros row [Hlen _]. exact Hlen.
Qed.

Section CakeFinal.
Variable self : Cake.t.
Hypothesis ready : cake_ready self.

Local Abbreviation X := (Cake._x self).
Local Abbreviation Y := (Cake._y self).
Local Abbreviation L := (Cake._layers self).
Local Abbreviation E := (Z.of_nat (length (Cake._elevators self))).
Local Abbreviation final_out :=
  (expected_out self (X * Y * L) (X * Y * L) (E * L) (X * Y * L)).
Local Abbreviation final_in :=
  (expected_in self (X * Y * L) (X * Y * L) (E * L) (X * Y * L)).

Lemma elev_of_elem id :
  0 <= id < X * Y * L ->
  (is_Some (elev_of self id) <->
   ((coords_of X Y id).1.1, (coords_of X Y id).1.2) ∈ Cake._elevators self).
Proof.
  intros Hid. pose proof (cake_bounds self ready) as B. split.
  - intros [e He]. destruct (elev_of_Some self ready id e Hid He) as (_ & Hl & _).
    apply list_elem_of_lookup. eauto.
  - intros Hin. apply list_elem_of_lookup in Hin as [e Hl].
    pose proof (coords_of_range X Y L ltac:(lia) ltac:(lia) id Hid) as Hc.
    unfold elev_of. destruct (coords_of X Y id) as [[x y] z]. simpl in *.
    destruct Hc as [(Hx & Hy & _) _]. exists (Z.of_nat e).
    apply (ready_elev_index _ ready); [lia|lia|]. rewrite Nat2Z.id. split; [lia|exact Hl].
Qed.

Lemma final_out_meta id :
  0 <= id < X * Y * L ->
  _id (final_out id) = id /\
  (CakeX (final_out id), CakeY (final_out id), CakeZ (final_out id)) = coords_of X Y id /\
  (CakeXSize (final_out id), CakeYSize (final_out id), CakeLayers (final_out id))
    = (X, Y, L) /\
  (CakeElevX (final_out id), CakeElevY (final_out id))
    = pref_of self (coords_of X Y id).1.1 (coords_of X Y id).1.2.
Proof.
  intros Hid. unfold expected_out, stage_e, stage_v, stage_y, stage_x, created.
  replace (id <? X * Y * L) with true by lia.
  destruct (elev_of self id) as [e|] eqn:He.
  - destruct (elev_of_Some self ready id e Hid He) as (_ & _ & _ & Hb).
    destruct (coords_of X Y id) as [[x y] z]. cbn [fst snd] in *. cbv zeta.
    replace (e * L + z <? E * L) with true by lia.
    destruct (pref_of self x y). repeat split; reflexivity.
  - destruct (coords_of X Y id) as [[x y] z]. cbn [fst snd] in *.
    destruct (pref_of self x y). repeat split; reflexivity.
Qed.

Lemma final_out_elevator id e :
  0 <= id < X * Y * L -> elev_of self id = Some e ->
  _outputs (final_out id) = 5 /\
  _inputs (final_out id) = 5 /\
  _output_channels (final_out id) =
    [Chan (inplane_id id 0); Chan (inplane_id id 1);
     Chan (vertical_id X Y L e (coords_of X Y id).2 0);
     Chan (vertical_id X Y L e (coords_of X Y id).2 1);
     Eject id] /\
  (CakePortXPlus (final_out id), CakePortYPlus (final_out id),
   CakePortZUp (final_out id), CakePortZDown (final_out id),
   CakePortEject (final_out id)) = (0, 1, 2, 3, 4).
Proof.
  intros Hid He. destruct (elev_of_Some self ready id e Hid He) as (_ & _ & _ & Hb).
  unfold expected_out, stage_e, stage_v, stage_y, stage_x, created. rewrite He.
  unfold elev_of in He.
  replace (id <? X * Y * L) with true by lia.
  destruct (coords_of X Y id) as [[x y] z]. cbn [fst snd] in *. cbv zeta.
  replace (e * L + z <? E * L) with true by lia.
  rewrite He. repeat split; reflexivity.
Qed.

Lemma final_out_plain id :
  0 <= id < X * Y * L -> elev_of self id = None ->
  _outputs (final_out id) = 3 /\
  _inputs (final_out id) = 3 /\
  _output_channels (final_out id) =
    [Chan (inplane_id id 0); Chan (inplane_id id 1); Eject id] /\
  (CakePortXPlus (final_out id), CakePortYPlus (final_out id),
   CakePortZUp (final_out id), CakePortZDown (final_out id),
   CakePortEject (final_out id)) = (0, 1, -1, -1, 2).
Proof.
  intros Hid He.
  unfold expected_out, stage_e, stage_v, stage_y, stage_x, created. rewrite He.
  unfold elev_of in He.
  replace (id <? X * Y * L) with true by lia.
  destruct (coords_of X Y id) as [[x y] z]. cbn [fst snd] in *.
  rewrite He. repeat split; reflexivity.
Qed.

End CakeFinal.

(** ** Where the channels of the finished network lead *)

Section CakeSinks.
Variable self : Cake.t.
Hypothesis ready : cake_ready self.

Local Abbreviation X := (Cake._x self).
Local Abbreviation Y := (Cake._y self).
Local Abbreviation L := (Cake._layers self).
Local Abbreviation E := (Z.of_nat (length (Cake._elevators self))).
Local Abbreviation final_in :=
  (expected_in self (X * Y * L) (X * Y * L) (E * L) (X * Y * L)).

Lemma vertical_id_inj e z ud e' z' ud' :
  0 <= z < L -> 0 <= z' < L -> 0 <= ud <= 1 -> 0 <= ud' <= 1 ->
  vertical_id X Y L e z ud = vertical_id X Y L e' z' ud' ->
  e = e' /\ z = z' /\ ud = ud'.
Proof.
  unfold vertical_id. intros Hz Hz' Hud Hud' H.
  assert (ud = ud') as -> by lia.
  assert (e * L + z = e' * L + z') as Heq by lia.
  assert (e = e') as -> by nia. repeat split; lia.
Qed.

Lemma final_in_inplane0 x y z t :
  0 <= x < X -> 0 <= y < Y -> 0 <= z < L ->
  final_in t (Chan (inplane_id (node_id X Y x y z) 0)) <->
  t = node_id X Y ((x + 1) mod X) y z.
Proof.
  intros Hx Hy Hz. pose proof (cake_bounds self ready) as B.
  pose proof (node_id_range X Y L ltac:(lia) ltac:(lia) x y z Hx Hy Hz) as Hn.
  unfold expected_in. split.
  - intros [(x' & y' & z' & (Hx' & Hy' & Hz') & _ & Hc & Ht)|
            [(x' & y' & z' & _ & _ & Hc & _)|
             [(e & ex & ey & z' & He0 & He & Hz' & _ & [[Hc _]|[Hc _]])|[_ Hc]]]].
    + injection Hc as Hc. unfold inplane_id in Hc.
      assert (node_id X Y x y z = node_id X Y x' y' z') as Heq by lia.
      apply (node_id_inj X Y) in Heq as (-> & -> & ->); [exact Ht|lia..].
    + injection Hc as Hc. unfold inplane_id in Hc. lia.
    + injection Hc as Hc. pose proof (lookup_lt_Some _ _ _ He).
      destruct (vertical_id_range self ready e z' 0 ltac:(lia) Hz' ltac:(lia)) as (Hv & _).
      unfold inplane_id in Hc. lia.
    + injection Hc as Hc. pose proof (lookup_lt_Some _ _ _ He).
      destruct (vertical_id_range self ready e z' 1 ltac:(lia) Hz' ltac:(lia)) as (Hv & _).
      unfold inplane_id in Hc. lia.
    + discriminate.
  - intros ->. left. exists x, y, z. repeat split; auto; lia.
Qed.

Lemma final_in_inplane1 x y z t :
  0 <= x < X -> 0 <= y < Y -> 0 <= z < L ->
  final_in t (Chan (inplane_id (node_id X Y x y z) 1)) <->
  t = node_id X Y x ((y + 1) mod Y) z.
Proof.
  intros Hx Hy Hz. pose proof (cake_bounds self ready) as B.
  pose proof (node_id_range X Y L ltac:(lia) ltac:(lia) x y z Hx Hy Hz) as Hn.
  unfold expected_in. split.
  - intros [(x' & y' & z' & _ & _ & Hc & _)|
            [(x' & y' & z' & (Hx' & Hy' & Hz') & _ & Hc & Ht)|
             [(e & ex & ey & z' & He0 & He & Hz' & _ & [[Hc _]|[Hc _]])|[_ Hc]]]].
    + injection Hc as Hc. unfold inplane_id in Hc. lia.
    + injection Hc as Hc. unfold inplane_id in Hc.
      assert (node_id X Y x y z = node_id X Y x' y' z') as Heq by lia.
      apply (node_id_inj X Y) in Heq as (-> & -> & ->); [exact Ht|lia..].
    + injection Hc as Hc. pose proof (lookup_lt_Some _ _ _ He).
      destruct (vertical_id_range self ready e z' 0 ltac:(lia) Hz' ltac:(lia)) as (Hv & _).
      unfold inplane_id in Hc. lia.
    + injection Hc as Hc. pose proof (lookup_lt_Some _ _ _ He).
      destruct (vertical_id_range self ready e z' 1 ltac:(lia) Hz' ltac:(lia)) as (Hv & _).
      unfold inplane_id in Hc. lia.
    + discriminate.
  - intros ->. right. left. exists x, y, z. repeat split; auto; lia.
Qed.

Lemma final_in_vertical e ex ey z ud t :
  0 <= e -> Cake._elevators self !! Z.to_nat e = Some (ex, ey) -> 0 <= z < L ->
  0 <= ud <= 1 ->
  final_in t (Chan (vertical_id X Y L e z ud)) <->
  t = node_id X Y ex ey ((if ud =? 0 then z + 1 else z - 1 + L) mod L).
Proof.
  intros He0 He Hz Hud. pose proof (cake_bounds self ready) as B.
  pose proof (lookup_lt_Some _ _ _ He) as HeE.
  destruct (vertical_id_range self ready e z ud ltac:(lia) Hz Hud) as (Hv & _ & Hp).
  unfold expected_in. split.
  - intros [(x' & y' & z' & (Hx' & Hy' & Hz') & _ & Hc & _)|
            [(x' & y' & z' & (Hx' & Hy' & Hz') & _ & Hc & _)|
             [(e' & ex' & ey' & z' & He0' & He' & Hz' & _ & [[Hc Ht]|[Hc Ht]])|[_ Hc]]]].
    + injection Hc as Hc. unfold inplane_id in Hc.
      pose proof (node_id_range X Y L ltac:(lia) ltac:(lia) x' y' z' Hx' Hy' Hz'). lia.
    + injection Hc as Hc. unfold inplane_id in Hc.
      pose proof (node_id_range X Y L ltac:(lia) ltac:(lia) x' y' z' Hx' Hy' Hz'). lia.
    + injection Hc as Hc.
      apply vertical_id_inj in Hc as (<- & <- & ->); [|lia..].
      rewrite He in He'. injection He' as <- <-. exact Ht.
    + injection Hc as Hc.
      apply vertical_id_inj in Hc as (<- & <- & ->); [|lia..].
      rewrite He in He'. injection He' as <- <-. exact Ht.
    + discriminate.
  - intros ->. right. right. left. exists e, ex, ey, z.
    split; [exact He0|]. split; [exact He|]. split; [exact Hz|]. split; [lia|].
    destruct (ud =? 0) eqn:E1.
    + left. assert (ud = 0) as -> by lia. auto.
    + right. assert (ud = 1) as -> by lia. auto.
Qed.

End CakeSinks.

(** ** A Cake that constructs has a representable channel count *)

Lemma wrap_mod a : Int32.wrap a mod 4294967296 = a mod 4294967296.
Proof.
  unfold Int32.wrap.
  rewrite <- Zminus_mod_idemp_l, Z.mod_mod by lia.
  rewrite Zminus_mod_idemp_l. f_equal. lia.
Qed.

Lemma wrap_congr a b :
  a mod 4294967296 = b mod 4294967296 -> Int32.wrap a = Int32.wrap b.
Proof.
  intros H. unfold Int32.wrap.
  rewrite <- (Zplus_mod_idemp_l a), <- (Zplus_mod_idemp_l b), H. reflexivity.
Qed.

Lemma wrap_add_l a b : Int32.wrap (Int32.wrap a + b) = Int32.wrap (a + b).
Proof. apply wrap_congr. rewrite <- Zplus_mod_idemp_l, wrap_mod, Zplus_mod_idemp_l. reflexivity. Qed.

Lemma wrap_add_r a b : Int32.wrap (a + Int32.wrap b) = Int32.wrap (a + b).
Proof. rewrite Z.add_comm, wrap_add_l. f_equal. lia. Qed.

Lemma wrap_mul_l a b : Int32.wrap (Int32.wrap a * b) = Int32.wrap (a * b).
Proof. apply wrap_congr. rewrite <- Zmult_mod_idemp_l, wrap_mod, Zmult_mod_idemp_l. reflexivity. Qed.

Lemma wrap_mul_r a b : Int32.wrap (a * Int32.wrap b) = Int32.wrap (a * b).
Proof. rewrite Z.mul_comm, wrap_mul_l. f_equal. lia. Qed.

Lemma wrap_neg : Int32.wrap 2147483648 = -2147483648.
Proof. reflexivity. Qed.

Lemma NodeId_wrap self x y z :
  Cake._NodeId self x y z = Int32.wrap (node_id (Cake._x self) (Cake._y self) x y z).
Proof.
  unfold Cake._NodeId, Int32.add, Int32.mul, node_id.
  rewrite wrap_mul_r.
  rewrite (wrap_add_r (Int32.wrap (z * (Cake._x self * Cake._y self)))).
  rewrite (wrap_add_l (z * (Cake._x self * Cake._y self))).
  rewrite wrap_add_l. reflexivity.
Qed.

Lemma InplaneChannel_wrap self n dim :
  Cake._InplaneChannel self (Int32.wrap n) dim = Int32.wrap (n * 2 + dim).
Proof.
  unfold Cake._InplaneChannel, Int32.add, Int32.mul.
  rewrite wrap_mul_l, wrap_add_l. reflexivity.
Qed.

Lemma VerticalChannel_wrap self e z :
  Cake._UpChannel self (Int32.wrap e) z
    = Int32.wrap (Cake._inplane_channels self + (e * Cake._layers self + z) * 2 + 0) /\
  Cake._DownChannel self (Int32.wrap e) z
    = Int32.wrap (Cake._inplane_channels self + (e * Cake._layers self + z) * 2 + 1).
Proof.
  unfold Cake._UpChannel, Cake._DownChannel, Int32.add, Int32.mul.
  rewrite (wrap_mul_l e), (wrap_add_l (e * Cake._layers self)).
  rewrite (wrap_mul_l (e * Cake._layers self + z)).
  rewrite (wrap_add_r (Cake._inplane_channels self)).
  rewrite !wrap_add_l. auto.
Qed.

Lemma wrap_even a : exists k, Int32.wrap (2 * a) = 2 * k.
Proof.
  exists (a - 2147483648 * ((2 * a + 2147483648) / 4294967296)).
  unfold Int32.wrap. rewrite Z.mod_eq by lia. lia.
Qed.

(** What a loop that ran to completion says about each of its iterations. *)
Lemma for_range_all {St} (P : St -> Prop) (Q : Z -> Prop) n
    (body : Z -> St -> result St) s s' :
  P s ->
  (forall i s s1, 0 <= i < n -> P s -> body i s = Ok s1 -> P s1 /\ Q i) ->
  for_range n body s = Ok s' ->
  P s' /\ forall i, 0 <= i < n -> Q i.
Proof.
  intros H0 Hstep Hr. destruct (decide (0 <= n)) as [Hn|Hn].
  - apply (for_range_post (fun i s => P s /\ forall j, 0 <= j < i -> Q j) n body s s');
      [exact Hn| | |exact Hr].
    + split; [exact H0|]. intros j Hj. lia.
    + intros i t t' Hi [HP HQ] Hb. destruct (Hstep i t t' Hi HP Hb) as [HP' HQi].
      split; [exact HP'|]. intros j Hj.
      destruct (decide (j = i)) as [->|Hne]; [exact HQi|apply HQ; lia].
  - unfold for_range, seqZ in Hr. rewrite Z2Nat.nonpos in Hr by lia.
    simpl in Hr. injection Hr as <-. split; [exact H0|]. intros i Hi. lia.
Qed.

Lemma with_router_len i f (rs rs' : list (option Router)) :
  with_router i f rs = Ok rs' ->
  0 <= i < Z.of_nat (length rs) /\ length rs' = length rs.
Proof.
  unfold with_router. intros H. inv_bind H as slot Hslot.
  apply at_index_inv in Hslot as [Hi _].
  destruct slot; [|discriminate]. injection H as <-.
  split; [exact Hi|apply length_insert].
Qed.

Lemma connect_len self set_port from to ch (rs rs' : list (option Router)) :
  Cake.connect self set_port from to ch rs = Ok rs' ->
  0 <= from < Z.of_nat (length rs) /\
  0 <= ch < Z.of_nat (length (Cake._chan self)) /\
  length rs' = length rs.
Proof.
  unfold Cake.connect. intros H.
  inv_bind H as c Hc. inv_bind H as cc Hcc. inv_bind H as rs1 H1.
  apply at_index_inv in Hc as [Hch _].
  apply with_router_len in H1 as [Hfrom Hlen1].
  apply with_router_len in H as [_ Hlen2].
  split; [exact Hfrom|]. split; [exact Hch|]. congruence.
Qed.

(** Every link that a completed [_BuildNet] made named an existing router
    and an existing channel. *)
Lemma BuildNet_bounds self net :
  Cake._BuildNet self = Ok net ->
  (forall x y z,
     0 <= x < Cake._x self -> 0 <= y < Cake._y self -> 0 <= z < Cake._layers self ->
     0 <= Int32.wrap (node_id (Cake._x self) (Cake._y self) x y z)
       < Z.of_nat (length (Cake._routers self)) /\
     0 <= Int32.wrap (node_id (Cake._x self) (Cake._y self) x y z * 2 + 0)
       < Z.of_nat (length (Cake._chan self))) /\
  (forall e z,
     0 <= e < Z.of_nat (length (Cake._elevators self)) -> 0 <= z < Cake._layers self ->
     0 <= Int32.wrap (Cake._inplane_channels self + (e * Cake._layers self + z) * 2 + 0)
       < Z.of_nat (length (Cake._chan self))).
Proof.
  unfold Cake._BuildNet. intros H.
  inv_bind H as r1 H1. inv_bind H as r2 H2. inv_bind H as r3 H3.
  inv_bind H as r4 H4. clear H.
  apply (for_range_all (fun rs => length rs = length (Cake._routers self))
           (fun _ => True)) in H1 as [Hlen1 _]; [|reflexivity|].
  2:{ intros id rs rs' _ Hlen Hb. split; [|exact I].
      inv_bind Hb as [[x y] z] Hxyz. inv_bind Hb as ra Ha.
      apply set_index_inv in Ha as ->.
      inv_bind Hb as rb Hrb. apply with_router_len in Hrb as [_ Hrb].
      inv_bind Hb as rc Hrc. apply with_router_len in Hrc as [_ Hrc].
      inv_bind Hb as row Hrow. inv_bind Hb as pref Hpref.
      apply with_router_len in Hb as [_ Hb].
      rewrite Hb, Hrc, Hrb, length_insert. exact Hlen. }
  split.
  - apply (for_range_all (fun rs => length rs = length (Cake._routers self))
      (fun z => forall y, 0 <= y < Cake._y self -> forall x, 0 <= x < Cake._x self ->
         0 <= Int32.wrap (node_id (Cake._x self) (Cake._y self) x y z)
           < Z.of_nat (length (Cake._routers self)) /\
         0 <= Int32.wrap (node_id (Cake._x self) (Cake._y self) x y z * 2 + 0)
           < Z.of_nat (length (Cake._chan self)))) in H2 as [_ HQ]; [|exact Hlen1|].
    + intros x y z Hx Hy Hz. apply HQ; assumption.
    + intros z rs rs' _ Hlen Hz.
      apply (for_range_all (fun rs => length rs = length (Cake._routers self))
        (fun y => forall x, 0 <= x < Cake._x self ->
           0 <= Int32.wrap (node_id (Cake._x self) (Cake._y self) x y z)
             < Z.of_nat (length (Cake._routers self)) /\
           0 <= Int32.wrap (node_id (Cake._x self) (Cake._y self) x y z * 2 + 0)
             < Z.of_nat (length (Cake._chan self)))) in Hz; [exact Hz|exact Hlen|].
      intros y rt rt' _ Hlent Hy.
      apply (for_range_all (fun rs => length rs = length (Cake._routers self))
        (fun x =>
           0 <= Int32.wrap (node_id (Cake._x self) (Cake._y self) x y z)
             < Z.of_nat (length (Cake._routers self)) /\
           0 <= Int32.wrap (node_id (Cake._x self) (Cake._y self) x y z * 2 + 0)
             < Z.of_nat (length (Cake._chan self)))) in Hy; [exact Hy|exact Hlent|].
      intros x ru ru' _ Hlenu Hx.
      inv_bind Hx as x1 Hx1.
      rewrite !NodeId_wrap, InplaneChannel_wrap in Hx.
      apply connect_len in Hx as (Hfrom & Hch & Hlen').
      rewrite Hlenu in Hfrom. split; [congruence|]. split; assumption.
  - apply (for_range_all (fun _ => True)
      (fun e => forall z, 0 <= z < Cake._layers self ->
         0 <= Int32.wrap (Cake._inplane_channels self + (e * Cake._layers self + z) * 2 + 0)
           < Z.of_nat (length (Cake._chan self)))) in H4 as [_ HQ]; [|exact I|].
    + intros e z He Hz. apply HQ; assumption.
    + intros e rs rs' _ _ He. split; [exact I|].
      inv_bind He as el Hel.
      apply (for_range_all (fun _ => True)
        (fun z =>
           0 <= Int32.wrap (Cake._inplane_channels self + (e * Cake._layers self + z) * 2 + 0)
             < Z.of_nat (length (Cake._chan self)))) in He as [_ HQ]; [exact HQ|exact I|].
      intros z rt rt' _ _ Hz. split; [exact I|].
      inv_bind Hz as zu Hzu. inv_bind Hz as ra Hra.
      destruct (VerticalChannel_wrap self e z) as [Hup _].
      rewrite Hup in Hra.
      apply connect_len in Hra as (_ & Hch & _). exact Hch.
Qed.

Section FitsArith.
Variables X Y L E size' inplane' vertical' channels' : Z.
Hypothesis HX : 0 < X.
Hypothesis HY : 0 < Y.
Hypothesis HL : 0 < L.
Hypothesis HE : 0 <= E.
Hypothesis Hsize : size' = Int32.mul (Int32.mul X Y) L.
Hypothesis Hinplane : inplane' = Int32.mul size' 2.
Hypothesis Hvertical : vertical' = Int32.mul (Int32.mul (Int32.wrap E) L) 2.
Hypothesis Hchannels : channels' = Int32.add inplane' vertical'.
Hypothesis Hnodes : forall x y z,
  0 <= x < X -> 0 <= y < Y -> 0 <= z < L ->
  0 <= Int32.wrap (node_id X Y x y z) < Z.of_nat (Z.to_nat size') /\
  0 <= Int32.wrap (node_id X Y x y z * 2 + 0) < Z.of_nat (Z.to_nat channels').
Hypothesis Hvert : forall e z,
  0 <= e < E -> 0 <= z < L ->
  0 <= Int32.wrap (inplane' + (e * L + z) * 2 + 0) < Z.of_nat (Z.to_nat channels').

Lemma fits_by_id n :
  0 <= n < X * Y * L ->
  0 <= Int32.wrap n < size' /\ 0 <= Int32.wrap (n * 2) < channels'.
Proof using HX HY Hnodes.
  intros Hn. pose proof (coords_of_range X Y L HX HY n Hn) as H.
  destruct (coords_of X Y n) as [[x y] z]. destruct H as [(Hx & Hy & Hz) Hid].
  destruct (Hnodes x y z Hx Hy Hz) as [H1 H2]. rewrite Hid, Z.add_0_r in *. lia.
Qed.

Lemma fits_size : X * Y * L <= Int32.INT_MAX /\ size' = X * Y * L.
Proof using HX HY HL Hsize Hnodes.
  assert (0 < X * Y) as HXY by (apply Z.mul_pos_pos; lia).
  assert (0 < X * Y * L) as HM by (apply Z.mul_pos_pos; lia).
  assert (size' = Int32.wrap (X * Y * L)) as Hs.
  { rewrite Hsize. unfold Int32.mul. apply wrap_mul_l. }
  pose proof (wrap_range (X * Y * L)) as Hr. rewrite <- Hs in Hr.
  unfold Int32.fits, Int32.INT_MIN, Int32.INT_MAX in *.
  destruct (decide (2147483648 < X * Y * L)) as [Hbig|Hsmall].
  - destruct (fits_by_id 2147483648) as [H _]; [lia|]. rewrite wrap_neg in H. lia.
  - destruct (fits_by_id (X * Y * L - 1)) as [H _]; [lia|].
    rewrite wrap_fits in H by (unfold Int32.fits, Int32.INT_MIN, Int32.INT_MAX; lia).
    assert (X * Y * L <= 2147483647) as Hle by lia. split; [exact Hle|].
    rewrite Hs. apply wrap_fits. unfold Int32.fits, Int32.INT_MIN, Int32.INT_MAX. lia.
Qed.

Lemma fits_channels_eq :
  channels' = Int32.wrap (2 * (X * Y * L + E * L)).
Proof using HX HY HL Hsize Hinplane Hvertical Hchannels Hnodes.
  destruct fits_size as [_ Hs].
  rewrite Hchannels, Hinplane, Hvertical, Hs. unfold Int32.add, Int32.mul.
  rewrite (wrap_mul_l E), (wrap_mul_l (E * L)), wrap_add_l, wrap_add_r.
  f_equal. lia.
Qed.

Lemma fits_inplane : 2 * (X * Y * L) <= Int32.INT_MAX /\ inplane' = 2 * (X * Y * L).
Proof using HX HY HL Hsize Hinplane Hvertical Hchannels Hnodes.
  destruct fits_size as [HM Hs].
  assert (0 < X * Y) as HXY by (apply Z.mul_pos_pos; lia).
  assert (0 < X * Y * L) as HM0 by (apply Z.mul_pos_pos; lia).
  pose proof fits_channels_eq as Hc.
  destruct (wrap_even (X * Y * L + E * L)) as [k Hk]. rewrite Hk in Hc.
  pose proof (wrap_range (2 * (X * Y * L + E * L))) as Hr. rewrite Hk, <- Hc in Hr.
  unfold Int32.fits, Int32.INT_MIN, Int32.INT_MAX in *.
  assert (X * Y * L < 1073741824) as Hlt.
  { destruct (decide (1073741824 < X * Y * L)) as [Hbig|Hsmall].
    - destruct (fits_by_id 1073741824) as [_ H]; [lia|].
      change (Int32.wrap (1073741824 * 2)) with (-2147483648) in H. lia.
    - destruct (fits_by_id (X * Y * L - 1)) as [_ H]; [lia|].
      rewrite wrap_fits in H by (unfold Int32.fits, Int32.INT_MIN, Int32.INT_MAX; lia).
      lia. }
  split; [lia|]. rewrite Hinplane, Hs. unfold Int32.mul.
  rewrite wrap_fits by (unfold Int32.fits, Int32.INT_MIN, Int32.INT_MAX; lia). lia.
Qed.

Lemma fits_all : 2 * (X * Y * L) + 2 * (E * L) <= Int32.INT_MAX.
Proof using All.
  destruct fits_size as [HM Hs]. destruct fits_inplane as [HM2 Hin].
  assert (0 < X * Y) as HXY by (apply Z.mul_pos_pos; lia).
  assert (0 < X * Y * L) as HM0 by (apply Z.mul_pos_pos; lia).
  assert (0 <= E * L) as HEL by (apply Z.mul_nonneg_nonneg; lia).
  pose proof fits_channels_eq as Hc.
  unfold Int32.INT_MAX in *.
  destruct (decide (1073741824 < X * Y * L + E * L)) as [Hbig|Hsmall].
  - (* the vertical channel numbered 2^31 *)
    set (k := 1073741824 - X * Y * L).
    assert (0 <= k < E * L) as Hk by (unfold k; lia).
    assert (0 <= k / L < E) as He.
    { split; [apply Z.div_pos; lia|]. apply Z.div_lt_upper_bound; lia. }
    pose proof (Z.mod_pos_bound k L HL) as Hz.
    destruct (Hvert (k / L) (k mod L) He Hz) as [H _].
    replace (k / L * L + k mod L) with k in H
      by (rewrite (Z.div_mod k L) at 1 by lia; lia).
    rewrite Hin in H.
    replace (2 * (X * Y * L) + k * 2 + 0) with 2147483648 in H by (unfold k; lia).
    rewrite wrap_neg in H. lia.
  - destruct (decide (X * Y * L + E * L = 1073741824)) as [Heq|Hne]; [|lia].
    destruct (fits_by_id 0) as [_ H]; [lia|].
    rewrite Hc, Heq in H.
    change (Int32.wrap (2 * 1073741824)) with (-2147483648) in H.
    change (Int32.wrap (0 * 2)) with 0 in H. lia.
Qed.

End FitsArith.

(** A Cake whose construction completes has a channel count that is
    representable as [int]: otherwise some link names a negative router
    or channel index. *)
Lemma Cake_new_fits config g net g' :
  Cake.new config g = Ok (net, g') -> cake_fits net.
Proof.
  intros Hnew. apply Cake_new_inv in Hnew as (sz & el & Hsz & Hel & Hbuild).
  pose proof (Cake_BuildNet_fields _ _ Hbuild)
    as (Hx & Hy & Hl & Hels & _).
  apply BuildNet_bounds in Hbuild as [Hnodes Hvert].
  apply Cake_ComputeSize_inv in Hsz as (HX & HY & HL & Hsize & _ & Hin & _).
  apply Cake_ParseElevators_inv in Hel as (es & ms & _ & _ & Hv & Hch).
  unfold cake_fits. rewrite Hx, Hy, Hl, Hels.
  unfold Cake.allocated in *.
  cbn [Cake._x Cake._y Cake._layers Cake._elevators Cake._routers Cake._chan
       Cake._inplane_channels] in *.
  unfold alloc_routers, alloc_chan in *.
  rewrite length_replicate in Hnodes.
  rewrite length_fmap, length_seqZ in Hnodes, Hvert.
  eapply (fits_all (Cake.sz_x sz) (Cake.sz_y sz) (Cake.sz_layers sz)
            (Z.of_nat (length (Cake.el_elevators el)))
            (Cake.sz_size sz) (Cake.sz_inplane_channels sz)
            (Cake.el_vertical_channels el) (Cake.el_channels el));
    try assumption. lia.
Qed.

(** ** Every constructed Cake *)

Lemma match_lookup size eo ei rs (t : nat) r :
  routers_match size eo ei rs -> rs !! t = Some (Some r) ->
  0 <= Z.of_nat t < size /\
  strip_inputs r = eo (Z.of_nat t) /\
  forall c, c ∈ _input_channels r <-> ei (Z.of_nat t) c.
Proof.
  intros [Hlen Hm] Hl. pose proof (lookup_lt_Some _ _ _ Hl) as Hlt.
  assert (0 <= Z.of_nat t < size) as Ht by lia.
  destruct (Hm _ Ht) as (r' & Hr' & Hs & Hc). rewrite Nat2Z.id, Hl in Hr'.
  injection Hr' as <-. auto.
Qed.

Lemma Cake_new_wired config g net g' :
  Cake.new config g = Ok (net, g') ->
  exists self,
    cake_ready self /\
    (Cake._x self = Cake._x net /\ Cake._y self = Cake._y net /\
     Cake._layers self = Cake._layers net /\
     Cake._elevators self = Cake._elevators net /\
     Cake._elevator_index self = Cake._elevator_index net /\
     Cake._elevator_map self = Cake._elevator_map net /\
     Cake._inplane_channels self = Cake._inplane_channels net /\
     Cake._vertical_channels self = Cake._vertical_channels net /\
     Cake._size self = Cake._size net /\
     Cake._channels self = Cake._channels net /\
     Cake._eject self = Cake._eject net) /\
    routers_match (Cake._x self * Cake._y self * Cake._layers self)
      (expected_out self (Cake._x self * Cake._y self * Cake._layers self)
         (Cake._x self * Cake._y self * Cake._layers self)
         (Z.of_nat (length (Cake._elevators self)) * Cake._layers self)
         (Cake._x self * Cake._y self * Cake._layers self))
      (expected_in self (Cake._x self * Cake._y self * Cake._layers self)
         (Cake._x self * Cake._y self * Cake._layers self)
         (Z.of_nat (length (Cake._elevators self)) * Cake._layers self)
         (Cake._x self * Cake._y self * Cake._layers self))
      (Cake._routers net).
Proof.
  intros Hnew. pose proof (Cake_new_fits _ _ _ _ Hnew) as Hfits.
  apply Cake_new_inv in Hnew as (sz & el & Hsz & Hel & Hb).
  pose proof (Cake_BuildNet_fields _ _ Hb) as Hf.
  destruct Hf as (Hx & Hy & Hl & He & Hi & Hm & Hin & Hv & Hs & Hc).
  destruct (Cake_BuildNet_eject _ _ Hb) as [Hej _].
  assert (cake_ready (Cake.allocated config sz el)) as ready.
  { eapply Cake_allocated_ready; [exact Hsz|exact Hel|].
    unfold cake_fits in Hfits. rewrite Hx, Hy, Hl, He in Hfits. exact Hfits. }
  exists (Cake.allocated config sz el). split; [exact ready|].
  split; [repeat split; symmetry; assumption|].
  destruct (BuildNet_ready _ ready) as (net' & Hb' & Hmatch).
  rewrite Hb in Hb'. injection Hb' as <-. exact Hmatch.
Qed.

(** C3. In every constructed Cake, every router slot holds a router, and
    its recorded port indices are
    xp = 0, yp = 1, zup = 2, zdn = 3, eject = 4 when its (x,y) is in the
    elevator set, and xp = 0, yp = 1, eject = 2, zup = zdn = -1 when it
    is not. *)
Theorem C3_cake_port_indices config g net g' :
  Cake.new config g = Ok (net, g') ->
  length (Cake._routers net)
    = Z.to_nat (Cake._x net * Cake._y net * Cake._layers net) /\
  forall t : nat, (t < length (Cake._routers net))%nat ->
    exists r, Cake._routers net !! t = Some (Some r) /\
      _id r = Z.of_nat t /\
      ((CakeX r, CakeY r) ∈ Cake._elevators net ->
         cake_ports r = (0, 1, 2, 3, 4)) /\
      ((CakeX r, CakeY r) ∉ Cake._elevators net ->
         cake_ports r = (0, 1, -1, -1, 2)).
Proof.
  intros Hnew.
  destruct (Cake_new_wired _ _ _ _ Hnew)
    as (self & ready & (Hx & Hy & Hl & He & _) & Hm).
  rewrite <- Hx, <- Hy, <- Hl, <- He.
  split; [exact (proj1 Hm)|].
  intros t Ht. destruct Hm as [Hlen Hm]. rewrite Hlen in Ht.
  assert (0 <= Z.of_nat t < Cake._x self * Cake._y self * Cake._layers self) as Hid by lia.
  destruct (Hm _ Hid) as (r & Hr & Hs & _). rewrite Nat2Z.id in Hr.
  exists r. split; [exact Hr|].
  destruct (final_out_meta self ready _ Hid) as (Hidr & Hxyz & _).
  rewrite <- Hs in Hidr, Hxyz.
  split; [exact Hidr|].
  pose proof (elev_of_elem self ready _ Hid) as Helem.
  assert ((CakeX r, CakeY r)
          = ((coords_of (Cake._x self) (Cake._y self) (Z.of_nat t)).1.1,
             (coords_of (Cake._x self) (Cake._y self) (Z.of_nat t)).1.2)) as Hxy.
  { rewrite <- Hxyz. reflexivity. }
  rewrite Hxy, <- Helem.
  change (cake_ports r) with (cake_ports (strip_inputs r)). rewrite Hs.
  split.
  - intros [e Hel]. destruct (final_out_elevator self ready _ e Hid Hel) as (_ & _ & _ & Hp).
    exact Hp.
  - intros Hnot. destruct (elev_of self (Z.of_nat t)) as [e|] eqn:Hel.
    + exfalso. apply Hnot. eauto.
    + destruct (final_out_plain self _ Hid Hel) as (_ & _ & _ & Hp). exact Hp.
Qed.

Section CakeLeads.
Variable self : Cake.t.
Hypothesis ready : cake_ready self.
Variable rs : list (option Router).

Local Abbreviation X := (Cake._x self).
Local Abbreviation Y := (Cake._y self).
Local Abbreviation L := (Cake._layers self).
Local Abbreviation E := (Z.of_nat (length (Cake._elevators self))).
Local Abbreviation final_out :=
  (expected_out self (X * Y * L) (X * Y * L) (E * L) (X * Y * L)).
Local Abbreviation final_in :=
  (expected_in self (X * Y * L) (X * Y * L) (E * L) (X * Y * L)).

Hypothesis wired : routers_match (X * Y * L) final_out final_in rs.

Lemma leads_to_target c x y z :
  0 <= x < X -> 0 <= y < Y -> 0 <= z < L ->
  (forall t, final_in t c <-> t = node_id X Y x y z) ->
  leads_to rs c x y z.
Proof.
  intros Hx Hy Hz Hc. pose proof (cake_bounds self ready) as B.
  pose proof (node_id_range X Y L ltac:(lia) ltac:(lia) x y z Hx Hy Hz) as Hn.
  split.
  - destruct (proj2 wired _ Hn) as (r & Hr & _ & Hin).
    exists (Z.to_nat (node_id X Y x y z)), r. split; [exact Hr|].
    apply Hin, Hc. reflexivity.
  - intros t r Hr Hin.
    destruct (match_lookup _ _ _ _ _ _ wired Hr) as (Ht & Hs & Hin').
    apply Hin', Hc in Hin.
    destruct (final_out_meta self ready _ Ht) as (_ & Hxyz & _).
    rewrite <- Hs, Hin, coords_of_node_id in Hxyz by lia. exact Hxyz.
Qed.

Lemma wired_router (t : nat) r :
  rs !! t = Some (Some r) ->
  let x := CakeX r in
  let y := CakeY r in
  let z := CakeZ r in
  _id r = Z.of_nat t /\
  (0 <= x < X /\ 0 <= y < Y /\ 0 <= z < L) /\
  (exists c, GetOutputChannel r (CakePortXPlus r) = Ok c /\
             leads_to rs c ((x + 1) mod X) y z) /\
  (exists c, GetOutputChannel r (CakePortYPlus r) = Ok c /\
             leads_to rs c x ((y + 1) mod Y) z) /\
  ((x, y) ∈ Cake._elevators self ->
     (exists c, GetOutputChannel r (CakePortZUp r) = Ok c /\
                leads_to rs c x y ((z + 1) mod L)) /\
     (exists c, GetOutputChannel r (CakePortZDown r) = Ok c /\
                leads_to rs c x y ((z - 1 + L) mod L))) /\
  GetOutputChannel r (CakePortEject r) = Ok (Eject (_id r)).
Proof.
  intros Hr. pose proof (cake_bounds self ready) as B.
  destruct (match_lookup _ _ _ _ _ _ wired Hr) as (Ht & Hs & _).
  destruct (final_out_meta self ready _ Ht) as (Hid & Hxyz & _).
  pose proof (elev_of_elem self ready _ Ht) as Helem.
  pose proof (coords_of_range X Y L ltac:(lia) ltac:(lia) _ Ht) as Hc.
  rewrite <- Hs in Hid, Hxyz.
  change (_id (strip_inputs r)) with (_id r) in Hid.
  change (CakeX (strip_inputs r)) with (CakeX r) in Hxyz.
  change (CakeY (strip_inputs r)) with (CakeY r) in Hxyz.
  change (CakeZ (strip_inputs r)) with (CakeZ r) in Hxyz.
  rewrite <- Hxyz in Hc, Helem. cbn [fst snd] in Hc, Helem.
  destruct Hc as [(Hx & Hy & Hz) Hnode].
  cbv zeta. split; [exact Hid|]. split; [auto|].
  assert (0 <= (CakeX r + 1) mod X < X) as Hx1 by (apply Z.mod_pos_bound; lia).
  assert (0 <= (CakeY r + 1) mod Y < Y) as Hy1 by (apply Z.mod_pos_bound; lia).
  assert (0 <= (CakeZ r + 1) mod L < L) as Hz1 by (apply Z.mod_pos_bound; lia).
  assert (0 <= (CakeZ r - 1 + L) mod L < L) as Hz2 by (apply Z.mod_pos_bound; lia).
  change (GetOutputChannel r) with (GetOutputChannel (strip_inputs r)).
  change (CakePortXPlus r) with (CakePortXPlus (strip_inputs r)).
  change (CakePortYPlus r) with (CakePortYPlus (strip_inputs r)).
  change (CakePortZUp r) with (CakePortZUp (strip_inputs r)).
  change (CakePortZDown r) with (CakePortZDown (strip_inputs r)).
  change (CakePortEject r) with (CakePortEject (strip_inputs r)).
  rewrite Hs, Hid.
  assert (leads_to rs (Chan (inplane_id (Z.of_nat t) 0))
            ((CakeX r + 1) mod X) (CakeY r) (CakeZ r)) as HLx.
  { apply leads_to_target; auto. intros t'. rewrite <- Hnode.
    apply (final_in_inplane0 self ready); auto. }
  assert (leads_to rs (Chan (inplane_id (Z.of_nat t) 1))
            (CakeX r) ((CakeY r + 1) mod Y) (CakeZ r)) as HLy.
  { apply leads_to_target; auto. intros t'. rewrite <- Hnode.
    apply (final_in_inplane1 self ready); auto. }
  destruct (elev_of self (Z.of_nat t)) as [e|] eqn:Hel.
  - destruct (final_out_elevator self ready _ e Ht Hel) as (Ho & _ & Hch & Hp).
    destruct (elev_of_Some self ready _ e Ht Hel) as (He & Hl & _).
    rewrite <- Hxyz in Hl, Hch. cbn [fst snd] in Hl, Hch.
    injection Hp as -> -> -> -> ->.
    unfold GetOutputChannel. rewrite Ho, Hch.
    split; [eexists; split; [reflexivity|exact HLx]|].
    split; [eexists; split; [reflexivity|exact HLy]|].
    split; [|reflexivity]. intros _. split.
    + eexists. split; [reflexivity|]. apply leads_to_target; auto.
      intros t'. apply (final_in_vertical self ready e _ _ _ 0); auto; lia.
    + eexists. split; [reflexivity|]. apply leads_to_target; auto.
      intros t'. apply (final_in_vertical self ready e _ _ _ 1); auto; lia.
  - destruct (final_out_plain self _ Ht Hel) as (Ho & _ & Hch & Hp).
    injection Hp as -> -> -> -> ->.
    unfold GetOutputChannel. rewrite Ho, Hch.
    split; [eexists; split; [reflexivity|exact HLx]|].
    split; [eexists; split; [reflexivity|exact HLy]|].
    split; [|reflexivity]. intros Hin. apply Helem in Hin as [e He]. discriminate.
Qed.

End CakeLeads.

(** C1. In every constructed Cake, for every router R at (x, y, z): the
    output channel at index R.xp leads to
    the router at ((x+1) mod X, y, z); the one at R.yp to
    (x, (y+1) mod Y, z); for an elevator router the one at R.zup leads to
    (x, y, (z+1) mod Z) and the one at R.zdn to (x, y, (z-1+Z) mod Z); and
    the one at R.eject is R's ejection channel [_eject[id]]. *)
Theorem C1_cake_port_slots config g net g' :
  Cake.new config g = Ok (net, g') ->
  forall (t : nat) r, Cake._routers net !! t = Some (Some r) ->
    let x := CakeX r in
    let y := CakeY r in
    let z := CakeZ r in
    (exists c, GetOutputChannel r (CakePortXPlus r) = Ok c /\
               leads_to (Cake._routers net) c ((x + 1) mod Cake._x net) y z) /\
    (exists c, GetOutputChannel r (CakePortYPlus r) = Ok c /\
               leads_to (Cake._routers net) c x ((y + 1) mod Cake._y net) z) /\
    ((x, y) ∈ Cake._elevators net ->
       (exists c, GetOutputChannel r (CakePortZUp r) = Ok c /\
                  leads_to (Cake._routers net) c x y ((z + 1) mod Cake._layers net)) /\
       (exists c, GetOutputChannel r (CakePortZDown r) = Ok c /\
                  leads_to (Cake._routers net) c x y
                    ((z - 1 + Cake._layers net) mod Cake._layers net))) /\
    _id r = Z.of_nat t /\
    at_index (Cake._eject net) (_id r) = Ok (Eject (_id r)) /\
    GetOutputChannel r (CakePortEject r) = Ok (Eject (_id r)).
Proof.
  intros Hnew t r Hr.
  destruct (Cake_new_wired _ _ _ _ Hnew)
    as (self & ready & (Hx & Hy & Hl & He & _ & _ & _ & _ & _ & _ & Hej) & Hm).
  rewrite <- Hx, <- Hy, <- Hl, <- He, <- Hej.
  destruct (wired_router self ready _ Hm t r Hr) as (Hid & Hr3 & HX & HY & HZ & HE).
  cbv zeta. repeat (split; [assumption|]). split; [|exact HE].
  destruct (match_lookup _ _ _ _ _ _ Hm Hr) as (Ht & _).
  rewrite Hid. apply (inject_eject_at self ready _ Ht).
Qed.

(** ** The elevator list is the list of first occurrences *)

Lemma elevator_loop_first x y toks els idx els' idx' :
  x <= Int32.INT_MAX -> y <= Int32.INT_MAX ->
  elev_inv x y els idx ->
  foldM (Cake.elevator_step x y) toks (els, idx) = Ok (els', idx') ->
  Z.of_nat (length els') <= Int32.INT_MAX ->
  els' = first_occurrences_onto els
           (omap (fun t => match Str.cut_comma t with
                           | Some (a, b) => Some (Str.atoi a, Str.atoi b)
                           | None => None
                           end) toks).
Proof.
  intros Hx Hy. revert els idx.
  induction toks as [|t toks IH]; intros els idx Hinv H Hlen; simpl in H.
  - injection H as <- <-. reflexivity.
  - inv_bind H as [els1 idx1] H1.
    pose proof (elevator_loop_mono _ _ _ _ _ _ _ H) as Hmono.
    assert (elev_inv x y els1 idx1) as Hinv1.
    { apply (elevator_loop_inv x y [t] els idx); [exact Hinv| |lia].
      simpl. rewrite H1. reflexivity. }
    rewrite (IH _ _ Hinv1 H Hlen). simpl.
    unfold Cake.elevator_step in H1.
    destruct (Str.cut_comma t) as [[a b]|]; [|injection H1 as <- <-; reflexivity].
    cbv zeta in H1. destruct (_ || _) eqn:Hr; [discriminate|]. simpl.
    destruct Hinv as [Hrange Hidx].
    destruct (idx !! Cake._Key (Str.atoi a) (Str.atoi b)) as [e|] eqn:Hk.
    + injection H1 as <- <-. apply Hidx in Hk as (He0 & ex & ey & Hl & Hkey).
      destruct (Hrange _ _ Hl) as [Hex Hey]. simpl in Hex, Hey.
      unfold Int32.INT_MAX in *.
      apply Key_inj in Hkey as [-> ->]; [|lia..].
      rewrite bool_decide_eq_true_2; [reflexivity|].
      apply list_elem_of_lookup. eauto.
    + injection H1 as <- <-.
      rewrite bool_decide_eq_false_2; [reflexivity|].
      intros Hin. apply list_elem_of_lookup in Hin as [e Hl].
      assert (idx !! Cake._Key (Str.atoi a) (Str.atoi b) = Some (Z.of_nat e)) as Hc.
      { apply Hidx. split; [lia|]. rewrite Nat2Z.id. eauto. }
      congruence.
Qed.

Lemma Cake_ParseElevators_elevators config sz el :
  Cake._ParseElevators config sz = Ok el ->
  Cake.parse_elevator_coords (Cake.sz_x sz) (Cake.sz_y sz) (elevator_coords_of config)
    = Ok (Cake.el_elevators el, Cake.el_elevator_index el).
Proof.
  unfold Cake._ParseElevators. intros H.
  inv_bind H as [els idx] Hels. inv_bind H as m Hm. injection H as <-. exact Hels.
Qed.

Lemma Cake_new_elevators config g net g' :
  Cake.new config g = Ok (net, g') ->
  Cake._elevators net = first_occurrences (declared_pairs (elevator_coords_of config)).
Proof.
  intros Hnew. pose proof (Cake_new_fits _ _ _ _ Hnew) as Hfits.
  apply Cake_new_inv in Hnew as (sz & el & Hsz & Hel & Hb).
  destruct (Cake_BuildNet_fields _ _ Hb) as (Hx & Hy & Hl & He & _).
  simpl in Hx, Hy, Hl, He.
  unfold cake_fits in Hfits. rewrite Hx, Hy, Hl, He in Hfits.
  apply Cake_ComputeSize_inv in Hsz as (Hxp & Hyp & Hlp & _).
  apply Cake_ParseElevators_elevators in Hel.
  set (X := Cake.sz_x sz) in *. set (Y := Cake.sz_y sz) in *.
  set (L := Cake.sz_layers sz) in *.
  set (E := Z.of_nat (length (Cake.el_elevators el))) in *.
  assert (0 < X * Y) by (apply Z.mul_pos_pos; lia).
  assert (0 <= E * L) by (apply Z.mul_nonneg_nonneg; lia).
  assert (X * Y * 1 <= X * Y * L) by (apply Z.mul_le_mono_nonneg_l; lia).
  assert (X * 1 <= X * Y) by (apply Z.mul_le_mono_nonneg_l; lia).
  assert (1 * Y <= X * Y) by (apply Z.mul_le_mono_nonneg_r; lia).
  assert (E * 1 <= E * L) by (apply Z.mul_le_mono_nonneg_l; lia).
  rewrite He. unfold Cake.parse_elevator_coords in Hel.
  unfold first_occurrences, declared_pairs.
  destruct (Str.nonempty (elevator_coords_of config)) eqn:Hne.
  - eapply elevator_loop_first; [| | |exact Hel|fold E]; try lia.
    split; [intros e p Hlk; discriminate|].
    intros k e. rewrite lookup_empty. split; [discriminate|].
    intros (_ & ex & ey & Hlk & _). discriminate.
  - injection Hel as <- _. apply nonempty_false in Hne. rewrite Hne. reflexivity.
Qed.

(** C5. In every constructed Cake, with X, Y, Z its sizes and E its
    elevator list (the distinct declared pairs
    in the order of their first declaration): the in-plane channel of node
    n in direction dim has id n*2 + dim, inside [0, 2*X*Y*Z); the vertical
    channel of elevator index e and source layer z has id
    2*X*Y*Z + (e*Z + z)*2 + 0 upwards and ... + 1 downwards, inside
    [2*X*Y*Z, channels); and the channel count is 2*X*Y*Z + 2*|E|*Z. *)
Theorem C5_cake_channel_layout config g net g' :
  Cake.new config g = Ok (net, g') ->
  let X := Cake._x net in
  let Y := Cake._y net in
  let L := Cake._layers net in
  let E := Z.of_nat (length (Cake._elevators net)) in
  (forall node dim, 0 <= node < X * Y * L -> 0 <= dim <= 1 ->
     Cake._InplaneChannel net node dim = node * 2 + dim /\
     0 <= node * 2 + dim < 2 * (X * Y * L)) /\
  (forall e z, 0 <= e < E -> 0 <= z < L ->
     Cake._UpChannel net e z = 2 * (X * Y * L) + (e * L + z) * 2 + 0 /\
     Cake._DownChannel net e z = 2 * (X * Y * L) + (e * L + z) * 2 + 1 /\
     2 * (X * Y * L) <= 2 * (X * Y * L) + (e * L + z) * 2 + 0 /\
     2 * (X * Y * L) + (e * L + z) * 2 + 1 < Cake._channels net) /\
  Cake._inplane_channels net = 2 * (X * Y * L) /\
  Cake._vertical_channels net = 2 * (E * L) /\
  Cake._channels net = 2 * (X * Y * L) + 2 * (E * L) /\
  Cake._elevators net = first_occurrences (declared_pairs (elevator_coords_of config)) /\
  NoDup (Cake._elevators net).
Proof.
  intros Hnew. cbv zeta.
  pose proof (Cake_new_elevators _ _ _ _ Hnew) as Hfirst.
  destruct (Cake_new_wired _ _ _ _ Hnew)
    as (self & ready & (Hx & Hy & Hl & He & _ & _ & Hin & Hv & Hs & Hc & _) & _).
  rewrite <- Hx, <- Hy, <- Hl, <- He, <- Hin, <- Hc.
  pose proof (cake_bounds self ready) as B.
  split; [|split; [|split; [|split; [|split; [|split]]]]].
  - intros node dim Hn Hd.
    change (Cake._InplaneChannel net node dim) with (Cake._InplaneChannel self node dim).
    apply (InplaneChannel_eq self ready); assumption.
  - intros e z Hez Hz.
    assert (Cake._UpChannel net e z = Cake._UpChannel self e z) as ->
      by (unfold Cake._UpChannel; rewrite Hin, Hl; reflexivity).
    assert (Cake._DownChannel net e z = Cake._DownChannel self e z) as ->
      by (unfold Cake._DownChannel; rewrite Hin, Hl; reflexivity).
    rewrite (UpChannel_eq self ready), (DownChannel_eq self ready) by assumption.
    rewrite (cake_channels self ready).
    destruct (vertical_id_range self ready e z 1 Hez Hz ltac:(lia)) as (Hr & _).
    unfold vertical_id in *. repeat split; lia.
  - rewrite (ready_inplane _ ready), (cake_size self ready). reflexivity.
  - rewrite <- Hv. apply (ready_vertical _ ready).
  - apply (cake_channels self ready).
  - rewrite He. exact Hfirst.
  - apply NoDup_alt. intros i j [x y] Hi Hj.
    destruct (ready_elev_range _ ready _ _ _ Hi) as [Hxr Hyr].
    assert (Cake._elevator_index self !! Cake._Key x y = Some (Z.of_nat i)) as H1
      by (apply (ready_elev_index _ ready); [lia|lia|]; rewrite Nat2Z.id; split; [lia|auto]).
    assert (Cake._elevator_index self !! Cake._Key x y = Some (Z.of_nat j)) as H2
      by (apply (ready_elev_index _ ready); [lia|lia|]; rewrite Nat2Z.id; split; [lia|auto]).
    rewrite H1 in H2. injection H2. lia.
Qed.

(** ** Instances on the sample configurations *)

(** Runs the Cake constructor on a concrete configuration: [E] is the
    equation of the run. *)
Ltac run_cake config E :=
  let E' := fresh "E" in
  destruct (Cake.new config g_init) as [[? ?]| |] eqn:E;
    [|vm_compute in E; discriminate..];
  pose proof E as E'; vm_compute in E'; injection E' as <- <-.

Lemma C3_cake_port_indices_witness :
  exists net g',
    Cake.new cfg_cake_332 g_init = Ok (net, g') /\
    length (Cake._routers net) = 18%nat /\
    (exists r, Cake._routers net !! 4%nat = Some (Some r) /\
               (CakeX r, CakeY r) = (1, 1) /\ cake_ports r = (0, 1, 2, 3, 4)) /\
    (exists r, Cake._routers net !! 0%nat = Some (Some r) /\
               (CakeX r, CakeY r) = (0, 0) /\ cake_ports r = (0, 1, -1, -1, 2)).
Proof.
  run_cake cfg_cake_332 E.
  eexists _, _. split; [reflexivity|].
  destruct (C3_cake_port_indices _ _ _ _ E) as [Hlen Hall].
  split; [exact Hlen|]. split.
  - destruct (Hall 4%nat ltac:(rewrite Hlen; vm_compute; lia)) as (r & Hr & _ & Hel & _).
    simpl in Hr. injection Hr as <-. eexists. split; [reflexivity|].
    split; [reflexivity|]. apply Hel. apply list_elem_of_here.
  - destruct (Hall 0%nat ltac:(rewrite Hlen; vm_compute; lia)) as (r & Hr & _ & _ & Hne).
    simpl in Hr. injection Hr as <-. eexists. split; [reflexivity|].
    split; [reflexivity|]. apply Hne. intros Hin.
    apply list_elem_of_singleton in Hin. discriminate.
Defined.

Lemma C1_cake_port_slots_witness :
  exists net g',
    Cake.new cfg_cake_332 g_init = Ok (net, g') /\
    exists r, Cake._routers net !! 4%nat = Some (Some r) /\
      (CakeX r, CakeY r, CakeZ r) = (1, 1, 0) /\
      (exists c, GetOutputChannel r (CakePortXPlus r) = Ok c /\
                 leads_to (Cake._routers net) c 2 1 0) /\
      (exists c, GetOutputChannel r (CakePortYPlus r) = Ok c /\
                 leads_to (Cake._routers net) c 1 2 0) /\
      (exists c, GetOutputChannel r (CakePortZUp r) = Ok c /\
                 leads_to (Cake._routers net) c 1 1 1) /\
      (exists c, GetOutputChannel r (CakePortZDown r) = Ok c /\
                 leads_to (Cake._routers net) c 1 1 1) /\
      GetOutputChannel r (CakePortEject r) = Ok (Eject 4).
Proof.
  run_cake cfg_cake_332 E.
  eexists _, _. split; [reflexivity|].
  eexists. split; [reflexivity|]. split; [reflexivity|].
  match goal with
  | |- context [GetOutputChannel ?r _] =>
      destruct (C1_cake_port_slots _ _ _ _ E 4%nat r eq_refl)
        as (HX & HY & HZ & _ & _ & HE)
  end.
  destruct (HZ ltac:(apply list_elem_of_here)) as [HU HD].
  split; [exact HX|]. split; [exact HY|]. split; [exact HU|]. split; [exact HD|].
  exact HE.
Defined.

Lemma C5_cake_channel_layout_witness :
  exists net g',
    Cake.new cfg_cake_332 g_init = Ok (net, g') /\
    Cake._elevators net = [(1, 1)] /\
    Cake._InplaneChannel net 5 1 = 11 /\
    Cake._UpChannel net 0 1 = 38 /\
    Cake._DownChannel net 0 1 = 39 /\
    Cake._channels net = 40.
Proof.
  run_cake cfg_cake_332 E.
  eexists _, _. split; [reflexivity|].
  destruct (C5_cake_channel_layout _ _ _ _ E)
    as (Hin & Hvert & _ & _ & Hch & Hel & _).
  split; [exact Hel|].
  split; [exact (proj1 (Hin 5 1 ltac:(vm_compute; split; [discriminate|reflexivity])
                          ltac:(lia)))|].
  destruct (Hvert 0 1 ltac:(vm_compute; split; [discriminate|reflexivity]) ltac:(vm_compute; split; [discriminate|reflexivity])) as (Hu & Hd & _).
  split; [exact Hu|]. split; [exact Hd|]. exact Hch.
Defined.

(** ** The elevator mapping table *)

Lemma nested2_post {St} (I : Z -> St -> Prop)
    (body : Z -> Z -> St -> result St) X Y s s' :
  0 <= X -> 0 <= Y ->
  I 0 s ->
  (forall rx ry st st', 0 <= rx < X -> 0 <= ry < Y ->
     I (ry * X + rx) st -> body rx ry st = Ok st' -> I (ry * X + rx + 1) st') ->
  for_range Y (fun ry st => for_range X (fun rx st => body rx ry st) st) s = Ok s' ->
  I (Y * X) s'.
Proof.
  intros HX HY H0 Hstep Hloop.
  apply (for_range_post (fun ry st => I (ry * X) st)) in Hloop;
    [exact Hloop|exact HY|exact H0|].
  intros ry st st' Hry Hst Hin.
  apply (for_range_post (fun rx st => I (ry * X + rx) st)) in Hin; [|exact HX| |].
  - replace ((ry + 1) * X) with (ry * X + X) by lia. exact Hin.
  - rewrite Z.add_0_r. exact Hst.
  - intros rx st1 st1' Hrx Hst1 Hb.
    replace (ry * X + (rx + 1)) with (ry * X + rx + 1) by lia.
    eapply Hstep; eauto.
Qed.

Lemma table_entry_set m ry rx p row row' m' ry' rx' :
  0 <= ry -> 0 <= rx -> 0 <= ry' -> 0 <= rx' ->
  at_index m ry = Ok row -> set_index row rx p = Ok row' ->
  set_index m ry row' = Ok m' ->
  table_entry m' ry' rx' =
  if bool_decide (ry' = ry /\ rx' = rx) then Some p else table_entry m ry' rx'.
Proof.
  intros Hry Hrx Hry' Hrx' Hrow Hrow' Hm'.
  pose proof Hrow' as Hrow''. unfold set_index in Hrow''.
  apply bind_Ok_inv in Hrow'' as (p0 & Hp0 & _). apply at_index_inv in Hp0 as [Hrxlt _].
  apply at_index_inv in Hrow as [Hrylt Hrow].
  apply set_index_inv in Hrow' as ->. apply set_index_inv in Hm' as ->.
  unfold table_entry.
  destruct (decide (ry' = ry)) as [->|Hne].
  - rewrite list_lookup_insert_eq by lia. simpl.
    destruct (decide (rx' = rx)) as [->|Hne'].
    + rewrite list_lookup_insert_eq by lia.
      rewrite bool_decide_eq_true_2 by auto. reflexivity.
    + rewrite list_lookup_insert_ne by lia.
      rewrite bool_decide_eq_false_2 by tauto. rewrite Hrow. reflexivity.
  - rewrite list_lookup_insert_ne by lia.
    rewrite bool_decide_eq_false_2 by tauto. reflexivity.
Qed.

Lemma parse_elevator_map_explicit x y map_str m :
  0 < x -> 0 < y ->
  Str.nonempty map_str = true ->
  Cake.parse_elevator_map x y map_str = Ok m ->
  forall k, 0 <= k < y * x ->
    exists ex ey,
      Cake.mapping_nums map_str !! Z.to_nat (2 * k) = Some ex /\
      Cake.mapping_nums map_str !! Z.to_nat (2 * k + 1) = Some ey /\
      in_plane x y (ex, ey) /\
      table_entry m (k / x) (k mod x) = Some (ex, ey).
Proof.
  intros Hx Hy Hne. unfold Cake.parse_elevator_map. rewrite Hne.
  destruct (negb _); [discriminate|]. intros H.
  apply bind_Ok_inv in H as ([idxf m1] & Hloop & H). injection H as <-.
  set (nums := Cake.mapping_nums map_str) in *.
  apply (nested2_post
    (fun k (st : Z * list (list (Z * Z))) =>
       st.1 = Int32.wrap (2 * k) /\ 0 <= 2 * k <= 2147483648 /\
       forall j, 0 <= j < k ->
         exists ex ey, nums !! Z.to_nat (2 * j) = Some ex /\
                       nums !! Z.to_nat (2 * j + 1) = Some ey /\
                       in_plane x y (ex, ey) /\
                       table_entry st.2 (j / x) (j mod x) = Some (ex, ey))
    (fun rx ry '(idx, elevator_map) =>
       ex ← at_index nums idx;
       let idx := Int32.add idx 1 in
       ey ← at_index nums idx;
       let idx := Int32.add idx 1 in
       if (ex <? 0) || (ex >=? x) || (ey <? 0) || (ey >=? y) then
         Exit "elevator_mapping_coords out of range"
       else
         row ← at_index elevator_map ry;
         row ← set_index row rx (ex, ey);
         elevator_map ← set_index elevator_map ry row;
         Ok (idx, elevator_map))) in Hloop; [|lia|lia| |].
  - destruct Hloop as (_ & _ & Hall). exact Hall.
  - simpl. split; [reflexivity|]. split; [lia|]. intros j Hj. lia.
  - clear Hloop. intros rx ry [idx m0] [idx' m'] Hrx Hry (Hidx & Hk & Hall) Hb.
    simpl in Hidx, Hall. cbn [fst snd].
    set (k := ry * x + rx) in *.
    apply bind_Ok_inv in Hb as (ex & Hex & Hb). cbv zeta in Hb.
    apply bind_Ok_inv in Hb as (ey & Hey & Hb).
    destruct (_ || _) eqn:Hr; [discriminate|].
    apply bind_Ok_inv in Hb as (row & Hrow & Hb).
    apply bind_Ok_inv in Hb as (row' & Hrow' & Hb).
    apply bind_Ok_inv in Hb as (m2 & Hm2 & Hb).
    injection Hb as <- <-.
    apply at_index_inv in Hex as [Hexr Hex].
    assert (2 * k < 2147483648) as Hlt.
    { destruct (decide (2 * k = 2147483648)) as [Heq|]; [|lia].
      rewrite Hidx, Heq in Hexr.
      change (Int32.wrap 2147483648) with (-2147483648) in Hexr. lia. }
    assert (idx = 2 * k) as ->.
    { rewrite Hidx. apply wrap_fits.
      unfold Int32.fits, Int32.INT_MIN, Int32.INT_MAX. lia. }
    assert (Int32.add (2 * k) 1 = 2 * k + 1) as Hidx1.
    { apply wrap_fits. unfold Int32.fits, Int32.INT_MIN, Int32.INT_MAX. lia. }
    rewrite Hidx1 in *.
    apply at_index_inv in Hey as [_ Hey].
    split; [unfold Int32.add; f_equal; lia|]. split; [lia|].
    assert (k / x = ry /\ k mod x = rx) as [Hdiv Hmod].
    { subst k. rewrite Z.add_comm, Z.div_add, Z_mod_plus_full by lia.
      rewrite Z.div_small, Z.mod_small by lia. lia. }
    intros j Hj.
    rewrite (table_entry_set m0 ry rx (ex, ey) row row' m2 (j / x) (j mod x)
               ltac:(lia) ltac:(lia)
               ltac:(apply Z.div_pos; lia) ltac:(apply Z.mod_pos_bound; lia)
               Hrow Hrow' Hm2).
    destruct (decide (j = k)) as [->|Hjk].
    + rewrite bool_decide_eq_true_2 by auto.
      exists ex, ey. split; [exact Hex|]. split; [exact Hey|].
      split; [unfold in_plane; simpl; lia|reflexivity].
    + rewrite bool_decide_eq_false_2.
      * apply Hall. lia.
      * intros [H1 H2]. apply Hjk.
        rewrite (Z.div_mod j x), (Z.div_mod k x) by lia. rewrite H1, H2, Hdiv, Hmod.
        reflexivity.
Qed.

Lemma Cake_ParseElevators_map config sz el :
  Cake._ParseElevators config sz = Ok el ->
  Cake.parse_elevator_map (Cake.sz_x sz) (Cake.sz_y sz) (mapping_coords_of config)
    = Ok (Cake.el_elevator_map el).
Proof.
  unfold Cake._ParseElevators. intros H.
  inv_bind H as [els idx] Hels. inv_bind H as m Hm. injection H as <-. exact Hm.
Qed.

Lemma map_wf_entry x y m ry rx :
  map_wf x y m -> 0 <= ry < y -> 0 <= rx < x ->
  exists p, table_entry m ry rx = Some p /\ in_plane x y p.
Proof.
  intros [Hlen Hall] Hry Hrx. unfold table_entry.
  destruct (lookup_lt_is_Some_2 m (Z.to_nat ry)) as [row Hrow]; [lia|].
  destruct (Forall_lookup_1 _ _ _ _ Hall Hrow) as [Hrl Hrp].
  destruct (lookup_lt_is_Some_2 row (Z.to_nat rx)) as [p Hp]; [lia|].
  exists p. rewrite Hrow. simpl. split; [exact Hp|].
  exact (Forall_lookup_1 _ _ _ _ Hrp Hp).
Qed.

(** C2 (amended). Whenever Cake construction succeeds, every mapping entry
    mapping[y][x] is a coordinate pair inside the plane, 0 <= ex < X and
    0 <= ey < Y; and construction fails whenever some entry of an explicitly
    given mapping table (the k-th pair of its integer stream, k < X*Y) is
    outside the plane.  Membership in the elevator set is not checked. *)
Theorem C2_mapping_entries_in_plane (config : Configuration) (g : Globals) :
  (forall net g', Cake.new config g = Ok (net, g') ->
     forall ry rx, 0 <= ry < Cake._y net -> 0 <= rx < Cake._x net ->
       exists p, table_entry (Cake._elevator_map net) ry rx = Some p /\
                 in_plane (Cake._x net) (Cake._y net) p) /\
  (forall sz g1 k ex ey,
     Cake._ComputeSize config g = Ok (sz, g1) ->
     Str.nonempty (mapping_coords_of config) = true ->
     0 <= k < Cake.sz_y sz * Cake.sz_x sz ->
     Cake.mapping_nums (mapping_coords_of config) !! Z.to_nat (2 * k) = Some ex ->
     Cake.mapping_nums (mapping_coords_of config) !! Z.to_nat (2 * k + 1) = Some ey ->
     ~ in_plane (Cake.sz_x sz) (Cake.sz_y sz) (ex, ey) ->
     is_Ok (Cake.new config g) = false).
Proof.
  split.
  - intros net g' Hnew ry rx Hry Hrx.
    apply Cake_new_inv in Hnew as (sz & el & Hsz & Hel & Hb).
    destruct (Cake_BuildNet_fields _ _ Hb) as (Hx & Hy & _ & _ & _ & Hm & _).
    rewrite Hx, Hy, Hm in *. simpl in *.
    apply Cake_ComputeSize_inv in Hsz as (Hxp & Hyp & _).
    apply Cake_ParseElevators_map in Hel.
    apply parse_elevator_map_wf in Hel; [|lia|lia].
    apply map_wf_entry; assumption.
  - intros sz g1 k ex ey Hsz Hne Hk Hex Hey Hout.
    destruct (Cake.new config g) as [[net g']| |] eqn:Hnew; [exfalso|reflexivity..].
    apply Cake_new_inv in Hnew as (sz' & el & Hsz' & Hel & _).
    rewrite Hsz in Hsz'. injection Hsz' as <- <-.
    apply Cake_ComputeSize_inv in Hsz as (Hxp & Hyp & _).
    apply Cake_ParseElevators_map in Hel.
    destruct (parse_elevator_map_explicit _ _ _ _ Hxp Hyp Hne Hel k Hk)
      as (ex' & ey' & Hex' & Hey' & Hin & _).
    rewrite Hex in Hex'. rewrite Hey in Hey'.
    injection Hex' as <-. injection Hey' as <-. exact (Hout Hin).
Qed.

Lemma C2_mapping_entries_in_plane_witness :
  (exists net g', Cake.new cfg_cake_stray_mapping g_init = Ok (net, g') /\
     exists p, table_entry (Cake._elevator_map net) 0 0 = Some p /\ in_plane 2 2 p) /\
  is_Ok (Cake.new cfg_cake_bad_mapping g_init) = false.
Proof.
  split.
  - destruct (Cake.new cfg_cake_stray_mapping g_init) as [[net g']| |] eqn:E;
      [|vm_compute in E; discriminate..].
    pose proof E as E'. vm_compute in E'. injection E' as <- <-.
    eexists _, _. split; [reflexivity|].
    exact (proj1 (C2_mapping_entries_in_plane cfg_cake_stray_mapping g_init) _ _ E 0 0
             ltac:(vm_compute; split; [discriminate|reflexivity])
             ltac:(vm_compute; split; [discriminate|reflexivity])).
  - destruct (Cake._ComputeSize cfg_cake_bad_mapping g_init) as [[sz g1]| |] eqn:E;
      [|vm_compute in E; discriminate..].
    pose proof E as E'. vm_compute in E'. injection E' as <- <-.
    apply (proj2 (C2_mapping_entries_in_plane cfg_cake_bad_mapping g_init)
             _ _ 0 0 5 E); try reflexivity.
    + vm_compute. split; [discriminate|reflexivity].
    + unfold in_plane. simpl. lia.
Defined.

(** C2 as stated fails: a 2x2 Cake with the single elevator (1,1) and a
    mapping table that sends (0,0) to (0,1) is constructed, although (0,1)
    is not in the elevator set; so is a 3x3 Cake without any elevator,
    whose default table maps every cell to itself. *)
Lemma C2_mapping_outside_elevators_counterexample :
  (exists net g', Cake.new cfg_cake_stray_mapping g_init = Ok (net, g') /\
     Cake._elevators net = [(1, 1)] /\
     table_entry (Cake._elevator_map net) 0 0 = Some (0, 1) /\
     (0, 1) ∉ Cake._elevators net) /\
  (exists net g', Cake.new cfg_cake_33 g_init = Ok (net, g') /\
     Cake._elevators net = [] /\
     table_entry (Cake._elevator_map net) 0 0 = Some (0, 0) /\
     (0, 0) ∉ Cake._elevators net).
Proof.
  split.
  - destruct (Cake.new cfg_cake_stray_mapping g_init) as [[net g']| |] eqn:E;
      [|vm_compute in E; discriminate..].
    vm_compute in E. injection E as <- <-.
    eexists _, _. split; [reflexivity|]. split; [reflexivity|]. split; [reflexivity|].
    intros Hin. apply list_elem_of_singleton in Hin. discriminate.
  - destruct (Cake.new cfg_cake_33 g_init) as [[net g']| |] eqn:E;
      [|vm_compute in E; discriminate..].
    vm_compute in E. injection E as <- <-.
    eexists _, _. split; [reflexivity|]. split; [reflexivity|]. split; [reflexivity|].
    apply not_elem_of_nil.
Qed.

(** ** Exact binary64 arithmetic on integers *)

Lemma digits2_size n : digits2_pos n = Pos.size n.
Proof. induction n as [n IH|n IH|]; simpl; congruence. Qed.

Lemma digits2_log2 n : Zpos (digits2_pos n) = Z.log2 (Zpos n) + 1.
Proof.
  rewrite digits2_size. destruct n as [n|n|]; simpl; try reflexivity;
    rewrite Pos2Z.inj_succ; lia.
Qed.

Lemma digits2_shift n k m :
  0 <= k -> Zpos m = Zpos n * 2 ^ k ->
  Zpos (digits2_pos m) = Zpos (digits2_pos n) + k.
Proof.
  intros Hk Hm. rewrite !digits2_log2, Hm, Z.log2_mul_pow2 by lia. lia.
Qed.

Lemma iter_pos_nat {A} (f : A -> A) p x :
  SpecFloat.iter_pos f p x = Nat.iter (Pos.to_nat p) f x.
Proof.
  revert x. induction p as [p IH|p IH|]; intros x; simpl SpecFloat.iter_pos.
  - rewrite !IH, Pos2Nat.inj_xI.
    replace (S (2 * Pos.to_nat p)) with (Pos.to_nat p + S (Pos.to_nat p))%nat by lia.
    rewrite Nat.iter_add, Nat.iter_succ_r. reflexivity.
  - rewrite !IH, Pos2Nat.inj_xO.
    replace (2 * Pos.to_nat p)%nat with (Pos.to_nat p + Pos.to_nat p)%nat by lia.
    rewrite Nat.iter_add. reflexivity.
  - reflexivity.
Qed.

Lemma shr_1_exact (j : nat) (m q : positive) :
  Zpos q = Zpos m * 2 ^ Z.of_nat j ->
  Nat.iter j shr_1 (Build_shr_record (Zpos q) false false)
    = Build_shr_record (Zpos m) false false.
Proof.
  revert q. induction j as [|j IH]; intros q Hq.
  - simpl in *. f_equal. lia.
  - rewrite Nat.iter_succ_r.
    rewrite Nat2Z.inj_succ, Z.pow_succ_r in Hq by lia.
    destruct q as [q|q|]; try lia.
    simpl shr_1. apply IH. lia.
Qed.

Lemma fexp_small e : -1021 <= e -> fexp 53 1024 e = e - 53.
Proof. unfold fexp, emin. lia. Qed.

Lemma round_aux_exact s (B mz : positive) k :
  Zpos (digits2_pos B) <= 53 ->
  53 <= Zpos (digits2_pos B) + k ->
  Zpos mz = Zpos B * 2 ^ k ->
  binary_round_aux 53 1024 s (Zpos mz) (- k) loc_Exact
  = S754_finite s (Z.to_pos (Zpos B * 2 ^ (53 - Zpos (digits2_pos B))))
                  (Zpos (digits2_pos B) - 53).
Proof.
  intros Hd Hk Hm. set (d := Zpos (digits2_pos B)) in *.
  assert (0 < d) as Hd0 by (unfold d; lia).
  assert (0 <= k) as Hk0 by lia.
  pose proof (digits2_shift B k mz Hk0 Hm) as Hdm. fold d in Hdm.
  set (m' := Z.to_pos (Zpos B * 2 ^ (53 - d))).
  assert (Zpos m' = Zpos B * 2 ^ (53 - d)) as Hm'.
  { unfold m'. rewrite Z2Pos.id; [reflexivity|].
    apply Z.mul_pos_pos; [lia|]. apply Z.pow_pos_nonneg; lia. }
  pose proof (digits2_shift B (53 - d) m' ltac:(lia) Hm') as Hdm'. fold d in Hdm'.
  assert (shr (Build_shr_record (Zpos mz) false false) (- k) (d - 53 - - k)
          = (Build_shr_record (Zpos m') false false, d - 53)) as Hshr.
  { unfold shr. destruct (d - 53 - - k) as [|p|p] eqn:E.
    - assert (k = 53 - d) as -> by lia. f_equal; [|lia].
      f_equal. lia.
    - rewrite iter_pos_nat, (shr_1_exact _ m' mz).
      + f_equal. lia.
      + rewrite positive_nat_Z, Hm, Hm', <- Z.mul_assoc, <- Z.pow_add_r by lia.
        f_equal. f_equal. lia.
    - lia. }
  unfold binary_round_aux, shr_fexp.
  cbn [Zdigits2 shr_record_of_loc]. rewrite Hdm.
  replace (d + k + - k) with d by lia. rewrite fexp_small by lia.
  rewrite Hshr. cbn [shr_m loc_of_shr_record round_nearest_even Zdigits2 shr_record_of_loc].
  rewrite Hdm'. replace (d + (53 - d) + (d - 53)) with d by lia.
  rewrite fexp_small by lia. rewrite Z.sub_diag. cbn [shr shr_m].
  destruct (d - 53 <=? 1024 - 53) eqn:E; [reflexivity|lia].
Qed.

(** Rounding an integer multiple of a power of two whose odd part has at
    most 53 bits gives the normalised significand and exponent. *)
Lemma round_exact s (C c : positive) K :
  0 <= K ->
  Zpos (digits2_pos C) <= 53 ->
  Zpos c = Zpos C * 2 ^ K ->
  binary_round 53 1024 s c (- K)
  = S754_finite s (Z.to_pos (Zpos C * 2 ^ (53 - Zpos (digits2_pos C))))
                  (Zpos (digits2_pos C) - 53).
Proof.
  intros HK Hd Hc. set (d := Zpos (digits2_pos C)) in *.
  assert (0 < d) as Hd0 by (unfold d; lia).
  pose proof (digits2_shift C K c HK Hc) as Hdc. fold d in Hdc.
  unfold binary_round. rewrite Hdc.
  replace (d + K + - K) with d by lia. rewrite fexp_small by lia.
  unfold shl_align. destruct (d - 53 - - K) as [|p|p] eqn:E; cbv beta iota.
  - assert (- K = - (53 - d)) as -> by lia.
    apply round_aux_exact; [assumption|fold d; lia|].
    rewrite Hc. f_equal. f_equal. lia.
  - apply round_aux_exact; [assumption|fold d; lia|exact Hc].
  - replace (d - 53) with (- (53 - d)) at 1 by lia.
    apply round_aux_exact; [assumption|fold d; lia|]. fold d.
    assert (Zpos (Pos.iter xO c p) = Zpos c * 2 ^ Zpos p) as ->.
    { clear. induction p as [|p IH] using Pos.peano_ind.
      - simpl. lia.
      - rewrite Pos.iter_succ, Pos2Z.inj_xO, IH, Pos2Z.inj_succ, Z.pow_succ_r by lia. lia. }
    rewrite Hc, <- Z.mul_assoc, <- Z.pow_add_r by lia. f_equal. f_equal. lia.
Qed.

Lemma digits2_le_53 p : Zpos p < 2 ^ 53 -> Zpos (digits2_pos p) <= 53.
Proof.
  intros H. rewrite digits2_log2.
  assert (Z.log2 (Zpos p) < 53) by (apply Z.log2_lt_pow2; lia). lia.
Qed.

Lemma double_of_int_pos p :
  Zpos p < 2 ^ 53 ->
  double_of_int (Zpos p)
  = S754_finite false (Z.to_pos (Zpos p * 2 ^ (53 - Zpos (digits2_pos p))))
                (Zpos (digits2_pos p) - 53).
Proof.
  intros H. unfold double_of_int, binary_normalize.
  change 0 with (- 0) at 1.
  apply round_exact; [lia|apply digits2_le_53; exact H|lia].
Qed.

Lemma normal_mantissa p :
  Zpos p < 2 ^ 53 ->
  Zpos (Z.to_pos (Zpos p * 2 ^ (53 - Zpos (digits2_pos p))))
  = Zpos p * 2 ^ (53 - Zpos (digits2_pos p)).
Proof.
  intros H. pose proof (digits2_le_53 p H). rewrite Z2Pos.id; [reflexivity|].
  apply Z.mul_pos_pos; [lia|]. apply Z.pow_pos_nonneg; lia.
Qed.

Lemma shl_align_val m e ez :
  ez <= e -> Zpos (fst (shl_align m e ez)) = Zpos m * 2 ^ (e - ez).
Proof.
  intros H. unfold shl_align. destruct (ez - e) as [|p|p] eqn:E; simpl fst.
  - replace (e - ez) with 0 by lia. lia.
  - lia.
  - replace (e - ez) with (Zpos p) by lia.
    clear. induction p as [|p IH] using Pos.peano_ind.
    + simpl. lia.
    + rewrite Pos.iter_succ, Pos2Z.inj_xO, IH, Pos2Z.inj_succ, Z.pow_succ_r by lia. lia.
Qed.

Lemma double_add_pos pa pb :
  Zpos pa + Zpos pb < 2 ^ 53 ->
  double_add (double_of_int (Zpos pa)) (double_of_int (Zpos pb))
  = double_of_int (Zpos pa + Zpos pb).
Proof.
  intros H.
  assert (Zpos pa < 2 ^ 53) as Ha by lia. assert (Zpos pb < 2 ^ 53) as Hb by lia.
  rewrite (double_of_int_pos pa Ha), (double_of_int_pos pb Hb).
  pose proof (normal_mantissa pa Ha) as Hma. pose proof (normal_mantissa pb Hb) as Hmb.
  pose proof (digits2_le_53 pa Ha) as Hda. pose proof (digits2_le_53 pb Hb) as Hdb.
  set (da := Zpos (digits2_pos pa)) in *. set (db := Zpos (digits2_pos pb)) in *.
  assert (0 < da) by (unfold da; lia). assert (0 < db) by (unfold db; lia).
  set (ma := Z.to_pos (Zpos pa * 2 ^ (53 - da))) in *.
  set (mb := Z.to_pos (Zpos pb * 2 ^ (53 - db))) in *.
  unfold double_add.
  change (SFadd 53 1024 (S754_finite false ma (da - 53)) (S754_finite false mb (db - 53)))
    with (binary_normalize 53 1024
            (Zpos (fst (shl_align ma (da - 53) (Z.min (da - 53) (db - 53))))
             + Zpos (fst (shl_align mb (db - 53) (Z.min (da - 53) (db - 53)))))
            (Z.min (da - 53) (db - 53)) false).
  rewrite !shl_align_val by lia. rewrite Hma, Hmb.
  set (K := - Z.min (da - 53) (db - 53)).
  assert (0 <= K) as HK by (unfold K; lia).
  assert (Zpos pa * 2 ^ (53 - da) * 2 ^ (da - 53 - Z.min (da - 53) (db - 53))
          + Zpos pb * 2 ^ (53 - db) * 2 ^ (db - 53 - Z.min (da - 53) (db - 53))
          = Zpos (pa + pb) * 2 ^ K) as ->.
  { rewrite <- !Z.mul_assoc, <- !Z.pow_add_r by lia.
    replace (53 - da + (da - 53 - Z.min (da - 53) (db - 53))) with K by (unfold K; lia).
    replace (53 - db + (db - 53 - Z.min (da - 53) (db - 53))) with K by (unfold K; lia).
    rewrite Pos2Z.inj_add. lia. }
  replace (Z.min (da - 53) (db - 53)) with (- K) by (unfold K; lia).
  assert (0 < Zpos (pa + pb) * 2 ^ K) as Hpos
    by (apply Z.mul_pos_pos; [lia|apply Z.pow_pos_nonneg; lia]).
  destruct (Zpos (pa + pb) * 2 ^ K) as [|c|c] eqn:Ec; try lia.
  unfold binary_normalize.
  rewrite (round_exact false (pa + pb) c K HK);
    [|apply digits2_le_53; rewrite Pos2Z.inj_add; exact H|symmetry; exact Ec].
  change (Zpos pa + Zpos pb) with (Zpos (pa + pb)).
  rewrite double_of_int_pos by (rewrite Pos2Z.inj_add; exact H). reflexivity.
Qed.

Lemma double_add_exact a b :
  0 <= a -> 0 <= b -> a + b < 2 ^ 53 ->
  double_add (double_of_int a) (double_of_int b) = double_of_int (a + b).
Proof.
  intros Ha Hb H. destruct a as [|pa|pa]; [|destruct b as [|pb|pb]|]; try lia.
  - destruct b as [|pb|pb]; try lia; [reflexivity|].
    rewrite Z.add_0_l, double_of_int_pos by lia. reflexivity.
  - rewrite Z.add_0_r, double_of_int_pos by lia. reflexivity.
  - apply double_add_pos. exact H.
Qed.

Lemma div_eucl_div_mod a b : Z.div_eucl a b = (a / b, a mod b).
Proof. unfold Z.div, Z.modulo. destruct (Z.div_eucl a b). reflexivity. Qed.

Lemma new_location_exact n : new_location n 0 = loc_Exact.
Proof.
  unfold new_location, new_location_even, new_location_odd.
  destruct (Z.even n); reflexivity.
Qed.

Lemma double_div_pos ps pb :
  Zpos ps * Zpos pb < 2 ^ 53 ->
  double_div (double_of_int (Zpos ps * Zpos pb)) (double_of_int (Zpos ps))
  = double_of_int (Zpos pb).
Proof.
  intros H. change (Zpos ps * Zpos pb) with (Zpos (ps * pb)) in *.
  assert (Zpos ps < 2 ^ 53) as Hs by (rewrite Pos2Z.inj_mul in H; nia).
  assert (Zpos pb < 2 ^ 53) as Hb by (rewrite Pos2Z.inj_mul in H; nia).
  rewrite (double_of_int_pos _ H), (double_of_int_pos _ Hs), (double_of_int_pos _ Hb).
  pose proof (normal_mantissa _ H) as Hmn. pose proof (normal_mantissa _ Hs) as Hms.
  pose proof (digits2_le_53 _ H) as Hdn. pose proof (digits2_le_53 _ Hs) as Hds.
  pose proof (digits2_le_53 _ Hb) as Hdb.
  assert (Zpos (digits2_pos (ps * pb))
          <= Zpos (digits2_pos ps) + Zpos (digits2_pos pb)) as Hmul.
  { rewrite !digits2_log2, Pos2Z.inj_mul.
    pose proof (Z.log2_mul_above (Zpos ps) (Zpos pb)). lia. }
  set (dn := Zpos (digits2_pos (ps * pb))) in *.
  set (ds := Zpos (digits2_pos ps)) in *.
  set (db := Zpos (digits2_pos pb)) in *.
  assert (0 < dn) by (unfold dn; lia). assert (0 < ds) by (unfold ds; lia).
  assert (0 < db) by (unfold db; lia).
  pose proof (digits2_shift (ps * pb) (53 - dn) _ ltac:(lia) Hmn) as HDn.
  pose proof (digits2_shift ps (53 - ds) _ ltac:(lia) Hms) as HDs.
  fold dn in HDn. fold ds in HDs.
  set (mn := Z.to_pos (Zpos (ps * pb) * 2 ^ (53 - dn))) in *.
  set (ms := Z.to_pos (Zpos ps * 2 ^ (53 - ds))) in *.
  set (k := 53 - dn + ds).
  assert (0 <= k) as Hk by (unfold k; lia).
  set (q := Z.to_pos (Zpos pb * 2 ^ k)).
  assert (Zpos q = Zpos pb * 2 ^ k) as Hq.
  { unfold q. rewrite Z2Pos.id; [reflexivity|].
    apply Z.mul_pos_pos; [lia|apply Z.pow_pos_nonneg; lia]. }
  assert (SFdiv_core_binary 53 1024 (Zpos mn) (dn - 53) (Zpos ms) (ds - 53)
          = (Zpos q, - k, loc_Exact)) as Hcore.
  { unfold SFdiv_core_binary. cbn [Zdigits2]. rewrite HDn, HDs.
    replace (dn + (53 - dn) + (dn - 53) - (ds + (53 - ds) + (ds - 53)))
      with (dn - ds) by lia.
    rewrite fexp_small by lia.
    replace (Z.min (dn - ds - 53) (dn - 53 - (ds - 53))) with (- k) by (unfold k; lia).
    replace (dn - 53 - (ds - 53) - - k) with 53 by (unfold k; lia).
    cbv iota. rewrite Z.shiftl_mul_pow2 by lia.
    assert (Zpos mn * 2 ^ 53 = Zpos q * Zpos ms) as ->.
    { rewrite Hmn, Hms, Hq, Pos2Z.inj_mul.
      transitivity (Zpos ps * Zpos pb * (2 ^ (53 - dn) * 2 ^ 53)); [lia|].
      transitivity (Zpos ps * Zpos pb * (2 ^ k * 2 ^ (53 - ds))); [|lia].
      rewrite <- !Z.pow_add_r by lia. f_equal. f_equal. unfold k. lia. }
    rewrite div_eucl_div_mod, Z.div_mul, Z.mod_mul by lia.
    rewrite new_location_exact. reflexivity. }
  unfold double_div.
  change (SFdiv 53 1024 (S754_finite false mn (dn - 53)) (S754_finite false ms (ds - 53)))
    with (let '(mz, ez, lz) :=
            SFdiv_core_binary 53 1024 (Zpos mn) (dn - 53) (Zpos ms) (ds - 53) in
          binary_round_aux 53 1024 false mz ez lz).
  rewrite Hcore. apply round_aux_exact; [exact Hdb|fold db; unfold k; lia|exact Hq].
Qed.

Lemma double_div_exact s b :
  0 < s -> 0 < b -> s * b < 2 ^ 53 ->
  double_div (double_of_int (s * b)) (double_of_int s) = double_of_int b.
Proof.
  intros Hs Hb H. destruct s as [|ps|ps]; try lia. destruct b as [|pb|pb]; try lia.
  apply double_div_pos. exact H.
Qed.

(** ** Capacity *)

Lemma total_app l1 l2 : total (l1 ++ l2) = total l1 + total l2.
Proof. induction l1 as [|a l1 IH]; simpl; [reflexivity|]. rewrite IH. lia. Qed.

Lemma total_snoc l b : total (l ++ [b]) = total l + b.
Proof. rewrite total_app. simpl. lia. Qed.

Lemma total_nonneg l : Forall (fun b => 0 < b) l -> 0 <= total l.
Proof. induction 1; simpl; lia. Qed.

Lemma total_take_le l k : Forall (fun b => 0 < b) l -> total (take k l) <= total l.
Proof.
  intros H. rewrite <- (take_drop k l) at 2. rewrite total_app.
  pose proof (total_nonneg (drop k l) (Forall_drop _ k _ H)). lia.
Qed.

(** Without overflow in the products [_size * _dim_bandwidth[dim]] and
    with an exactly representable sum, [Capacity] is the sum of the
    bandwidths. *)
Lemma Capacity_total self :
  0 < UniTorus._size self ->
  Z.of_nat (length (UniTorus._dim_sizes self)) <= Int32.INT_MAX ->
  length (UniTorus._dim_bandwidth self) = length (UniTorus._dim_sizes self) ->
  Forall (fun b => 0 < b) (UniTorus._dim_bandwidth self) ->
  Forall (fun b => UniTorus._size self * b <= Int32.INT_MAX) (UniTorus._dim_bandwidth self) ->
  total (UniTorus._dim_bandwidth self) < 2 ^ 53 ->
  UniTorus.Capacity self = Ok (double_of_int (total (UniTorus._dim_bandwidth self))).
Proof.
  intros Hsize HD Hlen Hpos Hfit Hsum. unfold UniTorus.Capacity, UniTorus.num_dims.
  rewrite wrap_fits by (unfold Int32.fits, Int32.INT_MIN, Int32.INT_MAX in *; lia).
  set (bw := UniTorus._dim_bandwidth self) in *. set (s := UniTorus._size self) in *.
  destruct (for_range_inv
    (fun i t => t = double_of_int (total (take (Z.to_nat i) bw)))
    (Z.of_nat (length (UniTorus._dim_sizes self)))
    (fun dim total_capacity =>
       b ← at_index bw dim;
       Ok (double_add total_capacity
             (double_div (double_of_int (Int32.mul s b)) (double_of_int s))))
    double_zero) as (t & Hrun & Ht).
  - lia.
  - reflexivity.
  - intros i t Hi ->.
    destruct (lookup_lt_is_Some_2 bw (Z.to_nat i) ltac:(lia)) as [b Hb].
    rewrite (at_index_Ok _ _ _ (proj1 Hi) Hb), bind_Ok.
    eexists. split; [reflexivity|].
    pose proof (proj1 (Forall_lookup _ _) Hpos _ _ Hb) as Hb0. simpl in Hb0.
    pose proof (proj1 (Forall_lookup _ _) Hfit _ _ Hb) as Hbf. simpl in Hbf.
    assert (0 < s * b) as Hsb by (apply Z.mul_pos_pos; lia).
    unfold Int32.mul.
    rewrite wrap_fits by (unfold Int32.fits, Int32.INT_MIN, Int32.INT_MAX in *; lia).
    rewrite double_div_exact; [|lia|lia|unfold Int32.INT_MAX in *; lia].
    replace (Z.to_nat (i + 1)) with (S (Z.to_nat i)) by lia.
    rewrite (take_S_r _ _ _ Hb), total_snoc.
    pose proof (total_nonneg _ (Forall_take _ (Z.to_nat i) _ Hpos)) as Hnn.
    pose proof (total_take_le bw (S (Z.to_nat i)) Hpos) as Hle.
    rewrite (take_S_r _ _ _ Hb), total_snoc in Hle.
    rewrite double_add_exact by lia. reflexivity.
  - rewrite Hrun, Ht. rewrite Nat2Z.id, <- Hlen, firstn_all. reflexivity.
Qed.

Lemma parseAndValidate_inv n str values :
  UniTorus.parseAndValidate n str = Ok values ->
  values = [] \/
  (Forall (fun b => 0 < b) values /\ Int32.wrap (Z.of_nat (length values)) = n).
Proof.
  unfold UniTorus.parseAndValidate. destruct (_ || _); [intros [= <-]; auto|].
  destruct (Int32.wrap _ =? n) eqn:E; [|discriminate]. simpl. intros H. right.
  apply Z.eqb_eq in E.
  apply (foldM_post (fun k vs => Forall (fun b => 0 < b) vs /\ length vs = k)) in H.
  - destruct H as [H1 H2]. rewrite H2. auto.
  - split; [constructor|reflexivity].
  - intros i tok vs vs' _ [Hall Hl] Hb.
    destruct (Str.atoi tok <=? 0) eqn:Ev; [discriminate|]. injection Hb as <-.
    split; [apply Forall_app; split; [exact Hall|constructor; [lia|constructor]]|].
    rewrite length_app. simpl. lia.
Qed.

Lemma UniTorus_new_bandwidth config g net g' :
  UniTorus.new config g = Ok (net, g') ->
  Forall (fun b => 0 < b) (UniTorus._dim_bandwidth net) /\
  (Z.of_nat (length (UniTorus._dim_sizes net)) <= Int32.INT_MAX ->
   Z.of_nat (length (UniTorus._dim_bandwidth net)) <= Int32.INT_MAX ->
   length (UniTorus._dim_bandwidth net) = length (UniTorus._dim_sizes net)).
Proof.
  intros H. apply UniTorus_new_inv in H as (sz & dir & _ & Hdir & -> & -> & _).
  unfold UniTorus._ParseDirectionConfig in Hdir.
  inv_bind Hdir as bv Hbv. inv_bind Hdir as lv Hlv. inv_bind Hdir as pv Hpv.
  injection Hdir as <-. cbn [UniTorus.dir_bandwidth].
  apply parseAndValidate_inv in Hbv.
  unfold UniTorus.num_dims in *.
  assert (forall n : nat, Z.of_nat n <= Int32.INT_MAX -> Int32.wrap (Z.of_nat n) = Z.of_nat n)
    as Hw by (intros n Hn; apply wrap_fits;
              unfold Int32.fits, Int32.INT_MIN, Int32.INT_MAX in *; lia).
  destruct (bool_decide (bv = [])) eqn:Eb.
  - unfold UniTorus.resize. rewrite take_nil, app_nil_l. simpl length. rewrite Nat.sub_0_r.
    split; [apply Forall_replicate; lia|].
    intros Hs _. rewrite length_replicate, Hw by exact Hs. lia.
  - apply bool_decide_eq_false in Eb. destruct Hbv as [->|[Hall Hl]]; [done|].
    split; [exact Hall|]. intros Hs Hb. rewrite !Hw in Hl by assumption. lia.
Qed.

(** C6. For a constructed UniTorus with a positive node count, whose
    products [_size * _dim_bandwidth[dim]] are representable as [int] and
    whose bandwidth sum is below 2^53, [Capacity] returns the sum of the
    bandwidths; on the 3x3 torus with bandwidths 1 and 2 it returns 3.0.
    On a 2x2 torus with bandwidths 2^29 and 1 the [int] product
    [_size * _dim_bandwidth[0]] is 2^31, which wraps to -2^31: the code
    returns -536870911.0, not the sum 536870913.0. *)
Theorem C6_capacity_total_unless_overflow :
  (forall config g net g',
     UniTorus.new config g = Ok (net, g') ->
     0 < UniTorus._size net ->
     Z.of_nat (length (UniTorus._dim_sizes net)) <= Int32.INT_MAX ->
     Z.of_nat (length (UniTorus._dim_bandwidth net)) <= Int32.INT_MAX ->
     Forall (fun b => UniTorus._size net * b <= Int32.INT_MAX)
            (UniTorus._dim_bandwidth net) ->
     total (UniTorus._dim_bandwidth net) < 2 ^ 53 ->
     UniTorus.Capacity net
       = Ok (double_of_int (total (UniTorus._dim_bandwidth net)))) /\
  (exists net g', UniTorus.new cfg_unitorus_33 g_init = Ok (net, g') /\
     UniTorus._dim_bandwidth net = [1; 2] /\
     UniTorus.Capacity net = Ok (double_of_int (1 + 2))) /\
  (exists net g', UniTorus.new cfg_unitorus_wide g_init = Ok (net, g') /\
     UniTorus._size net = 4 /\
     UniTorus._dim_bandwidth net = [536870912; 1] /\
     UniTorus.Capacity net = Ok (double_of_int (-536870911)) /\
     UniTorus.Capacity net <> Ok (double_of_int (536870912 + 1))).
Proof.
  split; [|split].
  - intros config g net g' Hnew Hsize HD HB Hfit Hsum.
    destruct (UniTorus_new_bandwidth _ _ _ _ Hnew) as [Hpos Hlen].
    apply Capacity_total; auto.
  - destruct (UniTorus.new cfg_unitorus_33 g_init) as [[net g']| |] eqn:E;
      [|vm_compute in E; discriminate..].
    vm_compute in E. injection E as <- <-.
    eexists _, _. split; [reflexivity|]. split; [reflexivity|].
    vm_compute. reflexivity.
  - destruct (UniTorus.new cfg_unitorus_wide g_init) as [[net g']| |] eqn:E;
      [|vm_compute in E; discriminate..].
    vm_compute in E. injection E as <- <-.
    eexists _, _. split; [reflexivity|]. split; [reflexivity|]. split; [reflexivity|].
    split; [vm_compute; reflexivity|]. vm_compute. discriminate.
Qed.

Lemma C6_capacity_total_unless_overflow_witness :
  exists net g',
    UniTorus.new cfg_unitorus_33 g_init = Ok (net, g') /\
    UniTorus._size net = 9 /\
    UniTorus._dim_bandwidth net = [1; 2] /\
    UniTorus.Capacity net = Ok (double_of_int 3).
Proof.
  destruct (UniTorus.new cfg_unitorus_33 g_init) as [[net g']| |] eqn:E;
    [|vm_compute in E; discriminate..].
  pose proof E as E'. vm_compute in E'. injection E' as <- <-.
  eexists _, _. split; [reflexivity|]. split; [reflexivity|]. split; [reflexivity|].
  apply (proj1 C6_capacity_total_unless_overflow _ _ _ _ E).
  - reflexivity.
  - vm_compute. discriminate.
  - vm_compute. discriminate.
  - repeat constructor; vm_compute; discriminate.
  - reflexivity.
Defined.

(** * Further properties of the builders *)

(** ** Cake: when construction completes *)

Lemma Cake_new_of_parts config g sz g1 el net :
  Cake._ComputeSize config g = Ok (sz, g1) ->
  Cake._ParseElevators config sz = Ok el ->
  Cake._BuildNet (Cake.allocated config sz el) = Ok net ->
  Cake.new config g = Ok (net, g1).
Proof.
  intros Hsz Hel Hb. unfold Cake.new. rewrite Hsz, bind_Ok, Hel, bind_Ok, Hb.
  reflexivity.
Qed.

(** X1. Once sizing and elevator parsing have succeeded, [_BuildNet] runs
    to completion exactly when the channel count 2*X*Y*Z + 2*|E|*Z is
    representable as [int]: no router or channel access of the wiring
    passes is out of bounds then, and one is otherwise. *)
Theorem Cake_construction_completes config g sz g1 el :
  Cake._ComputeSize config g = Ok (sz, g1) ->
  Cake._ParseElevators config sz = Ok el ->
  ((exists net, Cake.new config g = Ok (net, g1)) <->
   2 * (Cake.sz_x sz * Cake.sz_y sz * Cake.sz_layers sz)
   + 2 * (Z.of_nat (length (Cake.el_elevators el)) * Cake.sz_layers sz)
   <= Int32.INT_MAX).
Proof.
  intros Hsz Hel. split.
  - intros [net Hnew]. pose proof (Cake_new_fits _ _ _ _ Hnew) as Hfits.
    apply Cake_new_inv in Hnew as (sz' & el' & Hsz' & Hel' & Hb).
    rewrite Hsz in Hsz'. injection Hsz' as <-. rewrite Hel in Hel'. injection Hel' as <-.
    destruct (Cake_BuildNet_fields _ _ Hb) as (Hx & Hy & Hl & He & _).
    unfold cake_fits in Hfits. rewrite Hx, Hy, Hl, He in Hfits. exact Hfits.
  - intros Hfits.
    pose proof (Cake_allocated_ready _ _ _ _ _ Hsz Hel Hfits) as ready.
    destruct (BuildNet_ready _ ready) as (net & Hb & _).
    exists net. eapply Cake_new_of_parts; eassumption.
Qed.

Lemma Cake_construction_completes_witness :
  exists sz g1 el net,
    Cake._ComputeSize cfg_cake_332 g_init = Ok (sz, g1) /\
    Cake._ParseElevators cfg_cake_332 sz = Ok el /\
    Cake.new cfg_cake_332 g_init = Ok (net, g1).
Proof.
  destruct (Cake._ComputeSize cfg_cake_332 g_init) as [[sz g1]| |] eqn:Hsz;
    [|vm_compute in Hsz; discriminate..].
  destruct (Cake._ParseElevators cfg_cake_332 sz) as [el| |] eqn:Hel;
    [|vm_compute in Hsz; injection Hsz as <- <-; vm_compute in Hel; discriminate..].
  destruct (proj2 (Cake_construction_completes _ _ _ _ _ Hsz Hel)) as [net Hnew].
  - vm_compute in Hsz. injection Hsz as <- <-.
    vm_compute in Hel. injection Hel as <-. vm_compute. discriminate.
  - exists sz, g1, el, net. auto.
Defined.

(** ** Cake: node ids, coordinates and router metadata *)

(** X2. In a constructed Cake, [_IdToXYZ] and [_NodeId] are mutually
    inverse between the node ids in [0, _size) and the coordinates
    inside the X-by-Y-by-layers box, with x = id mod X,
    y = (id / X) mod Y and z = id / (X*Y). *)
Theorem Cake_node_id_round_trip config g net g' :
  Cake.new config g = Ok (net, g') ->
  let X := Cake._x net in
  let Y := Cake._y net in
  let L := Cake._layers net in
  Cake._size net = X * Y * L /\
  (forall id, 0 <= id < Cake._size net ->
     exists x y z,
       Cake._IdToXYZ net id = Ok (x, y, z) /\
       (0 <= x < X /\ 0 <= y < Y /\ 0 <= z < L) /\
       x = id mod X /\ y = (id / X) mod Y /\ z = id / (X * Y) /\
       Cake._NodeId net x y z = id) /\
  (forall x y z, 0 <= x < X -> 0 <= y < Y -> 0 <= z < L ->
     0 <= Cake._NodeId net x y z < Cake._size net /\
     Cake._NodeId net x y z = z * (X * Y) + y * X + x /\
     Cake._IdToXYZ net (Cake._NodeId net x y z) = Ok (x, y, z)).
Proof.
  intros Hnew.
  destruct (Cake_new_wired _ _ _ _ Hnew)
    as (self & ready & (Hx & Hy & Hl & _ & _ & _ & _ & _ & Hs & _) & _).
  pose proof (cake_bounds self ready) as B.
  pose proof (cake_size self ready) as Hsize.
  assert (forall x y z, Cake._NodeId net x y z = Cake._NodeId self x y z) as HN
    by (intros; unfold Cake._NodeId; rewrite Hx, Hy; reflexivity).
  assert (forall id, Cake._IdToXYZ net id = Cake._IdToXYZ self id) as HI
    by (intros; unfold Cake._IdToXYZ; rewrite Hx, Hy; reflexivity).
  cbv zeta. rewrite <- Hx, <- Hy, <- Hl, <- Hs, Hsize.
  set (X := Cake._x self) in *. set (Y := Cake._y self) in *.
  set (L := Cake._layers self) in *.
  split; [reflexivity|]. split.
  - intros id Hid.
    pose proof (coords_of_range X Y L ltac:(lia) ltac:(lia) id Hid) as Hc.
    pose proof (IdToXYZ_eq self ready id Hid) as Hxyz. fold X Y in Hxyz.
    unfold coords_of in *.
    exists ((id mod (X * Y)) mod X), (id mod (X * Y) / X), (id / (X * Y)).
    destruct Hc as [(Hcx & Hcy & Hcz) Hnode].
    rewrite HI, HN, Hxyz, (NodeId_eq self ready) by assumption.
    split; [reflexivity|]. split; [auto|].
    split; [|split; [|split; [reflexivity|exact Hnode]]].
    + rewrite Z.rem_mul_r by lia.
      rewrite (Z.mul_comm X), Z_mod_plus_full. apply Z.mod_mod. lia.
    + rewrite Z.rem_mul_r by lia.
      rewrite (Z.mul_comm X), Z.div_add by lia.
      rewrite (Z.div_small (id mod X) X) by (apply Z.mod_pos_bound; lia). lia.
  - intros x y z Hcx Hcy Hcz.
    pose proof (node_id_range X Y L ltac:(lia) ltac:(lia) x y z Hcx Hcy Hcz) as Hr.
    rewrite HI, HN, (NodeId_eq self ready) by assumption. fold X Y.
    split; [exact Hr|]. split; [reflexivity|].
    rewrite (IdToXYZ_eq self ready) by exact Hr. fold X Y.
    rewrite coords_of_node_id by lia. reflexivity.
Qed.

Lemma Cake_node_id_round_trip_witness :
  exists net g',
    Cake.new cfg_cake_332 g_init = Ok (net, g') /\
    Cake._IdToXYZ net 14 = Ok (2, 1, 1) /\
    Cake._NodeId net 2 1 1 = 14.
Proof.
  destruct (Cake.new cfg_cake_332 g_init) as [[net g']| |] eqn:E;
    [|vm_compute in E; discriminate..].
  pose proof E as E'. vm_compute in E'. injection E' as <- <-.
  eexists _, _. split; [reflexivity|].
  destruct (Cake_node_id_round_trip _ _ _ _ E) as (_ & _ & H).
  destruct (H 2 1 1) as (_ & Hn & Hi); [vm_compute; split; [discriminate|reflexivity]..|].
  split; [|exact Hn]. rewrite Hn in Hi. exact Hi.
Defined.

Lemma pref_of_entry self x y p :
  table_entry (Cake._elevator_map self) y x = Some p -> pref_of self x y = p.
Proof. unfold table_entry, pref_of. intros ->. reflexivity. Qed.

(** X3. In a constructed Cake the router in slot [t] carries the sizes of
    the network, the coordinates [_IdToXYZ] gives for [t], and as
    elevator target the entry [_elevator_map[y][x]] of its own (x, y). *)
Theorem Cake_router_metadata config g net g' :
  Cake.new config g = Ok (net, g') ->
  forall (t : nat) r, Cake._routers net !! t = Some (Some r) ->
    (CakeXSize r, CakeYSize r, CakeLayers r)
      = (Cake.X net, Cake.Y net, Cake.Layers net) /\
    Cake._IdToXYZ net (Z.of_nat t) = Ok (CakeX r, CakeY r, CakeZ r) /\
    table_entry (Cake.ElevatorMap net) (CakeY r) (CakeX r)
      = Some (CakeElevX r, CakeElevY r).
Proof.
  intros Hnew t r Hr.
  destruct (Cake_new_wired _ _ _ _ Hnew)
    as (self & ready & (Hx & Hy & Hl & _ & _ & Hmap & _) & Hm).
  pose proof (cake_bounds self ready) as B.
  destruct (match_lookup _ _ _ _ _ _ Hm Hr) as (Ht & Hs & _).
  destruct (final_out_meta self ready _ Ht) as (_ & Hxyz & Hsz & Hpref).
  rewrite <- Hs in Hxyz, Hsz, Hpref.
  change (CakeX (strip_inputs r)) with (CakeX r) in *.
  change (CakeY (strip_inputs r)) with (CakeY r) in *.
  change (CakeZ (strip_inputs r)) with (CakeZ r) in *.
  change (CakeXSize (strip_inputs r)) with (CakeXSize r) in *.
  change (CakeYSize (strip_inputs r)) with (CakeYSize r) in *.
  change (CakeLayers (strip_inputs r)) with (CakeLayers r) in *.
  change (CakeElevX (strip_inputs r)) with (CakeElevX r) in *.
  change (CakeElevY (strip_inputs r)) with (CakeElevY r) in *.
  unfold Cake.X, Cake.Y, Cake.Layers, Cake.ElevatorMap.
  rewrite <- Hx, <- Hy, <- Hl, <- Hmap.
  split; [exact Hsz|]. split.
  - assert (Cake._IdToXYZ net (Z.of_nat t) = Cake._IdToXYZ self (Z.of_nat t)) as ->
      by (unfold Cake._IdToXYZ; rewrite Hx, Hy; reflexivity).
    rewrite (IdToXYZ_eq self ready) by exact Ht. rewrite Hxyz. reflexivity.
  - destruct B as (HX & HY & _).
    pose proof (coords_of_range (Cake._x self) (Cake._y self) (Cake._layers self)
                  HX HY _ Ht) as Hc.
    rewrite <- Hxyz in Hc, Hpref. cbn [fst snd] in Hc, Hpref.
    destruct Hc as [(Hcx & Hcy & _) _].
    destruct (lookup_lt_is_Some_2 (Cake._elevator_map self) (Z.to_nat (CakeY r)))
      as [row Hrow]; [rewrite (ready_map_rows _ ready); lia|].
    pose proof (Forall_lookup_1 _ _ _ _ (ready_map_cols _ ready) Hrow) as Hlen.
    destruct (lookup_lt_is_Some_2 row (Z.to_nat (CakeX r))) as [p Hp];
      [rewrite Hlen; lia|].
    assert (table_entry (Cake._elevator_map self) (CakeY r) (CakeX r) = Some p) as He
      by (unfold table_entry; rewrite Hrow; exact Hp).
    rewrite He. f_equal. rewrite Hpref. symmetry. apply pref_of_entry. exact He.
Qed.

Lemma Cake_router_metadata_witness :
  exists net g' r,
    Cake.new cfg_cake_332 g_init = Ok (net, g') /\
    Cake._routers net !! 14%nat = Some (Some r) /\
    (CakeXSize r, CakeYSize r, CakeLayers r) = (3, 3, 2) /\
    (CakeX r, CakeY r, CakeZ r) = (2, 1, 1) /\
    (CakeElevX r, CakeElevY r) = (2, 1).
Proof.
  destruct (Cake.new cfg_cake_332 g_init) as [[net g']| |] eqn:E;
    [|vm_compute in E; discriminate..].
  pose proof E as E'. vm_compute in E'. injection E' as <- <-.
  eexists _, _, _. split; [reflexivity|]. split; [reflexivity|].
  match goal with
  | |- context [CakeXSize ?r] =>
      destruct (Cake_router_metadata _ _ _ _ E 14%nat r eq_refl) as (Hs & Hi & Hm)
  end.
  split; [exact Hs|]. split; reflexivity.
Defined.

(** ** Cake: elevator keys and the elevator index *)

Lemma Key_inj_int x y x' y' :
  Int32.fits y -> Int32.fits y' ->
  Cake._Key x y = Cake._Key x' y' ->
  x = x' /\ y = y'.
Proof.
  unfold Int32.fits, Int32.INT_MIN, Int32.INT_MAX. intros Hy Hy' H.
  unfold Cake._Key in H.
  pose proof (Z.mod_pos_bound y 4294967296 ltac:(lia)) as Hb.
  pose proof (Z.mod_pos_bound y' 4294967296 ltac:(lia)) as Hb'.
  assert (forall a b, 0 <= b < 4294967296 ->
            Z.shiftr (Z.lor (Z.shiftl a 32) b) 32 = a) as Hhi.
  { intros a b Hab. rewrite Z.shiftr_lor, Z.shiftr_shiftl_l by lia.
    rewrite Z.sub_diag, Z.shiftl_0_r, Z.shiftr_div_pow2 by lia.
    change (2 ^ 32) with 4294967296. rewrite Z.div_small by lia. apply Z.lor_0_r. }
  assert (forall a b, 0 <= b < 4294967296 ->
            Z.land (Z.lor (Z.shiftl a 32) b) (Z.ones 32) = b) as Hlo.
  { intros a b Hab. rewrite Z.land_lor_distr_l, !Z.land_ones by lia.
    rewrite Z.shiftl_mul_pow2 by lia. rewrite Z_mod_mult.
    change (2 ^ 32) with 4294967296. rewrite Z.mod_small by lia. reflexivity. }
  split.
  - rewrite <- (Hhi x _ Hb), <- (Hhi x' _ Hb'), H. reflexivity.
  - assert (y mod 4294967296 = y' mod 4294967296) as Hm
      by (rewrite <- (Hlo x _ Hb), <- (Hlo x' _ Hb'), H; reflexivity).
    rewrite (Z.mod_eq y), (Z.mod_eq y') in Hm by lia.
    assert (y / 4294967296 = 0 \/ y / 4294967296 = -1) as [Hq|Hq].
    { destruct (Z_lt_le_dec y 0).
      - right. symmetry. apply (Z.div_unique y 4294967296 (-1) (y + 4294967296)); lia.
      - left. apply Z.div_small. lia. }
    all: assert (y' / 4294967296 = 0 \/ y' / 4294967296 = -1) as [Hq'|Hq'];
      [destruct (Z_lt_le_dec y' 0);
       [right; symmetry; apply (Z.div_unique y' 4294967296 (-1) (y' + 4294967296)); lia
       |left; apply Z.div_small; lia]| |]; lia.
Qed.

(** X4. [_Key] packs x into the upper and y into the lower 32 bits: the
    key determines both coordinates, so two coordinate pairs of [int]s
    share a key only when they are equal. *)
Theorem Cake_Key_injective x y x' y' :
  Int32.fits y -> Int32.fits y' ->
  Cake._Key x y = Cake._Key x' y' ->
  x = x' /\ y = y'.
Proof. apply Key_inj_int. Qed.


Lemma Cake_Key_injective_witness :
  Cake._Key 3 (-1) <> Cake._Key 2 (-1) /\ Cake._Key (-1) 5 <> Cake._Key (-1) (-5).
Proof.
  split; intros H.
  - destruct (Cake_Key_injective 3 (-1) 2 (-1)) as [H1 _];
      [vm_compute; split; discriminate..|exact H|discriminate].
  - destruct (Cake_Key_injective (-1) 5 (-1) (-5)) as [_ H1];
      [vm_compute; split; discriminate..|exact H|discriminate].
Defined.

(** X5. In a constructed Cake the elevator index is the inverse of the
    elevator list: every listed pair lies in the plane and is indexed by
    its position, and an in-plane (x, y) is indexed exactly when it is
    listed. *)
Theorem Cake_elevator_index_inverse config g net g' :
  Cake.new config g = Ok (net, g') ->
  (forall (e : nat) x y, Cake.Elevators_ net !! e = Some (x, y) ->
     (0 <= x < Cake.X net /\ 0 <= y < Cake.Y net) /\
     Cake._elevator_index net !! Cake._Key x y = Some (Z.of_nat e)) /\
  (forall x y e, 0 <= x < Cake.X net -> 0 <= y < Cake.Y net ->
     Cake._elevator_index net !! Cake._Key x y = Some e ->
     0 <= e /\ Cake.Elevators_ net !! Z.to_nat e = Some (x, y)) /\
  (forall x y, 0 <= x < Cake.X net -> 0 <= y < Cake.Y net ->
     (is_Some (Cake._elevator_index net !! Cake._Key x y) <->
      (x, y) ∈ Cake.Elevators_ net)).
Proof.
  intros Hnew.
  destruct (Cake_new_wired _ _ _ _ Hnew)
    as (self & ready & (Hx & Hy & _ & He & Hi & _) & _).
  unfold Cake.X, Cake.Y, Cake.Elevators_. rewrite <- Hx, <- Hy, <- He, <- Hi.
  split; [|split].
  - intros e x y Hl. destruct (ready_elev_range _ ready _ _ _ Hl) as [Hx' Hy'].
    split; [auto|]. apply (ready_elev_index _ ready); [lia|lia|].
    rewrite Nat2Z.id. split; [lia|exact Hl].
  - intros x y e Hx' Hy' Hl. apply (ready_elev_index _ ready) in Hl; [exact Hl|lia|lia].
  - intros x y Hx' Hy'. split.
    + intros [e Hl]. apply (ready_elev_index _ ready) in Hl as [_ Hl]; [|lia|lia].
      apply list_elem_of_lookup. eauto.
    + intros Hin. apply list_elem_of_lookup in Hin as [e Hl]. exists (Z.of_nat e).
      apply (ready_elev_index _ ready); [lia|lia|]. rewrite Nat2Z.id. split; [lia|exact Hl].
Qed.

Lemma Cake_elevator_index_inverse_witness :
  exists net g',
    Cake.new cfg_cake_332 g_init = Ok (net, g') /\
    Cake.Elevators_ net = [(1, 1)] /\
    Cake._elevator_index net !! Cake._Key 1 1 = Some 0 /\
    Cake._elevator_index net !! Cake._Key 0 1 = None.
Proof.
  destruct (Cake.new cfg_cake_332 g_init) as [[net g']| |] eqn:E;
    [|vm_compute in E; discriminate..].
  pose proof E as E'. vm_compute in E'. injection E' as <- <-.
  eexists _, _. split; [reflexivity|]. split; [reflexivity|].
  destruct (Cake_elevator_index_inverse _ _ _ _ E) as (H1 & _ & H3).
  split.
  - exact (proj2 (H1 0%nat 1 1 eq_refl)).
  - destruct (Cake._elevator_index _ !! Cake._Key 0 1) as [e|] eqn:El; [|reflexivity].
    exfalso.
    assert ((0, 1) ∈ [(1, 1)]) as Hin.
    { apply (H3 0 1); [vm_compute; split; [discriminate|reflexivity]..|].
      exists e. exact El. }
    apply list_elem_of_singleton in Hin. discriminate.
Defined.

(** ** Cake: the elevator list and the mapping table as parsed *)







Lemma first_occurrences_onto_elem p l : forall seen,
  p ∈ first_occurrences_onto seen l <-> p ∈ seen \/ p ∈ l.
Proof.
  induction l as [|q l IH]; intros seen; simpl.
  - rewrite elem_of_nil. tauto.
  - rewrite IH, elem_of_cons. destruct (bool_decide (q ∈ seen)) eqn:E.
    + apply bool_decide_eq_true in E. split; [tauto|].
      intros [H|[->|H]]; auto.
    + rewrite elem_of_app, list_elem_of_singleton. tauto.
Qed.

(** X7. The tokens of [elevator_coords] are the blank-separated words left
    after the braces are blanked, and every word with a comma is read as a
    pair.  A comma standing alone between two braced pairs, as in
    [{{1,1},{2,2}}], is such a word: it is read as the pair (0,0), so the
    constructed Cake has an elevator at (0,0). *)
Theorem Cake_lone_comma_declares_origin config g net g' :
  Cake.new config g = Ok (net, g') ->
  ","%string ∈ Str.words (Str.blank Cake.is_brace (elevator_coords_of config)) ->
  (0, 0) ∈ Cake.Elevators_ net.
Proof.
  intros Hnew Hin. unfold Cake.Elevators_.
  rewrite (Cake_new_elevators _ _ _ _ Hnew). unfold first_occurrences.
  apply first_occurrences_onto_elem. right. unfold declared_pairs.
  apply list_elem_of_omap. exists ","%string. split; [exact Hin|reflexivity].
Qed.

Lemma Cake_lone_comma_declares_origin_witness :
  exists net g',
    Cake.new cfg_cake_two_elevators g_init
      = Ok (net, g') /\
    Cake.Elevators_ net = [(1, 1); (0, 0); (2, 2)] /\
    (0, 0) ∈ Cake.Elevators_ net.
Proof.
  destruct (Cake.new cfg_cake_two_elevators  g_init) as [[net g']| |] eqn:E; [|vm_compute in E; discriminate..].
  pose proof (Cake_lone_comma_declares_origin _ _ _ _ E) as H.
  vm_compute in E. injection E as <- <-.
  eexists _, _. split; [reflexivity|]. split; [reflexivity|].
  apply H. vm_compute. apply list_elem_of_further, list_elem_of_here.
Defined.




(** X9. An explicit [elevator_mapping_coords] value is read as one flat
    stream of integers, row by row: in a constructed Cake the entry of
    row y, column x is the pair at stream positions 2*(y*X + x) and
    2*(y*X + x) + 1, and the stream holds 2*X*Y integers (as an [int]
    count).  With any other count construction does not complete. *)
Theorem Cake_explicit_mapping_row_major config g :
  Str.nonempty (mapping_coords_of config) = true ->
  let nums := Cake.mapping_nums (mapping_coords_of config) in
  (forall net g', Cake.new config g = Ok (net, g') ->
     Int32.wrap (Z.of_nat (length nums)) = 2 * (Cake.X net * Cake.Y net) /\
     forall ry rx, 0 <= ry < Cake.Y net -> 0 <= rx < Cake.X net ->
       exists ex ey,
         nums !! Z.to_nat (2 * (ry * Cake.X net + rx)) = Some ex /\
         nums !! Z.to_nat (2 * (ry * Cake.X net + rx) + 1) = Some ey /\
         table_entry (Cake.ElevatorMap net) ry rx = Some (ex, ey)) /\
  (forall sz g1, Cake._ComputeSize config g = Ok (sz, g1) ->
     Int32.wrap (Z.of_nat (length nums))
       <> Int32.mul (Int32.mul (Cake.sz_x sz) (Cake.sz_y sz)) 2 ->
     is_Ok (Cake.new config g) = false).
Proof.
  intros Hne. cbv zeta. split.
  - intros net g' Hnew.
    pose proof (Cake_new_fits _ _ _ _ Hnew) as Hfits.
    apply Cake_new_inv in Hnew as (sz & el & Hsz & Hel & Hb).
    destruct (Cake_BuildNet_fields _ _ Hb) as (Hx & Hy & Hl & He & _ & Hm & _).
    unfold cake_fits in Hfits.
    unfold Cake.X, Cake.Y, Cake.ElevatorMap in *.
    rewrite Hx, Hy, Hl, He, Hm in *. simpl in *.
    apply Cake_ComputeSize_inv in Hsz as (Hxp & Hyp & Hlp & _).
    apply Cake_ParseElevators_map in Hel.
    set (X := Cake.sz_x sz) in *. set (Y := Cake.sz_y sz) in *.
    set (L := Cake.sz_layers sz) in *.
    assert (0 < X * Y) as HXY by (apply Z.mul_pos_pos; lia).
    assert (X * Y * 1 <= X * Y * L) by (apply Z.mul_le_mono_nonneg_l; lia).
    assert (0 <= Z.of_nat (length (Cake.el_elevators el)) * L)
      by (apply Z.mul_nonneg_nonneg; lia).
    split.
    + pose proof Hel as Hel'. unfold Cake.parse_elevator_map in Hel'. rewrite Hne in Hel'.
      destruct (Int32.wrap _ =? _) eqn:Ecnt; [|discriminate].
      apply Z.eqb_eq in Ecnt. rewrite Ecnt. unfold Int32.mul, Int32.INT_MAX in *.
      rewrite (wrap_fits (X * Y)) by (unfold Int32.fits, Int32.INT_MIN, Int32.INT_MAX; lia).
      rewrite wrap_fits by (unfold Int32.fits, Int32.INT_MIN, Int32.INT_MAX; lia). lia.
    + intros ry rx Hry Hrx.
      assert (0 <= ry * X + rx < Y * X) as Hk by nia.
      destruct (parse_elevator_map_explicit _ _ _ _ Hxp Hyp Hne Hel _ Hk)
        as (ex & ey & Hex & Hey & _ & Ht).
      rewrite Z.add_comm, Z.div_add, Z_mod_plus_full in Ht by lia.
      rewrite Z.div_small, Z.mod_small in Ht by lia.
      eauto.
  - intros sz g1 Hsz Hcnt.
    destruct (Cake.new config g) as [[net g']| |] eqn:Hnew; [exfalso|reflexivity..].
    apply Cake_new_inv in Hnew as (sz' & el & Hsz' & Hel & _).
    rewrite Hsz in Hsz'. injection Hsz' as <- <-.
    apply Cake_ParseElevators_map in Hel.
    unfold Cake.parse_elevator_map in Hel. rewrite Hne in Hel.
    destruct (Int32.wrap _ =? _) eqn:Ecnt; [|discriminate].
    apply Z.eqb_eq in Ecnt. contradiction.
Qed.

Lemma Cake_explicit_mapping_row_major_witness :
  (exists net g',
     Cake.new cfg_cake_stray_mapping g_init = Ok (net, g') /\
     table_entry (Cake.ElevatorMap net) 0 0 = Some (0, 1) /\
     table_entry (Cake.ElevatorMap net) 1 0 = Some (1, 1)) /\
  is_Ok (Cake.new cfg_cake_short_mapping g_init) = false.
Proof.
  split.
  - destruct (Cake.new cfg_cake_stray_mapping g_init) as [[net g']| |] eqn:E;
      [|vm_compute in E; discriminate..].
    destruct (proj1 (Cake_explicit_mapping_row_major cfg_cake_stray_mapping g_init eq_refl)
                _ _ E) as [_ H].
    vm_compute in E. injection E as <- <-.
    eexists _, _. split; [reflexivity|]. split.
    + destruct (H 0 0) as (ex & ey & Hex & Hey & Ht);
        [(vm_compute; split; [discriminate|reflexivity])..|].
      vm_compute in Hex, Hey. injection Hex as <-. injection Hey as <-. exact Ht.
    + destruct (H 1 0) as (ex & ey & Hex & Hey & Ht);
        [(vm_compute; split; [discriminate|reflexivity])..|].
      vm_compute in Hex, Hey. injection Hex as <-. injection Hey as <-. exact Ht.
  - destruct (Cake._ComputeSize cfg_cake_short_mapping g_init)
      as [[sz g1]| |] eqn:Hsz; [|vm_compute in Hsz; discriminate..].
    eapply (proj2 (Cake_explicit_mapping_row_major cfg_cake_short_mapping g_init eq_refl));
      [exact Hsz|].
    vm_compute in Hsz. injection Hsz as <- <-. vm_compute. discriminate.
Defined.

(** ** Cake: every channel has one source and one destination *)

Section CakeEndpoints.
Variable self : Cake.t.
Hypothesis ready : cake_ready self.

Local Abbreviation X := (Cake._x self).
Local Abbreviation Y := (Cake._y self).
Local Abbreviation L := (Cake._layers self).
Local Abbreviation E := (Z.of_nat (length (Cake._elevators self))).
Local Abbreviation final_out :=
  (expected_out self (X * Y * L) (X * Y * L) (E * L) (X * Y * L)).
Local Abbreviation final_in :=
  (expected_in self (X * Y * L) (X * Y * L) (E * L) (X * Y * L)).

Lemma channel_cases c :
  0 <= c < 2 * (X * Y * L) + 2 * (E * L) ->
  (exists n dim, 0 <= n < X * Y * L /\ 0 <= dim <= 1 /\ c = inplane_id n dim) \/
  (exists e z ud, 0 <= e < E /\ 0 <= z < L /\ 0 <= ud <= 1 /\
                  c = vertical_id X Y L e z ud).
Proof.
  intros Hc. pose proof (cake_bounds self ready) as B.
  destruct (Z_lt_le_dec c (2 * (X * Y * L))) as [Hlt|Hge].
  - left. exists (c / 2), (c mod 2). unfold inplane_id.
    pose proof (Z.div_mod c 2 ltac:(lia)). pose proof (Z.mod_pos_bound c 2 ltac:(lia)).
    repeat split; try lia.
  - right. set (k := (c - 2 * (X * Y * L)) / 2).
    pose proof (Z.div_mod (c - 2 * (X * Y * L)) 2 ltac:(lia)) as Hdm.
    pose proof (Z.mod_pos_bound (c - 2 * (X * Y * L)) 2 ltac:(lia)) as Hm.
    fold k in Hdm.
    assert (0 <= k < E * L) as Hk by lia.
    exists (k / L), (k mod L), ((c - 2 * (X * Y * L)) mod 2).
    pose proof (Z.div_mod k L ltac:(lia)). pose proof (Z.mod_pos_bound k L ltac:(lia)).
    assert (0 <= k / L < E)
      by (split; [apply Z.div_pos; lia|apply Z.div_lt_upper_bound; lia]).
    unfold vertical_id. repeat split; try lia.
Qed.

Lemma final_out_channels id c :
  0 <= id < X * Y * L ->
  (Chan c ∈ _output_channels (final_out id) <->
   c = inplane_id id 0 \/ c = inplane_id id 1 \/
   exists e, elev_of self id = Some e /\
             (c = vertical_id X Y L e (coords_of X Y id).2 0 \/
              c = vertical_id X Y L e (coords_of X Y id).2 1)).
Proof.
  intros Hid. destruct (elev_of self id) as [e|] eqn:He.
  - destruct (final_out_elevator self ready id e Hid He) as (_ & _ & -> & _).
    rewrite !elem_of_cons, elem_of_nil. split.
    + intros [H|[H|[H|[H|[H|[]]]]]]; try discriminate; injection H as ->; eauto 6.
    + intros [->|[->|(e' & He' & Hv)]]; auto 6.
      injection He' as <-. destruct Hv as [-> | ->]; auto 6.
  - destruct (final_out_plain self id Hid He) as (_ & _ & -> & _).
    rewrite !elem_of_cons, elem_of_nil. split.
    + intros [H|[H|[H|[]]]]; try discriminate; injection H as ->; auto.
    + intros [->|[->|(e' & He' & _)]]; auto. discriminate.
Qed.

Lemma final_out_eject id n :
  0 <= id < X * Y * L ->
  (Eject n ∈ _output_channels (final_out id) <-> n = id).
Proof.
  intros Hid. destruct (elev_of self id) as [e|] eqn:He.
  - destruct (final_out_elevator self ready id e Hid He) as (_ & _ & -> & _).
    rewrite !elem_of_cons, elem_of_nil. split.
    + intros [H|[H|[H|[H|[H|[]]]]]]; try discriminate. injection H as ->. reflexivity.
    + intros ->. auto 6.
  - destruct (final_out_plain self id Hid He) as (_ & _ & -> & _).
    rewrite !elem_of_cons, elem_of_nil. split.
    + intros [H|[H|[H|[]]]]; try discriminate. injection H as ->. reflexivity.
    + intros ->. auto.
Qed.

(** The router that drives channel [c]. *)
Lemma channel_source c :
  0 <= c < 2 * (X * Y * L) + 2 * (E * L) ->
  exists s, 0 <= s < X * Y * L /\
    forall id, 0 <= id < X * Y * L ->
      (Chan c ∈ _output_channels (final_out id) <-> id = s).
Proof.
  intros Hc. pose proof (cake_bounds self ready) as B.
  destruct (channel_cases c Hc) as [(n & dim & Hn & Hdim & ->)|
                                    (e & z & ud & He & Hz & Hud & ->)].
  - exists n. split; [exact Hn|]. intros id Hid. rewrite final_out_channels by exact Hid.
    unfold inplane_id. split.
    + intros [H|[H|(e & He & Hv)]]; [lia|lia|].
      destruct (elev_of_Some self ready id e Hid He) as (He' & _ & Hz & _).
      destruct (vertical_id_range self ready e _ 0 He' Hz ltac:(lia)) as [H0 _].
      destruct (vertical_id_range self ready e _ 1 He' Hz ltac:(lia)) as [H1 _].
      lia.
    + intros ->. lia.
  - destruct (lookup_lt_is_Some_2 (Cake._elevators self) (Z.to_nat e)) as [[ex ey] Hl];
      [lia|].
    destruct (elev_of_node self ready e ex ey z ltac:(lia) Hl Hz) as ((Hex & Hey) & Hel & Hco & _).
    pose proof (node_id_range X Y L ltac:(lia) ltac:(lia) ex ey z Hex Hey Hz) as Hn.
    exists (node_id X Y ex ey z). split; [exact Hn|].
    intros id Hid. rewrite final_out_channels by exact Hid.
    destruct (vertical_id_range self ready e z ud He Hz Hud) as [Hv _].
    split.
    + intros [H|[H|(e' & He' & Hv')]]; [unfold inplane_id in H; lia..|].
      destruct (elev_of_Some self ready id e' Hid He') as (He'r & Hl' & Hz' & _).
      pose proof (coords_of_range X Y L ltac:(lia) ltac:(lia) id Hid) as Hcr.
      destruct (coords_of X Y id) as [[x' y'] z'] eqn:Eco. cbn [fst snd] in *.
      assert (e = e' /\ z = z') as [<- <-].
      { destruct Hv' as [Hv'|Hv'];
          apply (vertical_id_inj self) in Hv' as (? & ? & ?); auto; lia. }
      rewrite Hl in Hl'. injection Hl' as -> ->.
      symmetry. apply Hcr.
    + intros ->. right. right. exists e. split; [exact Hel|]. rewrite Hco. cbn [snd].
      destruct (decide (ud = 0)) as [->|]; [auto|]. right. f_equal. lia.
Qed.

Lemma final_in_inject n t :
  0 <= n < X * Y * L -> (final_in t (Inject n) <-> t = n).
Proof.
  intros Hn. unfold expected_in. split.
  - intros [(x & y & z & _ & _ & Hc & _)|
            [(x & y & z & _ & _ & Hc & _)|
             [(e & ex & ey & z & _ & _ & _ & _ & [[Hc _]|[Hc _]])|[_ Hc]]]];
      try discriminate. injection Hc as ->. reflexivity.
  - intros ->. right. right. right. split; [lia|reflexivity].
Qed.

Lemma final_in_eject n t : ~ final_in t (Eject n).
Proof.
  unfold expected_in.
  intros [(x & y & z & _ & _ & Hc & _)|
          [(x & y & z & _ & _ & Hc & _)|
           [(e & ex & ey & z & _ & _ & _ & _ & [[Hc _]|[Hc _]])|[_ Hc]]]];
    discriminate.
Qed.

(** The router that channel [c] feeds. *)
Lemma channel_sink c :
  0 <= c < 2 * (X * Y * L) + 2 * (E * L) ->
  exists s, 0 <= s < X * Y * L /\ forall t, final_in t (Chan c) <-> t = s.
Proof.
  intros Hc. pose proof (cake_bounds self ready) as B.
  destruct (channel_cases c Hc) as [(n & dim & Hn & Hdim & ->)|
                                    (e & z & ud & He & Hz & Hud & ->)].
  - pose proof (coords_of_range X Y L ltac:(lia) ltac:(lia) n Hn) as Hcr.
    destruct (coords_of X Y n) as [[x y] z]. destruct Hcr as [(Hx & Hy & Hz) <-].
    assert (0 <= (x + 1) mod X < X) by (apply Z.mod_pos_bound; lia).
    assert (0 <= (y + 1) mod Y < Y) by (apply Z.mod_pos_bound; lia).
    destruct (decide (dim = 0)) as [->|Hd].
    + exists (node_id X Y ((x + 1) mod X) y z).
      split; [apply node_id_range; lia|].
      intros t. apply (final_in_inplane0 self ready); assumption.
    + assert (dim = 1) as -> by lia.
      exists (node_id X Y x ((y + 1) mod Y) z).
      split; [apply node_id_range; lia|].
      intros t. apply (final_in_inplane1 self ready); assumption.
  - destruct (lookup_lt_is_Some_2 (Cake._elevators self) (Z.to_nat e)) as [[ex ey] Hl];
      [lia|].
    destruct (ready_elev_range _ ready _ _ _ Hl) as [Hex Hey].
    exists (node_id X Y ex ey ((if ud =? 0 then z + 1 else z - 1 + L) mod L)).
    split.
    + apply node_id_range; try lia. apply Z.mod_pos_bound. lia.
    + intros t. apply (final_in_vertical self ready e ex ey z ud); auto; lia.
Qed.

Lemma final_out_inject id n :
  0 <= id < X * Y * L -> Inject n ∉ _output_channels (final_out id).
Proof.
  intros Hid. destruct (elev_of self id) as [e|] eqn:He.
  - destruct (final_out_elevator self ready id e Hid He) as (_ & _ & -> & _).
    rewrite !elem_of_cons, elem_of_nil.
    intros [H|[H|[H|[H|[H|[]]]]]]; discriminate.
  - destruct (final_out_plain self id Hid He) as (_ & _ & -> & _).
    rewrite !elem_of_cons, elem_of_nil. intros [H|[H|[H|[]]]]; discriminate.
Qed.

End CakeEndpoints.

(** X10. In a constructed Cake every channel id below the channel count is
    an output of exactly one router and an input of exactly one router;
    the injection channel of node n is an input of router n alone, its
    ejection channel an output of router n alone. *)
Theorem Cake_channel_endpoints config g net g' :
  Cake.new config g = Ok (net, g') ->
  (forall c, 0 <= c < Cake._channels net ->
     (exists s : nat,
        (exists r, Cake._routers net !! s = Some (Some r) /\
                   Chan c ∈ _output_channels r) /\
        forall (t : nat) r, Cake._routers net !! t = Some (Some r) ->
          Chan c ∈ _output_channels r -> t = s) /\
     (exists d : nat,
        (exists r, Cake._routers net !! d = Some (Some r) /\
                   Chan c ∈ _input_channels r) /\
        forall (t : nat) r, Cake._routers net !! t = Some (Some r) ->
          Chan c ∈ _input_channels r -> t = d)) /\
  (forall (t : nat) r n, Cake._routers net !! t = Some (Some r) ->
     (Inject n ∈ _input_channels r <-> n = Z.of_nat t) /\
     (Eject n ∈ _output_channels r <-> n = Z.of_nat t) /\
     (Eject n ∉ _input_channels r) /\
     (Inject n ∉ _output_channels r)).
Proof.
  intros Hnew.
  destruct (Cake_new_wired _ _ _ _ Hnew)
    as (self & ready & (_ & _ & _ & _ & _ & _ & _ & _ & _ & Hc & _) & Hm).
  rewrite <- Hc, (cake_channels self ready). split.
  - intros c Hcr. split.
    + destruct (channel_source self ready c Hcr) as (s & Hs & Hsrc).
      exists (Z.to_nat s). split.
      * destruct (proj2 Hm s Hs) as (r & Hr & Hstrip & _). exists r. split; [exact Hr|].
        change (_output_channels r) with (_output_channels (strip_inputs r)).
        rewrite Hstrip. apply Hsrc; [exact Hs|reflexivity].
      * intros t r Hr Hin. destruct (match_lookup _ _ _ _ _ _ Hm Hr) as (Ht & Hstrip & _).
        change (_output_channels r) with (_output_channels (strip_inputs r)) in Hin.
        rewrite Hstrip in Hin. apply Hsrc in Hin; [lia|exact Ht].
    + destruct (channel_sink self ready c Hcr) as (d & Hd & Hsnk).
      exists (Z.to_nat d). split.
      * destruct (proj2 Hm d Hd) as (r & Hr & _ & Hin). exists r. split; [exact Hr|].
        apply Hin, Hsnk. reflexivity.
      * intros t r Hr Hin. destruct (match_lookup _ _ _ _ _ _ Hm Hr) as (Ht & _ & Hin').
        apply Hin', Hsnk in Hin. lia.
  - intros t r n Hr. destruct (match_lookup _ _ _ _ _ _ Hm Hr) as (Ht & Hstrip & Hin).
    change (_output_channels r) with (_output_channels (strip_inputs r)).
    rewrite Hstrip. split; [|split; [|split]].
    + rewrite Hin. unfold expected_in. split.
      * intros [(x & y & z & _ & _ & Hc' & _)|
                [(x & y & z & _ & _ & Hc' & _)|
                 [(e & ex & ey & z & _ & _ & _ & _ & [[Hc' _]|[Hc' _]])|[_ Hc']]]];
          try discriminate. injection Hc' as ->. reflexivity.
      * intros ->. right. right. right. split; [lia|reflexivity].
    + apply (final_out_eject self ready). exact Ht.
    + rewrite Hin. apply final_in_eject.
    + apply (final_out_inject self ready). exact Ht.
Qed.

Lemma Cake_channel_endpoints_witness :
  exists net g' r4 r13 r5,
    Cake.new cfg_cake_332 g_init = Ok (net, g') /\
    Cake._channels net = 40 /\
    Cake._routers net !! 4%nat = Some (Some r4) /\
    Cake._routers net !! 13%nat = Some (Some r13) /\
    Cake._routers net !! 5%nat = Some (Some r5) /\
    Chan 36 ∈ _output_channels r4 /\ Chan 36 ∈ _input_channels r13 /\
    (Chan 36 ∉ _output_channels r5) /\ (Chan 36 ∉ _input_channels r5).
Proof.
  destruct (Cake.new cfg_cake_332 g_init) as [[net g']| |] eqn:E;
    [|vm_compute in E; discriminate..].
  destruct (Cake_channel_endpoints _ _ _ _ E) as [H _].
  vm_compute in E. injection E as <- <-.
  destruct (H 36) as ((s & _ & Hs) & (d & _ & Hd));
    [vm_compute; split; [discriminate|reflexivity]|].
  eexists _, _, _, _, _. split; [reflexivity|]. split; [reflexivity|].
  split; [reflexivity|]. split; [reflexivity|]. split; [reflexivity|].
  match goal with
  | |- Chan 36 ∈ _output_channels ?r4 /\ Chan 36 ∈ _input_channels ?r13 /\ _ =>
      assert (Chan 36 ∈ _output_channels r4) as H4
        by (apply list_elem_of_further, list_elem_of_further, list_elem_of_here);
      assert (Chan 36 ∈ _input_channels r13) as H13
        by (apply list_elem_of_further, list_elem_of_further, list_elem_of_here)
  end.
  split; [exact H4|]. split; [exact H13|]. split.
  - intros H5. pose proof (Hs 4%nat _ eq_refl H4) as <-.
    pose proof (Hs 5%nat _ eq_refl H5). discriminate.
  - intros H5. pose proof (Hd 13%nat _ eq_refl H13) as <-.
    pose proof (Hd 5%nat _ eq_refl H5). discriminate.
Defined.

(** ** Cake: the inputs of a router *)

Lemma for_range_count {St} (f : St -> Z) k n (body : Z -> St -> result St) s s' :
  0 <= n ->
  (forall i s s1, 0 <= i < n -> body i s = Ok s1 -> f s1 = f s + k) ->
  for_range n body s = Ok s' -> f s' = f s + n * k.
Proof.
  intros Hn Hstep Hr.
  apply (for_range_post (fun i t => f t = f s + i * k)) in Hr; [exact Hr|exact Hn|lia|].
  intros i t t' Hi Ht Hb. rewrite (Hstep i t t' Hi Hb), Ht. lia.
Qed.

Lemma all_inputs_insert rs (i : nat) r r' :
  rs !! i = Some (Some r) ->
  Z.of_nat (length (all_inputs (<[i := Some r']> rs)))
  = Z.of_nat (length (all_inputs rs))
    + Z.of_nat (length (_input_channels r')) - Z.of_nat (length (_input_channels r)).
Proof.
  revert i. induction rs as [|o rs IH]; intros i Hl; [discriminate|].
  destruct i as [|i]; simpl in *.
  - injection Hl as ->. unfold all_inputs. simpl. rewrite !length_app. lia.
  - specialize (IH i Hl). unfold all_inputs in *. simpl. rewrite !length_app. lia.
Qed.

Lemma with_router_count i f (rs rs' : list (option Router)) k :
  (forall r, Z.of_nat (length (_input_channels (f r)))
             = Z.of_nat (length (_input_channels r)) + k) ->
  with_router i f rs = Ok rs' ->
  Z.of_nat (length (all_inputs rs')) = Z.of_nat (length (all_inputs rs)) + k.
Proof.
  intros Hf H. unfold with_router in H. inv_bind H as slot Hslot.
  apply at_index_inv in Hslot as [Hi Hl]. destruct slot as [r|]; [|discriminate].
  injection H as <-. rewrite (all_inputs_insert _ _ r) by exact Hl. rewrite Hf. lia.
Qed.

Lemma connect_count self set_port from to ch (rs rs' : list (option Router)) :
  (forall p r, _input_channels (set_port p r) = _input_channels r) ->
  Cake.connect self set_port from to ch rs = Ok rs' ->
  Z.of_nat (length (all_inputs rs')) = Z.of_nat (length (all_inputs rs)) + 1.
Proof.
  intros Hset H. unfold Cake.connect in H.
  inv_bind H as c Hc. inv_bind H as cc Hcc. inv_bind H as rs1 H1.
  apply (with_router_count _ _ _ _ 0) in H1; [|intros r; rewrite Hset; simpl; lia].
  apply (with_router_count _ _ _ _ 1) in H;
    [|intros r; simpl; rewrite length_app; simpl; lia].
  lia.
Qed.

Lemma all_inputs_nil rs :
  Forall (fun o => match o with Some r => _input_channels r = [] | None => True end) rs ->
  all_inputs rs = [].
Proof.
  induction 1 as [|o rs Ho _ IH]; [reflexivity|].
  unfold all_inputs in *. simpl. rewrite IH. destruct o; [rewrite Ho|]; reflexivity.
Qed.

Lemma all_inputs_elem rs c :
  c ∈ all_inputs rs <-> exists (t : nat) r, rs !! t = Some (Some r) /\ c ∈ _input_channels r.
Proof.
  unfold all_inputs. induction rs as [|o rs IH]; simpl.
  - rewrite elem_of_nil. split; [tauto|]. intros (t & r & Hl & _). discriminate.
  - rewrite elem_of_app, IH. split.
    + intros [H|(t & r & Hl & Hin)].
      * destruct o as [r|]; [|inversion H]. exists 0%nat, r. auto.
      * exists (S t), r. auto.
    + intros (t & r & Hl & Hin). destruct t as [|t]; simpl in Hl.
      * injection Hl as ->. auto.
      * right. eauto.
Qed.

Lemma all_inputs_NoDup rs (t : nat) r :
  NoDup (all_inputs rs) -> rs !! t = Some (Some r) -> NoDup (_input_channels r).
Proof.
  unfold all_inputs. revert t. induction rs as [|o rs IH]; intros t Hnd Hl; [discriminate|].
  simpl in Hnd. apply NoDup_app in Hnd as (H1 & _ & H2).
  destruct t as [|t]; simpl in Hl.
  - injection Hl as ->. exact H1.
  - eapply IH; eassumption.
Qed.

Section CakeInputs.
Variable self : Cake.t.
Hypothesis ready : cake_ready self.

Local Abbreviation X := (Cake._x self).
Local Abbreviation Y := (Cake._y self).
Local Abbreviation L := (Cake._layers self).
Local Abbreviation E := (Z.of_nat (length (Cake._elevators self))).
Local Abbreviation final_in :=
  (expected_in self (X * Y * L) (X * Y * L) (E * L) (X * Y * L)).

(** The wiring passes attach 3*X*Y*Z + 2*|E|*Z inputs in all. *)
Lemma BuildNet_input_total net :
  Cake._BuildNet self = Ok net ->
  Z.of_nat (length (all_inputs (Cake._routers net)))
  = 3 * (X * Y * L) + 2 * (E * L).
Proof.
  pose proof (cake_bounds self ready) as B. pose proof (cake_size self ready) as Hsize.
  unfold Cake._BuildNet. intros H.
  inv_bind H as r1 H1. inv_bind H as r2 H2. inv_bind H as r3 H3.
  inv_bind H as r4 H4. inv_bind H as r5 H5. injection H as <-.
  cbn [Cake._routers].
  destruct (create_routers self ready) as (rs & Hrs & [Hlen Hm]).
  pose proof (eq_trans (eq_sym H1) Hrs) as Heq. injection Heq as ->. clear H1.
  assert (Z.of_nat (length (all_inputs rs)) = 0) as H0.
  { rewrite all_inputs_nil; [reflexivity|]. apply Forall_lookup. intros i o Hi.
    pose proof (lookup_lt_Some _ _ _ Hi) as Hlt. rewrite Hlen in Hlt.
    destruct (Hm (Z.of_nat i) ltac:(lia)) as (r & Hr & _ & Hin).
    rewrite Nat2Z.id, Hi in Hr. injection Hr as ->.
    destruct (_input_channels r) as [|c l] eqn:El; [reflexivity|]. exfalso.
    apply (expected_in_0 self ready (Z.of_nat i) c); [lia|]. apply Hin. left. }
  set (f := fun rs : list (option Router) => Z.of_nat (length (all_inputs rs))) in *.
  change (f rs = 0) in H0. change (f r5 = 3 * (X * Y * L) + 2 * (E * L)).
  assert (0 <= X) as HX0 by lia. assert (0 <= Y) as HY0 by lia.
  assert (0 <= L) as HL0 by lia. assert (0 <= E) as HE0 by lia.
  assert (0 <= Cake._size self) as HS0 by lia.
  assert (f r2 = f rs + L * (Y * (X * 1))) as E2.
  { apply (for_range_count f (Y * (X * 1)) _ _ _ _ HL0) in H2; [exact H2|].
    intros z s s1 _ Hz.
    apply (for_range_count f (X * 1) _ _ _ _ HY0) in Hz; [exact Hz|].
    intros y t t1 _ Hy.
    apply (for_range_count f 1 _ _ _ _ HX0) in Hy; [exact Hy|].
    intros x u u1 _ Hx. inv_bind Hx as x1 Hx1.
    apply connect_count in Hx; [exact Hx|reflexivity]. }
  assert (f r3 = f r2 + L * (Y * (X * 1))) as E3.
  { apply (for_range_count f (Y * (X * 1)) _ _ _ _ HL0) in H3; [exact H3|].
    intros z s s1 _ Hz.
    apply (for_range_count f (X * 1) _ _ _ _ HY0) in Hz; [exact Hz|].
    intros y t t1 _ Hy.
    apply (for_range_count f 1 _ _ _ _ HX0) in Hy; [exact Hy|].
    intros x u u1 _ Hx. inv_bind Hx as y1 Hy1.
    apply connect_count in Hx; [exact Hx|reflexivity]. }
  assert (f r4 = f r3 + E * (L * 2)) as E4.
  { apply (for_range_count f (L * 2) _ _ _ _ HE0) in H4; [exact H4|].
    intros e s s1 _ He. inv_bind He as el Hel.
    apply (for_range_count f 2 _ _ _ _ HL0) in He; [exact He|].
    intros z t t1 _ Hz. inv_bind Hz as zu Hzu. inv_bind Hz as ra Hra.
    inv_bind Hz as zd Hzd.
    apply connect_count in Hra; [|reflexivity].
    apply connect_count in Hz; [|reflexivity]. unfold f. lia. }
  assert (f r5 = f r4 + Cake._size self * 1) as E5.
  { apply (for_range_count f 1 _ _ _ _ HS0) in H5; [exact H5|].
    intros id s s1 _ Hb. inv_bind Hb as inj Hinj. inv_bind Hb as injc Hinjc.
    inv_bind Hb as ra Hra. inv_bind Hb as ej Hej. inv_bind Hb as ejc Hejc.
    apply (with_router_count _ _ _ _ 1) in Hra;
      [|intros r; simpl; rewrite length_app; simpl; lia].
    apply (with_router_count _ _ _ _ 0) in Hb; [|intros r; simpl; lia].
    unfold f. lia. }
  rewrite E5, E4, E3, E2, H0, Hsize. lia.
Qed.


Lemma succ_pred_mod a n : 0 < n -> 0 <= a < n -> ((a - 1) mod n + 1) mod n = a.
Proof.
  intros Hn Ha. rewrite Zplus_mod_idemp_l. replace (a - 1 + 1) with a by lia.
  apply Z.mod_small. lia.
Qed.

Lemma pred_succ_mod a n : 0 < n -> 0 <= a < n -> ((a + 1) mod n - 1) mod n = a.
Proof.
  intros Hn Ha. rewrite Zminus_mod_idemp_l. replace (a + 1 - 1) with a by lia.
  apply Z.mod_small. lia.
Qed.

Lemma succ_prev_mod a n : 0 < n -> 0 <= a < n -> ((a - 1 + n) mod n + 1) mod n = a.
Proof.
  intros Hn Ha. rewrite Zplus_mod_idemp_l. replace (a - 1 + n + 1) with (a + 1 * n) by lia.
  rewrite Z_mod_plus_full. apply Z.mod_small. lia.
Qed.

Lemma prev_succ_mod a n : 0 < n -> 0 <= a < n -> ((a + 1) mod n - 1 + n) mod n = a.
Proof.
  intros Hn Ha. replace ((a + 1) mod n - 1 + n) with ((a + 1) mod n + (n - 1)) by lia.
  rewrite Zplus_mod_idemp_l. replace (a + 1 + (n - 1)) with (a + 1 * n) by lia.
  rewrite Z_mod_plus_full. apply Z.mod_small. lia.
Qed.

Lemma pred_prev_mod a n : 0 < n -> (a - 1 + n) mod n = (a - 1) mod n.
Proof.
  intros Hn. replace (a - 1 + n) with (a - 1 + 1 * n) by lia. apply Z_mod_plus_full.
Qed.

(** The channels registered at router [t] are those of [cake_inputs]. *)
Lemma final_in_cake_inputs t c :
  0 <= t < X * Y * L ->
  (final_in t c <->
   c ∈ cake_inputs X Y L (elev_of self t)
         (coords_of X Y t).1.1 (coords_of X Y t).1.2 (coords_of X Y t).2 t).
Proof.
  intros Ht. pose proof (cake_bounds self ready) as B.
  pose proof (coords_of_range X Y L ltac:(lia) ltac:(lia) t Ht) as Hcr.
  pose proof (elev_of_Some self ready t) as HeS.
  destruct (coords_of X Y t) as [[x y] z] eqn:Eco. cbn [fst snd] in *.
  destruct Hcr as [(Hx & Hy & Hz) Hnode].
  assert (0 <= (x - 1) mod X < X) as Hxp by (apply Z.mod_pos_bound; lia).
  assert (0 <= (y - 1) mod Y < Y) as Hyp by (apply Z.mod_pos_bound; lia).
  assert (0 <= (z - 1) mod L < L) as Hzp by (apply Z.mod_pos_bound; lia).
  assert (0 <= (z + 1) mod L < L) as Hzs by (apply Z.mod_pos_bound; lia).
  unfold cake_inputs. rewrite !elem_of_app, !elem_of_cons, !elem_of_nil.
  unfold expected_in. split.
  - intros [(x' & y' & z' & (Hx' & Hy' & Hz') & _ & -> & Hid)|
            [(x' & y' & z' & (Hx' & Hy' & Hz') & _ & -> & Hid)|
             [(e & ex & ey & z' & He0 & Hl & Hz' & _ & Hv)|[_ ->]]]].
    + left. left.
      assert (0 <= (x' + 1) mod X < X) by (apply Z.mod_pos_bound; lia).
      rewrite <- Hnode in Hid. apply (node_id_inj X Y) in Hid as (-> & -> & ->); try lia.
      rewrite pred_succ_mod by lia. reflexivity.
    + left. right. left.
      assert (0 <= (y' + 1) mod Y < Y) by (apply Z.mod_pos_bound; lia).
      rewrite <- Hnode in Hid. apply (node_id_inj X Y) in Hid as (-> & -> & ->); try lia.
      rewrite pred_succ_mod by lia. reflexivity.
    + right. left.
      destruct (ready_elev_range _ ready _ _ _ Hl) as [Hex Hey].
      assert (0 <= (z' + 1) mod L < L) by (apply Z.mod_pos_bound; lia).
      assert (0 <= (z' - 1 + L) mod L < L) by (apply Z.mod_pos_bound; lia).
      destruct Hv as [[-> Hid]|[-> Hid]].
      * destruct (elev_of_node self ready e ex ey ((z' + 1) mod L) He0 Hl ltac:(lia))
          as (_ & Hel & _). rewrite <- Hid in Hel. rewrite Hel.
        rewrite <- Hnode in Hid. apply (node_id_inj X Y) in Hid as (-> & -> & ->); try lia.
        rewrite pred_succ_mod by lia. apply list_elem_of_here.
      * destruct (elev_of_node self ready e ex ey ((z' - 1 + L) mod L) He0 Hl ltac:(lia))
          as (_ & Hel & _). rewrite <- Hid in Hel. rewrite Hel.
        rewrite <- Hnode in Hid. apply (node_id_inj X Y) in Hid as (-> & -> & ->); try lia.
        rewrite succ_prev_mod by lia. apply list_elem_of_further, list_elem_of_here.
    + right. right. left. reflexivity.
  - intros [[->|[->|[]]]|[Hv|[->|[]]]].
    + left. exists ((x - 1) mod X), y, z. split; [auto|].
      split; [apply node_id_range; lia|]. split; [reflexivity|].
      rewrite succ_pred_mod by lia. symmetry. exact Hnode.
    + right. left. exists x, ((y - 1) mod Y), z. split; [auto|].
      split; [apply node_id_range; lia|]. split; [reflexivity|].
      rewrite succ_pred_mod by lia. symmetry. exact Hnode.
    + destruct (elev_of self t) as [e|] eqn:Hel; [|inversion Hv].
      destruct (HeS e Ht eq_refl) as (He & Hl & _ & _).
      right. right. left. rewrite !elem_of_cons, elem_of_nil in Hv.
      destruct Hv as [->|[->|[]]].
      * exists e, x, y, ((z - 1) mod L). split; [lia|]. split; [exact Hl|].
        split; [exact Hzp|].
        split; [apply (vertical_id_range self ready e _ 0); lia|].
        left. split; [reflexivity|]. rewrite succ_pred_mod by lia. symmetry. exact Hnode.
      * exists e, x, y, ((z + 1) mod L). split; [lia|]. split; [exact Hl|].
        split; [exact Hzs|].
        split; [apply (vertical_id_range self ready e _ 1); lia|].
        right. split; [reflexivity|]. rewrite prev_succ_mod by lia. symmetry. exact Hnode.
    + right. right. right. split; [lia|reflexivity].
Qed.

Lemma cake_inputs_NoDup t :
  0 <= t < X * Y * L ->
  NoDup (cake_inputs X Y L (elev_of self t)
           (coords_of X Y t).1.1 (coords_of X Y t).1.2 (coords_of X Y t).2 t).
Proof.
  intros Ht. pose proof (cake_bounds self ready) as B.
  pose proof (coords_of_range X Y L ltac:(lia) ltac:(lia) t Ht) as Hcr.
  pose proof (elev_of_Some self ready t) as HeS.
  destruct (coords_of X Y t) as [[x y] z] eqn:Eco. cbn [fst snd] in *.
  destruct Hcr as [(Hx & Hy & Hz) Hnode].
  assert (0 <= (x - 1) mod X < X) as Hxp by (apply Z.mod_pos_bound; lia).
  assert (0 <= (y - 1) mod Y < Y) as Hyp by (apply Z.mod_pos_bound; lia).
  assert (0 <= (z - 1) mod L < L) as Hzp by (apply Z.mod_pos_bound; lia).
  assert (0 <= (z + 1) mod L < L) as Hzs by (apply Z.mod_pos_bound; lia).
  pose proof (node_id_range X Y L ltac:(lia) ltac:(lia) _ y z Hxp Hy Hz) as Hn1.
  pose proof (node_id_range X Y L ltac:(lia) ltac:(lia) x _ z Hx Hyp Hz) as Hn2.
  unfold cake_inputs, inplane_id.
  destruct (elev_of self t) as [e|] eqn:Hel.
  - destruct (HeS e Ht eq_refl) as (He & _).
    destruct (vertical_id_range self ready e _ 0 He Hzp ltac:(lia)) as [Hv0 _].
    destruct (vertical_id_range self ready e _ 1 He Hzs ltac:(lia)) as [Hv1 _].
    unfold vertical_id in *. simpl.
    repeat (apply NoDup_cons; split;
            [rewrite ?elem_of_cons, elem_of_nil;
             intros Hin; repeat (destruct Hin as [Hin|Hin]);
             try discriminate; try (injection Hin as Hin; lia); tauto|]).
    apply NoDup_nil. exact I.
  - simpl.
    repeat (apply NoDup_cons; split;
            [rewrite ?elem_of_cons, elem_of_nil;
             intros Hin; repeat (destruct Hin as [Hin|Hin]);
             try discriminate; try (injection Hin as Hin; lia); tauto|]).
    apply NoDup_nil. exact I.
Qed.

End CakeInputs.

Lemma all_inputs_Permutation self net :
  cake_ready self ->
  Cake._BuildNet self = Ok net ->
  all_inputs (Cake._routers net)
  ≡ₚ (Chan <$> seqZ 0 (Cake._channels self)) ++ (Inject <$> seqZ 0 (Cake._size self)).
Proof.
  intros ready Hb. pose proof (cake_bounds self ready) as B.
  pose proof (BuildNet_input_total self ready net Hb) as Htot.
  destruct (BuildNet_ready self ready) as (net' & Hb' & Hm).
  rewrite Hb in Hb'. injection Hb' as <-.
  rewrite (cake_channels self ready), (cake_size self ready).
  symmetry. apply submseteq_length_Permutation.
  - apply NoDup_submseteq.
    + apply NoDup_app. split; [|split].
      * apply NoDup_fmap_2; [intros a b [= ->]; reflexivity|apply NoDup_seqZ].
      * intros c Hc Hi. apply list_elem_of_fmap in Hc as (a & -> & _).
        apply list_elem_of_fmap in Hi as (b & Hb'' & _). discriminate.
      * apply NoDup_fmap_2; [intros a b [= ->]; reflexivity|apply NoDup_seqZ].
    + intros c Hc. apply all_inputs_elem. apply elem_of_app in Hc as [Hc|Hc].
      * apply list_elem_of_fmap in Hc as (a & -> & Ha). apply elem_of_seqZ in Ha.
        destruct (channel_sink self ready a ltac:(lia)) as (s & Hs & Hsnk).
        destruct (proj2 Hm s Hs) as (r & Hr & _ & Hin).
        exists (Z.to_nat s), r. split; [exact Hr|]. apply Hin, Hsnk. reflexivity.
      * apply list_elem_of_fmap in Hc as (a & -> & Ha). apply elem_of_seqZ in Ha.
        destruct (proj2 Hm a ltac:(lia)) as (r & Hr & _ & Hin).
        exists (Z.to_nat a), r. split; [exact Hr|].
        apply Hin, (final_in_inject self); [lia|reflexivity].
  - rewrite length_app, !length_fmap, !length_seqZ. lia.
Qed.

Lemma Cake_new_built config g net g' :
  Cake.new config g = Ok (net, g') ->
  exists self,
    cake_ready self /\ Cake._BuildNet self = Ok net /\
    routers_match (Cake._x self * Cake._y self * Cake._layers self)
      (expected_out self (Cake._x self * Cake._y self * Cake._layers self)
         (Cake._x self * Cake._y self * Cake._layers self)
         (Z.of_nat (length (Cake._elevators self)) * Cake._layers self)
         (Cake._x self * Cake._y self * Cake._layers self))
      (expected_in self (Cake._x self * Cake._y self * Cake._layers self)
         (Cake._x self * Cake._y self * Cake._layers self)
         (Z.of_nat (length (Cake._elevators self)) * Cake._layers self)
         (Cake._x self * Cake._y self * Cake._layers self))
      (Cake._routers net).
Proof.
  intros Hnew. pose proof (Cake_new_fits _ _ _ _ Hnew) as Hfits.
  apply Cake_new_inv in Hnew as (sz & el & Hsz & Hel & Hb).
  destruct (Cake_BuildNet_fields _ _ Hb) as (Hx & Hy & Hl & He & _).
  assert (cake_ready (Cake.allocated config sz el)) as ready.
  { eapply Cake_allocated_ready; [exact Hsz|exact Hel|].
    unfold cake_fits in Hfits. rewrite Hx, Hy, Hl, He in Hfits. exact Hfits. }
  exists (Cake.allocated config sz el). split; [exact ready|]. split; [exact Hb|].
  destruct (BuildNet_ready _ ready) as (net' & Hb' & Hmatch).
  rewrite Hb in Hb'. injection Hb' as <-. exact Hmatch.
Qed.

(** X11. In a constructed Cake the port counts declared when a router is
    created are the numbers of channels the wiring passes attach: five
    inputs and five outputs at an elevator, three elsewhere.  The inputs
    of the router at (x, y, z) are, in some order and without repetition,
    the X+ link of (x-1 mod X, y, z), the Y+ link of (x, y-1 mod Y, z), at
    an elevator the up link from layer z-1 and the down link from layer
    z+1 (mod Z), and its injection channel.  So [GetInputChannel] and
    [GetOutputChannel] pass their assertion and bounds exactly for the
    indices below the count. *)
Theorem Cake_router_port_counts config g net g' :
  Cake.new config g = Ok (net, g') ->
  forall (t : nat) r, Cake._routers net !! t = Some (Some r) ->
    _input_channels r
      ≡ₚ cake_inputs (Cake.X net) (Cake.Y net) (Cake.Layers net)
           (Cake._elevator_index net !! Cake._Key (CakeX r) (CakeY r))
           (CakeX r) (CakeY r) (CakeZ r) (Z.of_nat t) /\
    _inputs r = Z.of_nat (length (_input_channels r)) /\
    _outputs r = Z.of_nat (length (_output_channels r)) /\
    _inputs r = _outputs r /\
    _outputs r = (if bool_decide ((CakeX r, CakeY r) ∈ Cake.Elevators_ net)
                  then 5 else 3) /\
    (forall i, is_Ok (GetInputChannel r i) = true <-> 0 <= i < _inputs r) /\
    (forall i, is_Ok (GetOutputChannel r i) = true <-> 0 <= i < _outputs r).
Proof.
  intros Hnew t r Hr.
  destruct (Cake_new_built _ _ _ _ Hnew) as (self & ready & Hb & Hm).
  destruct (Cake_BuildNet_fields _ _ Hb) as (Hx & Hy & Hl & He & Hi & _).
  pose proof (cake_bounds self ready) as B.
  pose proof (all_inputs_Permutation self net ready Hb) as Hperm.
  assert (NoDup (_input_channels r)) as Hnd.
  { apply (all_inputs_NoDup (Cake._routers net) t r); [|exact Hr]. rewrite Hperm.
    apply NoDup_app. split; [|split].
    - apply NoDup_fmap_2; [intros a b [= ->]; reflexivity|apply NoDup_seqZ].
    - intros c Hc Hi'. apply list_elem_of_fmap in Hc as (a & -> & _).
      apply list_elem_of_fmap in Hi' as (b & Hb'' & _). discriminate.
    - apply NoDup_fmap_2; [intros a b [= ->]; reflexivity|apply NoDup_seqZ]. }
  destruct (match_lookup _ _ _ _ _ _ Hm Hr) as (Ht & Hs & Hin).
  destruct (final_out_meta self ready _ Ht) as (_ & Hxyz & _).
  rewrite <- Hs in Hxyz.
  change (CakeX (strip_inputs r)) with (CakeX r) in Hxyz.
  change (CakeY (strip_inputs r)) with (CakeY r) in Hxyz.
  change (CakeZ (strip_inputs r)) with (CakeZ r) in Hxyz.
  assert (Cake._elevator_index net !! Cake._Key (CakeX r) (CakeY r)
          = elev_of self (Z.of_nat t)) as Helev.
  { unfold elev_of. rewrite <- Hxyz, Hi. reflexivity. }
  assert (_input_channels r
          ≡ₚ cake_inputs (Cake._x self) (Cake._y self) (Cake._layers self)
               (elev_of self (Z.of_nat t)) (CakeX r) (CakeY r) (CakeZ r) (Z.of_nat t))
    as Hp.
  { pose proof (cake_inputs_NoDup self ready _ Ht) as Hnd'.
    pose proof (final_in_cake_inputs self ready (Z.of_nat t)) as Hfin.
    rewrite <- Hxyz in Hnd', Hfin. cbn [fst snd] in Hnd', Hfin.
    apply NoDup_Permutation; [exact Hnd|exact Hnd'|].
    intros c. rewrite Hin. apply Hfin. exact Ht. }
  pose proof (elev_of_elem self ready _ Ht) as Helem.
  rewrite <- Hxyz in Helem. cbn [fst snd] in Helem.
  assert (_outputs r = Z.of_nat (length (_output_channels r)) /\
          _inputs r = _outputs r /\
          _outputs r = (if bool_decide ((CakeX r, CakeY r) ∈ Cake._elevators self)
                        then 5 else 3) /\
          Z.of_nat (length (_input_channels r)) = _outputs r) as (Ho1 & Ho2 & Ho3 & Ho4).
  { change (_outputs r) with (_outputs (strip_inputs r)).
    change (_inputs r) with (_inputs (strip_inputs r)).
    change (_output_channels r) with (_output_channels (strip_inputs r)).
    rewrite Hs, (Permutation_length Hp).
    destruct (elev_of self (Z.of_nat t)) as [e|] eqn:Hel.
    - destruct (final_out_elevator self ready _ e Ht Hel) as (-> & -> & -> & _).
      rewrite bool_decide_eq_true_2 by (apply Helem; eauto). auto.
    - destruct (final_out_plain self _ Ht Hel) as (-> & -> & -> & _).
      rewrite bool_decide_eq_false_2; [auto|].
      intros Hin'. apply Helem in Hin' as [? ?]. discriminate. }
  unfold Cake.X, Cake.Y, Cake.Layers, Cake.Elevators_.
  rewrite Hx, Hy, Hl, He, Helev.
  split; [exact Hp|]. split; [lia|]. split; [exact Ho1|]. split; [exact Ho2|].
  split; [exact Ho3|]. split.
  - intros i. unfold GetInputChannel, at_index.
    destruct (0 <=? i) eqn:E1; destruct (i <? _inputs r) eqn:E2; simpl;
      try (split; [discriminate|lia]).
    replace (i <? Z.of_nat (length (_input_channels r))) with true by lia.
    destruct (lookup_lt_is_Some_2 (_input_channels r) (Z.to_nat i)) as [c Hc]; [lia|].
    rewrite Hc. simpl. split; [lia|reflexivity].
  - intros i. unfold GetOutputChannel, at_index.
    destruct (0 <=? i) eqn:E1; destruct (i <? _outputs r) eqn:E2; simpl;
      try (split; [discriminate|lia]).
    replace (i <? Z.of_nat (length (_output_channels r))) with true by lia.
    destruct (lookup_lt_is_Some_2 (_output_channels r) (Z.to_nat i)) as [c Hc]; [lia|].
    rewrite Hc. simpl. split; [lia|reflexivity].
Qed.

Lemma Cake_router_port_counts_witness :
  exists net g' r,
    Cake.new cfg_cake_332 g_init = Ok (net, g') /\
    Cake._routers net !! 4%nat = Some (Some r) /\
    _inputs r = 5 /\ _outputs r = 5 /\
    _input_channels r ≡ₚ [Chan 6; Chan 3; Chan 38; Chan 39; Inject 4] /\
    is_Ok (GetInputChannel r 4) = true.
Proof.
  destruct (Cake.new cfg_cake_332 g_init) as [[net g']| |] eqn:E;
    [|vm_compute in E; discriminate..].
  pose proof E as E'. vm_compute in E'. injection E' as <- <-.
  eexists _, _, _. split; [reflexivity|]. split; [reflexivity|].
  match goal with
  | |- _inputs ?r = _ /\ _ =>
      destruct (Cake_router_port_counts _ _ _ _ E 4%nat r eq_refl)
        as (Hp & Hi & Ho & Hio & Ho5 & Hgi & _)
  end.
  split; [exact Hi|]. split; [exact Ho|]. split; [exact Hp|].
  apply Hgi. vm_compute. split; [discriminate|reflexivity].
Defined.

(** ** UniTorus: sizing and the per-dimension keys *)

Lemma split_not_nil sep s : Str.split sep s <> [].
Proof.
  destruct s as [|c s]; simpl; [discriminate|].
  destruct (Ascii.eqb c sep); [discriminate|]. destruct (Str.split sep s); discriminate.
Qed.

Lemma parse_loop_all (bad : Z -> bool) msg toks : forall acc,
  foldM (fun token (values : list Z) =>
           let val := Str.atoi token in
           if bad val then Exit msg else Ok (values ++ [val])) toks acc
  = if forallb (fun t => negb (bad (Str.atoi t))) toks
    then Ok (acc ++ (Str.atoi <$> toks)) else Exit msg.
Proof.
  induction toks as [|t toks IH]; intros acc; simpl.
  - rewrite app_nil_r. reflexivity.
  - destruct (bad (Str.atoi t)); simpl; [reflexivity|].
    rewrite IH, <- app_assoc. reflexivity.
Qed.

(** X12. UniTorus [_ComputeSize]: a missing or "0" [dim_sizes] is an
    error; otherwise every comma-separated piece must convert to a
    positive integer (an empty piece, as after a trailing comma, converts
    to 0 and is an error), and then the dimension sizes are the converted
    pieces, [_size] is their product in [int] arithmetic, [_nodes] equals
    [_size] and [_channels] is the dimension count times [_size]. *)
Theorem UniTorus_ComputeSize_cases config g :
  let str := GetStr config "dim_sizes" in
  let sizes := Str.atoi <$> dim_size_pieces config in
  (str = ""%string \/ str = "0"%string ->
   UniTorus._ComputeSize config g
   = Exit "Error: dim_sizes must be specified as comma-separated values") /\
  (str <> ""%string -> str <> "0"%string -> Exists (fun s => s <= 0) sizes ->
   UniTorus._ComputeSize config g
   = Exit "Error: All dimension sizes must be positive integers.") /\
  (str <> ""%string -> str <> "0"%string -> Forall (fun s => 0 < s) sizes ->
   exists k rest, sizes = k :: rest /\
     UniTorus._ComputeSize config g
     = Ok ({| UniTorus.sz_dim_sizes := sizes;
              UniTorus.sz_size := fold_left Int32.mul sizes 1;
              UniTorus.sz_nodes := fold_left Int32.mul sizes 1;
              UniTorus.sz_channels :=
                Int32.wrap (Z.of_nat (length sizes) * fold_left Int32.mul sizes 1) |},
           {| gN := UniTorus.num_dims sizes; gK := k; gDimSizes := sizes |})).
Proof.
  cbv zeta. unfold dim_size_pieces, UniTorus._ComputeSize.
  set (str := GetStr config "dim_sizes").
  set (toks := Str.split "," (Str.strip_braces str)).
  assert (forall s : string, String.eqb str s = false <-> str <> s) as Hneq
    by (intros s; rewrite <- Bool.not_true_iff_false, String.eqb_eq; tauto).
  split; [|split].
  - intros [->| ->]; reflexivity.
  - intros H1 H2 Hex. rewrite (proj2 (Hneq _) H1), (proj2 (Hneq _) H2). simpl.
    rewrite (parse_loop_all (fun v => v <=? 0)).
    destruct (forallb _ toks) eqn:Hall; [exfalso|reflexivity].
    rewrite forallb_forall in Hall. apply Exists_exists in Hex as (s & Hin & Hs).
    apply list_elem_of_fmap in Hin as (t & -> & Ht).
    apply list_elem_of_In, Hall in Ht. apply Bool.negb_true_iff in Ht. lia.
  - intros H1 H2 Hall. rewrite (proj2 (Hneq _) H1), (proj2 (Hneq _) H2). simpl.
    rewrite (parse_loop_all (fun v => v <=? 0)).
    replace (forallb _ toks) with true.
    + simpl. destruct toks as [|t ts] eqn:Etoks; [exfalso; exact (split_not_nil _ _ Etoks)|].
      exists (Str.atoi t), (Str.atoi <$> ts). split; [reflexivity|]. reflexivity.
    + symmetry. apply forallb_forall. intros t Ht. apply Bool.negb_true_iff.
      apply Z.leb_gt.
      rewrite Forall_forall in Hall. apply Hall.
      apply list_elem_of_fmap. exists t. split; [reflexivity|]. apply list_elem_of_In. exact Ht.
Qed.

Lemma UniTorus_ComputeSize_cases_witness :
  UniTorus._ComputeSize (config_of [("dim_sizes"%string, "{4,4,}"%string)]) g_init
    = Exit "Error: All dimension sizes must be positive integers." /\
  exists sz g', UniTorus._ComputeSize cfg_unitorus_444 g_init = Ok (sz, g') /\
                UniTorus.sz_dim_sizes sz = [4; 4; 4] /\ UniTorus.sz_size sz = 64 /\
                UniTorus.sz_channels sz = 192.
Proof.
  split.
  - apply (proj1 (proj2 (UniTorus_ComputeSize_cases
                           (config_of [("dim_sizes"%string, "{4,4,}"%string)]) g_init)));
      [discriminate|discriminate|].
    apply Exists_cons_tl, Exists_cons_tl, Exists_cons_hd. vm_compute. discriminate.
  - destruct (proj2 (proj2 (UniTorus_ComputeSize_cases cfg_unitorus_444 g_init)))
      as (k & rest & _ & H); [discriminate|discriminate| |].
    + repeat constructor.
    + eexists _, _. split; [exact H|]. repeat split; reflexivity.
Defined.

Lemma forallb_atoi (p q : Z -> bool) (toks : list string) :
  (forall v, p v = q v) ->
  forallb (fun t => p (Str.atoi t)) toks = forallb (fun t => q (Str.atoi t)) toks.
Proof. intros H. induction toks; simpl; [reflexivity|]. by rewrite H, IHtoks. Qed.

Lemma not_leb_0 v : negb (v <=? 0) = (1 <=? v).
Proof. destruct (Z.leb_spec v 0), (Z.leb_spec 1 v); simpl; try reflexivity; lia. Qed.

Lemma not_ltb_0 v : negb (v <? 0) = (0 <=? v).
Proof. destruct (Z.ltb_spec v 0), (Z.leb_spec 0 v); simpl; try reflexivity; lia. Qed.

Lemma parse_cases (bad : Z -> bool) lo m1 m2 D str :
  (forall v, negb (bad v) = (lo <=? v)) ->
  match
    (if String.eqb str "" || String.eqb str "0" then Ok []
     else
       let tokens := UniTorus.tokens_of str in
       if negb (Int32.wrap (Z.of_nat (length tokens)) =? D) then Exit m1
       else foldM (fun token (values : list Z) =>
                     let val := Str.atoi token in
                     if bad val then Exit m2 else Ok (values ++ [val])) tokens [])
  with
  | Ok vs => direction_ok lo D str = true /\
             (if bool_decide (vs = []) then UniTorus.resize D (lo - 0) [] else vs)
             = direction_values (lo - 0) D str /\
             Forall (fun v => lo <= v) vs
  | Exit _ => direction_ok lo D str = false
  | Crash => False
  end.
Proof.
  intros Hbad. unfold direction_ok, direction_values, unspecified.
  destruct (_ || _); simpl.
  { rewrite resize_nil. auto. }
  destruct (Int32.wrap _ =? D) eqn:ED; simpl; [|reflexivity].
  rewrite parse_loop_all.
  rewrite (forallb_atoi (fun v => negb (bad v)) (fun v => lo <=? v)) by exact Hbad.
  destruct (forallb _ _) eqn:Hall; [|reflexivity].
  simpl. split; [reflexivity|]. split.
  - case_bool_decide as Hnil; [|reflexivity].
    rewrite resize_nil, Hnil. apply fmap_nil_inv in Hnil. rewrite Hnil in ED.
    apply Z.eqb_eq in ED. rewrite <- ED. reflexivity.
  - rewrite forallb_forall in Hall. apply Forall_fmap, Forall_forall.
    intros t Ht. apply list_elem_of_In, Hall in Ht. simpl. lia.
Qed.

Lemma parseAndValidate_cases D str :
  match UniTorus.parseAndValidate D str with
  | Ok vs => direction_ok 1 D str = true /\
             (if bool_decide (vs = []) then UniTorus.resize D 1 [] else vs)
             = direction_values 1 D str /\
             Forall (fun v => 1 <= v) vs
  | Exit _ => direction_ok 1 D str = false
  | Crash => False
  end.
Proof. exact (parse_cases (fun v => v <=? 0) 1 _ _ D str not_leb_0). Qed.

Lemma parseAndValidatePenalty_cases D str :
  match UniTorus.parseAndValidatePenalty D str with
  | Ok vs => direction_ok 0 D str = true /\
             (if bool_decide (vs = []) then UniTorus.resize D 0 [] else vs)
             = direction_values 0 D str /\
             Forall (fun v => 0 <= v) vs
  | Exit _ => direction_ok 0 D str = false
  | Crash => False
  end.
Proof. exact (parse_cases (fun v => v <? 0) 0 _ _ D str not_ltb_0). Qed.

Lemma direction_values_length dflt D str lo :
  0 <= D -> D <= Int32.INT_MAX -> direction_ok lo D str = true ->
  Int32.wrap (Z.of_nat (length (direction_values dflt D str))) = D.
Proof.
  intros H0 H1. unfold direction_ok, direction_values.
  destruct (unspecified str); simpl.
  - intros _. rewrite length_replicate, Z2Nat.id by lia. apply wrap_fits.
    unfold Int32.fits, Int32.INT_MIN, Int32.INT_MAX in *. lia.
  - intros H. apply andb_prop in H as [H _]. apply Z.eqb_eq in H.
    rewrite length_fmap. exact H.
Qed.

Lemma kept_values_bound D lo str vs dflt :
  lo <= dflt -> Forall (fun v => lo <= v) vs ->
  (if bool_decide (vs = []) then UniTorus.resize D dflt [] else vs)
  = direction_values dflt D str ->
  Forall (fun v => lo <= v) (direction_values dflt D str).
Proof.
  intros Hlo Hvs <-. destruct (bool_decide (vs = [])); [|exact Hvs].
  rewrite resize_nil. apply Forall_replicate. exact Hlo.
Qed.

Lemma direction_config_cases config dim_sizes :
  let D := UniTorus.num_dims dim_sizes in
  let bw := GetStr config "dim_bandwidth" in
  let lat := GetStr config "dim_latency" in
  let pen := GetStr config "dim_penalty" in
  is_Ok (UniTorus._ParseDirectionConfig config dim_sizes)
  = direction_ok 1 D bw && direction_ok 1 D lat && direction_ok 0 D pen /\
  forall dir, UniTorus._ParseDirectionConfig config dim_sizes = Ok dir ->
    UniTorus.dir_bandwidth dir = direction_values 1 D bw /\
    UniTorus.dir_latency dir = direction_values 1 D lat /\
    UniTorus.dir_penalty dir = direction_values 0 D pen /\
    Forall (fun b => 0 < b) (UniTorus.dir_bandwidth dir) /\
    Forall (fun l => 0 < l) (UniTorus.dir_latency dir) /\
    Forall (fun p => 0 <= p) (UniTorus.dir_penalty dir) /\
    (0 <= D ->
     Int32.wrap (Z.of_nat (length (UniTorus.dir_bandwidth dir))) = D /\
     Int32.wrap (Z.of_nat (length (UniTorus.dir_latency dir))) = D /\
     Int32.wrap (Z.of_nat (length (UniTorus.dir_penalty dir))) = D).
Proof.
  cbv zeta. unfold UniTorus._ParseDirectionConfig.
  set (D := UniTorus.num_dims dim_sizes).
  assert (D <= Int32.INT_MAX) as HD.
  { unfold D, UniTorus.num_dims. pose proof (wrap_range (Z.of_nat (length dim_sizes))).
    unfold Int32.fits in *. lia. }
  pose proof (parseAndValidate_cases D (GetStr config "dim_bandwidth")) as Hb.
  pose proof (parseAndValidate_cases D (GetStr config "dim_latency")) as Hl.
  pose proof (parseAndValidatePenalty_cases D (GetStr config "dim_penalty")) as Hp.
  destruct (UniTorus.parseAndValidate D (GetStr config "dim_bandwidth")) as [bv| |];
    [|rewrite Hb; split; [reflexivity|discriminate]|contradiction].
  destruct Hb as (Hb1 & Hb2 & Hb3). rewrite Hb1. simpl.
  destruct (UniTorus.parseAndValidate D (GetStr config "dim_latency")) as [lv| |];
    [|rewrite Hl; split; [reflexivity|discriminate]|contradiction].
  destruct Hl as (Hl1 & Hl2 & Hl3). rewrite Hl1. simpl.
  destruct (UniTorus.parseAndValidatePenalty D (GetStr config "dim_penalty")) as [pv| |];
    [|rewrite Hp; split; [reflexivity|discriminate]|contradiction].
  destruct Hp as (Hp1 & Hp2 & Hp3). rewrite Hp1. simpl.
  split; [reflexivity|]. intros dir [= <-]. simpl.
  rewrite Hb2, Hl2, Hp2.
  repeat split.
  - eapply Forall_impl; [exact (kept_values_bound D 1 _ _ 1 ltac:(lia) Hb3 Hb2)|].
    simpl. lia.
  - eapply Forall_impl; [exact (kept_values_bound D 1 _ _ 1 ltac:(lia) Hl3 Hl2)|].
    simpl. lia.
  - exact (kept_values_bound D 0 _ _ 0 ltac:(lia) Hp3 Hp2).
  - eapply direction_values_length; eauto.
  - eapply direction_values_length; eauto.
  - eapply direction_values_length; eauto.
Qed.

(** X13. UniTorus [_ParseDirectionConfig] succeeds exactly when each of
    [dim_bandwidth], [dim_latency] and [dim_penalty] is either left out
    (empty or "0") or lists one value per dimension, positive for
    bandwidth and latency and non-negative for penalty.  A key left out
    gives every dimension the default (1, 1 and 0); a listed key is kept
    value by value in order. *)
Theorem UniTorus_direction_config config dim_sizes :
  let D := UniTorus.num_dims dim_sizes in
  let bw := GetStr config "dim_bandwidth" in
  let lat := GetStr config "dim_latency" in
  let pen := GetStr config "dim_penalty" in
  is_Ok (UniTorus._ParseDirectionConfig config dim_sizes)
  = direction_ok 1 D bw && direction_ok 1 D lat && direction_ok 0 D pen /\
  forall dir, UniTorus._ParseDirectionConfig config dim_sizes = Ok dir ->
    UniTorus.dir_bandwidth dir = direction_values 1 D bw /\
    UniTorus.dir_latency dir = direction_values 1 D lat /\
    UniTorus.dir_penalty dir = direction_values 0 D pen /\
    Forall (fun b => 0 < b) (UniTorus.dir_bandwidth dir) /\
    Forall (fun l => 0 < l) (UniTorus.dir_latency dir) /\
    Forall (fun p => 0 <= p) (UniTorus.dir_penalty dir) /\
    (0 <= D ->
     Int32.wrap (Z.of_nat (length (UniTorus.dir_bandwidth dir))) = D /\
     Int32.wrap (Z.of_nat (length (UniTorus.dir_latency dir))) = D /\
     Int32.wrap (Z.of_nat (length (UniTorus.dir_penalty dir))) = D).
Proof. exact (direction_config_cases config dim_sizes). Qed.


Lemma UniTorus_direction_config_witness :
  exists dir,
    UniTorus._ParseDirectionConfig cfg_unitorus_wide [2; 2] = Ok dir /\
    UniTorus.dir_bandwidth dir = [536870912; 1] /\
    UniTorus.dir_latency dir = [1; 1] /\
    UniTorus.dir_penalty dir = [0; 0].
Proof.
  destruct (UniTorus._ParseDirectionConfig cfg_unitorus_wide [2; 2]) as [dir| |] eqn:E;
    [|vm_compute in E; discriminate..].
  exists dir. split; [reflexivity|].
  destruct (proj2 (UniTorus_direction_config cfg_unitorus_wide [2; 2]) dir E)
    as (H1 & H2 & H3 & _).
  rewrite H1, H2, H3. vm_compute. auto.
Defined.

(** ** UniTorus: the ring neighbour *)

Lemma value_insert sizes c (d : nat) x y :
  length sizes = length c -> c !! d = Some x ->
  mixed_radix_value sizes (<[d := y]> c)
  = mixed_radix_value sizes c + (y - x) * product (take d sizes).
Proof.
  revert c d. induction sizes as [|s ss IH]; intros [|c0 cs] d Hlen Hx;
    try discriminate.
  destruct d as [|d]; simpl in *.
  - injection Hx as ->. lia.
  - rewrite (IH cs d) by (auto; lia). lia.
Qed.

Lemma valid_insert sizes c (d : nat) s y :
  valid_coords sizes c -> sizes !! d = Some s -> 0 <= y < s ->
  valid_coords sizes (<[d := y]> c).
Proof.
  intros Hv. revert d. induction Hv as [|s0 c0 ss cs H0 Hv IH]; intros d Hs Hy.
  - discriminate.
  - destruct d as [|d]; simpl in *.
    + injection Hs as ->. constructor; auto.
    + constructor; auto. apply IH; auto.
Qed.

Lemma lookup_le_product sizes (d : nat) s :
  Forall (fun s => 0 < s) sizes -> sizes !! d = Some s -> s <= product sizes.
Proof.
  intros H. revert d. induction H as [|s0 ss H0 Hss IH]; intros d Hs; [discriminate|].
  pose proof (product_pos _ Hss).
  destruct d as [|d]; simpl in *.
  - injection Hs as ->. nia.
  - specialize (IH _ Hs). nia.
Qed.

Section Ring.
Variable sizes : list Z.
Hypothesis Hpos : Forall (fun s => 0 < s) sizes.

Lemma shift_value k n (d : nat) s :
  0 <= n < product sizes -> sizes !! d = Some s ->
  ring_shift sizes k n (Z.of_nat d)
  = mixed_radix_value sizes
      (<[d := ((n / product (take d sizes)) mod s + k) mod s]> (digits sizes n)).
Proof.
  intros Hn Hs. unfold ring_shift. rewrite Nat2Z.id, Hs. cbv zeta.
  rewrite (value_insert _ _ _ ((n / product (take d sizes)) mod s))
    by (rewrite ?digits_length; auto using digits_lookup).
  rewrite value_digits by auto. reflexivity.
Qed.

Lemma shift_digits k n (d : nat) s :
  0 <= n < product sizes -> sizes !! d = Some s ->
  digits sizes (ring_shift sizes k n (Z.of_nat d))
  = <[d := ((n / product (take d sizes)) mod s + k) mod s]> (digits sizes n).
Proof.
  intros Hn Hs. rewrite (shift_value _ _ _ _ Hn Hs). apply digits_value.
  eapply valid_insert; [apply digits_valid; exact Hpos|exact Hs|].
  apply Z.mod_pos_bound. eapply (Forall_lookup_1 _ _ _ _ Hpos); eauto.
Qed.

Lemma shift_range k n (d : nat) s :
  0 <= n < product sizes -> sizes !! d = Some s ->
  0 <= ring_shift sizes k n (Z.of_nat d) < product sizes.
Proof.
  intros Hn Hs. rewrite (shift_value _ _ _ _ Hn Hs). apply value_bound.
  eapply valid_insert; [apply digits_valid; exact Hpos|exact Hs|].
  apply Z.mod_pos_bound. eapply (Forall_lookup_1 _ _ _ _ Hpos); eauto.
Qed.

Lemma digits_inj m n :
  0 <= m < product sizes -> 0 <= n < product sizes ->
  digits sizes m = digits sizes n -> m = n.
Proof.
  intros Hm Hn H. rewrite <- (value_digits sizes m), <- (value_digits sizes n) by auto.
  by rewrite H.
Qed.

Lemma shift_coord k n (d : nat) s :
  0 <= n < product sizes -> sizes !! d = Some s ->
  (ring_shift sizes k n (Z.of_nat d) / product (take d sizes)) mod s
  = ((n / product (take d sizes)) mod s + k) mod s.
Proof.
  intros Hn Hs.
  pose proof (digits_lookup sizes (ring_shift sizes k n (Z.of_nat d)) d s Hpos Hs) as H.
  rewrite (shift_digits _ _ _ _ Hn Hs), list_lookup_insert_eq in H
    by (rewrite digits_length; eapply lookup_lt_Some; eauto).
  by injection H.
Qed.

Lemma shift_shift j k n (d : nat) s :
  0 <= n < product sizes -> sizes !! d = Some s ->
  ring_shift sizes k (ring_shift sizes j n (Z.of_nat d)) (Z.of_nat d)
  = ring_shift sizes (j + k) n (Z.of_nat d).
Proof.
  intros Hn Hs.
  assert (0 < s) as Hs0 by (eapply (Forall_lookup_1 _ _ _ _ Hpos); eauto).
  pose proof (shift_range j n d s Hn Hs) as Hj.
  apply digits_inj; [eapply shift_range; eauto..|].
  rewrite (shift_digits k _ _ _ Hj Hs), (shift_coord _ _ _ _ Hn Hs).
  rewrite !(shift_digits _ _ _ _ Hn Hs), list_insert_insert_eq.
  f_equal. rewrite Zplus_mod_idemp_l. f_equal. lia.
Qed.

Lemma shift_multiple q n (d : nat) s :
  0 <= n < product sizes -> sizes !! d = Some s ->
  ring_shift sizes (q * s) n (Z.of_nat d) = n.
Proof.
  intros Hn Hs.
  assert (0 < s) as Hs0 by (eapply (Forall_lookup_1 _ _ _ _ Hpos); eauto).
  unfold ring_shift. rewrite Nat2Z.id, Hs. cbv zeta.
  rewrite Z_mod_plus_full, Z.mod_mod by lia. lia.
Qed.

Lemma shift_fixed k n (d : nat) s :
  0 <= n < product sizes -> sizes !! d = Some s ->
  ring_shift sizes k n (Z.of_nat d) = n -> k mod s = 0.
Proof.
  intros Hn Hs H.
  assert (0 < s) as Hs0 by (eapply (Forall_lookup_1 _ _ _ _ Hpos); eauto).
  pose proof (shift_coord k n d s Hn Hs) as Hc. rewrite H in Hc.
  set (c := (n / product (take d sizes)) mod s) in *.
  pose proof (Z.mod_pos_bound (n / product (take d sizes)) s Hs0) as Hcb. fold c in Hcb.
  rewrite <- (Z.mod_small c s) in Hc at 1 by lia.
  assert ((c + k - c) mod s = 0) as H0.
  { rewrite Zminus_mod, <- Hc, Z.sub_diag. apply Z.mod_0_l. lia. }
  replace (c + k - c) with k in H0 by lia. exact H0.
Qed.

Lemma shift_commute j k n (d e : nat) s t :
  0 <= n < product sizes -> sizes !! d = Some s -> sizes !! e = Some t -> d <> e ->
  ring_shift sizes k (ring_shift sizes j n (Z.of_nat d)) (Z.of_nat e)
  = ring_shift sizes j (ring_shift sizes k n (Z.of_nat e)) (Z.of_nat d).
Proof.
  intros Hn Hs Ht Hne.
  pose proof (shift_range j n d s Hn Hs) as Hj.
  pose proof (shift_range k n e t Hn Ht) as Hk.
  assert (forall a b (x y : nat) u v, 0 <= b < product sizes ->
            sizes !! x = Some u -> sizes !! y = Some v -> x <> y ->
            (ring_shift sizes a b (Z.of_nat x) / product (take y sizes)) mod v
            = (b / product (take y sizes)) mod v) as Hother.
  { intros a b x y u v Hb Hu Hv Hxy.
    pose proof (digits_lookup sizes (ring_shift sizes a b (Z.of_nat x)) y v Hpos Hv) as H.
    rewrite (shift_digits _ _ _ _ Hb Hu), list_lookup_insert_ne in H by exact Hxy.
    rewrite (digits_lookup _ _ _ _ Hpos Hv) in H. by injection H. }
  apply digits_inj; [eapply shift_range; eauto..|].
  rewrite (shift_digits k _ _ _ Hj Ht), (shift_digits j _ _ _ Hk Hs).
  rewrite (shift_digits _ _ _ _ Hn Hs), (shift_digits _ _ _ _ Hn Ht).
  rewrite (Hother j n d e s t Hn Hs Ht Hne).
  rewrite (Hother k n e d t s Hn Ht Hs (not_eq_sym Hne)).
  apply list_insert_insert_ne. auto.
Qed.

Hypothesis HD : Z.of_nat (length sizes) <= Int32.INT_MAX.
Hypothesis HP : product sizes <= Int32.INT_MAX.

Lemma NextNode_ring n d :
  0 <= n < product sizes -> 0 <= d < Z.of_nat (length sizes) ->
  UniTorus._NextNode sizes n d = Ok (ring_shift sizes 1 n d).
Proof.
  intros Hn Hd. unfold UniTorus._NextNode.
  rewrite NodeToCoords_digits by (auto; lia). simpl.
  destruct (lookup_lt_is_Some_2 sizes (Z.to_nat d)) as [s Hs]; [lia|].
  assert (0 < s) as Hs0 by (eapply (Forall_lookup_1 _ _ _ _ Hpos); eauto).
  pose proof (lookup_le_product _ _ _ Hpos Hs) as Hsle.
  rewrite (at_index_Ok _ _ _ (proj1 Hd) (digits_lookup _ n _ _ Hpos Hs)). simpl.
  rewrite (at_index_Ok _ _ _ (proj1 Hd) Hs). simpl.
  destruct (s =? 0) eqn:E; [lia|].
  set (c := (n / product (take (Z.to_nat d) sizes)) mod s).
  pose proof (Z.mod_pos_bound (n / product (take (Z.to_nat d) sizes)) s Hs0) as Hc.
  fold c in Hc.
  unfold Int32.add, Int32.rem.
  rewrite wrap_fits by (unfold Int32.fits, Int32.INT_MIN, Int32.INT_MAX in *; lia).
  rewrite Z.rem_mod_nonneg by lia.
  rewrite CoordsToNode_value; auto.
  - f_equal. rewrite <- (Z2Nat.id d) at 2 by lia.
    symmetry. apply shift_value; auto.
  - eapply valid_insert; [apply digits_valid; exact Hpos|exact Hs|].
    apply Z.mod_pos_bound. lia.
Qed.

Lemma NextNode_iter k n d :
  0 <= k -> 0 <= n < product sizes -> 0 <= d < Z.of_nat (length sizes) ->
  for_range k (fun _ m => UniTorus._NextNode sizes m d) n
  = Ok (ring_shift sizes k n d).
Proof.
  intros Hk Hn Hd.
  destruct (lookup_lt_is_Some_2 sizes (Z.to_nat d)) as [s Hs]; [lia|].
  assert (d = Z.of_nat (Z.to_nat d)) as Ed by lia.
  revert Hd. rewrite Ed. generalize (Z.to_nat d) Hs. clear Ed d Hs. intros d Hs Hd.
  destruct (for_range_inv
              (fun i m => m = ring_shift sizes i n (Z.of_nat d)) k
              (fun _ m => UniTorus._NextNode sizes m (Z.of_nat d)) n)
    as (m & Hm & ->); [exact Hk| | |exact Hm].
  - exact (eq_sym (shift_multiple 0 n _ s Hn Hs)).
  - intros i m Hi ->. eexists. split.
    + apply NextNode_ring; [eapply shift_range; eauto|lia].
    + eapply shift_shift; eauto.
Qed.

End Ring.

(** X14. UniTorus [_NextNode]: for positive dimension sizes whose count
    and product are representable, the neighbour of an in-range node [n]
    along dimension [d] is again an in-range node; its coordinates are
    those of [n] with coordinate [d] advanced by one modulo the size of
    that dimension, so its id is [n] plus the stride of [d], or [n] minus
    [size - 1] strides at the wrap-around; and distinct nodes have
    distinct neighbours along [d]. *)
Theorem UniTorus_NextNode_step (sizes : list Z) :
  Forall (fun s => 0 < s) sizes ->
  Z.of_nat (length sizes) <= Int32.INT_MAX ->
  product sizes <= Int32.INT_MAX ->
  forall (d : nat) s, sizes !! d = Some s ->
    let P := product (take d sizes) in
    (forall n, 0 <= n < product sizes ->
       exists n' c x,
         UniTorus._NextNode sizes n (Z.of_nat d) = Ok n' /\
         0 <= n' < product sizes /\
         UniTorus._NodeToCoords sizes n = Ok c /\
         c !! d = Some x /\
         UniTorus._NodeToCoords sizes n' = Ok (<[d := (x + 1) mod s]> c) /\
         n' = if x + 1 <? s then n + P else n - (s - 1) * P) /\
    (forall m n, 0 <= m < product sizes -> 0 <= n < product sizes ->
       UniTorus._NextNode sizes m (Z.of_nat d) = UniTorus._NextNode sizes n (Z.of_nat d) ->
       m = n).
Proof.
  intros Hpos HD HP d s Hs P.
  assert (0 < s) as Hs0 by (eapply (Forall_lookup_1 _ _ _ _ Hpos); eauto).
  assert (0 <= Z.of_nat d < Z.of_nat (length sizes)) as Hd.
  { apply lookup_lt_Some in Hs. lia. }
  split.
  - intros n Hn.
    pose proof (shift_range sizes Hpos 1 n d s Hn Hs) as Hr.
    exists (ring_shift sizes 1 n (Z.of_nat d)), (digits sizes n), ((n / P) mod s).
    split; [apply NextNode_ring; auto|]. split; [exact Hr|].
    split; [apply NodeToCoords_digits; auto; lia|].
    split; [apply digits_lookup; auto|].
    split; [rewrite NodeToCoords_digits by (auto; lia);
            f_equal; apply shift_digits; auto|].
    unfold ring_shift. rewrite Nat2Z.id, Hs. cbv zeta. fold P.
    pose proof (Z.mod_pos_bound (n / P) s Hs0) as Hc.
    destruct (Z.ltb_spec ((n / P) mod s + 1) s).
    + rewrite (Z.mod_small (_ + 1)) by lia. lia.
    + assert ((n / P) mod s = s - 1) as -> by lia.
      replace (s - 1 + 1) with s by lia. rewrite Z_mod_same_full. lia.
  - intros m n Hm Hn. rewrite !NextNode_ring by auto. intros [= H].
    rewrite <- (shift_multiple sizes Hpos 0 m d s Hm Hs).
    rewrite <- (shift_multiple sizes Hpos 0 n d s Hn Hs).
    change (0 * s) with (1 + -1).
    rewrite <- !(shift_shift sizes Hpos 1 (-1) _ d s) by auto.
    by rewrite H.
Qed.

Lemma UniTorus_NextNode_step_witness :
  UniTorus._NextNode [4; 4; 4] 29 1 = Ok 17 /\
  UniTorus._NodeToCoords [4; 4; 4] 29 = Ok [1; 3; 1] /\
  UniTorus._NodeToCoords [4; 4; 4] 17 = Ok [1; 0; 1].
Proof.
  destruct (UniTorus_NextNode_step [4; 4; 4]) with (d := 1%nat) (s := 4) as [H _].
  - repeat constructor.
  - vm_compute. discriminate.
  - vm_compute. discriminate.
  - reflexivity.
  - destruct (H 29) as (n' & c & x & H1 & _ & H2 & H3 & H4 & H5); [vm_compute; split; [discriminate|reflexivity]|].
    pose proof H2 as H2'. vm_compute in H2'. injection H2' as <-.
    injection H3 as <-. vm_compute in H5. subst n'.
    split; [exact H1|]. split; [exact H2|exact H4].
Defined.

(** X15. UniTorus [_NextNode] walks a ring: following dimension [d] from
    an in-range node [size_d] times returns to that node, no smaller
    positive number of steps does, and steps along two different
    dimensions can be taken in either order. *)
Theorem UniTorus_NextNode_ring (sizes : list Z) :
  Forall (fun s => 0 < s) sizes ->
  Z.of_nat (length sizes) <= Int32.INT_MAX ->
  product sizes <= Int32.INT_MAX ->
  forall n (d : nat) s, 0 <= n < product sizes -> sizes !! d = Some s ->
    for_range s (fun _ m => UniTorus._NextNode sizes m (Z.of_nat d)) n = Ok n /\
    (forall k, 0 < k < s ->
       exists m, for_range k (fun _ m => UniTorus._NextNode sizes m (Z.of_nat d)) n = Ok m /\
                 m <> n) /\
    (forall (e : nat), d <> e -> (e < length sizes)%nat ->
       exists a b m,
         UniTorus._NextNode sizes n (Z.of_nat d) = Ok a /\
         UniTorus._NextNode sizes a (Z.of_nat e) = Ok m /\
         UniTorus._NextNode sizes n (Z.of_nat e) = Ok b /\
         UniTorus._NextNode sizes b (Z.of_nat d) = Ok m).
Proof.
  intros Hpos HD HP n d s Hn Hs.
  assert (0 < s) as Hs0 by (eapply (Forall_lookup_1 _ _ _ _ Hpos); eauto).
  assert (0 <= Z.of_nat d < Z.of_nat (length sizes)) as Hd.
  { apply lookup_lt_Some in Hs. lia. }
  split; [|split].
  - rewrite NextNode_iter by (auto; lia). f_equal.
    replace s with (1 * s) at 1 by lia. eapply shift_multiple; eauto.
  - intros k Hk. eexists. split; [apply NextNode_iter; auto; lia|].
    intros H. apply (shift_fixed sizes Hpos k n d s Hn Hs) in H.
    rewrite Z.mod_small in H by lia. lia.
  - intros e Hne He.
    destruct (lookup_lt_is_Some_2 sizes e He) as [t Ht].
    exists (ring_shift sizes 1 n (Z.of_nat d)), (ring_shift sizes 1 n (Z.of_nat e)),
           (ring_shift sizes 1 (ring_shift sizes 1 n (Z.of_nat d)) (Z.of_nat e)).
    pose proof (shift_range sizes Hpos 1 n d s Hn Hs).
    pose proof (shift_range sizes Hpos 1 n e t Hn Ht).
    rewrite !NextNode_ring by (auto; lia).
    repeat split. f_equal. symmetry. eapply shift_commute; eauto.
Qed.

Lemma UniTorus_NextNode_ring_witness :
  for_range 4 (fun _ m => UniTorus._NextNode [4; 4; 4] m 1) 29 = Ok 29 /\
  for_range 3 (fun _ m => UniTorus._NextNode [4; 4; 4] m 1) 29 = Ok 25.
Proof.
  destruct (UniTorus_NextNode_ring [4; 4; 4]) with (n := 29) (d := 1%nat) (s := 4)
    as (H1 & H2 & _).
  - repeat constructor.
  - vm_compute. discriminate.
  - vm_compute. discriminate.
  - vm_compute. split; [discriminate|reflexivity].
  - reflexivity.
  - split; [exact H1|].
    destruct (H2 3) as (m & Hm & _); [lia|].
    pose proof Hm as Hm'. vm_compute in Hm'. injection Hm' as <-. exact Hm.
Defined.

(** ** UniTorus: the wiring *)

Lemma nested2_inv {St} (I : Z -> St -> Prop) (body : Z -> Z -> St -> result St) N D s :
  0 <= N -> 0 <= D ->
  I 0 s ->
  (forall n d s, 0 <= n < N -> 0 <= d < D -> I (n * D + d) s ->
     exists s', body n d s = Ok s' /\ I (n * D + d + 1) s') ->
  exists s',
    for_range N (fun n s => for_range D (fun d s => body n d s) s) s = Ok s' /\
    I (N * D) s'.
Proof.
  intros HN HD H0 Hstep.
  destruct (for_range_inv (fun n s => I (n * D) s) N
              (fun n s => for_range D (fun d s => body n d s) s) s)
    as (s' & Hs' & HI); [exact HN|exact H0| |eauto].
  intros n s1 Hn Hs1.
  destruct (for_range_inv (fun d s => I (n * D + d) s) D
              (fun d s => body n d s) s1)
    as (s2 & Hs2 & HI2); [exact HD|by rewrite Z.add_0_r| |].
  - intros d s3 Hd Hs3. destruct (Hstep n d s3 Hn Hd Hs3) as (s4 & Hb & HI4).
    exists s4. split; [exact Hb|]. by rewrite Z.add_assoc.
  - exists s2. split; [exact Hs2|].
    replace ((n + 1) * D) with (n * D + D) by lia. exact HI2.
Qed.

Lemma routers_are_ext N ports out inp out' inp' rs :
  routers_are N ports out inp rs ->
  (forall id, 0 <= id < N -> out id = out' id) ->
  (forall id, 0 <= id < N -> inp id = inp' id) ->
  routers_are N ports out' inp' rs.
Proof.
  intros [Hlen Hm] Ho Hi. split; [exact Hlen|].
  intros id Hid. destruct (Hm id Hid) as (r & Hr & H1 & H2 & H3 & H4 & H5).
  exists r. rewrite <- Ho, <- Hi by exact Hid. auto 10.
Qed.

Lemma routers_are_out N ports out inp rs i c cc :
  routers_are N ports out inp rs -> 0 <= i < N ->
  exists rs', with_router i (AddOutputChannel c cc) rs = Ok rs' /\
              routers_are N ports (fun id => if id =? i then out id ++ [c] else out id)
                          inp rs'.
Proof.
  intros [Hlen Hm] Hi. destruct (Hm i Hi) as (r & Hr & H1 & H2 & H3 & H4 & H5).
  exists (<[Z.to_nat i := Some (AddOutputChannel c cc r)]> rs).
  split; [apply with_router_Ok; [lia|exact Hr]|].
  split; [rewrite length_insert; exact Hlen|].
  intros id Hid. destruct (id =? i) eqn:E.
  - assert (id = i) as -> by lia. exists (AddOutputChannel c cc r).
    rewrite list_lookup_insert_eq by lia. simpl. rewrite H4. auto 10.
  - rewrite list_lookup_insert_ne by lia. apply Hm. exact Hid.
Qed.

Lemma routers_are_in N ports out inp rs i c cc :
  routers_are N ports out inp rs -> 0 <= i < N ->
  exists rs', with_router i (AddInputChannel c cc) rs = Ok rs' /\
              routers_are N ports out
                          (fun id => if id =? i then inp id ++ [c] else inp id) rs'.
Proof.
  intros [Hlen Hm] Hi. destruct (Hm i Hi) as (r & Hr & H1 & H2 & H3 & H4 & H5).
  exists (<[Z.to_nat i := Some (AddInputChannel c cc r)]> rs).
  split; [apply with_router_Ok; [lia|exact Hr]|].
  split; [rewrite length_insert; exact Hlen|].
  intros id Hid. destruct (id =? i) eqn:E.
  - assert (id = i) as -> by lia. exists (AddInputChannel c cc r).
    rewrite list_lookup_insert_eq by lia. simpl. rewrite H5. auto 10.
  - rewrite list_lookup_insert_ne by lia. apply Hm. exact Hid.
Qed.

Lemma routers_are_lookup N ports out inp rs i :
  routers_are N ports out inp rs -> 0 <= i < N ->
  exists r, rs !! Z.to_nat i = Some (Some r).
Proof. intros [_ Hm] Hi. destruct (Hm i Hi) as (r & Hr & _). eauto. Qed.

Lemma seqZ_to_nat m a b : Z.to_nat a = Z.to_nat b -> seqZ m a = seqZ m b.
Proof. unfold seqZ. by intros ->. Qed.

Lemma seqZ_snoc m n : 0 <= n -> seqZ m (n + 1) = seqZ m n ++ [m + n].
Proof. intros Hn. rewrite seqZ_app by lia. reflexivity. Qed.

Lemma torus_out_step D n d id :
  0 <= d < D -> 0 <= n -> 0 <= id ->
  torus_out D (n * D + d + 1) id
  = if id =? n then torus_out D (n * D + d) id ++ [Chan (n * D + d)]
    else torus_out D (n * D + d) id.
Proof.
  intros Hd Hn Hid. unfold torus_out. destruct (id =? n) eqn:E.
  - assert (id = n) as -> by lia.
    replace (Z.min D (n * D + d + 1 - n * D)) with (d + 1) by lia.
    replace (Z.min D (n * D + d - n * D)) with d by lia.
    rewrite seqZ_snoc, fmap_app by lia. reflexivity.
  - f_equal. apply seqZ_to_nat.
    destruct (decide (id < n)); [f_equal; nia|].
    rewrite !Z2Nat.nonpos; [reflexivity|nia..].
Qed.

Lemma torus_in_step sizes D n d id :
  0 <= d < D -> 0 <= n ->
  torus_in sizes D (n * D + d + 1) id
  = if id =? ring_shift sizes 1 n d
    then torus_in sizes D (n * D + d) id ++ [Chan (n * D + d)]
    else torus_in sizes D (n * D + d) id.
Proof.
  intros Hd Hn. unfold torus_in.
  assert ((n * D + d) / D = n) as Hq by (symmetry; apply (Z.div_unique _ _ _ d); lia).
  assert ((n * D + d) mod D = d) as Hm by (symmetry; apply (Z.mod_unique _ _ n); lia).
  rewrite seqZ_snoc, filter_app, fmap_app by nia. rewrite Z.add_0_l.
  destruct (id =? ring_shift sizes 1 n d) eqn:E.
  - rewrite filter_cons_True by (rewrite Hq, Hm; lia). reflexivity.
  - rewrite filter_cons_False by (rewrite Hq, Hm; lia). simpl. by rewrite app_nil_r.
Qed.

Section TorusWiring.
Variable self : UniTorus.t.
Hypothesis ready : torus_ready self.

Local Abbreviation sizes := (UniTorus._dim_sizes self).
Local Abbreviation D := (Z.of_nat (length (UniTorus._dim_sizes self))).
Local Abbreviation N := (product (UniTorus._dim_sizes self)).

Lemma torus_bounds :
  Forall (fun s => 0 < s) sizes /\ 0 < D < Int32.INT_MAX /\ 0 < N /\
  N <= Int32.INT_MAX /\ D * N <= Int32.INT_MAX /\
  UniTorus.num_dims sizes = D.
Proof.
  destruct ready as (Hpos & HD & HDN & _).
  pose proof (product_pos _ Hpos).
  repeat split; try lia; auto; [nia|]. apply num_dims_fits. lia.
Qed.

Lemma torus_create :
  exists rs,
    for_range (UniTorus._size self)
      (fun node routers =>
         _ ← UniTorus._NodeToCoords sizes node;
         _ ← at_index routers node;
         Ok (<[Z.to_nat node :=
                 Some (NewRouter node (Int32.add (UniTorus.num_dims sizes) 1)
                                 (Int32.add (UniTorus.num_dims sizes) 1))]> routers))
      (UniTorus._routers self) = Ok rs /\
    routers_are N (D + 1) (fun id => torus_out D 0 id) (fun id => torus_in sizes D 0 id) rs.
Proof.
  destruct torus_bounds as (Hpos & HD & HN & HNmax & HDN & Hnd).
  destruct ready as (_ & _ & _ & _ & Hsize & _ & _ & Hrs & _).
  rewrite Hsize, Hrs, Hnd.
  assert (Int32.add D 1 = D + 1) as ->.
  { unfold Int32.add. apply wrap_fits.
    unfold Int32.fits, Int32.INT_MIN, Int32.INT_MAX in *. lia. }
  destruct (for_range_inv
    (fun k (rs : list (option Router)) =>
       length rs = Z.to_nat N /\
       forall id, 0 <= id < N ->
         rs !! Z.to_nat id
         = Some (if id <? k then Some (NewRouter id (D + 1) (D + 1)) else None))
    N
    (fun node routers =>
       _ ← UniTorus._NodeToCoords sizes node;
       _ ← at_index routers node;
       Ok (<[Z.to_nat node := Some (NewRouter node (D + 1) (D + 1))]> routers))
    (alloc_routers N)) as (rs & Hr & Hlen & Hm).
  - lia.
  - unfold alloc_routers. split; [apply length_replicate|].
    intros id Hid. destruct (id <? 0) eqn:E; [lia|].
    apply lookup_replicate_2. lia.
  - intros i rs Hi [Hlen Hm].
    rewrite NodeToCoords_digits by (auto; lia). simpl.
    rewrite (at_index_Ok _ _ _ (proj1 Hi) (Hm i Hi)). simpl.
    eexists. split; [reflexivity|]. split; [by rewrite length_insert|].
    intros id Hid. destruct (decide (id = i)) as [->|Hne].
    + rewrite list_lookup_insert_eq by lia.
      destruct (i <? i + 1) eqn:E; [reflexivity|lia].
    + rewrite list_lookup_insert_ne by lia. rewrite (Hm id Hid).
      destruct (id <? i) eqn:E1, (id <? i + 1) eqn:E2; try reflexivity; lia.
  - exists rs. split; [exact Hr|]. split; [exact Hlen|].
    intros id Hid. exists (NewRouter id (D + 1) (D + 1)).
    rewrite (Hm id Hid). destruct (id <? N) eqn:E; [|lia].
    unfold torus_out, torus_in. simpl.
    rewrite (seqZ_to_nat _ _ 0) by (rewrite Z2Nat.nonpos; [reflexivity|nia]).
    auto 10.
Qed.

Lemma torus_connect rs :
  routers_are N (D + 1) (fun id => torus_out D 0 id) (fun id => torus_in sizes D 0 id) rs ->
  exists rs',
    for_range (UniTorus._size self)
      (fun node routers =>
         for_range (UniTorus.num_dims sizes)
           (fun dim routers =>
              next_node ← UniTorus._NextNode sizes node dim;
              let channel := UniTorus._NextChannel sizes node dim in
              if (channel <? 0) || (channel >=? UniTorus._channels self) then
                Exit "ERROR: Invalid channel index"
              else
                ch ← at_index (UniTorus._chan self) channel;
                cr ← at_index (UniTorus._chan_cred self) channel;
                _ ← UniTorus.require_router routers node "ERROR: Router for node is null";
                _ ← UniTorus.require_router routers next_node
                      "ERROR: Router for next_node is null";
                routers ← with_router node (AddOutputChannel ch cr) routers;
                routers ← with_router next_node (AddInputChannel ch cr) routers;
                _ ← at_index (UniTorus._dim_latency self) dim;
                Ok routers)
           routers)
      rs = Ok rs' /\
    routers_are N (D + 1) (fun id => torus_out D (D * N) id)
                (fun id => torus_in sizes D (D * N) id) rs'.
Proof.
  intros H0.
  destruct torus_bounds as (Hpos & HD & HN & HNmax & HDN & Hnd).
  destruct ready as (_ & _ & _ & Hlat & Hsize & _ & Hch & _ & Hchan & Hcred & _).
  rewrite Hsize, Hnd, Hch, Hchan, Hcred.
  rewrite (Z.mul_comm D N).
  apply (nested2_inv
           (fun p rs => routers_are N (D + 1) (fun id => torus_out D p id)
                                    (fun id => torus_in sizes D p id) rs));
    [lia|lia|exact H0|].
  intros n d rs1 Hn Hd Hm.
  rewrite NextNode_ring by (auto; lia). simpl.
  pose proof (shift_range sizes Hpos 1 n (Z.to_nat d)) as Hr.
  destruct (lookup_lt_is_Some_2 sizes (Z.to_nat d)) as [s Hs]; [lia|].
  specialize (Hr s ltac:(lia) Hs). rewrite Z2Nat.id in Hr by lia.
  assert (UniTorus._NextChannel sizes n d = n * D + d) as ->.
  { unfold UniTorus._NextChannel. apply wrap_fits.
    unfold Int32.fits, Int32.INT_MIN, Int32.INT_MAX in *. nia. }
  assert (0 <= n * D + d < N * D) as Hc by nia.
  destruct (n * D + d <? 0) eqn:E1; [lia|].
  destruct (n * D + d >=? N * D) eqn:E2; [lia|]. simpl.
  unfold alloc_chan, alloc_chan_cred. rewrite !at_index_fmap_seqZ by exact Hc. simpl.
  unfold UniTorus.require_router.
  destruct (routers_are_lookup _ _ _ _ _ n Hm ltac:(lia)) as (r1 & Hr1).
  rewrite (at_index_Ok _ _ _ (proj1 Hn) Hr1). simpl.
  destruct (routers_are_lookup _ _ _ _ _ _ Hm Hr) as (r2 & Hr2).
  rewrite (at_index_Ok _ _ _ (proj1 Hr) Hr2). simpl.
  destruct (routers_are_out _ _ _ _ _ n (Chan (n * D + d)) (ChanCred (n * D + d)) Hm
              ltac:(lia)) as (rs2 & -> & Hm2). simpl.
  destruct (routers_are_in _ _ _ _ _ _ (Chan (n * D + d)) (ChanCred (n * D + d)) Hm2 Hr)
    as (rs3 & -> & Hm3). simpl.
  destruct (lookup_lt_is_Some_2 (UniTorus._dim_latency self) (Z.to_nat d)) as [l Hl]; [lia|].
  rewrite (at_index_Ok _ _ _ (proj1 Hd) Hl). simpl.
  exists rs3. split; [reflexivity|].
  eapply routers_are_ext; [exact Hm3| |].
  - intros id Hid. cbv beta. rewrite torus_out_step by lia. reflexivity.
  - intros id Hid. cbv beta. rewrite torus_in_step by lia. reflexivity.
Qed.

Lemma torus_inject_eject rs :
  routers_are N (D + 1) (fun id => torus_out D (D * N) id)
              (fun id => torus_in sizes D (D * N) id) rs ->
  exists rs',
    for_range (UniTorus._size self)
      (fun node routers =>
         inj ← at_index (UniTorus._inject self) node;
         inj_cred ← at_index (UniTorus._inject_cred self) node;
         routers ← with_router node (AddInputChannel inj inj_cred) routers;
         ej ← at_index (UniTorus._eject self) node;
         ej_cred ← at_index (UniTorus._eject_cred self) node;
         with_router node (AddOutputChannel ej ej_cred) routers)
      rs = Ok rs' /\
    routers_are N (D + 1)
      (fun id => torus_out D (D * N) id ++ [Eject id])
      (fun id => torus_in sizes D (D * N) id ++ [Inject id]) rs'.
Proof.
  intros H0.
  destruct torus_bounds as (Hpos & HD & HN & HNmax & HDN & Hnd).
  destruct ready as (_ & _ & _ & _ & Hsize & _ & _ & _ & _ & _ & Hi & Hic & He & Hec).
  rewrite Hsize, Hi, Hic, He, Hec.
  destruct (for_range_inv
    (fun q rs =>
       routers_are N (D + 1)
         (fun id => torus_out D (D * N) id ++ (if id <? q then [Eject id] else []))
         (fun id => torus_in sizes D (D * N) id ++ (if id <? q then [Inject id] else []))
         rs)
    N
    (fun node routers =>
       inj ← at_index (alloc_inject N) node;
       inj_cred ← at_index (alloc_inject_cred N) node;
       routers ← with_router node (AddInputChannel inj inj_cred) routers;
       ej ← at_index (alloc_eject N) node;
       ej_cred ← at_index (alloc_eject_cred N) node;
       with_router node (AddOutputChannel ej ej_cred) routers)
    rs) as (rs' & Hr & Hm).
  - lia.
  - eapply routers_are_ext; [exact H0| |]; intros id Hid;
      (destruct (id <? 0) eqn:E; [lia|]); by rewrite app_nil_r.
  - intros i rs1 Hi1 Hm.
    unfold alloc_inject, alloc_inject_cred, alloc_eject, alloc_eject_cred.
    rewrite !at_index_fmap_seqZ by exact Hi1. simpl.
    destruct (routers_are_in _ _ _ _ _ i (Inject i) (InjectCred i) Hm Hi1)
      as (rs2 & -> & Hm2). simpl.
    destruct (routers_are_out _ _ _ _ _ i (Eject i) (EjectCred i) Hm2 Hi1)
      as (rs3 & -> & Hm3).
    exists rs3. split; [reflexivity|].
    eapply routers_are_ext; [exact Hm3| |]; intros id Hid; cbv beta;
      destruct (id =? i) eqn:E1, (id <? i) eqn:E2, (id <? i + 1) eqn:E3;
      try lia; rewrite ?app_nil_r; try reflexivity;
      assert (id = i) as -> by lia; reflexivity.
  - exists rs'. split; [exact Hr|].
    eapply routers_are_ext; [exact Hm| |]; intros id Hid; cbv beta;
      (destruct (id <? N) eqn:E; [reflexivity|lia]).
Qed.

Lemma torus_BuildNet :
  exists net, UniTorus._BuildNet self = Ok net /\
    UniTorus._dim_sizes net = sizes /\
    UniTorus._dim_bandwidth net = UniTorus._dim_bandwidth self /\
    UniTorus._dim_latency net = UniTorus._dim_latency self /\
    UniTorus._dim_penalty net = UniTorus._dim_penalty self /\
    UniTorus._size net = N /\ UniTorus._nodes net = N /\
    UniTorus._channels net = D * N /\
    routers_are N (D + 1)
      (fun id => torus_out D (D * N) id ++ [Eject id])
      (fun id => torus_in sizes D (D * N) id ++ [Inject id])
      (UniTorus._routers net).
Proof.
  unfold UniTorus._BuildNet. cbv zeta.
  destruct torus_create as (rs1 & E1 & H1). rewrite E1. cbn [mbind result_bind].
  destruct (torus_connect rs1 H1) as (rs2 & E2 & H2). cbv zeta in E2.
  rewrite E2. cbn [mbind result_bind].
  destruct (torus_inject_eject rs2 H2) as (rs3 & E3 & H3).
  rewrite E3. cbn [mbind result_bind].
  destruct ready as (_ & _ & _ & _ & Hsize & Hnodes & Hch & _).
  eexists. split; [reflexivity|]. simpl. auto 10.
Qed.

End TorusWiring.

(** ** UniTorus: every constructed network *)

Lemma fold_mul_product l : forall a,
  Forall (fun s => 0 < s) l -> 0 < a -> a * product l <= Int32.INT_MAX ->
  fold_left Int32.mul l a = a * product l.
Proof.
  induction l as [|s l IH]; intros a Hpos Ha Hle; simpl in *; [lia|].
  apply Forall_cons in Hpos as [Hs Hl]. pose proof (product_pos _ Hl) as HP.
  assert (Int32.mul a s = a * s) as ->.
  { apply wrap_fits. unfold Int32.fits, Int32.INT_MIN, Int32.INT_MAX in *. nia. }
  rewrite IH by (auto; nia). lia.
Qed.

Lemma UniTorus_ComputeSize_inv config g sz g1 :
  UniTorus._ComputeSize config g = Ok (sz, g1) ->
  let sizes := UniTorus.sz_dim_sizes sz in
  Forall (fun s => 0 < s) sizes /\ sizes <> [] /\
  UniTorus.sz_size sz = fold_left Int32.mul sizes 1 /\
  UniTorus.sz_nodes sz = fold_left Int32.mul sizes 1 /\
  UniTorus.sz_channels sz
  = Int32.wrap (Z.of_nat (length sizes) * fold_left Int32.mul sizes 1).
Proof.
  unfold UniTorus._ComputeSize. intros H.
  destruct (_ || _); [discriminate|]. cbv zeta in H.
  rewrite (parse_loop_all (fun v => v <=? 0)) in H.
  destruct (forallb _ _) eqn:Hall; [|discriminate]. simpl in H.
  inv_bind H as k Hk. injection H as <- <-. simpl.
  split; [|split; [|auto]].
  - rewrite forallb_forall in Hall. apply Forall_fmap, Forall_forall.
    intros t Ht. apply list_elem_of_In, Hall, Bool.negb_true_iff in Ht. simpl. lia.
  - intros Hnil. apply fmap_nil_inv in Hnil. exact (split_not_nil _ _ Hnil).
Qed.

Lemma UniTorus_BuildNet_direction self net :
  UniTorus._BuildNet self = Ok net ->
  UniTorus._dim_latency net = UniTorus._dim_latency self /\
  UniTorus._dim_penalty net = UniTorus._dim_penalty self.
Proof.
  unfold UniTorus._BuildNet. intros H.
  inv_bind H. inv_bind H. inv_bind H. injection H as <-. auto.
Qed.

Lemma UniTorus_new_parts config g net g' :
  UniTorus.new config g = Ok (net, g') ->
  exists sz dir,
    UniTorus._ComputeSize config g = Ok (sz, g') /\
    UniTorus._ParseDirectionConfig config (UniTorus.sz_dim_sizes sz) = Ok dir /\
    UniTorus._dim_sizes net = UniTorus.sz_dim_sizes sz /\
    UniTorus._dim_latency net = UniTorus.dir_latency dir /\
    UniTorus._dim_penalty net = UniTorus.dir_penalty dir /\
    UniTorus._dim_bandwidth net = UniTorus.dir_bandwidth dir.
Proof.
  unfold UniTorus.new. intros H.
  inv_bind H as [sz g1] Hsz. inv_bind H as dir Hdir. inv_bind H as net1 Hnet.
  injection H as <- <-.
  pose proof (UniTorus_BuildNet_fields _ _ Hnet) as (? & ? & _).
  pose proof (UniTorus_BuildNet_direction _ _ Hnet) as (? & ?).
  exists sz, dir. simpl in *. auto 10.
Qed.

Lemma UniTorus_new_built config g sz g1 dir :
  UniTorus._ComputeSize config g = Ok (sz, g1) ->
  UniTorus._ParseDirectionConfig config (UniTorus.sz_dim_sizes sz) = Ok dir ->
  let sizes := UniTorus.sz_dim_sizes sz in
  let D := Z.of_nat (length sizes) in
  let N := product sizes in
  D < Int32.INT_MAX ->
  D * N <= Int32.INT_MAX ->
  Z.of_nat (length (UniTorus.dir_latency dir)) <= Int32.INT_MAX ->
  exists net, UniTorus.new config g = Ok (net, g1) /\
    UniTorus._dim_sizes net = sizes /\
    UniTorus._dim_bandwidth net = UniTorus.dir_bandwidth dir /\
    UniTorus._dim_latency net = UniTorus.dir_latency dir /\
    UniTorus._dim_penalty net = UniTorus.dir_penalty dir /\
    UniTorus._size net = N /\ UniTorus._nodes net = N /\
    UniTorus._channels net = D * N /\
    routers_are N (D + 1)
      (fun id => torus_out D (D * N) id ++ [Eject id])
      (fun id => torus_in sizes D (D * N) id ++ [Inject id])
      (UniTorus._routers net).
Proof.
  intros Hsz Hdir sizes D N HD HDN Hlat.
  pose proof (UniTorus_ComputeSize_inv _ _ _ _ Hsz) as (Hpos & Hne & Hsize & Hnodes & Hch).
  fold sizes in Hpos, Hne, Hsize, Hnodes, Hch.
  assert (0 < D) as HD0 by (unfold D; destruct sizes; [congruence|simpl; lia]).
  pose proof (product_pos _ Hpos) as HN0. fold N in HN0.
  assert (fold_left Int32.mul sizes 1 = N) as HN.
  { rewrite fold_mul_product by (auto; fold N; nia). unfold N. lia. }
  rewrite HN in Hsize, Hnodes, Hch. fold D in Hch.
  rewrite wrap_fits in Hch
    by (unfold Int32.fits, Int32.INT_MIN, Int32.INT_MAX in *; nia).
  assert (Z.of_nat (length (UniTorus.dir_latency dir)) = D) as Hlen.
  { destruct (proj2 (direction_config_cases config sizes) dir Hdir)
      as (_ & _ & _ & _ & _ & _ & Hl).
    rewrite num_dims_fits in Hl by (fold D; lia). fold D in Hl.
    destruct (Hl ltac:(lia)) as (_ & Hl2 & _).
    rewrite wrap_fits in Hl2
      by (unfold Int32.fits, Int32.INT_MIN, Int32.INT_MAX in *; lia).
    exact Hl2. }
  unfold UniTorus.new. rewrite Hsz. cbn [mbind result_bind].
  rewrite Hdir. cbn [mbind result_bind].
  match goal with
  | |- context [UniTorus._BuildNet ?s] =>
      destruct (torus_BuildNet s) as (net & Hb & H1 & H2 & H3 & H4 & H5 & H6 & H7 & H8)
  end.
  - unfold torus_ready. cbn [UniTorus._dim_sizes UniTorus._dim_latency UniTorus._size
      UniTorus._nodes UniTorus._channels UniTorus._routers UniTorus._chan
      UniTorus._chan_cred UniTorus._inject UniTorus._inject_cred UniTorus._eject
      UniTorus._eject_cred]. fold sizes D N.
    rewrite Hsize, Hnodes, Hch. repeat split; auto; lia.
  - rewrite Hb. cbn [mbind result_bind]. exists net. split; [reflexivity|].
    simpl in *. auto 10.
Qed.



Section TorusSources.
Variable sizes : list Z.
Hypothesis Hpos : Forall (fun s => 0 < s) sizes.

Local Abbreviation D := (Z.of_nat (length sizes)).
Local Abbreviation N := (product sizes).

Lemma prev_next n d :
  0 <= n < N -> 0 <= d < D ->
  ring_shift sizes (-1) (ring_shift sizes 1 n d) d = n.
Proof.
  intros Hn Hd. destruct (lookup_lt_is_Some_2 sizes (Z.to_nat d)) as [s Hs]; [lia|].
  rewrite <- (Z2Nat.id d) by lia.
  rewrite (shift_shift sizes Hpos 1 (-1) n _ s Hn Hs).
  exact (shift_multiple sizes Hpos 0 n _ s Hn Hs).
Qed.

Lemma next_prev n d :
  0 <= n < N -> 0 <= d < D ->
  ring_shift sizes 1 (ring_shift sizes (-1) n d) d = n.
Proof.
  intros Hn Hd. destruct (lookup_lt_is_Some_2 sizes (Z.to_nat d)) as [s Hs]; [lia|].
  rewrite <- (Z2Nat.id d) by lia.
  rewrite (shift_shift sizes Hpos (-1) 1 n _ s Hn Hs).
  exact (shift_multiple sizes Hpos 0 n _ s Hn Hs).
Qed.

Lemma prev_range n d :
  0 <= n < N -> 0 <= d < D -> 0 <= ring_shift sizes (-1) n d < N.
Proof.
  intros Hn Hd. destruct (lookup_lt_is_Some_2 sizes (Z.to_nat d)) as [s Hs]; [lia|].
  rewrite <- (Z2Nat.id d) by lia. eapply shift_range; eauto.
Qed.

Lemma torus_in_sources id :
  0 <= id < N ->
  torus_in sizes D (D * N) id
  ≡ₚ Chan <$> ((fun d => ring_shift sizes (-1) id d * D + d) <$> seqZ 0 D).
Proof.
  intros Hid. unfold torus_in. apply fmap_Permutation.
  apply NoDup_Permutation.
  - apply NoDup_filter, NoDup_seqZ.
  - apply NoDup_fmap_2_strong; [|apply NoDup_seqZ].
    intros x y Hx Hy Heq. apply elem_of_seqZ in Hx, Hy.
    pose proof (prev_range id x Hid ltac:(lia)).
    pose proof (prev_range id y Hid ltac:(lia)).
    assert ((ring_shift sizes (-1) id x * D + x) mod D = x) as Ex
      by (symmetry; apply (Z.mod_unique _ _ (ring_shift sizes (-1) id x)); lia).
    assert ((ring_shift sizes (-1) id y * D + y) mod D = y) as Ey
      by (symmetry; apply (Z.mod_unique _ _ (ring_shift sizes (-1) id y)); lia).
    rewrite <- Ex, <- Ey, Heq. reflexivity.
  - intros c. rewrite list_elem_of_filter, elem_of_seqZ, list_elem_of_fmap.
    split.
    + intros [Hc Hr].
      assert (0 < D) as HD0 by nia.
      pose proof (Z.mod_pos_bound c D HD0) as Hm.
      assert (0 <= c / D < N) as Hq.
      { split; [apply Z.div_pos; lia|]. apply Z.div_lt_upper_bound; lia. }
      exists (c mod D). split; [|apply elem_of_seqZ; lia].
      rewrite <- Hc, prev_next by lia.
      pose proof (Z.div_mod c D). lia.
    + intros (d & -> & Hd). apply elem_of_seqZ in Hd.
      pose proof (prev_range id d Hid ltac:(lia)) as Hp.
      assert ((ring_shift sizes (-1) id d * D + d) / D = ring_shift sizes (-1) id d) as ->
        by (symmetry; apply (Z.div_unique _ _ _ d); lia).
      assert ((ring_shift sizes (-1) id d * D + d) mod D = d) as ->
        by (symmetry; apply (Z.mod_unique _ _ (ring_shift sizes (-1) id d)); lia).
      split; [apply next_prev; lia|nia].
Qed.

End TorusSources.

(** X17. In a constructed UniTorus whose counts are representable, the
    router of node [id] has [D + 1] input and [D + 1] output ports for
    [D] dimensions.  Its output port [d] carries channel [id * D + d],
    which is [_NextChannel] of the node and the dimension, and its last
    output port the node's ejection channel.  Its inputs are, in some
    order, the channels [m * D + d] of the nodes [m] whose [_NextNode]
    along [d] is [id], one per dimension, followed by the node's
    injection channel on the last port. *)
Theorem UniTorus_router_wiring config g net g' :
  UniTorus.new config g = Ok (net, g') ->
  let sizes := UniTorus._dim_sizes net in
  let D := Z.of_nat (length sizes) in
  let N := product sizes in
  D < Int32.INT_MAX ->
  D * N <= Int32.INT_MAX ->
  Z.of_nat (length (UniTorus._dim_latency net)) <= Int32.INT_MAX ->
  forall id, 0 <= id < N ->
    exists r,
      UniTorus._routers net !! Z.to_nat id = Some (Some r) /\
      _id r = id /\ _inputs r = D + 1 /\ _outputs r = D + 1 /\
      _output_channels r = (Chan <$> seqZ (id * D) D) ++ [Eject id] /\
      (forall d, 0 <= d < D ->
         UniTorus._NextChannel sizes id d = id * D + d /\
         GetOutputChannel r d = Ok (Chan (id * D + d))) /\
      GetOutputChannel r D = Ok (Eject id) /\
      _input_channels r
      ≡ₚ (Chan <$> ((fun d => ring_shift sizes (-1) id d * D + d) <$> seqZ 0 D))
         ++ [Inject id] /\
      (forall d, 0 <= d < D ->
         0 <= ring_shift sizes (-1) id d < N /\
         UniTorus._NextNode sizes (ring_shift sizes (-1) id d) d = Ok id) /\
      GetInputChannel r D = Ok (Inject id).
Proof.
  intros Hnew sizes D N HD HDN Hlat id Hid.
  destruct (UniTorus_new_parts _ _ _ _ Hnew) as (sz & dir & Hsz & Hdir & Es & El & _).
  destruct (UniTorus_new_built config g sz g' dir Hsz Hdir)
    as (net0 & Hnew0 & _ & _ & _ & _ & _ & _ & _ & Hlen & Hm);
    rewrite <- ?Es, <- ?El; auto.
  rewrite Hnew in Hnew0. injection Hnew0 as <-.
  rewrite <- Es in Hm. fold sizes D N in Hm.
  pose proof (UniTorus_ComputeSize_inv _ _ _ _ Hsz) as (Hpos & Hne & _).
  cbv zeta in Hpos, Hne. rewrite <- Es in Hpos, Hne. fold sizes in Hpos, Hne.
  assert (0 < D) as HD0 by (unfold D; destruct sizes; [congruence|simpl; lia]).
  assert (N <= Int32.INT_MAX) as HN by nia.
  destruct (Hm id Hid) as (r & Hr & H1 & H2 & H3 & H4 & H5).
  assert (torus_out D (D * N) id = Chan <$> seqZ (id * D) D) as Hout.
  { unfold torus_out. f_equal. f_equal. nia. }
  rewrite Hout in H4.
  pose proof (torus_in_sources sizes Hpos id Hid) as Hperm. fold D N in Hperm.
  assert (length (torus_in sizes D (D * N) id) = Z.to_nat D) as Hinlen.
  { rewrite Hperm, !length_fmap, length_seqZ. reflexivity. }
  exists r. split; [exact Hr|]. split; [exact H1|]. split; [exact H2|].
  split; [exact H3|]. split; [exact H4|].
  split; [|split; [|split; [|split]]].
  - intros d Hd. split.
    + unfold UniTorus._NextChannel. fold D. apply wrap_fits.
      unfold Int32.fits, Int32.INT_MIN, Int32.INT_MAX in *. nia.
    + unfold GetOutputChannel. rewrite H3, H4.
      destruct (0 <=? d) eqn:E1; [|lia]. destruct (d <? D + 1) eqn:E2; [|lia]. simpl.
      apply at_index_Ok; [lia|].
      rewrite lookup_app_l by (rewrite length_fmap, length_seqZ; lia).
      rewrite list_lookup_fmap, lookup_seqZ_lt by lia. simpl. do 2 f_equal. lia.
  - unfold GetOutputChannel. rewrite H3, H4.
    destruct (0 <=? D) eqn:E1; [|lia]. destruct (D <? D + 1) eqn:E2; [|lia]. simpl.
    apply at_index_Ok; [lia|].
    rewrite lookup_app_r by (rewrite length_fmap, length_seqZ; lia).
    rewrite length_fmap, length_seqZ, Nat.sub_diag. reflexivity.
  - rewrite H5, Hperm. reflexivity.
  - intros d Hd. pose proof (prev_range sizes Hpos id d Hid Hd) as Hp.
    split; [exact Hp|].
    rewrite NextNode_ring by auto with lia.
    f_equal. apply next_prev; auto.
  - unfold GetInputChannel. rewrite H2, H5.
    destruct (0 <=? D) eqn:E1; [|lia]. destruct (D <? D + 1) eqn:E2; [|lia]. simpl.
    apply at_index_Ok; [lia|].
    rewrite lookup_app_r by lia. rewrite Hinlen, Nat.sub_diag. reflexivity.
Qed.

Lemma UniTorus_router_wiring_witness :
  exists net g' r,
    UniTorus.new cfg_unitorus_33 g_init = Ok (net, g') /\
    UniTorus._routers net !! 4%nat = Some (Some r) /\
    _output_channels r = [Chan 8; Chan 9; Eject 4] /\
    _input_channels r ≡ₚ [Chan 6; Chan 3; Inject 4].
Proof.
  destruct (UniTorus.new cfg_unitorus_33 g_init) as [[net g']| |] eqn:E;
    [|vm_compute in E; discriminate..].
  pose proof E as E'. vm_compute in E'. injection E' as En Eg.
  destruct (UniTorus_router_wiring _ _ _ _ E) with (id := 4)
    as (r & Hr & _ & _ & _ & Ho & _ & _ & Hi & _).
  - rewrite <- En. vm_compute. reflexivity.
  - rewrite <- En. vm_compute. discriminate.
  - rewrite <- En. vm_compute. discriminate.
  - rewrite <- En. vm_compute. split; [discriminate|reflexivity].
  - exists net, g', r. split; [reflexivity|]. split; [exact Hr|].
    rewrite <- En in Ho, Hi. split; [exact Ho|exact Hi].
Defined.

(** X18. In a constructed UniTorus whose vector lengths are representable,
    [GetN] is at least 1 and equals the global [gN], and for every
    dimension below [GetN] the accessors [GetDimSize], [GetDimLatency] and
    [GetDimPenalty] index inside their vectors and return a positive
    size, a positive latency and a non-negative penalty. *)
Theorem UniTorus_accessors_defined config g net g' :
  UniTorus.new config g = Ok (net, g') ->
  Z.of_nat (length (UniTorus._dim_sizes net)) <= Int32.INT_MAX ->
  Z.of_nat (length (UniTorus._dim_latency net)) <= Int32.INT_MAX ->
  Z.of_nat (length (UniTorus._dim_penalty net)) <= Int32.INT_MAX ->
  1 <= UniTorus.GetN net /\
  gN g' = UniTorus.GetN net /\
  UniTorus.GetDimSize net 0 = Ok (gK g') /\
  forall dim, 0 <= dim < UniTorus.GetN net ->
    exists s l p,
      UniTorus.GetDimSize net dim = Ok s /\ 0 < s /\
      UniTorus.GetDimLatency net dim = Ok l /\ 0 < l /\
      UniTorus.GetDimPenalty net dim = Ok p /\ 0 <= p.
Proof.
  intros Hnew HD Hlat Hpen.
  destruct (UniTorus_new_parts _ _ _ _ Hnew) as (sz & dir & Hsz & Hdir & Es & El & Ep & _).
  pose proof (UniTorus_ComputeSize_inv _ _ _ _ Hsz) as (Hpos & Hne & _).
  pose proof (UniTorus_ComputeSize_globals _ _ _ _ Hsz) as (HgN & HgK & _).
  cbv zeta in Hpos, Hne. rewrite <- Es in Hpos, Hne, Hdir, HgN, HgK.
  unfold UniTorus.GetN, UniTorus.GetDimSize, UniTorus.GetDimLatency,
    UniTorus.GetDimPenalty.
  rewrite num_dims_fits in * by exact HD.
  destruct (proj2 (direction_config_cases config _) dir Hdir)
    as (_ & _ & _ & _ & Hl & Hp & Hlen).
  rewrite num_dims_fits in Hlen by exact HD.
  destruct (Hlen ltac:(lia)) as (_ & Hl2 & Hp2).
  rewrite <- El in Hl, Hl2. rewrite <- Ep in Hp, Hp2.
  rewrite wrap_fits in Hl2, Hp2
    by (unfold Int32.fits, Int32.INT_MIN, Int32.INT_MAX in *; lia).
  split; [destruct (UniTorus._dim_sizes net); [congruence|simpl; lia]|].
  split; [exact HgN|]. split; [exact HgK|].
  intros dim Hdim.
  destruct (lookup_lt_is_Some_2 (UniTorus._dim_sizes net) (Z.to_nat dim)) as [s Hs]; [lia|].
  destruct (lookup_lt_is_Some_2 (UniTorus._dim_latency net) (Z.to_nat dim)) as [l Hl3]; [lia|].
  destruct (lookup_lt_is_Some_2 (UniTorus._dim_penalty net) (Z.to_nat dim)) as [p Hp3]; [lia|].
  exists s, l, p.
  rewrite (at_index_Ok _ _ _ (proj1 Hdim) Hs), (at_index_Ok _ _ _ (proj1 Hdim) Hl3),
    (at_index_Ok _ _ _ (proj1 Hdim) Hp3).
  repeat split.
  - exact (Forall_lookup_1 _ _ _ _ Hpos Hs).
  - exact (Forall_lookup_1 _ _ _ _ Hl Hl3).
  - exact (Forall_lookup_1 _ _ _ _ Hp Hp3).
Qed.

Lemma UniTorus_accessors_defined_witness :
  exists net g', UniTorus.new cfg_unitorus_wide g_init = Ok (net, g') /\
    UniTorus.GetN net = 2 /\
    UniTorus.GetDimLatency net 1 = Ok 1 /\ UniTorus.GetDimPenalty net 1 = Ok 0.
Proof.
  destruct (UniTorus.new cfg_unitorus_wide g_init) as [[net g']| |] eqn:E;
    [|vm_compute in E; discriminate..].
  pose proof E as E'. vm_compute in E'. injection E' as En Eg.
  destruct (UniTorus_accessors_defined _ _ _ _ E) as (_ & _ & _ & H).
  - rewrite <- En. vm_compute. discriminate.
  - rewrite <- En. vm_compute. discriminate.
  - rewrite <- En. vm_compute. discriminate.
  - exists net, g'. split; [reflexivity|].
    destruct (H 1) as (s & l & p & _ & _ & Hl & _ & Hp & _);
      [rewrite <- En; vm_compute; split; [discriminate|reflexivity]|].
    rewrite <- En in *. split; [reflexivity|]. split; reflexivity.
Defined.

Lemma UniTorus_new_wired config g net g' :
  UniTorus.new config g = Ok (net, g') ->
  let sizes := UniTorus._dim_sizes net in
  let D := Z.of_nat (length sizes) in
  let N := product sizes in
  D < Int32.INT_MAX ->
  D * N <= Int32.INT_MAX ->
  Z.of_nat (length (UniTorus._dim_latency net)) <= Int32.INT_MAX ->
  Forall (fun s => 0 < s) sizes /\ 0 < D /\ 0 < N /\
  UniTorus._channels net = D * N /\
  routers_are N (D + 1)
    (fun id => torus_out D (D * N) id ++ [Eject id])
    (fun id => torus_in sizes D (D * N) id ++ [Inject id])
    (UniTorus._routers net).
Proof.
  intros Hnew sizes D N HD HDN Hlat.
  destruct (UniTorus_new_parts _ _ _ _ Hnew) as (sz & dir & Hsz & Hdir & Es & El & _).
  destruct (UniTorus_new_built config g sz g' dir Hsz Hdir)
    as (net0 & Hnew0 & _ & _ & _ & _ & _ & _ & Hch & Hm);
    rewrite <- ?Es, <- ?El; auto.
  rewrite Hnew in Hnew0. injection Hnew0 as <-.
  rewrite <- Es in Hm, Hch. fold sizes D N in Hm, Hch.
  pose proof (UniTorus_ComputeSize_inv _ _ _ _ Hsz) as (Hpos & Hne & _).
  cbv zeta in Hpos, Hne. rewrite <- Es in Hpos, Hne. fold sizes in Hpos, Hne.
  pose proof (product_pos _ Hpos).
  split; [exact Hpos|]. split; [|auto].
  unfold D; destruct sizes; [congruence|simpl; lia].
Qed.

(** X19. In a constructed UniTorus whose counts are representable, every
    channel [c] below [_channels] has exactly one source and one sink: it
    is an output of the router of node [c / D] only, and an input of the
    router of the [_NextNode] of that node along dimension [c mod D]
    only.  The channel is a self-loop exactly when that dimension has
    size 1.  An injection or ejection channel is attached to its own
    node's router only. *)
Theorem UniTorus_channel_endpoints config g net g' :
  UniTorus.new config g = Ok (net, g') ->
  let sizes := UniTorus._dim_sizes net in
  let D := Z.of_nat (length sizes) in
  let N := product sizes in
  D < Int32.INT_MAX ->
  D * N <= Int32.INT_MAX ->
  Z.of_nat (length (UniTorus._dim_latency net)) <= Int32.INT_MAX ->
  forall (t : nat) r, UniTorus._routers net !! t = Some (Some r) ->
    (forall c, 0 <= c < UniTorus._channels net ->
       exists m s,
         UniTorus._NextNode sizes (c / D) (c mod D) = Ok m /\
         UniTorus.GetDimSize net (c mod D) = Ok s /\
         (Chan c ∈ _output_channels r <-> Z.of_nat t = c / D) /\
         (Chan c ∈ _input_channels r <-> Z.of_nat t = m) /\
         (m = c / D <-> s = 1)) /\
    (forall n, Eject n ∈ _output_channels r <-> n = Z.of_nat t) /\
    (forall n, Inject n ∈ _input_channels r <-> n = Z.of_nat t) /\
    (forall n, (Eject n ∉ _input_channels r) /\ (Inject n ∉ _output_channels r)).
Proof.
  intros Hnew sizes D N HD HDN Hlat t r Hr.
  destruct (UniTorus_new_wired _ _ _ _ Hnew HD HDN Hlat)
    as (Hpos & HD0 & HN0 & Hch & Hlen & Hm).
  fold sizes D N in Hpos, HD0, HN0, Hch, Hlen, Hm.
  assert (N <= Int32.INT_MAX) as HN by nia.
  assert (0 <= Z.of_nat t < N) as Ht by (apply lookup_lt_Some in Hr; lia).
  destruct (Hm _ Ht) as (r' & Hr' & _ & _ & _ & Ho & Hi).
  rewrite Nat2Z.id, Hr in Hr'. injection Hr' as <-.
  assert (torus_out D (D * N) (Z.of_nat t) = Chan <$> seqZ (Z.of_nat t * D) D) as Hout.
  { unfold torus_out. f_equal. f_equal. nia. }
  rewrite Hout in Ho. clear Hout. rewrite Ho, Hi. unfold torus_in.
  split; [|split; [|split]].
  - intros c Hc. rewrite Hch in Hc.
    pose proof (Z.mod_pos_bound c D HD0) as Hmod.
    assert (0 <= c / D < N) as Hq.
    { split; [apply Z.div_pos; lia|]. apply Z.div_lt_upper_bound; lia. }
    destruct (lookup_lt_is_Some_2 sizes (Z.to_nat (c mod D))) as [s Hs]; [lia|].
    exists (ring_shift sizes 1 (c / D) (c mod D)), s.
    split; [apply NextNode_ring; auto; lia|].
    split; [apply at_index_Ok; [lia|exact Hs]|].
    split; [|split].
    + rewrite elem_of_app, list_elem_of_fmap, list_elem_of_singleton. split.
      * intros [(c' & [= <-] & Hc')|[=]]. apply elem_of_seqZ in Hc'.
        apply (Z.div_unique _ _ _ (c - Z.of_nat t * D)); lia.
      * intros Et. left. exists c. split; [reflexivity|]. apply elem_of_seqZ.
        rewrite Et. pose proof (Z.div_mod c D). lia.
    + rewrite elem_of_app, list_elem_of_fmap, list_elem_of_singleton. split.
      * intros [(c' & [= <-] & Hc')|[=]]. apply list_elem_of_filter in Hc' as [Hc' _].
        lia.
      * intros Et. left. exists c. split; [reflexivity|].
        apply list_elem_of_filter. split; [lia|]. apply elem_of_seqZ. lia.
    + rewrite <- (Z2Nat.id (c mod D)) by lia. split.
      * intros Hfix. apply (shift_fixed sizes Hpos 1 _ _ s Hq Hs) in Hfix.
        assert (0 < s) by (exact (Forall_lookup_1 _ _ _ _ Hpos Hs)).
        destruct (decide (s = 1)) as [|Hne]; [assumption|].
        rewrite Z.mod_small in Hfix by lia. lia.
      * intros ->. exact (shift_multiple sizes Hpos 1 _ _ 1 Hq Hs).
  - intros n. rewrite elem_of_app, list_elem_of_fmap, list_elem_of_singleton. split.
    + intros [(c' & [=] & _)|[= ->]]. reflexivity.
    + intros ->. right. reflexivity.
  - intros n. rewrite elem_of_app, list_elem_of_fmap, list_elem_of_singleton. split.
    + intros [(c' & [=] & _)|[= ->]]. reflexivity.
    + intros ->. right. reflexivity.
  - intros n. rewrite !elem_of_app, !list_elem_of_fmap, !list_elem_of_singleton.
    split; intros [(c' & [=] & _)|[=]].
Qed.

Lemma UniTorus_channel_endpoints_witness :
  exists net g' r,
    UniTorus.new cfg_unitorus_33 g_init = Ok (net, g') /\
    UniTorus._routers net !! 4%nat = Some (Some r) /\
    Chan 9 ∈ _output_channels r /\ (Chan 9 ∉ _input_channels r) /\
    Inject 4 ∈ _input_channels r.
Proof.
  destruct (UniTorus.new cfg_unitorus_33 g_init) as [[net g']| |] eqn:E;
    [|vm_compute in E; discriminate..].
  pose proof E as E'. vm_compute in E'. injection E' as En Eg.
  destruct (UniTorus._routers net !! 4%nat) as [[r|]|] eqn:Hr;
    [|rewrite <- En in Hr; vm_compute in Hr; discriminate..].
  destruct (UniTorus_channel_endpoints _ _ _ _ E) with (t := 4%nat) (r := r)
    as (Hc & _ & Hi & _).
  - rewrite <- En. vm_compute. reflexivity.
  - rewrite <- En. vm_compute. discriminate.
  - rewrite <- En. vm_compute. discriminate.
  - exact Hr.
  - exists net, g', r. split; [reflexivity|]. split; [exact Hr|].
    destruct (Hc 9) as (m & s & Hm & _ & Ho & Hin & _);
      [rewrite <- En; vm_compute; split; [discriminate|reflexivity]|].
    rewrite <- En in Hm, Ho. vm_compute in Hm. injection Hm as <-.
    split; [apply Ho; reflexivity|]. split; [|apply Hi; reflexivity].
    intros H. apply Hin in H. discriminate.
Defined.

(** ** The splitting loop *)

Lemma split_cons sep s : exists t ts, Str.split sep s = t :: ts.
Proof.
  destruct (Str.split sep s) as [|t ts] eqn:E; [|eauto].
  exfalso. exact (split_not_nil _ _ E).
Qed.

(** X20. The [find]/[substr] splitting loop loses nothing: its pieces
    joined by the separator give the string back, there is one piece more
    than there are separators in the string (so a leading, trailing or
    doubled separator yields an empty piece), and no piece contains the
    separator. *)
Theorem split_round_trip (sep : ascii) (s : string) :
  String.concat (String sep EmptyString) (Str.split sep s) = s /\
  length (Str.split sep s)
  = S (length (filter (fun c => c = sep) (list_ascii_of_string s))) /\
  Forall (fun t => sep ∉ list_ascii_of_string t) (Str.split sep s).
Proof.
  induction s as [|c s (IH1 & IH2 & IH3)]; simpl.
  - repeat split. repeat constructor. apply not_elem_of_nil.
  - destruct (split_cons sep s) as (t & ts & E). rewrite E in *.
    destruct (Ascii.eqb_spec c sep) as [->|Hne].
    + rewrite filter_cons_True by reflexivity. simpl in *.
      rewrite IH1, IH2. repeat split. constructor; [apply not_elem_of_nil|exact IH3].
    + rewrite filter_cons_False by exact Hne. split; [|split].
      * rewrite <- IH1. destruct ts; reflexivity.
      * exact IH2.
      * apply Forall_cons in IH3 as [Ht Hts]. constructor; [|exact Hts].
        simpl. rewrite not_elem_of_cons. split; [congruence|exact Ht].
Qed.
